(** * A shallow embedding of the Nautilus real-time scheduler
      (src/nautilus/src/nautilus/rt_scheduler.c)

    The development follows the C file function by function.

    - [uint64_t] fields are integers of [Z] kept in [0, 2^64); every
      addition, subtraction and multiplication of the source is followed by
      [wrap64].
    - Descriptors live in a store [mem : ptr -> rt_thread]; queues hold
      pointers into that store, so two queue slots (or the running thread and
      a queue slot) may name the same descriptor, as in the C code.
    - Array indices, [size], [head] and [tail] are natural numbers: every
      increment in the source is guarded by a [MAX_QUEUE] test or a wrap to
      zero, and every decrement of a heap size by an emptiness test.  The
      ring dequeue tests [head == tail] before it decrements [size]; a ring
      whose [size] is 0 while [head] differs from [tail] is outside the
      model (its [size - 1] is 0 here).  The arrays are total maps from
      indices to pointers: the code keeps its indices below [MAX_QUEUE] as
      long as the sizes are at most [MAX_QUEUE], which [enqueue_thread]
      maintains.
    - Dereferencing is total on the store; the live slots of a queue are
      expected to hold non-null pointers, as [enqueue_thread] could not have
      stored a null one without trapping.
    - The cycle counter [rdtsc] is an oracle: the [n]-th read of the counter
      returns [rdtsc_src n].
    - Code that can trap (division by zero, a null queue pointer, [panic])
      returns [Err]. *)

From Stdlib Require Import ZArith List Lia Bool Arith PeanoNat Permutation Sorted.
Import ListNotations.

Local Open Scope Z_scope.

(** ** Machine integers *)

Definition two64 : Z := 2 ^ 64.

Definition wrap64 (x : Z) : Z := x mod two64.

(** [umin], line 1658. *)
Definition umin (x y : Z) : Z := if x <? y then x else y.

(** ** Constants of the source (lines 45-74) *)

Definition APERIODIC : Z := 0.
Definition SPORADIC : Z := 1.
Definition PERIODIC : Z := 2.

Definition PERIODIC_UTIL : Z := 65000.
Definition SPORADIC_UTIL : Z := 18000.
Definition APERIODIC_UTIL : Z := 9000.

Definition ARRIVED : Z := 0.
Definition ADMITTED : Z := 1.
Definition WAITING : Z := 2.
Definition RUNNING : Z := 3.
Definition TOBE_REMOVED : Z := 4.
Definition REMOVED : Z := 5.
Definition SLEEPING : Z := 6.

Definition RUNNABLE_QUEUE : Z := 0.
Definition PENDING_QUEUE : Z := 1.
Definition APERIODIC_QUEUE : Z := 2.
Definition ARRIVAL_QUEUE : Z := 3.
Definition WAITING_QUEUE : Z := 4.
Definition SLEEPING_QUEUE : Z := 5.
Definition EXITED_QUEUE : Z := 6.

Definition MAX_QUEUE : nat := 256.

Definition QUANTUM : Z := 10000000.

(** ** Heap index macros (lines 33-35) *)

Definition parent (i : nat) : nat :=
  if Nat.eqb i 0 then 0%nat else Nat.shiftr (i - 1) 1.
Definition left_child (i : nat) : nat := (Nat.shiftl i 1 + 1)%nat.
Definition right_child (i : nat) : nat := (Nat.shiftl i 1 + 2)%nat.

(** ** Data model *)

(** Pointers to descriptors; [NULL] is address 0. *)
Definition ptr : Type := nat.
Definition NULL : ptr := 0%nat.

(** Handles of the underlying [struct nk_thread]. *)
Definition nk_thread : Type := nat.

(** Modelled from the spec: the declaration of [rt_constraints] lives in
    nautilus/rt_scheduler.h, which is not part of the sources at hand.  The
    spec (section 3) lists the constraint fields per class: period and slice
    for a periodic thread, work for a sporadic one, priority for an aperiodic
    one.  The record keeps the four fields side by side. *)
Record rt_constraints : Type := mk_constraints {
  period : Z;
  slice : Z;
  work : Z;
  priority : Z
}.

(** [rt_thread]: its declaration is in nautilus/rt_scheduler.h; the fields
    are those the C file reads and writes, with the types of their twins in
    [rt_thread_sim] (lines 76-85; see also [rt_thread_init], lines 131-156).
    [type], [q_type] and [status] hold the integer constants above.

    In the source [constraints] is a pointer (line 80), [rt_thread_init]
    stores the pointer its caller passes (line 140), and the dispatcher
    writes through it in one place, the priority of the current aperiodic
    thread (lines 1016 and 1471).  The record holds the constraints object
    itself: the store describes the states in which every descriptor points
    to a constraints object, and what a descriptor reads through the pointer
    is what the record holds.  Two descriptors that share one object are not
    told apart from two descriptors with equal objects: a write through the
    pointer of one is not seen through the pointer of the other.  The only
    such write is that of the priority, so this bears on the priorities of
    the other descriptors, and on the order of the aperiodic heap, after a
    dispatch by an aperiodic thread, and on nothing else. *)
Record rt_thread : Type := mk_thread {
  type : Z;
  q_type : Z;
  status : Z;
  constraints : rt_constraints;
  start_time : Z;
  run_time : Z;
  deadline : Z;
  exit_time : Z;
  thread : nk_thread
}.

(** [rt_queue], declared in the same header (compare [rt_queue_sim], lines
    87-91): a type tag, the three counters and the array of descriptor
    pointers. *)
Record rt_queue : Type := mk_queue {
  qtype : Z;
  size : nat;
  head : nat;
  tail : nat;
  threads : nat -> ptr
}.

(** [tsc_info], declared in the same header: the three time stamps written
    by [set_timer] and [rt_need_resched]. *)
Record tsc_info : Type := mk_tsc {
  tsc_start_time : Z;
  tsc_end_time : Z;
  tsc_set_time : Z
}.

(** [rt_scheduler], declared in the same header, with the fields
    [rt_scheduler_init] fills in (lines 158-239).  Its field [run_time] is
    [sched_run_time] here; the [trash] queue, which no other function of the
    file touches, is left out. *)
Record rt_scheduler : Type := mk_scheduler {
  runnable : rt_queue;
  pending : rt_queue;
  aperiodic : rt_queue;
  arrival : rt_queue;
  waiting : rt_queue;
  sleeping : rt_queue;
  exited : rt_queue;
  main_thread : ptr;
  sched_run_time : Z;
  tsc : tsc_info
}.

(** The state the scheduler code runs against: the per-CPU scheduler, the
    descriptor store, the cycle counter and the values written to the
    one-shot APIC timer (most recent first). *)
Record world : Type := mk_world {
  sched : rt_scheduler;
  mem : ptr -> rt_thread;
  rdtsc_src : nat -> Z;
  rdtsc_reads : nat;
  apic_oneshot : list Z
}.

(** Outcomes of code that may trap. *)
Inductive fault : Type :=
| PanicCalled
| DivideByZero
| NullDeref
| NoFuel.

Inductive res (A : Type) : Type :=
| Ok (a : A)
| Err (f : fault).
Arguments Ok {A} a.
Arguments Err {A} f.

Definition bind {A B : Type} (m : res A) (k : A -> res B) : res B :=
  match m with
  | Ok a => k a
  | Err f => Err f
  end.

Notation "x <- m ;; k" := (bind m (fun x => k))
  (at level 61, m at next level, right associativity).
Notation "' p <- m ;; k" := (bind m (fun x => let p := x in k))
  (at level 61, p pattern, m at next level, right associativity).

(** ** Store and array updates *)

Definition upd {A : Type} (f : nat -> A) (i : nat) (v : A) : nat -> A :=
  fun j => if Nat.eqb j i then v else f j.

Definition set_q_type (t : rt_thread) (v : Z) : rt_thread :=
  mk_thread (type t) v (status t) (constraints t) (start_time t)
            (run_time t) (deadline t) (exit_time t) (thread t).

Definition set_status (t : rt_thread) (v : Z) : rt_thread :=
  mk_thread (type t) (q_type t) v (constraints t) (start_time t)
            (run_time t) (deadline t) (exit_time t) (thread t).

Definition set_run_time (t : rt_thread) (v : Z) : rt_thread :=
  mk_thread (type t) (q_type t) (status t) (constraints t) (start_time t)
            v (deadline t) (exit_time t) (thread t).

Definition set_deadline (t : rt_thread) (v : Z) : rt_thread :=
  mk_thread (type t) (q_type t) (status t) (constraints t) (start_time t)
            (run_time t) v (exit_time t) (thread t).

Definition set_priority (t : rt_thread) (v : Z) : rt_thread :=
  mk_thread (type t) (q_type t) (status t)
            (mk_constraints (period (constraints t)) (slice (constraints t))
                            (work (constraints t)) v)
            (start_time t) (run_time t) (deadline t) (exit_time t) (thread t).

(** The contents of a queue array below [n], in index order. *)
Definition contents (a : nat -> ptr) (n : nat) : list ptr := map a (seq 0 n).

(** The two ordering keys of the heap queues. *)
Definition key_deadline (m : ptr -> rt_thread) (p : ptr) : Z := deadline (m p).
Definition key_priority (m : ptr -> rt_thread) (p : ptr) : Z :=
  priority (constraints (m p)).

(** ** Heap loops shared by the three heap branches

    The RUNNABLE, PENDING and APERIODIC branches of [enqueue_thread],
    [dequeue_thread] and [remove_thread] are the same loops up to the key
    they compare ([->deadline] or [->constraints->aperiodic.priority]); the
    loops are written once over the key. *)

Section HeapLoops.
Variable key : ptr -> Z.

(** The sift-up loop of [enqueue_thread] (lines 279-283):
    [while (threads[parent(pos)]->key > thread->key && pos != parent(pos))].
    [pos] strictly decreases, so [pos] itself bounds the iterations. *)
Fixpoint sift_up (fuel : nat) (th : ptr) (a : nat -> ptr) (pos : nat)
  : (nat -> ptr) * nat :=
  match fuel with
  | O => (a, pos)
  | S fuel' =>
      if (key (a (parent pos)) >? key th) && negb (Nat.eqb pos (parent pos))
      then sift_up fuel' th (upd a pos (a (parent pos))) (parent pos)
      else (a, pos)
  end.

(** Lines 277-285 without the write to [thread->q_type]. *)
Definition heap_insert (n : nat) (a : nat -> ptr) (th : ptr)
  : nat * (nat -> ptr) :=
  let pos := n in
  let a0 := upd a pos th in
  let '(a1, pos1) := sift_up pos th a0 pos in
  (S n, upd a1 pos1 th).

(** The sift-down loop of [dequeue_thread] and [remove_thread]
    (lines 659-673): [n] is the size after the decrement, [last] the
    element taken from slot [n].  The test [child < queue->size] guards
    with the left child, so the right child is read even when it is slot
    [n] itself.  [now] strictly increases, so [n] bounds the iterations. *)
Fixpoint sift_down (fuel : nat) (n : nat) (last : ptr) (a : nat -> ptr)
         (now : nat) : (nat -> ptr) * nat :=
  match fuel with
  | O => (a, now)
  | S fuel' =>
      if Nat.ltb (left_child now) n then
        let child := left_child now in
        let child :=
          if Nat.ltb child n
             && (key (a (right_child now)) <? key (a (left_child now)))
          then right_child now else child in
        if key last >? key (a child)
        then sift_down fuel' n last (upd a now (a child)) child
        else (a, now)
      else (a, now)
  end.

(** Lines 647-682: take the root, refill from the last slot, and dequeue
    again when the root was marked [TOBE_REMOVED].  The statement
    [min->status == REMOVED;] of the source is a comparison whose value is
    discarded: the descriptor is not written.  The recursion is on the
    size, which each call decrements. *)
Fixpoint dequeue_heap (st : ptr -> Z) (n : nat) (a : nat -> ptr)
  : ptr * (nat * (nat -> ptr)) :=
  match n with
  | O => (NULL, (O, a))
  | S sz =>
      let min := a O in
      let last := a sz in
      let '(a1, now) := sift_down sz sz last a O in
      let a2 := upd a1 now last in
      if st min =? TOBE_REMOVED
      then dequeue_heap st sz a2
      else (min, (sz, a2))
  end.
End HeapLoops.

(** ** Queue operations *)

Definition is_ring_type (ty : Z) : bool :=
  (ty =? ARRIVAL_QUEUE) || (ty =? WAITING_QUEUE) || (ty =? SLEEPING_QUEUE)
  || (ty =? EXITED_QUEUE).

(** One heap branch of [enqueue_thread] (lines 271-285): the capacity test,
    the insertion, and the write of [thread->q_type]. *)
Definition enqueue_heap (key : (ptr -> rt_thread) -> ptr -> Z) (q : rt_queue)
           (th : ptr) (m : ptr -> rt_thread) : rt_queue * (ptr -> rt_thread) :=
  if Nat.eqb (size q) MAX_QUEUE then (q, m)
  else
    let '(n, a) := heap_insert (key m) (size q) (threads q) th in
    (mk_queue (qtype q) n (head q) (tail q) a,
     upd m th (set_q_type (m th) (qtype q))).

(** One ring branch of [enqueue_thread] (lines 322-336).  [st] is the status
    the branch stores in the descriptor; the EXITED branch stores none. *)
Definition enqueue_ring (st : option Z) (q : rt_queue) (th : ptr)
           (m : ptr -> rt_thread) : rt_queue * (ptr -> rt_thread) :=
  if Nat.eqb (size q) MAX_QUEUE then (q, m)
  else
    let pos := tail q in
    let tl := S (tail q) in
    let tl := if Nat.eqb tl MAX_QUEUE then O else tl in
    let t1 := set_q_type (m th) (qtype q) in
    let t2 := match st with Some v => set_status t1 v | None => t1 end in
    (mk_queue (qtype q) (S (size q)) (head q) tl (upd (threads q) pos th),
     upd m th t2).

(** [enqueue_thread], lines 267-386. *)
Definition enqueue_thread (q : rt_queue) (th : ptr) (m : ptr -> rt_thread)
  : rt_queue * (ptr -> rt_thread) :=
  if qtype q =? RUNNABLE_QUEUE then enqueue_heap key_deadline q th m
  else if qtype q =? PENDING_QUEUE then enqueue_heap key_deadline q th m
  else if qtype q =? APERIODIC_QUEUE then enqueue_heap key_priority q th m
  else if qtype q =? ARRIVAL_QUEUE then enqueue_ring (Some ARRIVED) q th m
  else if qtype q =? WAITING_QUEUE then enqueue_ring (Some WAITING) q th m
  else if qtype q =? SLEEPING_QUEUE then enqueue_ring (Some SLEEPING) q th m
  else if qtype q =? EXITED_QUEUE then enqueue_ring None q th m
  else (q, m).

(** The ring branch of [dequeue_thread] (lines 759-775).  Each call advances
    [head]; a ring whose [head] and [tail] are below [MAX_QUEUE] is exhausted
    after at most [MAX_QUEUE] calls, which is the fuel [dequeue_thread]
    passes. *)
Fixpoint dequeue_ring (st : ptr -> Z) (fuel : nat) (q : rt_queue)
  : res (ptr * rt_queue) :=
  match fuel with
  | O => Err NoFuel
  | S fuel' =>
      if Nat.eqb (head q) (tail q) then Ok (NULL, q)
      else
        let pos := head q in
        let hd := S (head q) in
        let hd := if Nat.eqb hd MAX_QUEUE then O else hd in
        let q' := mk_queue (qtype q) (size q - 1) hd (tail q) (threads q) in
        let t := threads q pos in
        if st t =? TOBE_REMOVED then dequeue_ring st fuel' q'
        else Ok (t, q')
  end.

(** One heap branch of [dequeue_thread]. *)
Definition dequeue_heap_queue (key : (ptr -> rt_thread) -> ptr -> Z)
           (q : rt_queue) (m : ptr -> rt_thread) : ptr * rt_queue :=
  let '(r, (n, a)) :=
    dequeue_heap (key m) (fun p => status (m p)) (size q) (threads q) in
  (r, mk_queue (qtype q) n (head q) (tail q) a).

(** [dequeue_thread], lines 643-778.  In the condition of the ring branch
    (line 757) the source writes [queue->type = WAITING_QUEUE] between two
    [||]; that reading has no lvalue on its left, and the embedding takes
    the comparison [==] like its three neighbours. *)
Definition dequeue_thread (q : rt_queue) (m : ptr -> rt_thread)
  : res (ptr * rt_queue) :=
  if qtype q =? RUNNABLE_QUEUE then Ok (dequeue_heap_queue key_deadline q m)
  else if qtype q =? PENDING_QUEUE then Ok (dequeue_heap_queue key_deadline q m)
  else if qtype q =? APERIODIC_QUEUE then Ok (dequeue_heap_queue key_priority q m)
  else if is_ring_type (qtype q)
       then dequeue_ring (fun p => status (m p)) (S MAX_QUEUE) q
  else Ok (NULL, q).

(** The search loop of [remove_thread] (lines 409-414):
    [if (thread = queue->threads[i])] assigns the slot to [thread] and tests
    the assigned pointer against null.  Returns the final value of [thread]
    and of [target_index]. *)
Fixpoint remove_scan (a : nat -> ptr) (n : nat) (fuel : nat) (i : nat)
         (th : ptr) : ptr * nat :=
  match fuel with
  | O => (th, n)
  | S fuel' =>
      if Nat.ltb i n then
        let th' := a i in
        if negb (Nat.eqb th' NULL) then (th', i)
        else remove_scan a n fuel' (S i) th'
      else (th, n)
  end.

(** One heap branch of [remove_thread] (lines 402-440). *)
Definition remove_heap (key : ptr -> Z) (q : rt_queue) (th : ptr)
  : ptr * rt_queue :=
  if Nat.ltb (size q) 1 then (NULL, q)
  else
    let '(th', target_index) := remove_scan (threads q) (size q) (size q) O th in
    if Nat.eqb target_index (size q) then (NULL, q)
    else
      let n := (size q - 1)%nat in
      let last := threads q n in
      let '(a1, now) := sift_down key n n last (threads q) target_index in
      (th', mk_queue (qtype q) n (head q) (tail q) (upd a1 now last)).

(** ** Scheduler and world updates *)

Definition set_runnable (s : rt_scheduler) (q : rt_queue) : rt_scheduler :=
  mk_scheduler q (pending s) (aperiodic s) (arrival s) (waiting s)
               (sleeping s) (exited s) (main_thread s) (sched_run_time s)
               (tsc s).

Definition set_pending (s : rt_scheduler) (q : rt_queue) : rt_scheduler :=
  mk_scheduler (runnable s) q (aperiodic s) (arrival s) (waiting s)
               (sleeping s) (exited s) (main_thread s) (sched_run_time s)
               (tsc s).

Definition set_aperiodic (s : rt_scheduler) (q : rt_queue) : rt_scheduler :=
  mk_scheduler (runnable s) (pending s) q (arrival s) (waiting s)
               (sleeping s) (exited s) (main_thread s) (sched_run_time s)
               (tsc s).

Definition set_exited (s : rt_scheduler) (q : rt_queue) : rt_scheduler :=
  mk_scheduler (runnable s) (pending s) (aperiodic s) (arrival s) (waiting s)
               (sleeping s) q (main_thread s) (sched_run_time s) (tsc s).

Definition set_tsc (s : rt_scheduler) (i : tsc_info) : rt_scheduler :=
  mk_scheduler (runnable s) (pending s) (aperiodic s) (arrival s) (waiting s)
               (sleeping s) (exited s) (main_thread s) (sched_run_time s) i.

Definition with_sched (w : world) (s : rt_scheduler) : world :=
  mk_world s (mem w) (rdtsc_src w) (rdtsc_reads w) (apic_oneshot w).

Definition with_mem (w : world) (m : ptr -> rt_thread) : world :=
  mk_world (sched w) m (rdtsc_src w) (rdtsc_reads w) (apic_oneshot w).

Definition with_queue_mem (setq : rt_scheduler -> rt_queue -> rt_scheduler)
           (w : world) (qm : rt_queue * (ptr -> rt_thread)) : world :=
  mk_world (setq (sched w) (fst qm)) (snd qm) (rdtsc_src w) (rdtsc_reads w)
           (apic_oneshot w).

(** [cur_time], line 1140: one read of the cycle counter. *)
Definition cur_time (w : world) : Z * world :=
  (wrap64 (rdtsc_src w (rdtsc_reads w)),
   mk_world (sched w) (mem w) (rdtsc_src w) (S (rdtsc_reads w))
            (apic_oneshot w)).

(** [apic_oneshot_write]: the programmed count is recorded. *)
Definition apic_oneshot_write (w : world) (v : Z) : world :=
  mk_world (sched w) (mem w) (rdtsc_src w) (rdtsc_reads w)
           (v :: apic_oneshot w).

Definition set_tsc_start_time (w : world) (v : Z) : world :=
  with_sched w (set_tsc (sched w)
    (mk_tsc v (tsc_end_time (tsc (sched w))) (tsc_set_time (tsc (sched w))))).

Definition set_tsc_end_time (w : world) (v : Z) : world :=
  with_sched w (set_tsc (sched w)
    (mk_tsc (tsc_start_time (tsc (sched w))) v (tsc_set_time (tsc (sched w))))).

Definition set_tsc_set_time (w : world) (v : Z) : world :=
  with_sched w (set_tsc (sched w)
    (mk_tsc (tsc_start_time (tsc (sched w))) (tsc_end_time (tsc (sched w))) v)).

(** ** Initialisation *)

(** A queue after [ZERO_QUEUE] and the assignment of its type. *)
Definition zero_queue (ty : Z) : rt_queue := mk_queue ty O O O (fun _ => NULL).

(** [rt_scheduler_init], lines 158-239, on the path where every allocation
    succeeds.  [ZERO(scheduler)] runs after [scheduler->main_thread] was
    assigned, so the field is null in the result. *)
Definition rt_scheduler_init (main : ptr) (m : ptr -> rt_thread)
  : rt_scheduler * (ptr -> rt_thread) :=
  let m1 := upd m main (set_status (m main) ADMITTED) in
  let s := mk_scheduler (zero_queue RUNNABLE_QUEUE) (zero_queue PENDING_QUEUE)
                        (zero_queue APERIODIC_QUEUE) (zero_queue ARRIVAL_QUEUE)
                        (zero_queue WAITING_QUEUE) (zero_queue SLEEPING_QUEUE)
                        (zero_queue EXITED_QUEUE) NULL 0 (mk_tsc 0 0 0) in
  let qm := enqueue_thread (aperiodic s) main m1 in
  (set_aperiodic s (fst qm), snd qm).

(** ** Deadlines, release and the timer *)

(** [rt_thread_dump], lines 924-934: the periodic branch passes [cur_time()]
    to [printk], which is one more read of the counter. *)
Definition rt_thread_dump (t : ptr) (w : world) : world :=
  if type (mem w t) =? PERIODIC then snd (cur_time w) else w.

(** [check_deadlines], lines 1119-1129: returns 1 when the deadline was
    missed ([exit_time > deadline]) and 0 otherwise. *)
Definition check_deadlines (t : ptr) (w : world) : Z * world :=
  if exit_time (mem w t) >? deadline (mem w t)
  then (1, rt_thread_dump t w)
  else (0, w).

(** [update_periodic], lines 1131-1138. *)
Definition update_periodic (t : ptr) (w : world) : world :=
  if type (mem w t) =? PERIODIC then
    let '(now, w1) := cur_time w in
    let t1 := set_deadline (mem w1 t)
                (wrap64 (now + period (constraints (mem w1 t)))) in
    with_mem w1 (upd (mem w1) t (set_run_time t1 0))
  else w.

(** The remaining budget [set_timer] computes for a thread: slice minus run
    time for a periodic thread, work minus run time for a sporadic one, and
    [QUANTUM] for any other type. *)
Definition budget_remaining (t : rt_thread) : Z :=
  if type t =? PERIODIC then wrap64 (slice (constraints t) - run_time t)
  else if type t =? SPORADIC then wrap64 (work (constraints t) - run_time t)
  else QUANTUM.

(** [set_timer], lines 937-977. *)
Definition set_timer (w : world) (current_thread : ptr) (end_time slack : Z)
  : world :=
  let '(t0, w0) := cur_time w in
  let w1 := set_tsc_start_time w0 t0 in
  let cur := mem w1 current_thread in
  let w2 :=
    if Nat.ltb 0 (size (pending (sched w1))) && negb (Nat.eqb current_thread NULL)
    then
      let th := mem w1 (threads (pending (sched w1)) O) in
      let gap := wrap64 (deadline th - end_time) in
      if type cur =? PERIODIC then
        let b := wrap64 (slice (constraints cur) - run_time cur) in
        set_tsc_set_time
          (apic_oneshot_write w1 (umin gap (wrap64 (b + slack))))
          (umin gap b)
      else if type cur =? SPORADIC then
        let b := wrap64 (work (constraints cur) - run_time cur) in
        set_tsc_set_time
          (apic_oneshot_write w1 (umin gap (wrap64 (b + slack))))
          (umin gap (wrap64 (b + slack)))
      else
        set_tsc_set_time (apic_oneshot_write w1 (umin gap QUANTUM))
                         (umin gap QUANTUM)
    else if Nat.eqb (size (pending (sched w1))) 0
            && negb (Nat.eqb current_thread NULL)
    then
      if type cur =? PERIODIC then
        let b := wrap64 (slice (constraints cur) - run_time cur) in
        set_tsc_set_time (apic_oneshot_write w1 (wrap64 (b + slack)))
                         (wrap64 (b + slack))
      else if type cur =? SPORADIC then
        let b := wrap64 (work (constraints cur) - run_time cur) in
        set_tsc_set_time (apic_oneshot_write w1 (wrap64 (b + slack)))
                         (wrap64 (b + slack))
      else
        set_tsc_set_time (apic_oneshot_write w1 QUANTUM) QUANTUM
    else
      set_tsc_set_time (apic_oneshot_write w1 QUANTUM) QUANTUM in
  set_tsc_end_time w2 end_time.

(** ** The dispatcher *)

(** The release loop of [rt_need_resched], lines 995-1012.  A heap-typed
    pending queue shrinks with every dequeue, so its size plus one bounds
    the iterations; a pending queue of any other type is never emptied by
    [dequeue_thread] and the loop of the source does not end. *)
Fixpoint release_drain (fuel : nat) (end_time : Z) (w : world) : res world :=
  match fuel with
  | O => Err NoFuel
  | S fuel' =>
      if Nat.ltb 0 (size (pending (sched w))) then
        if deadline (mem w (threads (pending (sched w)) O)) <? end_time then
          '(arrived_thread, q) <- dequeue_thread (pending (sched w)) (mem w) ;;
          let w1 := with_sched w (set_pending (sched w) q) in
          if Nat.eqb arrived_thread NULL then release_drain fuel' end_time w1
          else
            let w2 := update_periodic arrived_thread w1 in
            let w3 := with_queue_mem set_runnable w2
                        (enqueue_thread (runnable (sched w2)) arrived_thread
                                        (mem w2)) in
            release_drain fuel' end_time w3
        else Ok w
      else Ok w
  end.

(** The tail shared by the aperiodic branch and the two budget-exhausted
    branches (lines 1019-1034, 1041-1054, 1081-1094): take the next thread
    from runnable, else from aperiodic; an empty aperiodic queue panics. *)
Definition pick_aperiodic (w : world) (end_time slack : Z)
  : res ((ptr * nk_thread) * world) :=
  '(rt_n, q) <- dequeue_thread (aperiodic (sched w)) (mem w) ;;
  let w1 := with_sched w (set_aperiodic (sched w) q) in
  if Nat.eqb rt_n NULL then Err PanicCalled
  else
    let w2 := set_timer w1 rt_n end_time slack in
    Ok ((rt_n, thread (mem w2 rt_n)), w2).

Definition pick_next (w : world) (end_time slack : Z)
  : res ((ptr * nk_thread) * world) :=
  if Nat.ltb 0 (size (runnable (sched w))) then
    '(rt_n, q) <- dequeue_thread (runnable (sched w)) (mem w) ;;
    let w1 := with_sched w (set_runnable (sched w) q) in
    if negb (Nat.eqb rt_n NULL) then
      let w2 := set_timer w1 rt_n end_time slack in
      Ok ((rt_n, thread (mem w2 rt_n)), w2)
    else pick_aperiodic w1 end_time slack
  else pick_aperiodic w end_time slack.

(** The preemption test of the two budget-left branches (lines 1056-1069
    and 1096-1109). *)
Definition keep_current (w : world) (rt_c : ptr) (end_time slack : Z)
  : res ((ptr * nk_thread) * world) :=
  let w1 := set_timer w rt_c end_time slack in
  Ok ((rt_c, thread (mem w1 rt_c)), w1).

Definition preempt_or_keep (w : world) (rt_c : ptr) (end_time slack : Z)
  : res ((ptr * nk_thread) * world) :=
  if Nat.ltb 0 (size (runnable (sched w))) then
    if deadline (mem w rt_c)
       >? deadline (mem w (threads (runnable (sched w)) O)) then
      '(rt_n, q) <- dequeue_thread (runnable (sched w)) (mem w) ;;
      let w1 := with_sched w (set_runnable (sched w) q) in
      if negb (Nat.eqb rt_n NULL) then
        let w2 := with_queue_mem set_runnable w1
                    (enqueue_thread (runnable (sched w1)) rt_c (mem w1)) in
        let w3 := set_timer w2 rt_n end_time slack in
        Ok ((rt_n, thread (mem w3 rt_n)), w3)
      else keep_current w1 rt_c end_time slack
    else keep_current w rt_c end_time slack
  else keep_current w rt_c end_time slack.

(** Lines 1074-1079: what the dispatcher does with a periodic thread whose
    slice is used up, before it picks the next thread. *)
Definition requeue_periodic (w : world) (rt_c : ptr) : world :=
  let '(missed, w1) := check_deadlines rt_c w in
  if negb (missed =? 0) then
    let w2 := update_periodic rt_c w1 in
    with_queue_mem set_runnable w2
      (enqueue_thread (runnable (sched w2)) rt_c (mem w2))
  else
    with_queue_mem set_pending w1
      (enqueue_thread (pending (sched w1)) rt_c (mem w1)).

(** Lines 989-991: the two reads of the counter at entry.  Returns
    [end_time] and the world with [tsc->end_time] stored. *)
Definition resched_entry (w : world) : Z * world :=
  let '(t0, w0) := cur_time w in
  let end_time := wrap64 (sched_run_time (sched w0) + t0) in
  let '(t1, w1) := cur_time w0 in
  (end_time, set_tsc_end_time w1 t1).

(** The [switch] of [rt_need_resched], lines 1014-1114.  The source reads
    [rt_c->type] without a null test; the definition is that of the calls
    whose current thread [rt_c] is not null, and reads the store at NULL
    like at any other address. *)
Definition resched_select (c : nk_thread) (rt_c : ptr) (end_time slack : Z)
           (w : world) : res ((ptr * nk_thread) * world) :=
  let ty := type (mem w rt_c) in
  if ty =? APERIODIC then
    let w1 := with_mem w (upd (mem w) rt_c
                            (set_priority (mem w rt_c) (run_time (mem w rt_c)))) in
    let w2 := with_queue_mem set_aperiodic w1
                (enqueue_thread (aperiodic (sched w1)) rt_c (mem w1)) in
    pick_next w2 end_time slack
  else if ty =? SPORADIC then
    if run_time (mem w rt_c) >=? work (constraints (mem w rt_c)) then
      let '(_, w1) := check_deadlines rt_c w in
      pick_next w1 end_time slack
    else preempt_or_keep w rt_c end_time slack
  else if ty =? PERIODIC then
    if run_time (mem w rt_c) >=? slice (constraints (mem w rt_c)) then
      pick_next (requeue_periodic w rt_c) end_time slack
    else preempt_or_keep w rt_c end_time slack
  else
    let w1 := set_timer w rt_c end_time slack in
    Ok ((rt_c, c), w1).

(** [rt_need_resched], lines 980-1115.  [c] is the result of
    [get_cur_thread()] and [rt_c] its [rt_thread] field.  Besides the handle
    the source returns, the result names the descriptor that was chosen. *)
Definition rt_need_resched (c : nk_thread) (rt_c : ptr) (w : world)
  : res ((ptr * nk_thread) * world) :=
  let '(end_time, w1) := resched_entry w in
  let slack := 0 in
  w2 <- release_drain (S (size (pending (sched w1)))) end_time w1 ;;
  resched_select c rt_c end_time slack w2.

(** ** Admission control *)

(** One iteration of either loop of [get_per_util] (lines 1234-1248). *)
Definition add_per_util (m : ptr -> rt_thread) (acc : res Z) (p : ptr) : res Z :=
  util <- acc ;;
  if type (m p) =? PERIODIC then
    if period (constraints (m p)) =? 0 then Err DivideByZero
    else Ok (wrap64 (util + wrap64 (slice (constraints (m p)) * 100000)
                            / period (constraints (m p))))
  else Ok util.

(** [get_per_util], lines 1229-1251. *)
Definition get_per_util (rq pq : rt_queue) (m : ptr -> rt_thread) : res Z :=
  fold_left (add_per_util m) (contents (threads pq) (size pq))
    (fold_left (add_per_util m) (contents (threads rq) (size rq)) (Ok 0)).

(** One iteration of the loop of [get_spor_util] (lines 1258-1265); the
    divisor reads the counter. *)
Definition add_spor_util (acc : res (Z * world)) (p : ptr) : res (Z * world) :=
  '(util, w) <- acc ;;
  if type (mem w p) =? SPORADIC then
    let '(now, w1) := cur_time w in
    let d := wrap64 (deadline (mem w1 p) - now) in
    if d =? 0 then Err DivideByZero
    else Ok (wrap64 (util + wrap64 (work (constraints (mem w1 p)) * 100000) / d),
             w1)
  else Ok (util, w).

(** [get_spor_util], lines 1253-1267. *)
Definition get_spor_util (rq : rt_queue) (w : world) : res (Z * world) :=
  fold_left add_spor_util (contents (threads rq) (size rq)) (Ok (0, w)).

(** [rt_admit], lines 1146-1168. *)
Definition rt_admit (w : world) (th : ptr) : res (Z * world) :=
  if type (mem w th) =? PERIODIC then
    per_util <- get_per_util (runnable (sched w)) (pending (sched w)) (mem w) ;;
    if period (constraints (mem w th)) =? 0 then Err DivideByZero
    else if wrap64 (per_util
                    + wrap64 (slice (constraints (mem w th)) * 100000)
                      / period (constraints (mem w th)))
            >? PERIODIC_UTIL
    then Ok (0, w)
    else Ok (1, w)
  else if type (mem w th) =? SPORADIC then
    '(spor_util, w1) <- get_spor_util (runnable (sched w)) w ;;
    if spor_util >? SPORADIC_UTIL then Ok (0, w1) else Ok (1, w1)
  else Ok (1, w).

(** [remove_thread], lines 388-641.  The three heap branches select the
    queue from [thread->q_type].  The ring branches are reached with
    [queue] still null and start by reading [queue->type]. *)
Definition remove_thread (th : ptr) (w : world) : res (ptr * world) :=
  let ty := q_type (mem w th) in
  if ty =? RUNNABLE_QUEUE then
    let '(r, q) := remove_heap (key_deadline (mem w)) (runnable (sched w)) th in
    Ok (r, with_sched w (set_runnable (sched w) q))
  else if ty =? PENDING_QUEUE then
    let '(r, q) := remove_heap (key_deadline (mem w)) (pending (sched w)) th in
    Ok (r, with_sched w (set_pending (sched w) q))
  else if ty =? APERIODIC_QUEUE then
    let '(r, q) := remove_heap (key_priority (mem w)) (aperiodic (sched w)) th in
    Ok (r, with_sched w (set_aperiodic (sched w) q))
  else Err NullDeref.

(** [rt_thread_exit], lines 1663-1668. *)
Definition rt_thread_exit (th : ptr) (w : world) : world :=
  let w1 := with_mem w (upd (mem w) th (set_status (mem w th) TOBE_REMOVED)) in
  with_queue_mem set_exited w1
    (enqueue_thread (exited (sched w1)) th (mem w1)).

(** ** Notions used by the statements *)

(** The heap order of a queue array below [n] (spec invariant I2). *)
Definition heap_ordered (key : ptr -> Z) (a : nat -> ptr) (n : nat) : Prop :=
  forall i, (0 < i < n)%nat -> key (a (parent i)) <= key (a i).

(** Enqueue the descriptors of [l] one after the other. *)
Definition enqueue_all (q : rt_queue) (m : ptr -> rt_thread) (l : list ptr)
  : rt_queue * (ptr -> rt_thread) :=
  fold_left (fun qm p => enqueue_thread (fst qm) p (snd qm)) l (q, m).

(** Dequeue until [dequeue_thread] returns null, at most [fuel] times, and
    list the descriptors in the order they came out, with the queue left. *)
Fixpoint drain_queue (fuel : nat) (q : rt_queue) (m : ptr -> rt_thread)
  : list ptr * rt_queue :=
  match fuel with
  | O => ([], q)
  | S fuel' =>
      match dequeue_thread q m with
      | Ok (r, q') =>
          if Nat.eqb r NULL then ([], q')
          else let '(l, q'') := drain_queue fuel' q' m in (r :: l, q'')
      | Err _ => ([], q)
      end
  end.

(** The invariant of the sift-up loop: slot [pos] is a hole that will
    receive [th]; the rest of the array is heap ordered around it. *)
Definition up_inv (key : ptr -> Z) (th : ptr) (a : nat -> ptr) (pos n : nat)
  : Prop :=
  (forall i, (0 < i < n)%nat -> i <> pos -> parent i <> pos ->
             key (a (parent i)) <= key (a i))
  /\ (forall c, (c < n)%nat -> c <> pos -> parent c = pos ->
                key th <= key (a c)
                /\ (pos <> 0%nat -> key (a (parent pos)) <= key (a c))).

(** The invariant of the sift-down loop: slot [now] is a hole that will
    receive [last], and slot [n], just past the heap, still holds [last]. *)
Definition down_inv (key : ptr -> Z) (last : ptr) (a : nat -> ptr) (now n : nat)
  : Prop :=
  (forall i, (0 < i < n)%nat -> i <> now -> parent i <> now ->
             key (a (parent i)) <= key (a i))
  /\ (forall c, (c < n)%nat -> c <> now -> parent c = now -> now <> 0%nat ->
                key (a (parent now)) <= key (a c))
  /\ (now <> 0%nat -> key (a (parent now)) <= key last)
  /\ a n = last.

(** The three heap queue types and the key each is ordered by. *)
Definition is_heap_type (ty : Z) : bool :=
  (ty =? RUNNABLE_QUEUE) || (ty =? PENDING_QUEUE) || (ty =? APERIODIC_QUEUE).

Definition heap_key (ty : Z) : (ptr -> rt_thread) -> ptr -> Z :=
  if ty =? APERIODIC_QUEUE then key_priority else key_deadline.

(** The live entries of a queue array and the heap order of a queue. *)
Definition queue_contents (q : rt_queue) : list ptr :=
  contents (threads q) (size q).

Definition queue_heap_ordered (q : rt_queue) (m : ptr -> rt_thread) : Prop :=
  heap_ordered (heap_key (qtype q) m) (threads q) (size q).

(** An empty ring queue: no entry, and [head] has caught up with [tail]. *)
Definition ring_empty (q : rt_queue) : Prop :=
  size q = 0%nat /\ head q = tail q.

(** The scheduler queues carry the type tags [rt_scheduler_init] gives
    them. *)
Definition sched_wf (w : world) : Prop :=
  qtype (runnable (sched w)) = RUNNABLE_QUEUE
  /\ qtype (pending (sched w)) = PENDING_QUEUE
  /\ qtype (aperiodic (sched w)) = APERIODIC_QUEUE.

(** What the dispatcher may change in a descriptor besides its queue tag,
    status, deadline and priority: nothing but a reset of [run_time]. *)
Definition thread_frame (t t' : rt_thread) : Prop :=
  type t' = type t
  /\ start_time t' = start_time t
  /\ exit_time t' = exit_time t
  /\ thread t' = thread t
  /\ period (constraints t') = period (constraints t)
  /\ slice (constraints t') = slice (constraints t)
  /\ work (constraints t') = work (constraints t)
  /\ (run_time t' = run_time t \/ run_time t' = 0).

Definition mem_frame (m m' : ptr -> rt_thread) : Prop :=
  forall p, thread_frame (m p) (m' p).

(** The world a run ends in, or [d] when the run trapped. *)
Definition res_world {A : Type} (r : res (A * world)) (d : world) : world :=
  match r with
  | Ok (_, w) => w
  | Err _ => d
  end.

(** The queue a dequeue leaves, or [d] when it ran out of fuel. *)
Definition res_queue (r : res (ptr * rt_queue)) (d : rt_queue) : rt_queue :=
  match r with
  | Ok (_, q) => q
  | Err _ => d
  end.

(** A descriptor is due at [end_time] when its deadline is strictly below
    [end_time]: the test of the release loop (line 997). *)
Definition due (m : ptr -> rt_thread) (end_time : Z) (p : ptr) : bool :=
  deadline (m p) <? end_time.

(** What the release loop is shown to do on a pending heap of distinct live
    descriptors when runnable has room for them. *)
Definition drain_ready (w : world) : Prop :=
  queue_heap_ordered (pending (sched w)) (mem w)
  /\ NoDup (queue_contents (pending (sched w)))
  /\ (forall p, In p (queue_contents (pending (sched w))) ->
                p <> NULL /\ status (mem w p) <> TOBE_REMOVED)
  /\ (size (runnable (sched w)) + size (pending (sched w)) <= MAX_QUEUE)%nat.

(** The utilization term [rt_admit] and [get_per_util] compute for one
    periodic thread, in 64-bit arithmetic, and the same term without the wrap
    of the product. *)
Definition util_term (t : rt_thread) : Z :=
  wrap64 (slice (constraints t) * 100000) / period (constraints t).

Definition exact_util (t : rt_thread) : Z :=
  slice (constraints t) * 100000 / period (constraints t).

(** The 64-bit sum of a list, in order, and the sum in [Z]. *)
Definition sum64 (l : list Z) : Z :=
  fold_left (fun acc x => wrap64 (acc + x)) l 0.

Definition Zsum (l : list Z) : Z := fold_right Z.add 0 l.

(** The periodic threads among the descriptors of runnable and pending, in
    the order [get_per_util] visits them. *)
Definition queued_periodic (w : world) : list ptr :=
  filter (fun p => type (mem w p) =? PERIODIC)
         (queue_contents (runnable (sched w))
          ++ queue_contents (pending (sched w))).

(** [rt_admit] accepts: it returns 1. *)
Definition admits (w : world) (th : ptr) : Prop :=
  exists w', rt_admit w th = Ok (1, w').


(** The transposition of two array indices. *)
Definition transp (i j k : nat) : nat :=
  if Nat.eqb k i then j else if Nat.eqb k j then i else k.

(** ** Example states

    A store of four descriptors used by the examples: 1 and 2 are periodic,
    3 is sporadic, 4 is aperiodic; every other address holds a copy of
    descriptor 4. *)
Definition ex_thread (ty st per sl wk pr rt dl ex : Z) (h : nk_thread)
  : rt_thread :=
  mk_thread ty 0 st (mk_constraints per sl wk pr) 0 rt dl ex h.

Definition ex_mem : ptr -> rt_thread :=
  fun p =>
    match p with
    | 1%nat => ex_thread PERIODIC ADMITTED 1000 100 0 0 0 1000 0 11%nat
    | 2%nat => ex_thread PERIODIC ADMITTED 500 50 0 0 0 500 0 12%nat
    | 3%nat => ex_thread SPORADIC ADMITTED 0 0 200 0 0 300 0 13%nat
    | _ => ex_thread APERIODIC ADMITTED 0 0 0 2 0 0 0 14%nat
    end.

(** The same store with descriptor 2 marked [TOBE_REMOVED]. *)
Definition ex_mem_tbr : ptr -> rt_thread :=
  upd ex_mem 2%nat (set_status (ex_mem 2%nat) TOBE_REMOVED).

(** The world [rt_scheduler_init] builds around a store, with descriptor 4
    as the main thread, a counter that reads 100 at every read, and no timer
    write so far. *)
Definition ex_world (m : ptr -> rt_thread) : world :=
  mk_world (fst (rt_scheduler_init 4%nat m)) (snd (rt_scheduler_init 4%nat m))
           (fun _ => 100) O [].

(** The same world after the descriptors of [rs] were enqueued on runnable
    and those of [ps] on pending. *)
Definition ex_world_queues (m : ptr -> rt_thread) (rs ps : list ptr) : world :=
  let w0 := ex_world m in
  let qm1 := enqueue_all (runnable (sched w0)) (mem w0) rs in
  let qm2 := enqueue_all (pending (sched w0)) (snd qm1) ps in
  mk_world (set_pending (set_runnable (sched w0) (fst qm1)) (fst qm2))
           (snd qm2) (fun _ => 100) O [].

(** Descriptor 1 after it used up its slice of 100 and left the CPU at
    cycle 100, before its deadline at cycle 1000. *)
Definition ex_mem_done : ptr -> rt_thread :=
  upd ex_mem 1%nat (ex_thread PERIODIC ADMITTED 1000 100 0 0 100 1000 100 11%nat).

(** Descriptor 1 after it used up its slice and left the CPU at cycle 2000,
    after its deadline at cycle 1000. *)
Definition ex_mem_late : ptr -> rt_thread :=
  upd ex_mem 1%nat (ex_thread PERIODIC ADMITTED 1000 100 0 0 100 1000 2000 11%nat).

(** Descriptor 1 with its deadline at cycle 100, the cycle the counter of
    the example worlds reads. *)
Definition ex_mem_now : ptr -> rt_thread :=
  upd ex_mem 1%nat (ex_thread PERIODIC ADMITTED 1000 100 0 0 0 100 0 11%nat).

(** Descriptor 2 with its deadline at cycle 50, before the cycle the counter
    of the example worlds reads. *)
Definition ex_mem_due : ptr -> rt_thread :=
  upd ex_mem 2%nat (ex_thread PERIODIC ADMITTED 500 50 0 0 30 50 0 12%nat).

(** A periodic candidate, descriptor 5, whose slice of 184467440737096
    cycles makes [slice * 100000] exceed [2^64]; its period is
    200000000000000 cycles. *)
Definition ex_mem_wide : ptr -> rt_thread :=
  upd ex_mem 5%nat
      (ex_thread PERIODIC ARRIVED 200000000000000 184467440737096 0 0 0 0 0
                 15%nat).

(** A periodic candidate, descriptor 5, with period 100 and slice 80
    (scenario S4 of the spec). *)
Definition ex_mem_over : ptr -> rt_thread :=
  upd ex_mem 5%nat (ex_thread PERIODIC ARRIVED 100 80 0 0 0 0 0 15%nat).

(** A periodic candidate, descriptor 5, with period 1000000 and slice
    650009: its utilization is just above 0.65. *)
Definition ex_mem_round : ptr -> rt_thread :=
  upd ex_mem 5%nat (ex_thread PERIODIC ARRIVED 1000000 650009 0 0 0 0 0 15%nat).

(** Descriptor 1 after it used up its slice and left the CPU at cycle 90,
    before its deadline at cycle 95; the counter of the example worlds reads
    100. *)
Definition ex_mem_tight : ptr -> rt_thread :=
  upd ex_mem 1%nat (ex_thread PERIODIC ADMITTED 1000 100 0 0 100 95 90 11%nat).


(** ** The simulator copies of the queue operations

    [enqueue_thread_logic] and [dequeue_thread_logic] work on
    [rt_queue_sim] and [rt_thread_sim] (lines 76-91), which have the fields
    of [rt_queue] and of [rt_thread] without the handle; the embedding uses
    the same records. *)

(** One heap branch of [dequeue_thread_logic] (lines 824-854): the root is
    taken and the heap refilled as in [dequeue_thread], and the status of
    the root is not looked at. *)
Definition heap_pop (key : ptr -> Z) (n : nat) (a : nat -> ptr)
  : ptr * (nat * (nat -> ptr)) :=
  match n with
  | O => (NULL, (O, a))
  | S sz =>
      let min := a O in
      let last := a sz in
      let '(a1, now) := sift_down key sz sz last a O in
      (min, (sz, upd a1 now last))
  end.

(** One heap branch of [enqueue_thread_logic] (lines 784-792): no capacity
    test.  The arrays of the simulator have [MAX_QUEUE] slots
    ([init_simulator], lines 243-245); the definition is that of the calls
    on a queue of fewer than [MAX_QUEUE] descriptors, and writes slot
    [size q] like any other slot. *)
Definition enqueue_heap_logic (key : (ptr -> rt_thread) -> ptr -> Z)
           (q : rt_queue) (th : ptr) (m : ptr -> rt_thread)
  : rt_queue * (ptr -> rt_thread) :=
  let '(n, a) := heap_insert (key m) (size q) (threads q) th in
  (mk_queue (qtype q) n (head q) (tail q) a,
   upd m th (set_q_type (m th) (qtype q))).

(** [enqueue_thread_logic], lines 780-818. *)
Definition enqueue_thread_logic (q : rt_queue) (th : ptr) (m : ptr -> rt_thread)
  : rt_queue * (ptr -> rt_thread) :=
  if qtype q =? RUNNABLE_QUEUE then enqueue_heap_logic key_deadline q th m
  else if qtype q =? PENDING_QUEUE then enqueue_heap_logic key_deadline q th m
  else if qtype q =? APERIODIC_QUEUE then enqueue_heap_logic key_priority q th m
  else (q, m).

Definition dequeue_heap_logic (key : (ptr -> rt_thread) -> ptr -> Z)
           (q : rt_queue) (m : ptr -> rt_thread) : ptr * rt_queue :=
  let '(r, (n, a)) := heap_pop (key m) (size q) (threads q) in
  (r, mk_queue (qtype q) n (head q) (tail q) a).

(** [dequeue_thread_logic], lines 820-922. *)
Definition dequeue_thread_logic (q : rt_queue) (m : ptr -> rt_thread)
  : ptr * rt_queue :=
  if qtype q =? RUNNABLE_QUEUE then dequeue_heap_logic key_deadline q m
  else if qtype q =? PENDING_QUEUE then dequeue_heap_logic key_deadline q m
  else if qtype q =? APERIODIC_QUEUE then dequeue_heap_logic key_priority q m
  else (NULL, q).

(** ** Further notions *)

(** A descriptor is marked when its status, read through [st], is
    [TOBE_REMOVED]: the test by which [dequeue_thread] passes it over. *)
Definition marked (st : ptr -> Z) (p : ptr) : Prop := st p = TOBE_REMOVED.

(** A ring queue that holds the descriptors of [l], oldest first: [size]
    counts them, [head] and [tail] are array indices, [tail] is [length l]
    slots after [head] modulo [MAX_QUEUE], and the slots from [head] on hold
    [l] in order. *)
Definition ring_holds (q : rt_queue) (l : list ptr) : Prop :=
  size q = length l
  /\ (length l <= MAX_QUEUE)%nat
  /\ (head q < MAX_QUEUE)%nat
  /\ tail q = ((head q + length l) mod MAX_QUEUE)%nat
  /\ forall i, (i < length l)%nat ->
               threads q ((head q + i) mod MAX_QUEUE)%nat = nth i l NULL.

(** What a ring dequeue does with the descriptors [l] of a ring, oldest
    first: the first one that is not marked comes out and the ones after it
    stay; null comes out when all are marked. *)
Fixpoint first_live (st : ptr -> Z) (l : list ptr) : ptr * list ptr :=
  match l with
  | [] => (NULL, [])
  | x :: t => if st x =? TOBE_REMOVED then first_live st t else (x, t)
  end.

(** ** Further example states *)

(** A queue of type [ty] whose array holds [l] from slot 0 on, with [head]
    at slot 0 and [tail] just after the last entry. *)
Definition ex_queue (ty : Z) (l : list ptr) : rt_queue :=
  mk_queue ty (length l) O (length l mod MAX_QUEUE)%nat (fun i => nth i l NULL).


(** The queue [remove_thread] selects from the tag of a descriptor. *)
Definition queue_by_tag (s : rt_scheduler) (ty : Z) : rt_queue :=
  if ty =? RUNNABLE_QUEUE then runnable s
  else if ty =? PENDING_QUEUE then pending s
  else aperiodic s.

(** ** The invariant of the dispatcher *)

(** The descriptors queued on the three heaps. *)
Definition queued (s : rt_scheduler) : list ptr :=
  queue_contents (runnable s) ++ queue_contents (pending s)
  ++ queue_contents (aperiodic s).

(** A heap queue in good order: it carries its type tag, is heap ordered by
    the key of that type and holds at most [MAX_QUEUE] descriptors. *)
Definition queue_ok (q : rt_queue) (ty : Z) (m : ptr -> rt_thread) : Prop :=
  qtype q = ty /\ queue_heap_ordered q m /\ (size q <= MAX_QUEUE)%nat.

(** Three heaps in good order over a store: no descriptor is queued twice
    or on two of them, and no queued descriptor is null. *)
Definition heaps3_ok (R P A : rt_queue) (m : ptr -> rt_thread) : Prop :=
  queue_ok R RUNNABLE_QUEUE m
  /\ queue_ok P PENDING_QUEUE m
  /\ queue_ok A APERIODIC_QUEUE m
  /\ NoDup (queue_contents R ++ queue_contents P ++ queue_contents A)
  /\ ~ In NULL (queue_contents R ++ queue_contents P ++ queue_contents A).

Definition heaps_ok (w : world) : Prop :=
  heaps3_ok (runnable (sched w)) (pending (sched w)) (aperiodic (sched w))
            (mem w).

(** The state in which [cur] runs: the heaps are in good order and [cur],
    which is not null, is on none of them. *)
Definition dispatch_ok (w : world) (cur : ptr) : Prop :=
  heaps_ok w /\ cur <> NULL /\ ~ In cur (queued (sched w)).

(** What a dequeue on one of three heaps in good order returns and leaves:
    [all] and [all'] are the queued descriptors before and after, [l] and
    [l'] the contents of the queue before and after. *)
Definition dequeue_post (m : ptr -> rt_thread) (ty : Z) (r : ptr)
           (q' : rt_queue) (l all all' : list ptr) : Prop :=
  (forall x, In x all' -> In x all)
  /\ (forall x, In x (queue_contents q') -> In x l)
  /\ ((r = NULL /\ size q' = 0%nat)
      \/ (r <> NULL /\ status (m r) <> TOBE_REMOVED /\ In r l
          /\ ~ In r all'
          /\ forall x, In x (queue_contents q') ->
                       heap_key ty m r <= heap_key ty m x)).

(** What a dispatch from [w] with [cur] running leads to: a state [w'] in
    which [r] runs, where every queued descriptor was queued before or is
    [cur], and [r] was queued before or is [cur]. *)
Definition dispatch_post (w w' : world) (cur r : ptr) : Prop :=
  dispatch_ok w' r
  /\ (forall x, In x (queued (sched w')) ->
                x = cur \/ In x (queued (sched w)))
  /\ (r = cur \/ In r (queued (sched w))).

(** [r] has the earliest deadline among itself and the descriptors on
    runnable. *)
Definition earliest (w : world) (r : ptr) : Prop :=
  forall x, In x (queue_contents (runnable (sched w))) ->
            deadline (mem w r) <= deadline (mem w x).

(** ** Retirement and the simulator's timer *)

(** [rt_thread_exit] called for the descriptors of [l], one after the
    other. *)
Definition exit_all (w : world) (l : list ptr) : world :=
  fold_left (fun w0 th => rt_thread_exit th w0) l w.

(** [set_timer_logic], lines 1577-1598: the interval the simulator computes
    for [th] at [time] over its pending queue [pq].  It returns the value
    and writes nothing. *)
Definition set_timer_logic (pq : rt_queue) (m : ptr -> rt_thread) (th : ptr)
           (time : Z) : Z :=
  if Nat.ltb 0 (size pq) && negb (Nat.eqb th NULL) then
    let next := m (threads pq O) in
    if type (m th) =? PERIODIC then
      umin (wrap64 (deadline next - time))
           (wrap64 (slice (constraints (m th)) - run_time (m th)))
    else umin (wrap64 (deadline next - time)) QUANTUM
  else if Nat.eqb (size pq) 0 && negb (Nat.eqb th NULL) then
    if type (m th) =? PERIODIC then
      wrap64 (slice (constraints (m th)) - run_time (m th))
    else QUANTUM
  else QUANTUM.

(** ** Period statistics *)

(** One iteration of either loop of [get_min_per] (lines 1209-1225), with
    [MIN(x, y)] as [(x < y) ? x : y] (line 38). *)
Definition add_min_per (m : ptr -> rt_thread) (acc : Z) (p : ptr) : Z :=
  if type (m p) =? PERIODIC then
    if period (constraints (m p)) <? acc then period (constraints (m p))
    else acc
  else acc.

(** [get_min_per], lines 1205-1227.  The loops declare a [thread] of their
    own, so the parameter [thread] is never read. *)
Definition get_min_per (rq pq : rt_queue) (th : ptr) (m : ptr -> rt_thread)
  : Z :=
  fold_left (add_min_per m) (contents (threads pq) (size pq))
    (fold_left (add_min_per m) (contents (threads rq) (size rq)) (two64 - 1)).

(** One iteration of either loop of [max_periodic] (lines 1338-1356): the
    pair is [max_thread] and [max_period]. *)
Definition max_periodic_step (m : ptr -> rt_thread) (acc : ptr * Z) (p : ptr)
  : ptr * Z :=
  if type (m p) =? PERIODIC then
    if period (constraints (m p)) >? snd acc
    then (p, period (constraints (m p)))
    else acc
  else acc.

(** [max_periodic], lines 1332-1358. *)
Definition max_periodic (s : rt_scheduler) (m : ptr -> rt_thread) : ptr :=
  fst (fold_left (max_periodic_step m)
         (contents (threads (pending s)) (size (pending s)))
         (fold_left (max_periodic_step m)
            (contents (threads (runnable s)) (size (runnable s)))
            (NULL, 0))).

(** One iteration of either loop of [get_avg_per] (lines 1176-1193), and
    its test of the new thread (lines 1195-1199): the pair is [sum_period]
    and [num_periodic]. *)
Definition add_avg_per (m : ptr -> rt_thread) (acc : Z * Z) (p : ptr) : Z * Z :=
  if type (m p) =? PERIODIC then
    (wrap64 (fst acc + period (constraints (m p))), wrap64 (snd acc + 1))
  else acc.

(** [get_avg_per], lines 1170-1203. *)
Definition get_avg_per (rq pq : rt_queue) (new_thread : ptr)
           (m : ptr -> rt_thread) : res Z :=
  let acc := fold_left (add_avg_per m) (contents (threads pq) (size pq))
               (fold_left (add_avg_per m) (contents (threads rq) (size rq))
                          (0, 0)) in
  let acc := add_avg_per m acc new_thread in
  let sum_period := wrap64 (fst acc + QUANTUM) in
  let num_periodic := wrap64 (snd acc + 1) in
  if num_periodic =? 0 then Err DivideByZero
  else Ok (sum_period / num_periodic).

(** ** The simulator's deadline helpers *)

(** [check_deadlines_logic], lines 1560-1566. *)
Definition check_deadlines_logic (t : ptr) (time : Z) (m : ptr -> rt_thread)
  : Z :=
  if time >? deadline (m t) then 1 else 0.

(** [update_periodic_logic], lines 1568-1575. *)
Definition update_periodic_logic (t : ptr) (time : Z) (m : ptr -> rt_thread)
  : ptr -> rt_thread :=
  if type (m t) =? PERIODIC then
    upd m t (set_run_time
               (set_deadline (m t)
                  (wrap64 (time + period (constraints (m t))))) 0)
  else m.

(** ** The simulator's dispatcher *)

(** [rt_simulator], lines 93-97: the three heaps of the simulator. *)
Record rt_simulator : Type := mk_simulator {
  sim_runnable : rt_queue;
  sim_pending : rt_queue;
  sim_aperiodic : rt_queue
}.

(** The release loop of [rt_need_resched_logic], lines 1456-1468.  What
    [dequeue_thread_logic] returns is enqueued as it is: the loop has no
    null test and no call of [update_periodic_logic].  An enqueue of null on
    a heap reads the deadline or priority of the null descriptor. *)
Fixpoint release_logic (fuel : nat) (time : Z) (s : rt_simulator)
         (m : ptr -> rt_thread) : res (rt_simulator * (ptr -> rt_thread)) :=
  match fuel with
  | O => Err NoFuel
  | S fuel' =>
      if Nat.ltb 0 (size (sim_pending s)) then
        if deadline (m (threads (sim_pending s) O)) <? time then
          let '(arrived_thread, pq) := dequeue_thread_logic (sim_pending s) m in
          if Nat.eqb arrived_thread NULL
             && is_heap_type (qtype (sim_runnable s))
          then Err NullDeref
          else
            let '(rq, m1) :=
              enqueue_thread_logic (sim_runnable s) arrived_thread m in
            release_logic fuel' time
              (mk_simulator rq pq (sim_aperiodic s)) m1
        else Ok (s, m)
      else Ok (s, m)
  end.

(** The choice shared by three branches of the [switch]: the next thread
    comes from runnable when it is not empty, else from aperiodic.  The
    value of [set_timer_logic] is computed and dropped. *)
Definition pick_logic (s : rt_simulator) (m : ptr -> rt_thread)
  : ptr * rt_simulator :=
  if Nat.ltb 0 (size (sim_runnable s)) then
    let '(next, rq) := dequeue_thread_logic (sim_runnable s) m in
    (next, mk_simulator rq (sim_pending s) (sim_aperiodic s))
  else
    let '(next, aq) := dequeue_thread_logic (sim_aperiodic s) m in
    (next, mk_simulator (sim_runnable s) (sim_pending s) aq).

(** The preemption test of the two budget-left branches (lines 1498-1510
    and 1530-1541): the thread taken from runnable is not tested against
    null. *)
Definition preempt_logic (s : rt_simulator) (m : ptr -> rt_thread)
           (th : ptr) : ptr * (rt_simulator * (ptr -> rt_thread)) :=
  if Nat.ltb 0 (size (sim_runnable s)) then
    if deadline (m th) >? deadline (m (threads (sim_runnable s) O)) then
      let '(next, rq) := dequeue_thread_logic (sim_runnable s) m in
      let '(rq1, m1) := enqueue_thread_logic rq th m in
      (next, (mk_simulator rq1 (sim_pending s) (sim_aperiodic s), m1))
    else (th, (s, m))
  else (th, (s, m)).

(** The [switch] of [rt_need_resched_logic], lines 1470-1546, for a
    [thread] that is not null. *)
Definition select_logic (s : rt_simulator) (m : ptr -> rt_thread) (th : ptr)
           (time : Z) : ptr * (rt_simulator * (ptr -> rt_thread)) :=
  let ty := type (m th) in
  if ty =? APERIODIC then
    let m1 := upd m th (set_priority (m th) (run_time (m th))) in
    let '(aq, m2) := enqueue_thread_logic (sim_aperiodic s) th m1 in
    let '(next, s1) :=
      pick_logic (mk_simulator (sim_runnable s) (sim_pending s) aq) m2 in
    (next, (s1, m2))
  else if ty =? SPORADIC then
    if run_time (m th) >=? work (constraints (m th)) then
      let '(next, s1) := pick_logic s m in (next, (s1, m))
    else preempt_logic s m th
  else if ty =? PERIODIC then
    if run_time (m th) >=? slice (constraints (m th)) then
      if negb (check_deadlines_logic th time m =? 0) then
        let m1 := update_periodic_logic th time m in
        let '(rq, m2) := enqueue_thread_logic (sim_runnable s) th m1 in
        let '(next, s1) :=
          pick_logic (mk_simulator rq (sim_pending s) (sim_aperiodic s)) m2 in
        (next, (s1, m2))
      else
        let '(pq, m2) := enqueue_thread_logic (sim_pending s) th m in
        let '(next, s1) :=
          pick_logic (mk_simulator (sim_runnable s) pq (sim_aperiodic s)) m2 in
        (next, (s1, m2))
    else preempt_logic s m th
  else (th, (s, m)).

(** [rt_need_resched_logic], lines 1453-1548.  After the release loop the
    source reads [thread->type] (line 1469) without a null test. *)
Definition rt_need_resched_logic (s : rt_simulator) (m : ptr -> rt_thread)
           (th : ptr) (time : Z)
  : res (ptr * (rt_simulator * (ptr -> rt_thread))) :=
  '(s1, m1) <- release_logic (S (size (sim_pending s))) time s m ;;
  if Nat.eqb th NULL then Err NullDeref
  else Ok (select_logic s1 m1 th time).

(** Two descriptors that differ in the queue tag and the priority at
    most. *)
Definition same_but_tag (t t' : rt_thread) : Prop :=
  type t' = type t /\ status t' = status t
  /\ period (constraints t') = period (constraints t)
  /\ slice (constraints t') = slice (constraints t)
  /\ work (constraints t') = work (constraints t)
  /\ start_time t' = start_time t
  /\ run_time t' = run_time t /\ deadline t' = deadline t
  /\ exit_time t' = exit_time t /\ thread t' = thread t.

(** What a simulated dispatch for [th] may change in a descriptor: the queue
    tag and the priority, and for [th] itself the deadline and the run
    time. *)
Definition sim_frame (th : ptr) (m m' : ptr -> rt_thread) : Prop :=
  forall p,
    type (m' p) = type (m p) /\ status (m' p) = status (m p)
    /\ start_time (m' p) = start_time (m p)
    /\ exit_time (m' p) = exit_time (m p)
    /\ thread (m' p) = thread (m p)
    /\ period (constraints (m' p)) = period (constraints (m p))
    /\ slice (constraints (m' p)) = slice (constraints (m p))
    /\ work (constraints (m' p)) = work (constraints (m p))
    /\ (p <> th -> run_time (m' p) = run_time (m p)
                   /\ deadline (m' p) = deadline (m p)).

(** The simulator in the state its code is written for: the three heaps
    carry the tags [init_simulator] gives them and hold no null descriptor,
    and the arrays have room for what a dispatch enqueues: every descriptor
    of pending may move to runnable, and the current thread may be enqueued
    on any of the three. *)
Definition sim_ok (s : rt_simulator) : Prop :=
  qtype (sim_runnable s) = RUNNABLE_QUEUE
  /\ qtype (sim_pending s) = PENDING_QUEUE
  /\ qtype (sim_aperiodic s) = APERIODIC_QUEUE
  /\ ~ In NULL (queue_contents (sim_runnable s))
  /\ ~ In NULL (queue_contents (sim_pending s))
  /\ ~ In NULL (queue_contents (sim_aperiodic s))
  /\ (size (sim_runnable s) + size (sim_pending s) < MAX_QUEUE)%nat
  /\ (size (sim_aperiodic s) < MAX_QUEUE)%nat.

(** ** What a dispatch does to the accounting fields *)

(** Descriptor [p] was re-released between [w] and [w'], the writes of
    [update_periodic] (lines 1131-1138): it is periodic, its run time is 0
    and its deadline is a reading of the counter taken in between, plus its
    period. *)
Definition rearmed (w w' : world) (p : ptr) : Prop :=
  type (mem w p) = PERIODIC
  /\ run_time (mem w' p) = 0
  /\ exists n, (rdtsc_reads w <= n < rdtsc_reads w')%nat
               /\ deadline (mem w' p)
                  = wrap64 (wrap64 (rdtsc_src w n)
                            + period (constraints (mem w p))).

(** From [w] to [w'] the counter was read and nothing else happened to it;
    no descriptor changed its type, period, start time or exit time, and a
    descriptor changed its run time or deadline only by a re-release, which
    only descriptors in [P] underwent. *)
Definition bill_frame (P : ptr -> Prop) (w w' : world) : Prop :=
  rdtsc_src w' = rdtsc_src w
  /\ (rdtsc_reads w <= rdtsc_reads w')%nat
  /\ forall p,
       type (mem w' p) = type (mem w p)
       /\ period (constraints (mem w' p)) = period (constraints (mem w p))
       /\ start_time (mem w' p) = start_time (mem w p)
       /\ exit_time (mem w' p) = exit_time (mem w p)
       /\ ((run_time (mem w' p) = run_time (mem w p)
            /\ deadline (mem w' p) = deadline (mem w p))
           \/ (P p /\ rearmed w w' p)).

(** [p] is on pending, as far as pending carries its tag. *)
Definition on_pending (w : world) (p : ptr) : Prop :=
  qtype (pending (sched w)) = PENDING_QUEUE ->
  In p (queue_contents (pending (sched w))).

(** The last act between [w] and [w'] was a [set_timer]: the counter
    reading it took is the last one and is in [tsc->start_time]. *)
Definition stamped (w w' : world) : Prop :=
  exists n, (rdtsc_reads w <= n)%nat /\ rdtsc_reads w' = S n
            /\ tsc_start_time (tsc (sched w')) = wrap64 (rdtsc_src w' n).

(** ** Example states for the admission test *)



(** Case analysis on every test of a goal. *)
Ltac split_ifs :=
  repeat match goal with
         | |- context [if ?b then _ else _] => destruct b
         end.

(** * Properties *)

(** ** Index arithmetic and array updates *)

Lemma parent_eq (i : nat) : parent i = ((i - 1) / 2)%nat.
Proof.
  unfold parent. destruct (Nat.eqb_spec i 0) as [->|_].
  - reflexivity.
  - rewrite Nat.shiftr_div_pow2. reflexivity.
Qed.

Lemma left_child_eq (i : nat) : left_child i = (2 * i + 1)%nat.
Proof. unfold left_child. rewrite Nat.shiftl_mul_pow2. simpl. lia. Qed.

Lemma right_child_eq (i : nat) : right_child i = (2 * i + 2)%nat.
Proof. unfold right_child. rewrite Nat.shiftl_mul_pow2. simpl. lia. Qed.

Lemma parent_cases (i : nat) :
  (0 < i)%nat -> i = left_child (parent i) \/ i = right_child (parent i).
Proof.
  intros Hi. rewrite left_child_eq, right_child_eq, parent_eq.
  pose proof (Nat.div_mod_eq (i - 1) 2) as E.
  pose proof (Nat.mod_upper_bound (i - 1) 2) as B. lia.
Qed.

Lemma parent_lt (i : nat) : (0 < i)%nat -> (parent i < i)%nat.
Proof.
  intros Hi. destruct (parent_cases i Hi) as [E|E];
    rewrite ?left_child_eq, ?right_child_eq in E; lia.
Qed.

Lemma parent_zero (i : nat) : i = parent i -> i = 0%nat.
Proof.
  intros E. destruct (Nat.eq_dec i 0) as [|N]; [assumption|].
  pose proof (parent_lt i). lia.
Qed.

Lemma parent_left (i : nat) : parent (left_child i) = i.
Proof.
  rewrite parent_eq, left_child_eq.
  replace (2 * i + 1 - 1)%nat with (i * 2)%nat by lia.
  apply Nat.div_mul. discriminate.
Qed.

Lemma parent_right (i : nat) : parent (right_child i) = i.
Proof.
  rewrite parent_eq, right_child_eq.
  replace (2 * i + 2 - 1)%nat with (1 + i * 2)%nat by lia.
  rewrite Nat.div_add by discriminate. reflexivity.
Qed.

Lemma parent_child (c i : nat) :
  parent c = i -> c <> i -> c = left_child i \/ c = right_child i.
Proof.
  intros E N. destruct (Nat.eq_dec c 0) as [->|Hc].
  - unfold parent in E. simpl in E. congruence.
  - subst i. apply parent_cases. lia.
Qed.

Lemma upd_same {A : Type} (f : nat -> A) (i : nat) (v : A) : upd f i v i = v.
Proof. unfold upd. rewrite Nat.eqb_refl. reflexivity. Qed.

Lemma upd_other {A : Type} (f : nat -> A) (i j : nat) (v : A) :
  j <> i -> upd f i v j = f j.
Proof.
  intros N. unfold upd. destruct (Nat.eqb_spec j i); [contradiction|reflexivity].
Qed.

Lemma contents_length (a : nat -> ptr) (n : nat) : length (contents a n) = n.
Proof. unfold contents. rewrite length_map, length_seq. reflexivity. Qed.

Lemma contents_S (a : nat -> ptr) (n : nat) :
  contents a (S n) = contents a n ++ [a n].
Proof. unfold contents. rewrite seq_S, map_app. reflexivity. Qed.

Lemma contents_ext (a b : nat -> ptr) (n : nat) :
  (forall i, (i < n)%nat -> a i = b i) -> contents a n = contents b n.
Proof.
  intros H. unfold contents. apply map_ext_in. intros i Hi.
  apply in_seq in Hi. apply H. lia.
Qed.

Lemma in_contents (a : nat -> ptr) (n : nat) (p : ptr) :
  In p (contents a n) <-> exists i, (i < n)%nat /\ a i = p.
Proof.
  unfold contents. rewrite in_map_iff. split.
  - intros (i & E & Hi). apply in_seq in Hi. exists i. split; [lia|assumption].
  - intros (i & Hi & E). exists i. split; [assumption|]. apply in_seq. lia.
Qed.

Lemma contents_upd_out (a : nat -> ptr) (n i : nat) (v : ptr) :
  (n <= i)%nat -> contents (upd a i v) n = contents a n.
Proof.
  intros H. apply contents_ext. intros k Hk. apply upd_other. lia.
Qed.

Lemma transp_bound (n i j : nat) :
  (i < n)%nat -> (j < n)%nat -> forall k, (k < n)%nat -> (transp i j k < n)%nat.
Proof.
  intros Hi Hj k Hk. unfold transp.
  destruct (Nat.eqb k i); [assumption|]. destruct (Nat.eqb k j); assumption.
Qed.

Lemma transp_inj (i j x y : nat) : transp i j x = transp i j y -> x = y.
Proof.
  unfold transp.
  destruct (Nat.eqb_spec x i), (Nat.eqb_spec x j),
           (Nat.eqb_spec y i), (Nat.eqb_spec y j); intros; subst; congruence.
Qed.

(** Exchanging two slots below [n] permutes the contents. *)
Lemma contents_transp (a : nat -> ptr) (n i j : nat) :
  (i < n)%nat -> (j < n)%nat ->
  Permutation (contents (fun k => a (transp i j k)) n) (contents a n).
Proof.
  intros Hi Hj. unfold contents.
  change (map (fun k => a (transp i j k)) (seq 0 n))
    with (map (fun k => a ((transp i j) k)) (seq 0 n)).
  rewrite <- (map_map (transp i j) a).
  apply Permutation_map.
  apply (@nat_bijection_Permutation n (transp i j)).
  - intros k Hk. apply transp_bound; assumption.
  - intros x y. apply transp_inj.
Qed.

(** ** The heap loops keep the heap order and the contents *)

Section HeapProofs.
Variable key : ptr -> Z.

Lemma heap_root_min (a : nat -> ptr) (n : nat) :
  heap_ordered key a n -> forall i, (i < n)%nat -> key (a O) <= key (a i).
Proof.
  intros H i. induction i as [i IH] using lt_wf_ind. intros Hi.
  destruct (Nat.eq_dec i 0) as [->|N]; [lia|].
  assert (Hp : (parent i < i)%nat) by (apply parent_lt; lia).
  specialize (IH (parent i) Hp ltac:(lia)).
  specialize (H i ltac:(lia)). lia.
Qed.

Lemma up_inv_exit (th : ptr) (a : nat -> ptr) (pos n : nat) :
  up_inv key th a pos n ->
  pos = parent pos \/ key (a (parent pos)) <= key th ->
  heap_ordered key (upd a pos th) n.
Proof.
  intros [I1 I2] Hex i Hi.
  destruct (Nat.eq_dec i pos) as [->|Ni].
  - rewrite upd_same.
    assert (Hp : (parent pos < pos)%nat) by (apply parent_lt; lia).
    rewrite upd_other by lia.
    destruct Hex as [E|Hle]; [lia|assumption].
  - rewrite (upd_other a pos i) by assumption.
    destruct (Nat.eq_dec (parent i) pos) as [E|Np].
    + rewrite E, upd_same. apply (I2 i); [lia|assumption|assumption].
    + rewrite upd_other by assumption. apply I1; assumption.
Qed.

Lemma up_inv_step (th : ptr) (a : nat -> ptr) (pos n : nat) :
  (pos < n)%nat -> up_inv key th a pos n ->
  key (a (parent pos)) > key th -> pos <> parent pos ->
  up_inv key th (upd a pos (a (parent pos))) (parent pos) n.
Proof.
  intros Hn [I1 I2] Hgt Hne.
  assert (H0 : (0 < pos)%nat) by (destruct pos; [exfalso; apply Hne; reflexivity|lia]).
  assert (Hp : (parent pos < pos)%nat) by (apply parent_lt; assumption).
  split.
  - intros i Hi Ni Npi.
    assert (Nip : i <> pos) by (intros ->; apply Npi; reflexivity).
    rewrite (upd_other a pos i) by assumption.
    destruct (Nat.eq_dec (parent i) pos) as [E|Np].
    + rewrite E, upd_same. apply (I2 i); [lia|assumption|assumption|lia].
    + rewrite upd_other by assumption. apply I1; assumption.
  - intros c Hc Nc Ec.
    assert (Hpp : upd a pos (a (parent pos)) (parent (parent pos))
                  = a (parent (parent pos))).
    { apply upd_other. pose proof (parent_lt (parent pos)).
      destruct (Nat.eq_dec (parent pos) 0) as [Z0|NZ].
      - rewrite Z0. unfold parent. simpl. lia.
      - lia. }
    rewrite Hpp.
    destruct (Nat.eq_dec c pos) as [->|Ncp].
    + rewrite upd_same. split; [lia|].
      intros NZ. pose proof (parent_lt (parent pos) ltac:(lia)).
      apply I1; lia.
    + rewrite upd_other by assumption.
      assert (Hc1 : key (a (parent c)) <= key (a c)).
      { apply I1; [|assumption|rewrite Ec; lia].
        split; [|assumption]. destruct c; [|lia].
        exfalso. apply Nc. rewrite <- Ec. reflexivity. }
      rewrite Ec in Hc1. split; [lia|].
      intros NZ. pose proof (parent_lt (parent pos) ltac:(lia)).
      assert (key (a (parent (parent pos))) <= key (a (parent pos))).
      { apply I1; lia. }
      lia.
Qed.

Lemma upd_hole_transp (a : nat -> ptr) (i j : nat) (v : ptr) (k : nat) :
  i <> j ->
  upd (upd a i (a j)) j v k = upd a i v (transp i j k).
Proof.
  intros N. unfold transp, upd.
  destruct (Nat.eqb_spec k j) as [->|Nj].
  - destruct (Nat.eqb_spec j i); [congruence|]. rewrite Nat.eqb_refl. reflexivity.
  - destruct (Nat.eqb_spec k i) as [->|Ni].
    + destruct (Nat.eqb_spec j i); [congruence|reflexivity].
    + destruct (Nat.eqb_spec k i); [congruence|]. reflexivity.
Qed.

Lemma hole_move_perm (a : nat -> ptr) (n i j : nat) (v : ptr) :
  (i < n)%nat -> (j < n)%nat -> i <> j ->
  Permutation (contents (upd (upd a i (a j)) j v) n) (contents (upd a i v) n).
Proof.
  intros Hi Hj N.
  rewrite (contents_ext _ (fun k => upd a i v (transp i j k)) n).
  - apply contents_transp; assumption.
  - intros k _. apply upd_hole_transp. assumption.
Qed.

Lemma sift_up_correct (fuel : nat) :
  forall (th : ptr) (a : nat -> ptr) (pos n : nat) a' pos',
    (pos <= fuel)%nat -> (pos < n)%nat -> up_inv key th a pos n ->
    sift_up key fuel th a pos = (a', pos') ->
    heap_ordered key (upd a' pos' th) n
    /\ Permutation (contents (upd a' pos' th) n) (contents (upd a pos th) n).
Proof.
  induction fuel as [|fuel IH]; intros th a pos n a' pos' Hf Hn Inv E.
  - simpl in E. inversion E; subst a' pos'. split; [|reflexivity].
    apply up_inv_exit; [assumption|]. left.
    assert (pos = 0%nat) by lia. subst pos. reflexivity.
  - simpl in E.
    destruct (key (a (parent pos)) >? key th) eqn:Hk;
      [destruct (Nat.eqb_spec pos (parent pos)) as [Ep|Np]|]; simpl in E.
    + inversion E; subst a' pos'. split; [|reflexivity].
      apply up_inv_exit; [assumption|]. left. assumption.
    + assert (H0 : (0 < pos)%nat)
        by (destruct pos; [exfalso; apply Np; reflexivity|lia]).
      pose proof (parent_lt pos H0) as Hp.
      apply Z.gtb_lt in Hk.
      destruct (IH th _ (parent pos) n a' pos' ltac:(lia) ltac:(lia)
                   (up_inv_step th a pos n Hn Inv ltac:(lia) Np) E) as [HO HP].
      split; [assumption|].
      etransitivity; [exact HP|].
      apply hole_move_perm; lia.
    + inversion E; subst a' pos'. split; [|reflexivity].
      apply up_inv_exit; [assumption|]. right.
      rewrite Z.gtb_ltb in Hk. apply Z.ltb_ge in Hk. assumption.
Qed.

(** Inserting into a heap of [n] elements gives a heap of [n + 1] elements
    holding the old contents and the new descriptor. *)
Lemma heap_insert_correct (n : nat) (a : nat -> ptr) (th : ptr) :
  heap_ordered key a n ->
  exists a', heap_insert key n a th = (S n, a')
             /\ heap_ordered key a' (S n)
             /\ Permutation (contents a' (S n)) (th :: contents a n).
Proof.
  intros H. unfold heap_insert.
  destruct (sift_up key n th (upd a n th) n) as [a1 pos1] eqn:E.
  exists (upd a1 pos1 th). split; [reflexivity|].
  assert (Inv : up_inv key th (upd a n th) n (S n)).
  { split.
    - intros i Hi Ni Np. rewrite !upd_other by assumption. apply H. lia.
    - intros c Hc Nc Ec. exfalso.
      destruct (parent_child c n Ec Nc) as [E1|E1];
        rewrite ?left_child_eq, ?right_child_eq in E1; lia. }
  destruct (sift_up_correct n th _ n (S n) a1 pos1 (le_n _) (Nat.lt_succ_diag_r _)
              Inv E) as [HO HP].
  split; [assumption|].
  etransitivity; [exact HP|].
  assert (Eu : forall k, upd (upd a n th) n th k = upd a n th k).
  { intros k. unfold upd. destruct (Nat.eqb k n); reflexivity. }
  rewrite (contents_ext _ _ (S n) (fun k _ => Eu k)).
  rewrite contents_S, upd_same, contents_upd_out by lia.
  symmetry. apply Permutation_cons_append.
Qed.

(** The child the sift-down loop compares [last] with. *)
Lemma down_child_cases (a : nat -> ptr) (now n : nat) :
  (left_child now < n)%nat ->
  let child :=
    if Nat.ltb (left_child now) n
       && (key (a (right_child now)) <? key (a (left_child now)))
    then right_child now else left_child now in
  (child = right_child now
   /\ key (a (right_child now)) < key (a (left_child now)))
  \/ (child = left_child now
      /\ key (a (left_child now)) <= key (a (right_child now))).
Proof.
  intros Hl. simpl.
  destruct (Nat.ltb_spec (left_child now) n) as [_|]; [|lia]. simpl.
  destruct (Z.ltb_spec (key (a (right_child now))) (key (a (left_child now))));
    [left|right]; split; (reflexivity || assumption).
Qed.

Lemma down_inv_exit_leaf (last : ptr) (a : nat -> ptr) (now n : nat) :
  down_inv key last a now n -> (n <= left_child now)%nat ->
  heap_ordered key (upd a now last) n.
Proof.
  intros (I1 & I2 & I3 & I4) Hl i Hi.
  destruct (Nat.eq_dec i now) as [->|Ni].
  - rewrite upd_same.
    assert (Hp : (parent now < now)%nat) by (apply parent_lt; lia).
    rewrite upd_other by lia. apply I3. lia.
  - rewrite (upd_other a now i) by assumption.
    destruct (Nat.eq_dec (parent i) now) as [E|Np].
    + exfalso. destruct (parent_child i now E Ni) as [E1|E1];
        rewrite left_child_eq in Hl;
        rewrite ?left_child_eq, ?right_child_eq in E1; lia.
    + rewrite upd_other by assumption. apply I1; assumption.
Qed.

Lemma down_inv_exit_break (last : ptr) (a : nat -> ptr) (now n child : nat) :
  down_inv key last a now n -> (left_child now < n)%nat ->
  (child = right_child now
   /\ key (a (right_child now)) < key (a (left_child now)))
  \/ (child = left_child now
      /\ key (a (left_child now)) <= key (a (right_child now))) ->
  key last <= key (a child) ->
  heap_ordered key (upd a now last) n.
Proof.
  intros (I1 & I2 & I3 & I4) Hl Hc Hle i Hi.
  destruct (Nat.eq_dec i now) as [->|Ni].
  - rewrite upd_same.
    assert (Hp : (parent now < now)%nat) by (apply parent_lt; lia).
    rewrite upd_other by lia. apply I3. lia.
  - rewrite (upd_other a now i) by assumption.
    destruct (Nat.eq_dec (parent i) now) as [E|Np].
    + rewrite E, upd_same.
      destruct (parent_child i now E Ni) as [E1|E1]; subst i;
        destruct Hc as [[-> Hlt]|[-> Hlt]]; lia.
    + rewrite upd_other by assumption. apply I1; assumption.
Qed.

Lemma down_inv_step (last : ptr) (a : nat -> ptr) (now n child : nat) :
  down_inv key last a now n -> (left_child now < n)%nat ->
  (child = right_child now
   /\ key (a (right_child now)) < key (a (left_child now)))
  \/ (child = left_child now
      /\ key (a (left_child now)) <= key (a (right_child now))) ->
  key last > key (a child) ->
  (child < n)%nat /\ (now < child)%nat
  /\ down_inv key last (upd a now (a child)) child n.
Proof.
  intros (I1 & I2 & I3 & I4) Hl Hc Hgt.
  assert (Hnc : (now < child)%nat).
  { destruct Hc as [[-> _]|[-> _]];
      rewrite ?left_child_eq, ?right_child_eq; lia. }
  assert (Hpc : parent child = now).
  { destruct Hc as [[-> _]|[-> _]]; [apply parent_right|apply parent_left]. }
  assert (Hcn : (child < n)%nat).
  { destruct Hc as [[-> _]|[-> _]]; [|assumption].
    destruct (Nat.eq_dec (right_child now) n) as [E|N].
    - rewrite E, I4 in Hgt. lia.
    - rewrite right_child_eq in *. rewrite left_child_eq in Hl. lia. }
  split; [assumption|]. split; [assumption|].
  assert (Hnn : (now < n)%nat) by lia.
  split; [|split; [|split]].
  - intros i Hi Ni Npi.
    destruct (Nat.eq_dec i now) as [->|Nin].
    + rewrite upd_same.
      assert (Hp : (parent now < now)%nat) by (apply parent_lt; lia).
      rewrite upd_other by lia.
      apply I2; [assumption|lia|assumption|lia].
    + rewrite (upd_other a now i) by assumption.
      destruct (Nat.eq_dec (parent i) now) as [E|Np].
      * rewrite E, upd_same.
        destruct (parent_child i now E Nin) as [E1|E1]; subst i;
          destruct Hc as [[-> Hlt]|[-> Hlt]]; try lia; contradiction.
      * rewrite upd_other by assumption. apply I1; assumption.
  - intros c Hcc Nc Ec _.
    rewrite Hpc, upd_same.
    assert (Hlt : (child < c)%nat).
    { assert (0 < c)%nat.
      { destruct c; [|lia]. change (parent 0) with 0%nat in Ec. lia. }
      pose proof (parent_lt c ltac:(assumption)). lia. }
    rewrite upd_other by lia.
    rewrite <- Ec. apply I1; lia.
  - intros _. rewrite Hpc, upd_same. lia.
  - rewrite upd_other by lia. assumption.
Qed.

Lemma sift_down_correct (fuel : nat) :
  forall (n : nat) (last : ptr) (a : nat -> ptr) (now : nat) a' now',
    (n <= now + fuel)%nat -> (now < n)%nat -> down_inv key last a now n ->
    sift_down key fuel n last a now = (a', now') ->
    heap_ordered key (upd a' now' last) n
    /\ Permutation (contents (upd a' now' last) n) (contents (upd a now last) n).
Proof.
  induction fuel as [|fuel IH]; intros n last a now a' now' Hf Hn Inv E.
  - lia.
  - simpl in E.
    destruct (Nat.ltb_spec (left_child now) n) as [Hl|Hl].
    + pose proof (down_child_cases a now n Hl) as Hc. simpl in Hc.
      destruct (Nat.ltb_spec (left_child now) n) as [_|]; [|lia].
      simpl in E, Hc.
      set (child := if key (a (right_child now)) <? key (a (left_child now))
                    then right_child now else left_child now) in *.
      destruct (key last >? key (a child)) eqn:Hk.
      * apply Z.gtb_lt in Hk.
        destruct (down_inv_step last a now n child Inv Hl Hc ltac:(lia))
          as (Hcn & Hnc & Inv').
        destruct (IH n last _ child a' now' ltac:(lia) Hcn Inv' E) as [HO HP].
        split; [assumption|].
        etransitivity; [exact HP|].
        apply hole_move_perm; lia.
      * inversion E; subst a' now'. split; [|reflexivity].
        rewrite Z.gtb_ltb in Hk. apply Z.ltb_ge in Hk.
        eapply down_inv_exit_break; eassumption.
    + inversion E; subst a' now'. split; [|reflexivity].
      apply down_inv_exit_leaf; assumption.
Qed.

(** One dequeue of a heap whose root is not marked [TOBE_REMOVED]: the root
    comes out, the rest is a heap again. *)
Lemma dequeue_heap_live (st : ptr -> Z) (sz : nat) (a : nat -> ptr) :
  heap_ordered key a (S sz) -> st (a O) <> TOBE_REMOVED ->
  exists a', dequeue_heap key st (S sz) a = (a O, (sz, a'))
             /\ heap_ordered key a' sz
             /\ Permutation (a O :: contents a' sz) (contents a (S sz)).
Proof.
  intros H Hst. simpl.
  destruct (sift_down key sz sz (a sz) a 0) as [a1 now] eqn:E.
  destruct (Z.eqb_spec (st (a O)) TOBE_REMOVED) as [|_]; [contradiction|].
  exists (upd a1 now (a sz)). split; [reflexivity|].
  destruct sz as [|sz].
  - simpl in E. inversion E; subst. split.
    + intros i Hi. lia.
    + reflexivity.
  - assert (Inv : down_inv key (a (S sz)) a 0 (S sz)).
    { split; [|split; [|split]].
      - intros i Hi _ _. apply H. lia.
      - intros c _ _ _ N. contradiction.
      - intros N. contradiction.
      - reflexivity. }
    destruct (sift_down_correct (S sz) (S sz) (a (S sz)) a 0 a1 now
                ltac:(lia) ltac:(lia) Inv E) as [HO HP].
    split; [assumption|].
    rewrite HP.
    rewrite (contents_S a (S sz)).
    unfold contents at 1 2. simpl.
    rewrite upd_same.
    rewrite <- !seq_shift, !map_map.
    rewrite (map_ext (fun x => upd a 0 (a (S sz)) (S x)) (fun x => a (S x)))
      by (intros x; apply upd_other; lia).
    apply perm_skip. apply Permutation_cons_append.
Qed.
End HeapProofs.

Section HeapSkip.
Variable key : ptr -> Z.
Variable st : ptr -> Z.

(** Whatever [dequeue_heap] returns is null or not marked [TOBE_REMOVED],
    a null result leaves the heap empty, and the size never grows. *)
Lemma dequeue_heap_result (n : nat) :
  forall (a : nat -> ptr) r n' a',
    dequeue_heap key st n a = (r, (n', a')) ->
    (n' <= n)%nat /\ ((0 < n)%nat -> (n' < n)%nat)
    /\ (st r <> TOBE_REMOVED \/ (r = NULL /\ n' = 0%nat)).
Proof.
  induction n as [|sz IH]; intros a r n' a' E.
  - simpl in E. inversion E; subst. split; [lia|]. split; [lia|].
    right. split; reflexivity.
  - simpl in E.
    destruct (sift_down key sz sz (a sz) a 0) as [a1 now].
    destruct (Z.eqb_spec (st (a O)) TOBE_REMOVED) as [Hs|Hs].
    + destruct (IH _ _ _ _ E) as (H1 & H2 & H3).
      split; [lia|]. split; [lia|]. assumption.
    + inversion E; subst. split; [lia|]. split; [lia|]. left. assumption.
Qed.
End HeapSkip.

(** ** Queue level: [enqueue_thread] and [dequeue_thread] on heap queues *)

Lemma is_heap_type_cases (ty : Z) :
  is_heap_type ty = true ->
  ty = RUNNABLE_QUEUE \/ ty = PENDING_QUEUE \/ ty = APERIODIC_QUEUE.
Proof.
  unfold is_heap_type. intros H.
  apply orb_true_iff in H. destruct H as [H|H].
  - apply orb_true_iff in H. destruct H as [H|H]; apply Z.eqb_eq in H; auto.
  - apply Z.eqb_eq in H. auto.
Qed.

Lemma enqueue_thread_heap (q : rt_queue) (th : ptr) (m : ptr -> rt_thread) :
  is_heap_type (qtype q) = true ->
  enqueue_thread q th m = enqueue_heap (heap_key (qtype q)) q th m.
Proof.
  intros H. unfold enqueue_thread, heap_key.
  destruct (is_heap_type_cases _ H) as [E|[E|E]]; rewrite E; reflexivity.
Qed.

Lemma dequeue_thread_heap (q : rt_queue) (m : ptr -> rt_thread) :
  is_heap_type (qtype q) = true ->
  dequeue_thread q m = Ok (dequeue_heap_queue (heap_key (qtype q)) q m).
Proof.
  intros H. unfold dequeue_thread, heap_key.
  destruct (is_heap_type_cases _ H) as [E|[E|E]]; rewrite E; reflexivity.
Qed.

(** Writing [q_type] (or the status) of a descriptor changes no key. *)
Lemma heap_key_set_q_type (ty : Z) (m : ptr -> rt_thread) (th : ptr) (v : Z)
      (p : ptr) :
  heap_key ty (upd m th (set_q_type (m th) v)) p = heap_key ty m p.
Proof.
  unfold heap_key, key_priority, key_deadline, upd.
  destruct (ty =? APERIODIC_QUEUE); destruct (Nat.eqb p th) eqn:E;
    try reflexivity; apply Nat.eqb_eq in E; subst; reflexivity.
Qed.

Lemma status_set_q_type (m : ptr -> rt_thread) (th : ptr) (v : Z) (p : ptr) :
  status (upd m th (set_q_type (m th) v) p) = status (m p).
Proof.
  unfold upd. destruct (Nat.eqb_spec p th) as [->|]; reflexivity.
Qed.

Lemma heap_ordered_ext (k1 k2 : ptr -> Z) (a : nat -> ptr) (n : nat) :
  (forall p, k1 p = k2 p) -> heap_ordered k1 a n -> heap_ordered k2 a n.
Proof. intros E H i Hi. rewrite <- !E. apply H. assumption. Qed.

(** Enqueueing on a heap queue that is not full. *)
Lemma enqueue_thread_heap_correct (q : rt_queue) (th : ptr)
      (m : ptr -> rt_thread) :
  is_heap_type (qtype q) = true -> (size q < MAX_QUEUE)%nat ->
  queue_heap_ordered q m ->
  exists q',
    enqueue_thread q th m = (q', upd m th (set_q_type (m th) (qtype q)))
    /\ qtype q' = qtype q /\ size q' = S (size q)
    /\ head q' = head q /\ tail q' = tail q
    /\ queue_heap_ordered q' (upd m th (set_q_type (m th) (qtype q)))
    /\ Permutation (queue_contents q') (th :: queue_contents q).
Proof.
  intros Hty Hsz HO. rewrite enqueue_thread_heap by assumption.
  unfold enqueue_heap.
  destruct (Nat.eqb_spec (size q) MAX_QUEUE) as [E|_]; [lia|].
  destruct (heap_insert_correct (heap_key (qtype q) m) (size q) (threads q) th HO)
    as (a' & E & HO' & HP).
  rewrite E. eexists. split; [reflexivity|]. simpl.
  repeat split; try reflexivity.
  - unfold queue_heap_ordered. simpl.
    eapply heap_ordered_ext; [|exact HO'].
    intros p. symmetry. apply heap_key_set_q_type.
  - exact HP.
Qed.

(** Enqueueing on a full queue changes nothing. *)
Lemma enqueue_thread_full (q : rt_queue) (th : ptr) (m : ptr -> rt_thread) :
  size q = MAX_QUEUE -> enqueue_thread q th m = (q, m).
Proof.
  intros E. unfold enqueue_thread, enqueue_heap, enqueue_ring.
  rewrite E, Nat.eqb_refl.
  repeat match goal with |- context [if ?b then _ else _] => destruct b end;
    reflexivity.
Qed.

(** Dequeueing from a heap queue whose root is live. *)
Lemma dequeue_thread_heap_live (q : rt_queue) (m : ptr -> rt_thread) :
  is_heap_type (qtype q) = true -> (0 < size q)%nat ->
  queue_heap_ordered q m -> status (m (threads q O)) <> TOBE_REMOVED ->
  exists q',
    dequeue_thread q m = Ok (threads q O, q')
    /\ qtype q' = qtype q /\ S (size q') = size q
    /\ head q' = head q /\ tail q' = tail q
    /\ queue_heap_ordered q' m
    /\ Permutation (threads q O :: queue_contents q') (queue_contents q).
Proof.
  intros Hty Hsz HO Hst. rewrite dequeue_thread_heap by assumption.
  unfold dequeue_heap_queue, queue_heap_ordered, queue_contents in *.
  destruct (size q) as [|sz] eqn:Es; [lia|].
  destruct (dequeue_heap_live (heap_key (qtype q) m) (fun p => status (m p))
              sz (threads q) HO Hst) as (a' & E & HO' & HP).
  rewrite E. eexists. split; [reflexivity|]. simpl.
  repeat split; try reflexivity; assumption.
Qed.



Lemma enqueue_all_cons (q : rt_queue) (m : ptr -> rt_thread) (x : ptr)
      (l : list ptr) :
  enqueue_all q m (x :: l)
  = enqueue_all (fst (enqueue_thread q x m)) (snd (enqueue_thread q x m)) l.
Proof.
  unfold enqueue_all. simpl. destruct (enqueue_thread q x m). reflexivity.
Qed.

(** Enqueueing a list on a heap queue with room for it. *)
Lemma enqueue_all_heap (l : list ptr) :
  forall (q : rt_queue) (m : ptr -> rt_thread),
    is_heap_type (qtype q) = true ->
    (size q + length l <= MAX_QUEUE)%nat ->
    queue_heap_ordered q m ->
    exists q' m',
      enqueue_all q m l = (q', m')
      /\ qtype q' = qtype q
      /\ size q' = (size q + length l)%nat
      /\ queue_heap_ordered q' m'
      /\ Permutation (queue_contents q') (queue_contents q ++ l)
      /\ (forall p, heap_key (qtype q) m' p = heap_key (qtype q) m p
                    /\ status (m' p) = status (m p)).
Proof.
  induction l as [|x l IH]; intros q m Hty Hsz HO.
  - exists q, m. simpl. repeat split; try reflexivity.
    + lia.
    + assumption.
    + rewrite app_nil_r. reflexivity.
  - simpl in Hsz.
    destruct (enqueue_thread_heap_correct q x m Hty ltac:(lia) HO)
      as (q1 & E & Hq & Hs & _ & _ & HO1 & HP1).
    rewrite enqueue_all_cons, E. simpl.
    destruct (IH q1 _ ltac:(rewrite Hq; assumption) ltac:(lia) HO1)
      as (q' & m' & E' & Hq' & Hs' & HO' & HP' & Hfr).
    exists q', m'. split; [assumption|].
    split; [congruence|]. split; [simpl; lia|]. split; [assumption|].
    split.
    + rewrite HP', HP1. simpl.
      rewrite <- Permutation_middle. reflexivity.
    + intros p. destruct (Hfr p) as [K S1]. rewrite Hq in K.
      rewrite K, S1, heap_key_set_q_type, status_set_q_type.
      split; reflexivity.
Qed.

(** Draining a heap queue of live descriptors lists its contents in
    non-decreasing key order and leaves it empty. *)
Lemma drain_queue_heap (fuel : nat) :
  forall (q : rt_queue) (m : ptr -> rt_thread),
    is_heap_type (qtype q) = true -> (size q <= fuel)%nat ->
    queue_heap_ordered q m ->
    (forall p, In p (queue_contents q) ->
               p <> NULL /\ status (m p) <> TOBE_REMOVED) ->
    exists l q',
      drain_queue fuel q m = (l, q')
      /\ Permutation l (queue_contents q)
      /\ StronglySorted
           (fun x y => heap_key (qtype q) m x <= heap_key (qtype q) m y) l
      /\ size q' = 0%nat.
Proof.
  induction fuel as [|fuel IH]; intros q m Hty Hsz HO Hlive.
  - exists [], q. simpl. assert (E : size q = 0%nat) by lia.
    unfold queue_contents. rewrite E. simpl.
    repeat split; [reflexivity|constructor].
  - destruct (Nat.eq_dec (size q) 0) as [E|N].
    + simpl. rewrite dequeue_thread_heap by assumption.
      unfold dequeue_heap_queue, queue_contents. rewrite E. simpl.
      exists [], (mk_queue (qtype q) 0 (head q) (tail q) (threads q)).
      repeat split; [reflexivity|constructor].
    + assert (Hroot : In (threads q O) (queue_contents q)).
      { apply in_contents. exists O. split; [lia|reflexivity]. }
      destruct (Hlive _ Hroot) as [Hnn Hst].
      destruct (dequeue_thread_heap_live q m Hty ltac:(lia) HO Hst)
        as (q1 & E & Hq & Hs & _ & _ & HO1 & HP1).
      assert (Hlive1 : forall p, In p (queue_contents q1) ->
                                 p <> NULL /\ status (m p) <> TOBE_REMOVED).
      { intros p Hp. apply Hlive.
        apply (Permutation_in _ HP1). right. assumption. }
      destruct (IH q1 m ltac:(rewrite Hq; assumption) ltac:(lia) HO1 Hlive1)
        as (l & q' & E' & HP' & HS' & Hz).
      simpl. rewrite E.
      destruct (Nat.eqb_spec (threads q O) NULL) as [En|_]; [contradiction|].
      rewrite E'. exists (threads q O :: l), q'.
      split; [reflexivity|]. split; [|split; [|assumption]].
      * rewrite <- HP1. apply perm_skip. assumption.
      * rewrite Hq in HS'. constructor; [assumption|].
        apply Forall_forall. intros x Hx.
        assert (Hin : In x (queue_contents q)).
        { apply (Permutation_in _ HP1). right.
          apply (Permutation_in _ HP'). assumption. }
        apply in_contents in Hin. destruct Hin as (i & Hi & <-).
        apply (heap_root_min _ _ _ HO). assumption.
Qed.

(** ** Ring queues *)

Lemma is_ring_type_cases (ty : Z) :
  is_ring_type ty = true ->
  ty = ARRIVAL_QUEUE \/ ty = WAITING_QUEUE \/ ty = SLEEPING_QUEUE
  \/ ty = EXITED_QUEUE.
Proof.
  unfold is_ring_type. intros H.
  repeat (apply orb_true_iff in H; destruct H as [H|H]);
    apply Z.eqb_eq in H; auto.
Qed.


Lemma ring_next_ne (t : nat) :
  Nat.eqb t (if Nat.eqb (S t) MAX_QUEUE then 0%nat else S t) = false.
Proof.
  destruct (Nat.eqb_spec (S t) MAX_QUEUE) as [E|E]; apply Nat.eqb_neq.
  - intros ->. discriminate E.
  - lia.
Qed.

Lemma dequeue_ring_S (st : ptr -> Z) (fuel : nat) (q : rt_queue) :
  dequeue_ring st (S fuel) q
  = if Nat.eqb (head q) (tail q) then Ok (NULL, q)
    else
      let hd := if Nat.eqb (S (head q)) MAX_QUEUE then O else S (head q) in
      let q' := mk_queue (qtype q) (size q - 1) hd (tail q) (threads q) in
      if st (threads q (head q)) =? TOBE_REMOVED then dequeue_ring st fuel q'
      else Ok (threads q (head q), q').
Proof. reflexivity. Qed.

Lemma enqueue_ring_room (st : option Z) (q : rt_queue) (x : ptr)
      (m : ptr -> rt_thread) :
  size q <> MAX_QUEUE ->
  enqueue_ring st q x m
  = (mk_queue (qtype q) (S (size q)) (head q)
              (if Nat.eqb (S (tail q)) MAX_QUEUE then O else S (tail q))
              (upd (threads q) (tail q) x),
     upd m x (match st with
              | Some v => set_status (set_q_type (m x) (qtype q)) v
              | None => set_q_type (m x) (qtype q)
              end)).
Proof.
  intros N. unfold enqueue_ring.
  destruct (Nat.eqb_spec (size q) MAX_QUEUE); [contradiction|reflexivity].
Qed.

(** A descriptor put on an empty ring comes back at the next dequeue,
    provided the status it carries on the ring is not [TOBE_REMOVED]. *)
Lemma ring_enqueue_dequeue (st : option Z) (q : rt_queue) (x : ptr)
      (m : ptr -> rt_thread) :
  ring_empty q ->
  match st with
  | Some v => v <> TOBE_REMOVED
  | None => status (m x) <> TOBE_REMOVED
  end ->
  exists q2,
    dequeue_ring (fun p => status (snd (enqueue_ring st q x m) p)) (S MAX_QUEUE)
                 (fst (enqueue_ring st q x m)) = Ok (x, q2)
    /\ ring_empty q2.
Proof.
  intros [Hs Hht] Hst.
  rewrite enqueue_ring_room by (rewrite Hs; discriminate).
  rewrite dequeue_ring_S. cbn [fst snd head tail threads size qtype].
  rewrite Hht, ring_next_ne, !upd_same.
  assert (Hlive : (status (match st with
                           | Some v => set_status (set_q_type (m x) (qtype q)) v
                           | None => set_q_type (m x) (qtype q)
                           end) =? TOBE_REMOVED) = false).
  { apply Z.eqb_neq. destruct st; simpl; assumption. }
  rewrite Hlive. eexists. split; [reflexivity|].
  split; [cbn [size]; lia|reflexivity].
Qed.

Lemma ring_thread_roundtrip (q : rt_queue) (x : ptr) (m : ptr -> rt_thread) :
  is_ring_type (qtype q) = true -> ring_empty q ->
  (qtype q = EXITED_QUEUE -> status (m x) <> TOBE_REMOVED) ->
  exists q2,
    dequeue_thread (fst (enqueue_thread q x m)) (snd (enqueue_thread q x m))
    = Ok (x, q2)
    /\ ring_empty q2.
Proof.
  intros Hty He Hst.
  assert (Hq : forall st, qtype (fst (enqueue_ring st q x m)) = qtype q).
  { intros st. rewrite enqueue_ring_room; [reflexivity|].
    destruct He as [-> _]. discriminate. }
  destruct (is_ring_type_cases _ Hty) as [E|[E|[E|E]]].
  - destruct (ring_enqueue_dequeue (Some ARRIVED) q x m He ltac:(discriminate))
      as (q2 & D & R).
    exists q2. split; [|assumption].
    unfold enqueue_thread, dequeue_thread. rewrite E. cbn [Z.eqb RUNNABLE_QUEUE
      PENDING_QUEUE APERIODIC_QUEUE ARRIVAL_QUEUE Pos.eqb].
    rewrite Hq, E. exact D.
  - destruct (ring_enqueue_dequeue (Some WAITING) q x m He ltac:(discriminate))
      as (q2 & D & R).
    exists q2. split; [|assumption].
    unfold enqueue_thread, dequeue_thread. rewrite E. cbn [Z.eqb RUNNABLE_QUEUE
      PENDING_QUEUE APERIODIC_QUEUE ARRIVAL_QUEUE WAITING_QUEUE Pos.eqb].
    rewrite Hq, E. exact D.
  - destruct (ring_enqueue_dequeue (Some SLEEPING) q x m He ltac:(discriminate))
      as (q2 & D & R).
    exists q2. split; [|assumption].
    unfold enqueue_thread, dequeue_thread. rewrite E. cbn [Z.eqb RUNNABLE_QUEUE
      PENDING_QUEUE APERIODIC_QUEUE ARRIVAL_QUEUE WAITING_QUEUE SLEEPING_QUEUE
      Pos.eqb].
    rewrite Hq, E. exact D.
  - destruct (ring_enqueue_dequeue None q x m He (Hst E)) as (q2 & D & R).
    exists q2. split; [|assumption].
    unfold enqueue_thread, dequeue_thread. rewrite E. cbn [Z.eqb RUNNABLE_QUEUE
      PENDING_QUEUE APERIODIC_QUEUE ARRIVAL_QUEUE WAITING_QUEUE SLEEPING_QUEUE
      EXITED_QUEUE Pos.eqb].
    rewrite Hq, E. exact D.
Qed.

(** ** Claim C9: enqueue, then dequeue *)

(** C9, as the code has it.  A descriptor put on an empty ring queue is the
    one the next dequeue returns; on the exited ring, whose enqueue keeps the
    status of the descriptor, this needs the descriptor not to be marked
    [TOBE_REMOVED].  On each heap queue, enqueueing at most [MAX_QUEUE]
    descriptors none of which is marked [TOBE_REMOVED] into the empty queue
    and draining it by repeated dequeue yields exactly those descriptors, in
    non-decreasing order of the key of the queue (deadline for runnable and
    pending, aperiodic priority for aperiodic), and leaves the queue empty. *)
Theorem enqueue_then_dequeue_order :
  (forall (q : rt_queue) (x : ptr) (m : ptr -> rt_thread),
      is_ring_type (qtype q) = true -> ring_empty q ->
      (qtype q = EXITED_QUEUE -> status (m x) <> TOBE_REMOVED) ->
      exists q2,
        dequeue_thread (fst (enqueue_thread q x m)) (snd (enqueue_thread q x m))
        = Ok (x, q2))
  /\ (forall (q : rt_queue) (m : ptr -> rt_thread) (ds : list ptr),
         is_heap_type (qtype q) = true -> size q = 0%nat ->
         (length ds <= MAX_QUEUE)%nat ->
         (forall p, In p ds -> p <> NULL /\ status (m p) <> TOBE_REMOVED) ->
         exists l q2,
           drain_queue (length ds) (fst (enqueue_all q m ds))
                       (snd (enqueue_all q m ds)) = (l, q2)
           /\ Permutation l ds
           /\ StronglySorted
                (fun x y => heap_key (qtype q) m x <= heap_key (qtype q) m y) l
           /\ size q2 = 0%nat).
Proof.
  split.
  - intros q x m Hty He Hst.
    destruct (ring_thread_roundtrip q x m Hty He Hst) as (q2 & D & _).
    exists q2. assumption.
  - intros q m ds Hty Hs Hlen Hlive.
    assert (HO : queue_heap_ordered q m).
    { unfold queue_heap_ordered. rewrite Hs. intros i Hi. lia. }
    destruct (enqueue_all_heap ds q m Hty ltac:(lia) HO)
      as (q1 & m1 & E & Hq & Hsz & HO1 & HP & Hfr).
    rewrite E. cbn [fst snd].
    assert (Hc : queue_contents q = []).
    { unfold queue_contents. rewrite Hs. reflexivity. }
    rewrite Hc in HP. simpl in HP.
    assert (Hlive1 : forall p, In p (queue_contents q1) ->
                               p <> NULL /\ status (m1 p) <> TOBE_REMOVED).
    { intros p Hp. destruct (Hfr p) as [_ ->]. apply Hlive.
      apply (Permutation_in _ HP). assumption. }
    destruct (drain_queue_heap (length ds) q1 m1
                ltac:(rewrite Hq; assumption) ltac:(lia) HO1 Hlive1)
      as (l & q2 & D & HPl & HS & Hz).
    exists l, q2. split; [assumption|]. split; [|split; [|assumption]].
    + rewrite HPl. assumption.
    + rewrite Hq in HS.
      eapply StronglySorted_ind with
        (P := fun l => StronglySorted
                (fun x y => heap_key (qtype q) m x <= heap_key (qtype q) m y) l);
        [constructor| |exact HS].
      intros a l0 _ IH Hall. constructor; [assumption|].
      eapply Forall_impl; [|exact Hall].
      intros b Hb. cbv beta in Hb.
      destruct (Hfr a) as [<- _]. destruct (Hfr b) as [<- _]. assumption.
Qed.

Lemma enqueue_then_dequeue_order_witness :
  (exists q2,
      dequeue_thread (fst (enqueue_thread (zero_queue ARRIVAL_QUEUE) 1%nat ex_mem))
                     (snd (enqueue_thread (zero_queue ARRIVAL_QUEUE) 1%nat ex_mem))
      = Ok (1%nat, q2))
  /\ (exists l q2,
         drain_queue 3 (fst (enqueue_all (zero_queue RUNNABLE_QUEUE) ex_mem
                                         [1; 2; 3]%nat))
                     (snd (enqueue_all (zero_queue RUNNABLE_QUEUE) ex_mem
                                       [1; 2; 3]%nat)) = (l, q2)
         /\ Permutation l [1; 2; 3]%nat
         /\ StronglySorted
              (fun x y => heap_key RUNNABLE_QUEUE ex_mem x
                          <= heap_key RUNNABLE_QUEUE ex_mem y) l
         /\ size q2 = 0%nat).
Proof.
  split.
  - apply (proj1 enqueue_then_dequeue_order (zero_queue ARRIVAL_QUEUE) 1%nat
                 ex_mem).
    + reflexivity.
    + split; reflexivity.
    + intros E. discriminate E.
  - apply (proj2 enqueue_then_dequeue_order (zero_queue RUNNABLE_QUEUE) ex_mem
                 [1; 2; 3]%nat).
    + reflexivity.
    + reflexivity.
    + unfold MAX_QUEUE. simpl. lia.
    + intros p [<-|[<-|[<-|[]]]]; split; discriminate.
Defined.

(** C9 as stated fails for a descriptor marked [TOBE_REMOVED]: enqueued on
    the empty runnable heap it is skipped by the drain, and enqueued on the
    empty exited ring it is skipped by the dequeue, which returns null. *)
Lemma tobe_removed_not_returned :
  status (ex_mem_tbr 2%nat) = TOBE_REMOVED
  /\ fst (drain_queue 1
            (fst (enqueue_all (zero_queue RUNNABLE_QUEUE) ex_mem_tbr [2%nat]))
            (snd (enqueue_all (zero_queue RUNNABLE_QUEUE) ex_mem_tbr [2%nat])))
     = []
  /\ ~ Permutation [] [2%nat]
  /\ exists q2,
       dequeue_thread
         (fst (enqueue_thread (zero_queue EXITED_QUEUE) 2%nat ex_mem_tbr))
         (snd (enqueue_thread (zero_queue EXITED_QUEUE) 2%nat ex_mem_tbr))
       = Ok (NULL, q2).
Proof.
  split; [reflexivity|]. split; [vm_compute; reflexivity|].
  split; [intros H; apply Permutation_nil in H; discriminate H|].
  eexists. vm_compute. reflexivity.
Qed.

(** ** Frame facts about the dispatcher's building blocks *)

Lemma mem_set_timer (w : world) (t : ptr) (e s : Z) :
  mem (set_timer w t e s) = mem w.
Proof. unfold set_timer. simpl. split_ifs; reflexivity. Qed.

Lemma runnable_set_timer (w : world) (t : ptr) (e s : Z) :
  runnable (sched (set_timer w t e s)) = runnable (sched w).
Proof. unfold set_timer. simpl. split_ifs; reflexivity. Qed.

Lemma pending_set_timer (w : world) (t : ptr) (e s : Z) :
  pending (sched (set_timer w t e s)) = pending (sched w).
Proof. unfold set_timer. simpl. split_ifs; reflexivity. Qed.

Lemma aperiodic_set_timer (w : world) (t : ptr) (e s : Z) :
  aperiodic (sched (set_timer w t e s)) = aperiodic (sched w).
Proof. unfold set_timer. simpl. split_ifs; reflexivity. Qed.

Lemma tsc_end_time_set_timer (w : world) (t : ptr) (e s : Z) :
  tsc_end_time (tsc (sched (set_timer w t e s))) = e.
Proof. unfold set_timer. simpl. split_ifs; reflexivity. Qed.

Lemma tsc_start_time_set_timer (w : world) (t : ptr) (e s : Z) :
  tsc_start_time (tsc (sched (set_timer w t e s)))
  = wrap64 (rdtsc_src w (rdtsc_reads w)).
Proof. unfold set_timer. simpl. split_ifs; reflexivity. Qed.

Lemma thread_frame_refl (t : rt_thread) : thread_frame t t.
Proof. unfold thread_frame. repeat split; try reflexivity. left. reflexivity. Qed.

Lemma thread_frame_trans (t1 t2 t3 : rt_thread) :
  thread_frame t1 t2 -> thread_frame t2 t3 -> thread_frame t1 t3.
Proof.
  unfold thread_frame.
  intros (A1 & A2 & A3 & A4 & A5 & A6 & A7 & A8)
         (B1 & B2 & B3 & B4 & B5 & B6 & B7 & B8).
  repeat split; try congruence.
  destruct B8 as [B8|B8]; [|right; assumption].
  destruct A8 as [A8|A8]; [left|right]; congruence.
Qed.

Lemma mem_frame_refl (m : ptr -> rt_thread) : mem_frame m m.
Proof. intros p. apply thread_frame_refl. Qed.

Lemma mem_frame_trans (m1 m2 m3 : ptr -> rt_thread) :
  mem_frame m1 m2 -> mem_frame m2 m3 -> mem_frame m1 m3.
Proof. intros A B p. eapply thread_frame_trans; [apply A|apply B]. Qed.

Lemma mem_frame_upd (m : ptr -> rt_thread) (th : ptr) (t : rt_thread) :
  thread_frame (m th) t -> mem_frame m (upd m th t).
Proof.
  intros H p. unfold upd. destruct (Nat.eqb_spec p th) as [->|_].
  - assumption.
  - apply thread_frame_refl.
Qed.

(** [enqueue_thread] writes the queue tag, and on three rings the status, of
    the descriptor it is given, and nothing else in the store. *)
Lemma enqueue_thread_mem (q : rt_queue) (th : ptr) (m : ptr -> rt_thread) :
  snd (enqueue_thread q th m) = m
  \/ exists st, snd (enqueue_thread q th m)
                = upd m th (match st with
                            | Some v => set_status (set_q_type (m th) (qtype q)) v
                            | None => set_q_type (m th) (qtype q)
                            end).
Proof.
  unfold enqueue_thread, enqueue_heap, enqueue_ring.
  destruct (Nat.eqb (size q) MAX_QUEUE).
  - left. split_ifs; reflexivity.
  - destruct (qtype q =? RUNNABLE_QUEUE);
      [right; exists None;
       destruct (heap_insert _ _ _ _); reflexivity|].
    destruct (qtype q =? PENDING_QUEUE);
      [right; exists None;
       destruct (heap_insert _ _ _ _); reflexivity|].
    destruct (qtype q =? APERIODIC_QUEUE);
      [right; exists None;
       destruct (heap_insert _ _ _ _); reflexivity|].
    destruct (qtype q =? ARRIVAL_QUEUE);
      [right; exists (Some ARRIVED); reflexivity|].
    destruct (qtype q =? WAITING_QUEUE);
      [right; exists (Some WAITING); reflexivity|].
    destruct (qtype q =? SLEEPING_QUEUE);
      [right; exists (Some SLEEPING); reflexivity|].
    destruct (qtype q =? EXITED_QUEUE);
      [right; exists None; reflexivity|].
    left. reflexivity.
Qed.

Lemma enqueue_thread_frame (q : rt_queue) (th : ptr) (m : ptr -> rt_thread) :
  mem_frame m (snd (enqueue_thread q th m)).
Proof.
  destruct (enqueue_thread_mem q th m) as [->|[st ->]].
  - apply mem_frame_refl.
  - apply mem_frame_upd. destruct st; unfold thread_frame; simpl;
      repeat split; try reflexivity; left; reflexivity.
Qed.

Lemma enqueue_thread_other (q : rt_queue) (th : ptr) (m : ptr -> rt_thread)
      (p : ptr) :
  p <> th -> snd (enqueue_thread q th m) p = m p.
Proof.
  intros N. destruct (enqueue_thread_mem q th m) as [->|[st ->]].
  - reflexivity.
  - apply upd_other. assumption.
Qed.

Lemma enqueue_thread_qtype (q : rt_queue) (th : ptr) (m : ptr -> rt_thread) :
  qtype (fst (enqueue_thread q th m)) = qtype q.
Proof.
  unfold enqueue_thread, enqueue_heap, enqueue_ring.
  destruct (Nat.eqb (size q) MAX_QUEUE).
  - split_ifs; reflexivity.
  - split_ifs; try reflexivity; destruct (heap_insert _ _ _ _); reflexivity.
Qed.

Lemma dequeue_ring_qtype (st : ptr -> Z) (fuel : nat) :
  forall q r q', dequeue_ring st fuel q = Ok (r, q') -> qtype q' = qtype q.
Proof.
  induction fuel as [|fuel IH]; intros q r q' E; simpl in E.
  - discriminate.
  - destruct (Nat.eqb (head q) (tail q)).
    + inversion E; subst. reflexivity.
    + destruct (st (threads q (head q)) =? TOBE_REMOVED).
      * apply IH in E. exact E.
      * inversion E; subst. reflexivity.
Qed.

Lemma dequeue_thread_qtype (q : rt_queue) (m : ptr -> rt_thread) r q' :
  dequeue_thread q m = Ok (r, q') -> qtype q' = qtype q.
Proof.
  unfold dequeue_thread, dequeue_heap_queue.
  assert (Hheap : forall key,
    Ok (let '(r0, (n, a)) :=
          dequeue_heap (key m) (fun p => status (m p)) (size q) (threads q) in
        (r0, mk_queue (qtype q) n (head q) (tail q) a)) = Ok (r, q') ->
    qtype q' = qtype q).
  { intros key E.
    destruct (dequeue_heap (key m) (fun p => status (m p)) (size q) (threads q))
      as [r0 [n a]].
    inversion E; subst. reflexivity. }
  destruct (qtype q =? RUNNABLE_QUEUE); [apply Hheap|].
  destruct (qtype q =? PENDING_QUEUE); [apply Hheap|].
  destruct (qtype q =? APERIODIC_QUEUE); [apply Hheap|].
  destruct (is_ring_type (qtype q)).
  - apply (dequeue_ring_qtype (fun p => status (m p))).
  - intros E. inversion E; subst. reflexivity.
Qed.

Lemma update_periodic_sched (t : ptr) (w : world) :
  sched (update_periodic t w) = sched w.
Proof. unfold update_periodic. simpl. split_ifs; reflexivity. Qed.

Lemma update_periodic_frame (t : ptr) (w : world) :
  mem_frame (mem w) (mem (update_periodic t w)).
Proof.
  unfold update_periodic. simpl. destruct (type (mem w t) =? PERIODIC).
  - simpl. apply mem_frame_upd. unfold thread_frame. simpl.
    repeat split; try reflexivity. right. reflexivity.
  - apply mem_frame_refl.
Qed.

Lemma update_periodic_status (t : ptr) (w : world) (p : ptr) :
  status (mem (update_periodic t w) p) = status (mem w p).
Proof.
  unfold update_periodic. simpl. destruct (type (mem w t) =? PERIODIC).
  - simpl. unfold upd. destruct (Nat.eqb_spec p t) as [->|_]; reflexivity.
  - reflexivity.
Qed.

Lemma check_deadlines_mem (t : ptr) (w : world) :
  mem (snd (check_deadlines t w)) = mem w
  /\ sched (snd (check_deadlines t w)) = sched w.
Proof.
  unfold check_deadlines, rt_thread_dump. simpl.
  split_ifs; split; reflexivity.
Qed.

(** ** Claim C7: descriptors marked [TOBE_REMOVED] are skipped *)







(** The skip of [dequeue_thread] leaves the status of the skipped descriptor
    as it was: after descriptor 2, marked [TOBE_REMOVED], was skipped on
    runnable, its status is still [TOBE_REMOVED]. *)
Example skipped_descriptor_keeps_status :
  exists r w',
    rt_need_resched 11%nat 1%nat (ex_world_queues ex_mem_tbr [2%nat] [])
    = Ok (r, w')
    /\ queue_contents (runnable (sched w')) = []
    /\ status (mem w' 2%nat) = TOBE_REMOVED.
Proof.
  eexists. eexists. split; [vm_compute; reflexivity|].
  split; vm_compute; reflexivity.
Qed.

(** ** The release loop *)

Lemma sched_wf_heap (w : world) :
  sched_wf w ->
  is_heap_type (qtype (runnable (sched w))) = true
  /\ is_heap_type (qtype (pending (sched w))) = true
  /\ is_heap_type (qtype (aperiodic (sched w))) = true.
Proof. intros (-> & -> & ->). repeat split; reflexivity. Qed.

(** A dequeue on a heap queue returns, and shrinks a non-empty queue. *)
Lemma dequeue_thread_heap_shrinks (q : rt_queue) (m : ptr -> rt_thread) :
  is_heap_type (qtype q) = true ->
  exists r q', dequeue_thread q m = Ok (r, q')
               /\ qtype q' = qtype q
               /\ (size q' <= size q)%nat
               /\ ((0 < size q)%nat -> (size q' < size q)%nat).
Proof.
  intros Hty. rewrite dequeue_thread_heap by assumption.
  unfold dequeue_heap_queue.
  destruct (dequeue_heap (heap_key (qtype q) m) (fun p => status (m p)) (size q)
                         (threads q)) as [r [n a]] eqn:D.
  destruct (dequeue_heap_result _ _ _ _ _ _ _ D) as (H1 & H2 & H3).
  exists r, (mk_queue (qtype q) n (head q) (tail q) a).
  split; [reflexivity|]. simpl. repeat split; assumption.
Qed.

Lemma sched_wf_set_pending (w : world) (q : rt_queue) :
  sched_wf w -> qtype q = qtype (pending (sched w)) ->
  sched_wf (with_sched w (set_pending (sched w) q)).
Proof. intros (A & B & C) E. repeat split; simpl; congruence. Qed.

Lemma sched_wf_set_runnable (w : world) (q : rt_queue) :
  sched_wf w -> qtype q = qtype (runnable (sched w)) ->
  sched_wf (with_sched w (set_runnable (sched w) q)).
Proof. intros (A & B & C) E. repeat split; simpl; congruence. Qed.

Lemma sched_wf_set_aperiodic (w : world) (q : rt_queue) :
  sched_wf w -> qtype q = qtype (aperiodic (sched w)) ->
  sched_wf (with_sched w (set_aperiodic (sched w) q)).
Proof. intros (A & B & C) E. repeat split; simpl; congruence. Qed.

Lemma sched_wf_update_periodic (t : ptr) (w : world) :
  sched_wf w -> sched_wf (update_periodic t w).
Proof. unfold sched_wf. rewrite update_periodic_sched. tauto. Qed.

Lemma sched_wf_enqueue_runnable (w : world) (th : ptr) :
  sched_wf w ->
  sched_wf (with_queue_mem set_runnable w
              (enqueue_thread (runnable (sched w)) th (mem w))).
Proof.
  intros (A & B & C). repeat split; simpl; try assumption.
  rewrite enqueue_thread_qtype. assumption.
Qed.

Lemma sched_wf_enqueue_pending (w : world) (th : ptr) :
  sched_wf w ->
  sched_wf (with_queue_mem set_pending w
              (enqueue_thread (pending (sched w)) th (mem w))).
Proof.
  intros (A & B & C). repeat split; simpl; try assumption.
  rewrite enqueue_thread_qtype. assumption.
Qed.

Lemma sched_wf_enqueue_aperiodic (w : world) (th : ptr) :
  sched_wf w ->
  sched_wf (with_queue_mem set_aperiodic w
              (enqueue_thread (aperiodic (sched w)) th (mem w))).
Proof.
  intros (A & B & C). repeat split; simpl; try assumption.
  rewrite enqueue_thread_qtype. assumption.
Qed.

(** One round of the release loop, for a pending queue of heap type. *)
Lemma release_drain_S (fuel : nat) (e : Z) (w : world) :
  release_drain (S fuel) e w
  = if Nat.ltb 0 (size (pending (sched w))) then
      if deadline (mem w (threads (pending (sched w)) O)) <? e then
        '(arrived_thread, q) <- dequeue_thread (pending (sched w)) (mem w) ;;
        let w1 := with_sched w (set_pending (sched w) q) in
        if Nat.eqb arrived_thread NULL then release_drain fuel e w1
        else
          let w2 := update_periodic arrived_thread w1 in
          let w3 := with_queue_mem set_runnable w2
                      (enqueue_thread (runnable (sched w2)) arrived_thread
                                      (mem w2)) in
          release_drain fuel e w3
      else Ok w
    else Ok w.
Proof. reflexivity. Qed.

(** With enough fuel the loop ends on a well-formed scheduler. *)
Lemma release_drain_total (fuel : nat) :
  forall (e : Z) (w : world),
    sched_wf w -> (size (pending (sched w)) < fuel)%nat ->
    exists w',
      release_drain fuel e w = Ok w'
      /\ sched_wf w'
      /\ (size (pending (sched w')) <= size (pending (sched w)))%nat.
Proof.
  induction fuel as [|fuel IH]; intros e w Hwf Hf; [lia|].
  rewrite release_drain_S.
  destruct (Nat.ltb_spec 0 (size (pending (sched w)))) as [Hpos|Hz];
    [|exists w; repeat split; (apply Hwf || reflexivity)].
  destruct (deadline (mem w (threads (pending (sched w)) O)) <? e);
    [|exists w; repeat split; (apply Hwf || reflexivity)].
  destruct (sched_wf_heap w Hwf) as (_ & Hp & _).
  destruct (dequeue_thread_heap_shrinks (pending (sched w)) (mem w) Hp)
    as (r & q & D & Hq & Hle & Hsh).
  rewrite D. cbn [bind]. specialize (Hsh Hpos).
  destruct (Nat.eqb r NULL).
  - destruct (IH e (with_sched w (set_pending (sched w) q))
                 (sched_wf_set_pending w q Hwf Hq) ltac:(simpl; lia))
      as (w' & E & Hwf' & Hs').
    exists w'. simpl in Hs'. repeat split; try assumption; try apply Hwf'. lia.
  - set (w1 := with_sched w (set_pending (sched w) q)).
    set (w2 := update_periodic r w1).
    set (w3 := with_queue_mem set_runnable w2
                 (enqueue_thread (runnable (sched w2)) r (mem w2))).
    assert (Hwf3 : sched_wf w3).
    { apply sched_wf_enqueue_runnable, sched_wf_update_periodic.
      apply sched_wf_set_pending; assumption. }
    assert (Hp3 : pending (sched w3) = q).
    { unfold w3, w2. simpl. rewrite update_periodic_sched. reflexivity. }
    destruct (IH e w3 Hwf3 ltac:(rewrite Hp3; lia)) as (w' & E & Hwf' & Hs').
    exists w'. rewrite Hp3 in Hs'.
    repeat split; try assumption; try apply Hwf'. lia.
Qed.

(** When the loop ends, pending is empty or its root has a deadline that is
    not below [end_time]. *)
Lemma release_drain_exit (fuel : nat) :
  forall (e : Z) (w w' : world),
    release_drain fuel e w = Ok w' ->
    size (pending (sched w')) = 0%nat
    \/ e <= deadline (mem w' (threads (pending (sched w')) O)).
Proof.
  induction fuel as [|fuel IH]; intros e w w' E; [discriminate|].
  rewrite release_drain_S in E.
  destruct (Nat.ltb_spec 0 (size (pending (sched w)))) as [Hpos|Hz];
    [|inversion E; subst; left; lia].
  destruct (Z.ltb_spec (deadline (mem w (threads (pending (sched w)) O))) e)
    as [Hlt|Hge]; [|inversion E; subst; right; assumption].
  destruct (dequeue_thread (pending (sched w)) (mem w)) as [[r q]|f];
    [|discriminate].
  cbn [bind] in E.
  destruct (Nat.eqb r NULL); eapply IH; exact E.
Qed.

(** The loop touches neither the fields of the frame, nor the aperiodic
    queue, nor the time stamps, nor the timer. *)
Lemma release_drain_frame (fuel : nat) :
  forall (e : Z) (w w' : world),
    release_drain fuel e w = Ok w' ->
    mem_frame (mem w) (mem w')
    /\ aperiodic (sched w') = aperiodic (sched w)
    /\ sched_run_time (sched w') = sched_run_time (sched w)
    /\ tsc (sched w') = tsc (sched w)
    /\ rdtsc_src w' = rdtsc_src w
    /\ apic_oneshot w' = apic_oneshot w.
Proof.
  induction fuel as [|fuel IH]; intros e w w' E; [discriminate|].
  rewrite release_drain_S in E.
  assert (Hrefl : mem_frame (mem w) (mem w)
    /\ aperiodic (sched w) = aperiodic (sched w)
    /\ sched_run_time (sched w) = sched_run_time (sched w)
    /\ tsc (sched w) = tsc (sched w)
    /\ rdtsc_src w = rdtsc_src w
    /\ apic_oneshot w = apic_oneshot w).
  { repeat split. apply mem_frame_refl. }
  destruct (Nat.ltb 0 (size (pending (sched w))));
    [|inversion E; subst; exact Hrefl].
  destruct (deadline (mem w (threads (pending (sched w)) O)) <? e);
    [|inversion E; subst; exact Hrefl].
  destruct (dequeue_thread (pending (sched w)) (mem w)) as [[r q]|f];
    [|discriminate].
  cbn [bind] in E.
  destruct (Nat.eqb r NULL).
  - apply IH in E. simpl in E. exact E.
  - set (w1 := with_sched w (set_pending (sched w) q)) in *.
    set (w2 := update_periodic r w1) in *.
    apply IH in E.
    destruct E as (Hfr & Ha & Hr & Ht & Hc & Hap). simpl in *.
    unfold w2 in Ha, Hr, Ht. rewrite update_periodic_sched in Ha, Hr, Ht.
    split; [|repeat split; try assumption].
    + eapply mem_frame_trans; [|exact Hfr].
      eapply mem_frame_trans;
        [|apply (enqueue_thread_frame (runnable (sched w2)) r (mem w2))].
      apply (update_periodic_frame r w1).
    + rewrite Hc. unfold w2, update_periodic. simpl. split_ifs; reflexivity.
    + rewrite Hap. unfold w2, update_periodic. simpl. split_ifs; reflexivity.
Qed.

(** ** Claim C2: what the dispatcher writes into descriptors *)

Lemma set_timer_src (w : world) (t : ptr) (e s : Z) :
  rdtsc_src (set_timer w t e s) = rdtsc_src w
  /\ sched_run_time (sched (set_timer w t e s)) = sched_run_time (sched w).
Proof. unfold set_timer. simpl. split_ifs; split; reflexivity. Qed.

Lemma pick_aperiodic_frame (w : world) (e s : Z) x w' :
  pick_aperiodic w e s = Ok (x, w') ->
  mem_frame (mem w) (mem w') /\ tsc_end_time (tsc (sched w')) = e.
Proof.
  unfold pick_aperiodic.
  destruct (dequeue_thread (aperiodic (sched w)) (mem w)) as [[rt_n q]|f];
    simpl; [|discriminate].
  destruct (Nat.eqb rt_n NULL); [discriminate|].
  intros E. inversion E; subst.
  rewrite mem_set_timer, tsc_end_time_set_timer. simpl.
  split; [apply mem_frame_refl|reflexivity].
Qed.

Lemma pick_next_frame (w : world) (e s : Z) x w' :
  pick_next w e s = Ok (x, w') ->
  mem_frame (mem w) (mem w') /\ tsc_end_time (tsc (sched w')) = e.
Proof.
  unfold pick_next.
  destruct (Nat.ltb 0 (size (runnable (sched w))));
    [|apply pick_aperiodic_frame].
  destruct (dequeue_thread (runnable (sched w)) (mem w)) as [[rt_n q]|f];
    simpl; [|discriminate].
  destruct (Nat.eqb rt_n NULL); simpl.
  - intros E. apply pick_aperiodic_frame in E. exact E.
  - intros E. inversion E; subst.
    rewrite mem_set_timer, tsc_end_time_set_timer. simpl.
    split; [apply mem_frame_refl|reflexivity].
Qed.

Lemma keep_current_frame (w : world) (rt_c : ptr) (e s : Z) x w' :
  keep_current w rt_c e s = Ok (x, w') ->
  mem_frame (mem w) (mem w') /\ tsc_end_time (tsc (sched w')) = e.
Proof.
  unfold keep_current. intros E. inversion E; subst.
  rewrite mem_set_timer, tsc_end_time_set_timer.
  split; [apply mem_frame_refl|reflexivity].
Qed.

Lemma preempt_or_keep_frame (w : world) (rt_c : ptr) (e s : Z) x w' :
  preempt_or_keep w rt_c e s = Ok (x, w') ->
  mem_frame (mem w) (mem w') /\ tsc_end_time (tsc (sched w')) = e.
Proof.
  unfold preempt_or_keep.
  destruct (Nat.ltb 0 (size (runnable (sched w))));
    [|apply keep_current_frame].
  destruct (deadline (mem w rt_c)
            >? deadline (mem w (threads (runnable (sched w)) 0)));
    [|apply keep_current_frame].
  destruct (dequeue_thread (runnable (sched w)) (mem w)) as [[rt_n q]|f];
    simpl; [|discriminate].
  destruct (Nat.eqb rt_n NULL); simpl.
  - intros E. apply keep_current_frame in E. exact E.
  - intros E. inversion E; subst.
    rewrite mem_set_timer, tsc_end_time_set_timer. simpl.
    split; [apply enqueue_thread_frame|reflexivity].
Qed.

Lemma requeue_periodic_frame (w : world) (rt_c : ptr) :
  mem_frame (mem w) (mem (requeue_periodic w rt_c)).
Proof.
  unfold requeue_periodic.
  pose proof (check_deadlines_mem rt_c w) as [Hm _].
  destruct (check_deadlines rt_c w) as [missed w1]. simpl in Hm.
  destruct (negb (missed =? 0)); simpl.
  - eapply mem_frame_trans; [|apply enqueue_thread_frame].
    rewrite <- Hm. apply update_periodic_frame.
  - rewrite <- Hm. apply enqueue_thread_frame.
Qed.

Lemma resched_select_frame (c : nk_thread) (rt_c : ptr) (e s : Z) (w : world)
      x w' :
  resched_select c rt_c e s w = Ok (x, w') ->
  mem_frame (mem w) (mem w') /\ tsc_end_time (tsc (sched w')) = e.
Proof.
  unfold resched_select.
  destruct (type (mem w rt_c) =? APERIODIC).
  { intros E. apply pick_next_frame in E. destruct E as [Hfr Ht].
    split; [|assumption].
    eapply mem_frame_trans; [|exact Hfr]. simpl.
    eapply mem_frame_trans; [|apply enqueue_thread_frame]. simpl.
    apply mem_frame_upd. unfold thread_frame. simpl.
    repeat split; try reflexivity. left. reflexivity. }
  destruct (type (mem w rt_c) =? SPORADIC).
  { destruct (run_time (mem w rt_c) >=? work (constraints (mem w rt_c))).
    - pose proof (check_deadlines_mem rt_c w) as [Hm _].
      destruct (check_deadlines rt_c w) as [missed w1]. simpl in Hm.
      intros E. apply pick_next_frame in E. rewrite Hm in E. exact E.
    - apply preempt_or_keep_frame. }
  destruct (type (mem w rt_c) =? PERIODIC).
  { destruct (run_time (mem w rt_c) >=? slice (constraints (mem w rt_c))).
    - intros E. apply pick_next_frame in E. destruct E as [Hfr Ht].
      split; [|assumption].
      eapply mem_frame_trans; [|exact Hfr]. apply requeue_periodic_frame.
    - apply preempt_or_keep_frame. }
  intros E. inversion E; subst.
  rewrite mem_set_timer, tsc_end_time_set_timer.
  split; [apply mem_frame_refl|reflexivity].
Qed.

Lemma resched_entry_spec (w : world) :
  fst (resched_entry w)
  = wrap64 (sched_run_time (sched w) + wrap64 (rdtsc_src w (rdtsc_reads w)))
  /\ mem (snd (resched_entry w)) = mem w
  /\ runnable (sched (snd (resched_entry w))) = runnable (sched w)
  /\ pending (sched (snd (resched_entry w))) = pending (sched w)
  /\ aperiodic (sched (snd (resched_entry w))) = aperiodic (sched w)
  /\ rdtsc_src (snd (resched_entry w)) = rdtsc_src w
  /\ rdtsc_reads (snd (resched_entry w)) = S (S (rdtsc_reads w))
  /\ apic_oneshot (snd (resched_entry w)) = apic_oneshot w.
Proof. unfold resched_entry. simpl. repeat split; reflexivity. Qed.

(** C2 as stated fails: descriptor 1 was dispatched at cycle 0, the counter
    reads 100, and after [rt_need_resched] chose it again its [run_time] is
    still 0, its [exit_time] is still 0 and its [start_time] is still 0. *)
Lemma resched_does_not_bill :
  exists w',
    rt_need_resched 11%nat 1%nat (ex_world ex_mem) = Ok ((1%nat, 11%nat), w')
    /\ wrap64 (rdtsc_src (ex_world ex_mem) 0%nat) = 100
    /\ start_time (mem (ex_world ex_mem) 1%nat) = 0
    /\ run_time (mem (ex_world ex_mem) 1%nat) = 0
    /\ run_time (mem w' 1%nat) = 0
    /\ exit_time (mem w' 1%nat) = 0
    /\ start_time (mem w' 1%nat) = 0.
Proof.
  eexists. split; [vm_compute; reflexivity|].
  repeat split; vm_compute; reflexivity.
Qed.

(** ** Enqueueing adds the descriptor, whatever the order of the array *)

Lemma sift_up_perm (key : ptr -> Z) (fuel : nat) :
  forall (th : ptr) (a : nat -> ptr) (pos n : nat) a' pos',
    (pos < n)%nat ->
    sift_up key fuel th a pos = (a', pos') ->
    Permutation (contents (upd a' pos' th) n) (contents (upd a pos th) n).
Proof.
  induction fuel as [|fuel IH]; intros th a pos n a' pos' Hn E; simpl in E.
  - inversion E; subst. reflexivity.
  - destruct (key (a (parent pos)) >? key th);
      [destruct (Nat.eqb_spec pos (parent pos)) as [Ep|Np]|]; simpl in E;
      try (inversion E; subst; reflexivity).
    assert (H0 : (0 < pos)%nat)
      by (destruct pos; [exfalso; apply Np; reflexivity|lia]).
    pose proof (parent_lt pos H0) as Hp.
    etransitivity; [eapply IH; [|exact E]; lia|].
    apply hole_move_perm; lia.
Qed.

Lemma heap_insert_perm (key : ptr -> Z) (n : nat) (a : nat -> ptr) (th : ptr) :
  exists a', heap_insert key n a th = (S n, a')
             /\ Permutation (contents a' (S n)) (th :: contents a n).
Proof.
  unfold heap_insert.
  destruct (sift_up key n th (upd a n th) n) as [a1 pos1] eqn:E.
  exists (upd a1 pos1 th). split; [reflexivity|].
  etransitivity;
    [apply (sift_up_perm key n th _ n (S n) a1 pos1 (Nat.lt_succ_diag_r _) E)|].
  assert (Eu : forall k, upd (upd a n th) n th k = upd a n th k).
  { intros k. unfold upd. destruct (Nat.eqb k n); reflexivity. }
  rewrite (contents_ext _ _ (S n) (fun k _ => Eu k)).
  rewrite contents_S, upd_same, contents_upd_out by lia.
  symmetry. apply Permutation_cons_append.
Qed.

(** [enqueue_thread] on a heap queue with room: one more entry, the contents
    are the old ones and the new descriptor; on a full queue: no change. *)
Lemma enqueue_thread_heap_perm (q : rt_queue) (th : ptr) (m : ptr -> rt_thread) :
  is_heap_type (qtype q) = true ->
  ((size q < MAX_QUEUE)%nat ->
   size (fst (enqueue_thread q th m)) = S (size q)
   /\ Permutation (queue_contents (fst (enqueue_thread q th m)))
                  (th :: queue_contents q))
  /\ (size q = MAX_QUEUE -> fst (enqueue_thread q th m) = q).
Proof.
  intros Hty. split.
  - intros Hsz. rewrite enqueue_thread_heap by assumption.
    unfold enqueue_heap.
    destruct (Nat.eqb_spec (size q) MAX_QUEUE) as [E|_]; [lia|].
    destruct (heap_insert_perm (heap_key (qtype q) m) (size q) (threads q) th)
      as (a' & E & HP).
    rewrite E. simpl. split; [reflexivity|exact HP].
  - intros E. rewrite enqueue_thread_full by assumption. reflexivity.
Qed.

(** A dequeue on a non-empty heap queue whose root is live returns the
    root. *)
Lemma dequeue_thread_heap_root (q : rt_queue) (m : ptr -> rt_thread) :
  is_heap_type (qtype q) = true -> (0 < size q)%nat ->
  status (m (threads q O)) <> TOBE_REMOVED ->
  exists q', dequeue_thread q m = Ok (threads q O, q').
Proof.
  intros Hty Hsz Hst. rewrite dequeue_thread_heap by assumption.
  unfold dequeue_heap_queue.
  destruct (size q) as [|sz]; [lia|]. simpl.
  destruct (sift_down _ sz sz (threads q sz) (threads q) 0) as [a1 now].
  destruct (Z.eqb_spec (status (m (threads q O))) TOBE_REMOVED) as [|_];
    [contradiction|].
  eexists. reflexivity.
Qed.

(** ** Claim C1: a periodic thread whose slice is used up *)

Lemma enqueue_thread_fields (q : rt_queue) (th : ptr) (m : ptr -> rt_thread)
      (p : ptr) :
  deadline (snd (enqueue_thread q th m) p) = deadline (m p)
  /\ run_time (snd (enqueue_thread q th m) p) = run_time (m p)
  /\ constraints (snd (enqueue_thread q th m) p) = constraints (m p).
Proof.
  destruct (enqueue_thread_mem q th m) as [->|[st ->]].
  - repeat split.
  - unfold upd. destruct (Nat.eqb_spec p th) as [->|_].
    + destruct st; repeat split.
    + repeat split.
Qed.

Lemma requeue_periodic_missed (w : world) (rt_c : ptr) :
  type (mem w rt_c) = PERIODIC ->
  exit_time (mem w rt_c) > deadline (mem w rt_c) ->
  exists m',
    requeue_periodic w rt_c
    = with_queue_mem set_runnable (update_periodic rt_c (snd (cur_time w)))
        (enqueue_thread (runnable (sched w)) rt_c m')
    /\ deadline (m' rt_c)
       = wrap64 (wrap64 (rdtsc_src w (S (rdtsc_reads w)))
                 + period (constraints (mem w rt_c)))
    /\ run_time (m' rt_c) = 0.
Proof.
  intros Hty Hmiss. unfold requeue_periodic, check_deadlines, rt_thread_dump.
  destruct (Z.gtb_spec (exit_time (mem w rt_c)) (deadline (mem w rt_c)));
    [|lia].
  rewrite Hty. change (PERIODIC =? PERIODIC) with true. cbv iota.
  change (negb (1 =? 0)) with true. cbv iota.
  unfold update_periodic. cbn [cur_time snd mem sched rdtsc_src rdtsc_reads].
  rewrite Hty. change (PERIODIC =? PERIODIC) with true. cbv iota.
  cbn [with_mem mem sched rdtsc_src rdtsc_reads].
  eexists. split; [reflexivity|]. rewrite upd_same. simpl.
  split; reflexivity.
Qed.

Lemma requeue_periodic_met (w : world) (rt_c : ptr) :
  exit_time (mem w rt_c) <= deadline (mem w rt_c) ->
  requeue_periodic w rt_c
  = with_queue_mem set_pending w
      (enqueue_thread (pending (sched w)) rt_c (mem w)).
Proof.
  intros Hmet. unfold requeue_periodic, check_deadlines.
  destruct (Z.gtb_spec (exit_time (mem w rt_c)) (deadline (mem w rt_c)));
    [lia|].
  reflexivity.
Qed.

(** C1, as the code has it.  When the current thread is periodic and its
    [run_time] has reached its slice, the dispatcher, after the release
    loop, evaluates the deadline check and then picks the next thread.  If
    the deadline was missed ([exit_time > deadline]) the thread is
    re-released (its deadline becomes a fresh reading of the counter plus
    its period, its [run_time] becomes 0) and enqueued onto runnable, and
    pending is left alone.  If the deadline was met ([exit_time <= deadline])
    the thread is enqueued onto pending with its deadline and [run_time]
    unchanged, and runnable is left alone.  An enqueue onto a queue that
    already holds [MAX_QUEUE] entries changes nothing. *)
Theorem periodic_slice_done_requeue :
  forall (c : nk_thread) (rt_c : ptr) (w : world),
    sched_wf w ->
    exists w2,
      release_drain (S (size (pending (sched (snd (resched_entry w))))))
                    (fst (resched_entry w)) (snd (resched_entry w)) = Ok w2
      /\ (type (mem w2 rt_c) = PERIODIC ->
          slice (constraints (mem w2 rt_c)) <= run_time (mem w2 rt_c) ->
          let w3 := requeue_periodic w2 rt_c in
          rt_need_resched c rt_c w = pick_next w3 (fst (resched_entry w)) 0
          /\ (exit_time (mem w2 rt_c) > deadline (mem w2 rt_c) ->
              deadline (mem w3 rt_c)
              = wrap64 (wrap64 (rdtsc_src w2 (S (rdtsc_reads w2)))
                        + period (constraints (mem w2 rt_c)))
              /\ run_time (mem w3 rt_c) = 0
              /\ pending (sched w3) = pending (sched w2)
              /\ ((size (runnable (sched w2)) < MAX_QUEUE)%nat ->
                  Permutation (queue_contents (runnable (sched w3)))
                              (rt_c :: queue_contents (runnable (sched w2))))
              /\ (size (runnable (sched w2)) = MAX_QUEUE ->
                  runnable (sched w3) = runnable (sched w2)))
          /\ (exit_time (mem w2 rt_c) <= deadline (mem w2 rt_c) ->
              deadline (mem w3 rt_c) = deadline (mem w2 rt_c)
              /\ run_time (mem w3 rt_c) = run_time (mem w2 rt_c)
              /\ runnable (sched w3) = runnable (sched w2)
              /\ ((size (pending (sched w2)) < MAX_QUEUE)%nat ->
                  Permutation (queue_contents (pending (sched w3)))
                              (rt_c :: queue_contents (pending (sched w2))))
              /\ (size (pending (sched w2)) = MAX_QUEUE ->
                  pending (sched w3) = pending (sched w2)))).
Proof.
  intros c rt_c w Hwf.
  assert (Hwf1 : sched_wf (snd (resched_entry w))).
  { destruct Hwf as (A & B & C). unfold resched_entry. simpl.
    repeat split; assumption. }
  destruct (release_drain_total _ (fst (resched_entry w)) _ Hwf1
              (Nat.lt_succ_diag_r _)) as (w2 & D & Hwf2 & _).
  exists w2. split; [exact D|].
  intros Hty Hdone w3.
  destruct (sched_wf_heap w2 Hwf2) as (Hr & Hp & _).
  split; [|split].
  - unfold rt_need_resched.
    destruct (resched_entry w) as [e w1]. cbn [fst snd] in D |- *.
    rewrite D. cbn [bind]. unfold resched_select.
    rewrite Hty. change (PERIODIC =? APERIODIC) with false.
    change (PERIODIC =? SPORADIC) with false.
    change (PERIODIC =? PERIODIC) with true. cbv iota.
    destruct (Z.geb_spec (run_time (mem w2 rt_c))
                         (slice (constraints (mem w2 rt_c)))); [|lia].
    reflexivity.
  - intros Hmiss.
    destruct (requeue_periodic_missed w2 rt_c Hty Hmiss) as (m' & E & Hd & Hrt).
    unfold w3. rewrite E. cbn [with_queue_mem mem sched pending runnable
                                 set_runnable].
    destruct (enqueue_thread_fields (runnable (sched w2)) rt_c m' rt_c)
      as (Fd & Fr & _).
    rewrite Fd, Fr. split; [assumption|]. split; [assumption|].
    rewrite update_periodic_sched. cbn [cur_time snd sched].
    split; [reflexivity|].
    destruct (enqueue_thread_heap_perm (runnable (sched w2)) rt_c m' Hr)
      as [Hroom Hfull].
    split; [intros Hlt; apply Hroom; assumption|assumption].
  - intros Hmet. unfold w3. rewrite (requeue_periodic_met w2 rt_c Hmet).
    cbn [with_queue_mem mem sched pending runnable set_pending].
    destruct (enqueue_thread_fields (pending (sched w2)) rt_c (mem w2) rt_c)
      as (Fd & Fr & _).
    rewrite Fd, Fr. split; [reflexivity|]. split; [reflexivity|].
    split; [reflexivity|].
    destruct (enqueue_thread_heap_perm (pending (sched w2)) rt_c (mem w2) Hp)
      as [Hroom Hfull].
    split; [intros Hlt; apply Hroom; assumption|assumption].
Qed.

Lemma periodic_slice_done_requeue_witness :
  sched_wf (ex_world ex_mem_done)
  /\ exists w3,
      rt_need_resched 11%nat 1%nat (ex_world ex_mem_done)
      = pick_next w3 (fst (resched_entry (ex_world ex_mem_done))) 0
      /\ deadline (mem w3 1%nat) = 1000
      /\ run_time (mem w3 1%nat) = 100
      /\ Permutation (queue_contents (pending (sched w3))) [1%nat].
Proof.
  assert (Hwf : sched_wf (ex_world ex_mem_done))
    by (repeat split; reflexivity).
  split; [exact Hwf|].
  destruct (periodic_slice_done_requeue 11%nat 1%nat (ex_world ex_mem_done) Hwf)
    as (w2 & D & H).
  vm_compute in D. injection D as D. subst w2.
  destruct (H eq_refl ltac:(vm_compute; discriminate)) as (E & _ & Hmet).
  destruct (Hmet ltac:(vm_compute; discriminate)) as (Hd & Hr & _ & Hp & _).
  eexists. split; [exact E|].
  split; [rewrite Hd; reflexivity|].
  split; [rewrite Hr; reflexivity|].
  apply Hp. vm_compute. lia.
Defined.

(** C1 as stated fails in both branches.  Descriptor 1 used up its slice
    and met its deadline ([exit_time = 100 <= 1000 = deadline]): the
    dispatcher does not re-release it but parks it on pending, with deadline
    1000 and [run_time] 100 as before, and runs descriptor 4.  With the
    deadline missed ([exit_time = 2000 > 1000]) the dispatcher re-releases it
    (deadline 100 + 1000, [run_time] 0) instead of parking it on pending. *)
Lemma slice_done_deadline_met_goes_pending :
  exit_time (ex_mem_done 1%nat) <= deadline (ex_mem_done 1%nat)
  /\ slice (constraints (ex_mem_done 1%nat)) <= run_time (ex_mem_done 1%nat)
  /\ (exists w',
         rt_need_resched 11%nat 1%nat (ex_world ex_mem_done)
         = Ok ((4%nat, 14%nat), w')
         /\ queue_contents (runnable (sched w')) = []
         /\ queue_contents (pending (sched w')) = [1%nat]
         /\ deadline (mem w' 1%nat) = 1000
         /\ run_time (mem w' 1%nat) = 100)
  /\ exit_time (ex_mem_late 1%nat) > deadline (ex_mem_late 1%nat)
  /\ (exists w',
         rt_need_resched 11%nat 1%nat (ex_world ex_mem_late)
         = Ok ((1%nat, 11%nat), w')
         /\ queue_contents (pending (sched w')) = []
         /\ deadline (mem w' 1%nat) = 1100
         /\ run_time (mem w' 1%nat) = 0).
Proof.
  split; [vm_compute; discriminate|].
  split; [vm_compute; discriminate|].
  split.
  - eexists. split; [vm_compute; reflexivity|].
    repeat split; vm_compute; reflexivity.
  - split; [vm_compute; reflexivity|].
    eexists. split; [vm_compute; reflexivity|].
    repeat split; vm_compute; reflexivity.
Qed.

(** ** Claim C3: a current thread with budget left *)

Lemma enqueue_thread_handle (q : rt_queue) (th : ptr) (m : ptr -> rt_thread)
      (p : ptr) :
  thread (snd (enqueue_thread q th m) p) = thread (m p).
Proof.
  destruct (enqueue_thread_frame q th m p) as (_ & _ & _ & H & _). exact H.
Qed.

(** C3, as the code has it.  Let the current thread be periodic with
    [run_time < slice], or sporadic with [run_time < work], after the release
    loop.  If runnable is not empty and the deadline of its root is strictly
    smaller than the deadline of the current thread, the dispatcher dequeues
    from runnable; the dequeue skips descriptors marked [TOBE_REMOVED], so
    it returns the root when the root is not so marked.  When the dequeue
    returns a descriptor, the current thread is enqueued onto what is left
    of runnable and the dequeued descriptor is returned; when it returns
    null (every entry was skipped), the current thread is kept and returned.
    In every other case the current thread is kept and returned, and
    runnable and the descriptors are untouched. *)
Theorem budget_left_preempt_or_keep :
  forall (c : nk_thread) (rt_c : ptr) (w : world),
    sched_wf w ->
    exists w2,
      release_drain (S (size (pending (sched (snd (resched_entry w))))))
                    (fst (resched_entry w)) (snd (resched_entry w)) = Ok w2
      /\ ((type (mem w2 rt_c) = PERIODIC
           /\ run_time (mem w2 rt_c) < slice (constraints (mem w2 rt_c)))
          \/ (type (mem w2 rt_c) = SPORADIC
              /\ run_time (mem w2 rt_c) < work (constraints (mem w2 rt_c))) ->
          let rq := runnable (sched w2) in
          exists r q,
            dequeue_thread rq (mem w2) = Ok (r, q)
            /\ ((0 < size rq)%nat ->
                status (mem w2 (threads rq O)) <> TOBE_REMOVED ->
                r = threads rq O)
            /\ ((0 < size rq)%nat ->
                deadline (mem w2 (threads rq O)) < deadline (mem w2 rt_c) ->
                (r <> NULL ->
                 exists w',
                   rt_need_resched c rt_c w = Ok ((r, thread (mem w2 r)), w')
                   /\ runnable (sched w') = fst (enqueue_thread q rt_c (mem w2))
                   /\ ((size q < MAX_QUEUE)%nat ->
                       Permutation (queue_contents (runnable (sched w')))
                                   (rt_c :: queue_contents q)))
                /\ (r = NULL ->
                    exists w',
                      rt_need_resched c rt_c w
                      = Ok ((rt_c, thread (mem w2 rt_c)), w')
                      /\ runnable (sched w') = q
                      /\ mem w' = mem w2))
            /\ (~ ((0 < size rq)%nat
                   /\ deadline (mem w2 (threads rq O)) < deadline (mem w2 rt_c)) ->
                exists w',
                  rt_need_resched c rt_c w
                  = Ok ((rt_c, thread (mem w2 rt_c)), w')
                  /\ runnable (sched w') = rq
                  /\ mem w' = mem w2)).
Proof.
  intros c rt_c w Hwf.
  assert (Hwf1 : sched_wf (snd (resched_entry w))).
  { destruct Hwf as (A & B & C). unfold resched_entry. simpl.
    repeat split; assumption. }
  destruct (release_drain_total _ (fst (resched_entry w)) _ Hwf1
              (Nat.lt_succ_diag_r _)) as (w2 & D & Hwf2 & _).
  exists w2. split; [exact D|].
  intros Hbud rq.
  destruct (sched_wf_heap w2 Hwf2) as (Hr & _ & _).
  destruct (dequeue_thread_heap_shrinks rq (mem w2) Hr)
    as (r & q & Dq & Hq & _ & _).
  exists r, q. split; [exact Dq|].
  assert (Hsel : rt_need_resched c rt_c w
                 = preempt_or_keep w2 rt_c (fst (resched_entry w)) 0).
  { unfold rt_need_resched.
    destruct (resched_entry w) as [e w1]. cbn [fst snd] in D |- *.
    rewrite D. cbn [bind]. unfold resched_select.
    destruct Hbud as [[Hty Hlt]|[Hty Hlt]]; rewrite Hty.
    - change (PERIODIC =? APERIODIC) with false.
      change (PERIODIC =? SPORADIC) with false.
      change (PERIODIC =? PERIODIC) with true. cbv iota.
      destruct (Z.geb_spec (run_time (mem w2 rt_c))
                           (slice (constraints (mem w2 rt_c)))); [lia|].
      reflexivity.
    - change (SPORADIC =? APERIODIC) with false.
      change (SPORADIC =? SPORADIC) with true. cbv iota.
      destruct (Z.geb_spec (run_time (mem w2 rt_c))
                           (work (constraints (mem w2 rt_c)))); [lia|].
      reflexivity. }
  rewrite Hsel. unfold preempt_or_keep, keep_current. fold rq.
  split; [|split].
  - intros Hpos Hst.
    destruct (dequeue_thread_heap_root rq (mem w2) Hr Hpos Hst) as (q' & E).
    rewrite E in Dq. inversion Dq. reflexivity.
  - intros Hpos Hlt.
    destruct (Nat.ltb_spec 0 (size rq)) as [_|]; [|lia].
    destruct (Z.gtb_spec (deadline (mem w2 rt_c))
                         (deadline (mem w2 (threads rq O)))); [|lia].
    rewrite Dq. cbn [bind]. split.
    + intros Hnn. destruct (Nat.eqb_spec r NULL) as [|_]; [contradiction|].
      cbn [negb]. eexists. split; [|split].
      * rewrite mem_set_timer. cbn [with_queue_mem mem].
        rewrite enqueue_thread_handle. reflexivity.
      * rewrite runnable_set_timer. reflexivity.
      * intros Hroom. rewrite runnable_set_timer.
        cbn [with_queue_mem sched runnable set_runnable with_sched mem fst].
        apply enqueue_thread_heap_perm; [rewrite Hq; exact Hr|assumption].
    + intros ->. cbn [Nat.eqb NULL negb]. eexists. split; [|split].
      * rewrite mem_set_timer. reflexivity.
      * rewrite runnable_set_timer. reflexivity.
      * rewrite mem_set_timer. reflexivity.
  - intros Hno.
    assert (Hkeep : forall X : res ((ptr * nk_thread) * world),
      (if Nat.ltb 0 (size rq)
       then if deadline (mem w2 rt_c) >? deadline (mem w2 (threads rq O))
            then X
            else Ok ((rt_c, thread (mem (set_timer w2 rt_c (fst (resched_entry w)) 0)
                                        rt_c)),
                     set_timer w2 rt_c (fst (resched_entry w)) 0)
       else Ok ((rt_c, thread (mem (set_timer w2 rt_c (fst (resched_entry w)) 0)
                                   rt_c)),
                set_timer w2 rt_c (fst (resched_entry w)) 0))
      = Ok ((rt_c, thread (mem w2 rt_c)),
            set_timer w2 rt_c (fst (resched_entry w)) 0)).
    { intros X. rewrite mem_set_timer.
      destruct (Nat.ltb_spec 0 (size rq)); [|reflexivity].
      destruct (Z.gtb_spec (deadline (mem w2 rt_c))
                           (deadline (mem w2 (threads rq O))));
        [exfalso; apply Hno; split; [assumption|lia]|reflexivity]. }
    rewrite Hkeep. eexists. split; [reflexivity|].
    split; [apply runnable_set_timer|apply mem_set_timer].
Qed.

Lemma budget_left_preempt_or_keep_witness :
  sched_wf (ex_world_queues ex_mem [2%nat] [])
  /\ exists w',
      rt_need_resched 11%nat 1%nat (ex_world_queues ex_mem [2%nat] [])
      = Ok ((2%nat, 12%nat), w')
      /\ Permutation (queue_contents (runnable (sched w'))) [1%nat].
Proof.
  assert (Hwf : sched_wf (ex_world_queues ex_mem [2%nat] []))
    by (repeat split; reflexivity).
  split; [exact Hwf|].
  destruct (budget_left_preempt_or_keep 11%nat 1%nat
              (ex_world_queues ex_mem [2%nat] []) Hwf) as (w2 & D & H).
  vm_compute in D. injection D as D. subst w2.
  destruct H as (r & q & Dq & _ & Hpre & _).
  { left. split; vm_compute; reflexivity. }
  vm_compute in Dq. injection Dq as Er Eq. subst r q.
  destruct Hpre as [Hsome _].
  { vm_compute. lia. }
  { vm_compute. reflexivity. }
  destruct Hsome as (w' & E & _ & HP).
  { discriminate. }
  exists w'. split; [exact E|].
  apply HP. vm_compute. lia.
Defined.

(** C3 as stated fails when the root of runnable is marked [TOBE_REMOVED]:
    runnable holds descriptor 2 alone, with deadline 500 below the deadline
    1000 of the current thread 1, which has budget left; the dequeue skips
    descriptor 2 and returns null, so the dispatcher keeps and returns the
    current thread, does not enqueue it, and leaves runnable empty. *)
Lemma preemption_skips_tobe_removed_root :
  queue_contents (runnable (sched (ex_world_queues ex_mem_tbr [2%nat] [])))
  = [2%nat]
  /\ deadline (mem (ex_world_queues ex_mem_tbr [2%nat] []) 2%nat)
     < deadline (mem (ex_world_queues ex_mem_tbr [2%nat] []) 1%nat)
  /\ run_time (mem (ex_world_queues ex_mem_tbr [2%nat] []) 1%nat)
     < slice (constraints (mem (ex_world_queues ex_mem_tbr [2%nat] []) 1%nat))
  /\ exists w',
      rt_need_resched 11%nat 1%nat (ex_world_queues ex_mem_tbr [2%nat] [])
      = Ok ((1%nat, 11%nat), w')
      /\ queue_contents (runnable (sched w')) = [].
Proof.
  split; [vm_compute; reflexivity|].
  split; [vm_compute; reflexivity|].
  split; [vm_compute; reflexivity|].
  eexists. split; vm_compute; reflexivity.
Qed.

(** ** Claim C4: the release loop *)

Lemma perm_filter {A : Type} (f : A -> bool) (l l' : list A) :
  Permutation l l' -> Permutation (filter f l) (filter f l').
Proof.
  induction 1 as [|x l l' _ IH|x y l|l l' l'' _ IH1 _ IH2]; simpl.
  - constructor.
  - destruct (f x); [apply perm_skip|]; assumption.
  - destruct (f x), (f y); try reflexivity. apply perm_swap.
  - etransitivity; eassumption.
Qed.

Lemma heap_ordered_ext_in (k1 k2 : ptr -> Z) (a : nat -> ptr) (n : nat) :
  (forall i, (i < n)%nat -> k1 (a i) = k2 (a i)) ->
  heap_ordered k1 a n -> heap_ordered k2 a n.
Proof.
  intros E H i Hi. pose proof (parent_lt i ltac:(lia)).
  rewrite <- !E by lia. apply H. assumption.
Qed.

Lemma update_periodic_other (t : ptr) (w : world) (p : ptr) :
  p <> t -> mem (update_periodic t w) p = mem w p.
Proof.
  intros N. unfold update_periodic. simpl.
  destruct (type (mem w t) =? PERIODIC); [|reflexivity].
  simpl. apply upd_other. assumption.
Qed.

Lemma update_periodic_src (t : ptr) (w : world) :
  rdtsc_src (update_periodic t w) = rdtsc_src w.
Proof. unfold update_periodic. simpl. split_ifs; reflexivity. Qed.

Lemma update_periodic_released (t : ptr) (w : world) :
  type (mem w t) = PERIODIC ->
  run_time (mem (update_periodic t w) t) = 0
  /\ deadline (mem (update_periodic t w) t)
     = wrap64 (wrap64 (rdtsc_src w (rdtsc_reads w))
               + period (constraints (mem w t)))
  /\ constraints (mem (update_periodic t w) t) = constraints (mem w t)
  /\ type (mem (update_periodic t w) t) = PERIODIC.
Proof.
  intros Hty. unfold update_periodic. simpl. rewrite Hty.
  change (PERIODIC =? PERIODIC) with true. simpl. rewrite upd_same. simpl.
  repeat split; try reflexivity. assumption.
Qed.

Lemma enqueue_thread_heap_status (q : rt_queue) (th : ptr)
      (m : ptr -> rt_thread) (p : ptr) :
  is_heap_type (qtype q) = true ->
  status (snd (enqueue_thread q th m) p) = status (m p).
Proof.
  intros Hty. rewrite enqueue_thread_heap by assumption. unfold enqueue_heap.
  destruct (Nat.eqb (size q) MAX_QUEUE); [reflexivity|].
  destruct (heap_insert _ _ _ _). simpl. apply status_set_q_type.
Qed.

Lemma enqueue_thread_type (q : rt_queue) (th : ptr) (m : ptr -> rt_thread)
      (p : ptr) :
  type (snd (enqueue_thread q th m) p) = type (m p).
Proof.
  destruct (enqueue_thread_frame q th m p) as (H & _). exact H.
Qed.

Lemma filter_none {A : Type} (f : A -> bool) (l : list A) :
  (forall x, In x l -> f x = false) -> filter f l = [].
Proof.
  induction l as [|x l IH]; intros H; simpl; [reflexivity|].
  rewrite (H x (or_introl eq_refl)). apply IH.
  intros y Hy. apply H. right. assumption.
Qed.

Lemma filter_all {A : Type} (f : A -> bool) (l : list A) :
  (forall x, In x l -> f x = true) -> filter f l = l.
Proof.
  intros H. apply forallb_filter_id. apply forallb_forall. assumption.
Qed.

(** On a pending heap of distinct live descriptors, no descriptor is due
    once the root is not. *)
Lemma pending_root_not_due (w : world) (e : Z) :
  sched_wf w -> queue_heap_ordered (pending (sched w)) (mem w) ->
  (0 < size (pending (sched w)))%nat ->
  e <= deadline (mem w (threads (pending (sched w)) O)) ->
  forall p, In p (queue_contents (pending (sched w))) ->
            due (mem w) e p = false.
Proof.
  intros (_ & Hp & _) HO Hpos Hge p Hin.
  unfold queue_heap_ordered in HO. rewrite Hp in HO.
  apply in_contents in Hin. destruct Hin as (i & Hi & <-).
  pose proof (heap_root_min _ _ _ HO i Hi) as H.
  unfold heap_key, key_deadline in H. simpl in H.
  unfold due. apply Z.ltb_ge. lia.
Qed.

Lemma release_drain_moves_due (fuel : nat) :
  forall (e : Z) (w : world),
    sched_wf w -> (size (pending (sched w)) < fuel)%nat -> drain_ready w ->
    exists w2,
      release_drain fuel e w = Ok w2
      /\ Permutation (queue_contents (pending (sched w2)))
           (filter (fun p => negb (due (mem w) e p))
                   (queue_contents (pending (sched w))))
      /\ Permutation (queue_contents (runnable (sched w2)))
           (filter (due (mem w) e) (queue_contents (pending (sched w)))
            ++ queue_contents (runnable (sched w)))
      /\ (forall p, ~ In p (queue_contents (pending (sched w))) ->
                    mem w2 p = mem w p)
      /\ (forall p, In p (queue_contents (pending (sched w))) ->
                    due (mem w) e p = false -> mem w2 p = mem w p)
      /\ (forall p, In p (queue_contents (pending (sched w))) ->
                    due (mem w) e p = true -> type (mem w p) = PERIODIC ->
                    run_time (mem w2 p) = 0
                    /\ exists n,
                        deadline (mem w2 p)
                        = wrap64 (wrap64 (rdtsc_src w n)
                                  + period (constraints (mem w p)))).
Proof.
  induction fuel as [|fuel IH]; intros e w Hwf Hf (HO & Hnd & Hlive & Hroom);
    [lia|].
  rewrite release_drain_S.
  set (pq := pending (sched w)) in *.
  assert (Hstop : (forall p, In p (queue_contents pq) -> due (mem w) e p = false) ->
    exists w2,
      Ok w = Ok w2
      /\ Permutation (queue_contents (pending (sched w2)))
           (filter (fun p => negb (due (mem w) e p)) (queue_contents pq))
      /\ Permutation (queue_contents (runnable (sched w2)))
           (filter (due (mem w) e) (queue_contents pq)
            ++ queue_contents (runnable (sched w)))
      /\ (forall p, ~ In p (queue_contents pq) -> mem w2 p = mem w p)
      /\ (forall p, In p (queue_contents pq) ->
                    due (mem w) e p = false -> mem w2 p = mem w p)
      /\ (forall p, In p (queue_contents pq) ->
                    due (mem w) e p = true -> type (mem w p) = PERIODIC ->
                    run_time (mem w2 p) = 0
                    /\ exists n,
                        deadline (mem w2 p)
                        = wrap64 (wrap64 (rdtsc_src w n)
                                  + period (constraints (mem w p))))).
  { intros Hnone. exists w. split; [reflexivity|].
    rewrite (filter_none (due (mem w) e)) by assumption.
    rewrite filter_all
      by (intros x Hx; rewrite (Hnone x Hx); reflexivity).
    split; [reflexivity|]. split; [reflexivity|].
    split; [reflexivity|]. split; [reflexivity|].
    intros p Hp Hd. rewrite (Hnone p Hp) in Hd. discriminate. }
  destruct (Nat.ltb_spec 0 (size pq)) as [Hpos|Hz].
  2:{ apply Hstop. intros p Hp. unfold queue_contents in Hp.
      replace (size pq) with 0%nat in Hp by lia. contradiction. }
  destruct (Z.ltb_spec (deadline (mem w (threads pq O))) e) as [Hlt|Hge].
  2:{ apply Hstop. apply pending_root_not_due; assumption. }
  set (r := threads pq O) in *.
  assert (Hrin : In r (queue_contents pq)).
  { apply in_contents. exists O. split; [assumption|reflexivity]. }
  destruct (Hlive r Hrin) as [Hrn Hrs].
  destruct (sched_wf_heap w Hwf) as (Hrt & Hpt & _).
  destruct (dequeue_thread_heap_live pq (mem w) Hpt Hpos HO Hrs)
    as (q' & D & Hq & Hs & _ & _ & HO' & HP).
  fold r in D, HP. rewrite D. cbn [bind].
  destruct (Nat.eqb_spec r NULL) as [|_]; [contradiction|].
  set (w1 := with_sched w (set_pending (sched w) q')).
  set (w2' := update_periodic r w1).
  set (w3 := with_queue_mem set_runnable w2'
               (enqueue_thread (runnable (sched w2')) r (mem w2'))).
  assert (Hs2 : sched w2' = sched w1) by apply update_periodic_sched.
  assert (Hp3 : pending (sched w3) = q').
  { unfold w3. simpl. rewrite Hs2. reflexivity. }
  assert (Hr2 : runnable (sched w2') = runnable (sched w)).
  { rewrite Hs2. reflexivity. }
  assert (Hwf3 : sched_wf w3).
  { apply sched_wf_enqueue_runnable, sched_wf_update_periodic.
    apply sched_wf_set_pending; assumption. }
  assert (Hnd' : NoDup (r :: queue_contents q')).
  { apply (Permutation_NoDup (Permutation_sym HP)). assumption. }
  assert (Hrq : ~ In r (queue_contents q')) by (inversion Hnd'; assumption).
  assert (Hother : forall p, p <> r -> mem w3 p = mem w p).
  { intros p Np. unfold w3. simpl.
    rewrite enqueue_thread_other by assumption.
    unfold w2'. rewrite update_periodic_other by assumption. reflexivity. }
  assert (Hin' : forall p, In p (queue_contents q') ->
                           In p (queue_contents pq) /\ p <> r).
  { intros p Hp. split.
    - apply (Permutation_in _ HP). right. assumption.
    - intros ->. contradiction. }
  assert (Hready3 : drain_ready w3).
  { unfold drain_ready. rewrite Hp3.
    split; [|split; [|split]].
    - unfold queue_heap_ordered in *.
      eapply heap_ordered_ext_in; [|exact HO'].
      intros i Hi.
      assert (Hi' : In (threads q' i) (queue_contents q')).
      { apply in_contents. exists i. split; [assumption|reflexivity]. }
      unfold heap_key, key_priority, key_deadline.
      destruct (qtype q' =? APERIODIC_QUEUE);
        rewrite Hother by (apply Hin'; assumption); reflexivity.
    - inversion Hnd'; assumption.
    - intros p Hp. destruct (Hin' p Hp) as [Hpin Hpr].
      rewrite Hother by assumption. apply Hlive. assumption.
    - unfold w3. simpl.
      assert (Hlt' : (size (runnable (sched w2')) < MAX_QUEUE)%nat).
      { rewrite Hr2. lia. }
      destruct (enqueue_thread_heap_perm (runnable (sched w2')) r (mem w2')
                  ltac:(rewrite Hr2; exact Hrt)) as [Hroom' _].
      destruct (Hroom' Hlt') as [Hsz _]. rewrite Hsz, Hr2. lia. }
  destruct (IH e w3 Hwf3 ltac:(rewrite Hp3; lia) Hready3)
    as (wf & E & P1 & P2 & F1 & F2 & F3).
  rewrite Hp3 in P1, P2, F1, F2, F3.
  exists wf. split; [exact E|].
  assert (Hdue3 : forall p, In p (queue_contents q') ->
                            due (mem w3) e p = due (mem w) e p).
  { intros p Hp. unfold due. rewrite Hother by (apply Hin'; assumption).
    reflexivity. }
  assert (Hrdue : due (mem w) e r = true) by (apply Z.ltb_lt; assumption).
  split; [|split; [|split; [|split]]].
  - rewrite P1.
    rewrite (filter_ext_in _ (fun p => negb (due (mem w) e p)))
      by (intros p Hp; rewrite Hdue3 by assumption; reflexivity).
    rewrite <- (perm_filter _ _ _ HP). simpl. rewrite Hrdue. reflexivity.
  - rewrite P2.
    rewrite (filter_ext_in _ (due (mem w) e)) by assumption.
    rewrite <- (perm_filter (due (mem w) e) _ _ HP). simpl. rewrite Hrdue.
    unfold w3. cbn [with_queue_mem sched runnable set_runnable fst].
    destruct (enqueue_thread_heap_perm (runnable (sched w2')) r (mem w2')
                ltac:(rewrite Hr2; exact Hrt)) as [Hroom' _].
    destruct (Hroom' ltac:(rewrite Hr2; lia)) as [_ HPr].
    rewrite HPr, Hr2. simpl. symmetry. apply Permutation_middle.
  - intros p Hp.
    assert (Np : p <> r) by (intros ->; contradiction).
    rewrite F1; [apply Hother; assumption|].
    intros Hc. apply Hp. apply (Hin' p Hc).
  - intros p Hp Hd.
    assert (Np : p <> r) by (intros ->; congruence).
    assert (Hpq' : In p (queue_contents q')).
    { apply (Permutation_in _ (Permutation_sym HP)) in Hp.
      destruct Hp as [Hp|Hp]; [congruence|assumption]. }
    rewrite F2; [apply Hother; assumption|assumption|].
    rewrite Hdue3; assumption.
  - intros p Hp Hd Hty.
    destruct (Nat.eq_dec p r) as [->|Np].
    + rewrite (F1 r Hrq). unfold w3. cbn [with_queue_mem mem snd].
      destruct (enqueue_thread_fields (runnable (sched w2')) r (mem w2') r)
        as (Fd & Fr & _).
      rewrite Fd, Fr.
      destruct (update_periodic_released r w1 Hty) as (A & B & _).
      split; [exact A|]. exists (rdtsc_reads w). exact B.
    + assert (Hpq' : In p (queue_contents q')).
      { apply (Permutation_in _ (Permutation_sym HP)) in Hp.
        destruct Hp as [Hp|Hp]; [congruence|assumption]. }
      destruct (F3 p Hpq' ltac:(rewrite Hdue3; assumption)
                   ltac:(rewrite Hother; assumption)) as (A & n & B).
      split; [exact A|]. exists n. rewrite B, Hother by assumption.
      unfold w3. cbn [with_queue_mem rdtsc_src].
      unfold w2'. rewrite update_periodic_src. reflexivity.
Qed.

(** C4, as the code has it.  Before selection [rt_need_resched] runs the
    release loop with [end_time = scheduler->run_time + cur_time()]: while
    pending is not empty and the deadline of its root is strictly below
    [end_time], it dequeues from pending, re-releases what came out and
    enqueues it onto runnable.  The loop ends, and it ends with pending
    empty or with a root whose deadline is at least [end_time].  On a
    pending heap of distinct descriptors none of which is marked
    [TOBE_REMOVED], with room on runnable, it moves exactly the descriptors
    whose deadline is strictly below [end_time]: they are on runnable
    afterwards, the periodic ones with [run_time] 0 and a deadline of a
    reading of the counter plus the period, and the descriptors whose
    deadline is at least [end_time] are what is left on pending, untouched. *)
Theorem release_loop_moves_due_threads :
  forall (c : nk_thread) (rt_c : ptr) (w : world),
    sched_wf w ->
    let e := fst (resched_entry w) in
    exists w2,
      release_drain (S (size (pending (sched (snd (resched_entry w))))))
                    e (snd (resched_entry w)) = Ok w2
      /\ rt_need_resched c rt_c w = resched_select c rt_c e 0 w2
      /\ (size (pending (sched w2)) = 0%nat
          \/ e <= deadline (mem w2 (threads (pending (sched w2)) O)))
      /\ (drain_ready w ->
          Permutation (queue_contents (pending (sched w2)))
            (filter (fun p => negb (due (mem w) e p))
                    (queue_contents (pending (sched w))))
          /\ Permutation (queue_contents (runnable (sched w2)))
               (filter (due (mem w) e) (queue_contents (pending (sched w)))
                ++ queue_contents (runnable (sched w)))
          /\ (forall p, In p (queue_contents (pending (sched w2))) ->
                        mem w2 p = mem w p /\ e <= deadline (mem w2 p))
          /\ (forall p, In p (queue_contents (pending (sched w))) ->
                        due (mem w) e p = true -> type (mem w p) = PERIODIC ->
                        run_time (mem w2 p) = 0
                        /\ exists n,
                            deadline (mem w2 p)
                            = wrap64 (wrap64 (rdtsc_src w n)
                                      + period (constraints (mem w p))))).
Proof.
  intros c rt_c w Hwf e.
  pose proof (resched_entry_spec w) as (_ & Hm & Hr & Hp & _ & Hsrc & _).
  assert (Hwf1 : sched_wf (snd (resched_entry w))).
  { destruct Hwf as (A & B & C). unfold sched_wf. rewrite Hr, Hp.
    unfold resched_entry. simpl. repeat split; assumption. }
  destruct (release_drain_total _ e _ Hwf1 (Nat.lt_succ_diag_r _))
    as (w2 & D & Hwf2 & _).
  exists w2. split; [exact D|]. split; [|split].
  - unfold rt_need_resched. fold e.
    destruct (resched_entry w) as [e0 w1]. cbn [fst snd] in *.
    subst e. cbn [fst] in D. rewrite D. reflexivity.
  - eapply release_drain_exit. exact D.
  - intros Hready.
    assert (Hready1 : drain_ready (snd (resched_entry w))).
    { unfold drain_ready. rewrite Hm, Hr, Hp. exact Hready. }
    destruct (release_drain_moves_due _ e _ Hwf1 (Nat.lt_succ_diag_r _) Hready1)
      as (w2' & D' & P1 & P2 & F1 & F2 & F3).
    rewrite D in D'. injection D' as <-.
    rewrite Hm, Hp in P1, F2, F3. rewrite Hm, Hp, Hr in P2. rewrite Hsrc in F3.
    split; [exact P1|]. split; [exact P2|]. split; [|exact F3].
    intros p Hin. apply (Permutation_in _ P1) in Hin.
    apply filter_In in Hin. destruct Hin as [Hin Hd].
    apply negb_true_iff in Hd.
    rewrite (F2 p Hin Hd). split; [reflexivity|].
    unfold due in Hd. apply Z.ltb_ge in Hd. exact Hd.
Qed.

Lemma release_loop_moves_due_threads_witness :
  sched_wf (ex_world_queues ex_mem_due [] [1%nat; 2%nat])
  /\ drain_ready (ex_world_queues ex_mem_due [] [1%nat; 2%nat])
  /\ exists w2,
      rt_need_resched 14%nat 4%nat (ex_world_queues ex_mem_due [] [1%nat; 2%nat])
      = resched_select 14%nat 4%nat 100 0 w2
      /\ Permutation (queue_contents (pending (sched w2))) [1%nat]
      /\ Permutation (queue_contents (runnable (sched w2))) [2%nat]
      /\ run_time (mem w2 2%nat) = 0.
Proof.
  assert (Hwf : sched_wf (ex_world_queues ex_mem_due [] [1%nat; 2%nat]))
    by (repeat split; reflexivity).
  assert (Hready : drain_ready (ex_world_queues ex_mem_due [] [1%nat; 2%nat])).
  { split; [|split; [|split]].
    - intros i Hi. assert (i = 1%nat) by (vm_compute in Hi; lia). subst i.
      vm_compute. discriminate.
    - vm_compute. repeat constructor; simpl; intuition discriminate.
    - intros p Hp. vm_compute in Hp.
      destruct Hp as [<-|[<-|[]]]; split; vm_compute; discriminate.
    - vm_compute. lia. }
  split; [exact Hwf|]. split; [exact Hready|].
  destruct (release_loop_moves_due_threads 14%nat 4%nat _ Hwf)
    as (w2 & _ & E & _ & H).
  destruct (H Hready) as (P1 & P2 & _ & F3).
  assert (He : fst (resched_entry
                      (ex_world_queues ex_mem_due [] [1%nat; 2%nat])) = 100)
    by (vm_compute; reflexivity).
  rewrite He in E.
  match type of P1 with
  | Permutation _ ?l =>
      assert (E1 : l = [1%nat]) by (vm_compute; reflexivity); rewrite E1 in P1
  end.
  match type of P2 with
  | Permutation _ ?l =>
      assert (E2 : l = [2%nat]) by (vm_compute; reflexivity); rewrite E2 in P2
  end.
  exists w2. split; [exact E|]. split; [exact P1|]. split; [exact P2|].
  apply F3.
  - vm_compute. left. reflexivity.
  - vm_compute. reflexivity.
  - vm_compute. reflexivity.
Defined.

(** C4 as stated fails at a deadline equal to [end_time]: descriptor 1 is
    the root of pending with deadline 100, [end_time] is 100, and after the
    reschedule descriptor 1 is still on pending, not re-released, and
    runnable is empty. *)
Lemma deadline_equal_to_now_stays_pending :
  fst (resched_entry (ex_world_queues ex_mem_now [] [1%nat])) = 100
  /\ queue_contents (pending (sched (ex_world_queues ex_mem_now [] [1%nat])))
     = [1%nat]
  /\ deadline (mem (ex_world_queues ex_mem_now [] [1%nat]) 1%nat) = 100
  /\ exists x w',
      rt_need_resched 14%nat 4%nat (ex_world_queues ex_mem_now [] [1%nat])
      = Ok (x, w')
      /\ queue_contents (pending (sched w')) = [1%nat]
      /\ queue_contents (runnable (sched w')) = []
      /\ deadline (mem w' 1%nat) = 100.
Proof.
  split; [vm_compute; reflexivity|].
  split; [vm_compute; reflexivity|].
  split; [vm_compute; reflexivity|].
  eexists. eexists. split; [vm_compute; reflexivity|].
  repeat split; vm_compute; reflexivity.
Qed.

(** ** Claims C5 and C10: admission control *)

Lemma fold_add_per_util_err (m : ptr -> rt_thread) (l : list ptr) (f : fault) :
  fold_left (add_per_util m) l (Err f) = Err f.
Proof. induction l as [|x l IH]; simpl; [reflexivity|exact IH]. Qed.

Lemma add_per_util_Ok (m : ptr -> rt_thread) (u : Z) (x : ptr) :
  add_per_util m (Ok u) x
  = if type (m x) =? PERIODIC then
      if period (constraints (m x)) =? 0 then Err DivideByZero
      else Ok (wrap64 (u + util_term (m x)))
    else Ok u.
Proof. reflexivity. Qed.

(** The loop of [get_per_util] over a list of slots: it traps exactly when
    a periodic thread of the list has period 0, and otherwise adds the
    utilization terms of the periodic threads, in order, in 64-bit
    arithmetic. *)
Lemma fold_add_per_util (m : ptr -> rt_thread) (l : list ptr) :
  forall (u : Z),
    ((forall p, In p l -> type (m p) = PERIODIC ->
                period (constraints (m p)) <> 0) ->
     fold_left (add_per_util m) l (Ok u)
     = Ok (fold_left (fun acc x => wrap64 (acc + x))
                     (map (fun p => util_term (m p))
                          (filter (fun p => type (m p) =? PERIODIC) l)) u))
    /\ ((exists p, In p l /\ type (m p) = PERIODIC
                   /\ period (constraints (m p)) = 0) ->
        fold_left (add_per_util m) l (Ok u) = Err DivideByZero).
Proof.
  induction l as [|x l IH]; intros u.
  - split; [reflexivity|]. intros (p & [] & _).
  - cbn [fold_left filter]. rewrite add_per_util_Ok.
    destruct (Z.eqb_spec (type (m x)) PERIODIC) as [Hty|Hty].
    + destruct (Z.eqb_spec (period (constraints (m x))) 0) as [Hz|Hz].
      * split.
        -- intros H. exfalso. apply (H x (or_introl eq_refl) Hty Hz).
        -- intros _. apply fold_add_per_util_err.
      * split.
        -- intros H. cbn [map fold_left]. apply IH.
           intros p Hp. apply H. right. exact Hp.
        -- intros (p & [->|Hp] & Hpt & Hpz); [contradiction|].
           apply IH. exists p. repeat split; assumption.
    + split.
      * intros H. apply IH. intros p Hp. apply H. right. exact Hp.
      * intros (p & [->|Hp] & Hpt & Hpz); [contradiction|].
        apply IH. exists p. repeat split; assumption.
Qed.

Lemma periodic_zero_dec (m : ptr -> rt_thread) (l : list ptr) :
  (forall p, In p l -> type (m p) = PERIODIC -> period (constraints (m p)) <> 0)
  \/ (exists p, In p l /\ type (m p) = PERIODIC
                /\ period (constraints (m p)) = 0).
Proof.
  induction l as [|x l [IH|IH]].
  - left. intros p [].
  - destruct (Z.eq_dec (type (m x)) PERIODIC) as [Hty|Hty];
      [destruct (Z.eq_dec (period (constraints (m x))) 0) as [Hz|Hz]|].
    + right. exists x. repeat split; [left; reflexivity|assumption|assumption].
    + left. intros p [->|Hp]; [intros _; assumption|apply IH; assumption].
    + left. intros p [->|Hp]; [intros H; contradiction|apply IH; assumption].
  - right. destruct IH as (p & Hp & H). exists p. split; [right|]; assumption.
Qed.

Lemma get_per_util_fold (rq pq : rt_queue) (m : ptr -> rt_thread) :
  get_per_util rq pq m
  = fold_left (add_per_util m) (queue_contents rq ++ queue_contents pq) (Ok 0).
Proof. unfold get_per_util, queue_contents. rewrite fold_left_app. reflexivity. Qed.

Lemma in_queued_periodic (w : world) (p : ptr) :
  In p (queued_periodic w)
  <-> In p (queue_contents (runnable (sched w))
            ++ queue_contents (pending (sched w)))
      /\ type (mem w p) = PERIODIC.
Proof.
  unfold queued_periodic. rewrite filter_In, Z.eqb_eq. reflexivity.
Qed.

(** [rt_admit] on a periodic candidate, case by case. *)
Lemma rt_admit_periodic (w : world) (th : ptr) :
  type (mem w th) = PERIODIC ->
  ((forall p, In p (queued_periodic w) -> period (constraints (mem w p)) <> 0)
   /\ period (constraints (mem w th)) <> 0 ->
   rt_admit w th
   = Ok (if wrap64 (sum64 (map (fun p => util_term (mem w p)) (queued_periodic w))
                    + util_term (mem w th)) >? PERIODIC_UTIL
         then 0 else 1, w))
  /\ (~ ((forall p, In p (queued_periodic w) ->
                    period (constraints (mem w p)) <> 0)
         /\ period (constraints (mem w th)) <> 0) ->
      rt_admit w th = Err DivideByZero).
Proof.
  intros Hty. unfold rt_admit. rewrite Hty.
  change (PERIODIC =? PERIODIC) with true. cbv iota.
  rewrite get_per_util_fold.
  set (l := queue_contents (runnable (sched w))
            ++ queue_contents (pending (sched w))).
  destruct (fold_add_per_util (mem w) l 0) as [Hok Herr].
  destruct (periodic_zero_dec (mem w) l) as [Hnz|Hz].
  - rewrite (Hok Hnz). cbn [bind]. split.
    + intros [_ Hth].
      destruct (Z.eqb_spec (period (constraints (mem w th))) 0);
        [contradiction|].
      unfold sum64, queued_periodic, util_term. fold l.
      destruct (_ >? PERIODIC_UTIL); reflexivity.
    + intros Hno.
      destruct (Z.eqb_spec (period (constraints (mem w th))) 0);
        [reflexivity|].
      exfalso. apply Hno. split; [|assumption].
      intros p Hp. apply in_queued_periodic in Hp. destruct Hp as [Hp Hpt].
      apply Hnz; assumption.
  - rewrite (Herr Hz). cbn [bind]. split; [|reflexivity].
    intros [Hall _]. exfalso. destruct Hz as (p & Hp & Hpt & Hpz).
    apply (Hall p); [|assumption].
    apply in_queued_periodic. split; assumption.
Qed.

Lemma wrap64_small (x : Z) : 0 <= x < two64 -> wrap64 x = x.
Proof. intros H. unfold wrap64. apply Z.mod_small. exact H. Qed.

Lemma Zsum_nonneg (l : list Z) : (forall x, In x l -> 0 <= x) -> 0 <= Zsum l.
Proof.
  induction l as [|x l IH]; intros H; simpl; [lia|].
  pose proof (H x (or_introl eq_refl)).
  assert (0 <= Zsum l) by (apply IH; intros y Hy; apply H; right; exact Hy).
  lia.
Qed.

(** Without overflow the 64-bit sum is the sum. *)
Lemma fold_wrap_exact (l : list Z) :
  forall u, 0 <= u -> (forall x, In x l -> 0 <= x) -> u + Zsum l < two64 ->
            fold_left (fun acc x => wrap64 (acc + x)) l u = u + Zsum l.
Proof.
  induction l as [|x l IH]; intros u Hu Hpos Hlt; simpl in *; [lia|].
  pose proof (Hpos x (or_introl eq_refl)).
  assert (0 <= Zsum l) by (apply Zsum_nonneg; intros y Hy; apply Hpos; right; exact Hy).
  rewrite wrap64_small by lia.
  rewrite IH; [lia|lia| |lia].
  intros y Hy. apply Hpos. right. exact Hy.
Qed.

Lemma Zsum_app (l1 l2 : list Z) : Zsum (l1 ++ l2) = Zsum l1 + Zsum l2.
Proof. induction l1 as [|x l1 IH]; simpl; [reflexivity|]. rewrite IH. lia. Qed.

Lemma exact_util_nonneg (t : rt_thread) :
  0 <= slice (constraints t) * 100000 -> 0 < period (constraints t) ->
  0 <= exact_util t.
Proof. intros H1 H2. unfold exact_util. apply Z.div_pos; assumption. Qed.

(** C5, as the code has it.  [rt_admit] accepts a periodic candidate if and
    only if the periodic threads of runnable and pending and the candidate
    all have a non-zero period and the sum of [slice * 100000 / period] over
    those threads plus the candidate's own term is at most 65000
    ([PERIODIC_UTIL]), where the arithmetic is that of [uint64_t]: the
    product and the running sum are taken modulo [2^64] and the division
    truncates.  When no product [slice * 100000] reaches [2^64], every period
    is positive and the exact sum stays below [2^64], the candidate is
    accepted if and only if the exact sum of the truncated quotients
    [slice * 100000 / period] over the queued periodic threads and the
    candidate is at most 65000. *)
Theorem periodic_admission_bound :
  forall (w : world) (th : ptr),
    type (mem w th) = PERIODIC ->
    (admits w th
     <-> (forall p, In p (queued_periodic w) ->
                    period (constraints (mem w p)) <> 0)
         /\ period (constraints (mem w th)) <> 0
         /\ wrap64 (sum64 (map (fun p => util_term (mem w p))
                               (queued_periodic w))
                    + util_term (mem w th)) <= PERIODIC_UTIL)
    /\ ((forall p, In p (queued_periodic w ++ [th]) ->
                   0 <= slice (constraints (mem w p)) * 100000 < two64
                   /\ 0 < period (constraints (mem w p))) ->
        Zsum (map (fun p => exact_util (mem w p)) (queued_periodic w ++ [th]))
        < two64 ->
        (admits w th
         <-> Zsum (map (fun p => exact_util (mem w p))
                       (queued_periodic w ++ [th])) <= PERIODIC_UTIL)).
Proof.
  intros w th Hty.
  destruct (rt_admit_periodic w th Hty) as [Hok Herr].
  assert (Hiff : admits w th
     <-> (forall p, In p (queued_periodic w) ->
                    period (constraints (mem w p)) <> 0)
         /\ period (constraints (mem w th)) <> 0
         /\ wrap64 (sum64 (map (fun p => util_term (mem w p))
                               (queued_periodic w))
                    + util_term (mem w th)) <= PERIODIC_UTIL).
  { unfold admits. split.
    - intros (w' & E).
      assert (Hnz : (forall p, In p (queued_periodic w) ->
                               period (constraints (mem w p)) <> 0)
                    /\ period (constraints (mem w th)) <> 0).
      { destruct (periodic_zero_dec (mem w) (queued_periodic w)) as [H|H].
        - destruct (Z.eq_dec (period (constraints (mem w th))) 0) as [Hz|Hz].
          + rewrite Herr in E; [discriminate|]. intros [_ C]. contradiction.
          + split; [|assumption]. intros p Hp. apply H; [assumption|].
            apply in_queued_periodic in Hp. apply Hp.
        - rewrite Herr in E; [discriminate|]. intros [C _].
          destruct H as (p & Hp & _ & Hz). apply (C p Hp Hz). }
      rewrite (Hok Hnz) in E.
      destruct Hnz as [A B]. split; [assumption|]. split; [assumption|].
      destruct (Z.gtb_spec (wrap64 (sum64 (map (fun p => util_term (mem w p))
                                               (queued_periodic w))
                                    + util_term (mem w th))) PERIODIC_UTIL);
        [discriminate|assumption].
    - intros (A & B & C). exists w. rewrite (Hok (conj A B)).
      destruct (Z.gtb_spec (wrap64 (sum64 (map (fun p => util_term (mem w p))
                                               (queued_periodic w))
                                    + util_term (mem w th))) PERIODIC_UTIL);
        [lia|reflexivity]. }
  split; [exact Hiff|].
  intros Hsmall Hlt.
  rewrite map_app, Zsum_app in Hlt |- *. simpl in Hlt |- *.
  assert (Hterm : forall p, In p (queued_periodic w ++ [th]) ->
                            util_term (mem w p) = exact_util (mem w p)
                            /\ 0 <= exact_util (mem w p)
                            /\ period (constraints (mem w p)) <> 0).
  { intros p Hp. destruct (Hsmall p Hp) as [Hs Hp0].
    unfold util_term. rewrite wrap64_small by assumption.
    split; [reflexivity|]. split; [apply exact_util_nonneg; lia|lia]. }
  assert (Hth : In th (queued_periodic w ++ [th])).
  { apply in_or_app. right. left. reflexivity. }
  destruct (Hterm th Hth) as (Eth & Pth & Nth).
  assert (Emap : map (fun p => util_term (mem w p)) (queued_periodic w)
                 = map (fun p => exact_util (mem w p)) (queued_periodic w)).
  { apply map_ext_in. intros p Hp. apply Hterm. apply in_or_app. left. exact Hp. }
  assert (Hpos : forall x,
             In x (map (fun p => exact_util (mem w p)) (queued_periodic w)) ->
             0 <= x).
  { intros x Hx. apply in_map_iff in Hx. destruct Hx as (p & <- & Hp).
    apply Hterm. apply in_or_app. left. exact Hp. }
  pose proof (Zsum_nonneg _ Hpos) as Hsum0.
  assert (Esum : sum64 (map (fun p => util_term (mem w p)) (queued_periodic w))
                 = Zsum (map (fun p => exact_util (mem w p)) (queued_periodic w))).
  { rewrite Emap. unfold sum64. rewrite fold_wrap_exact; [lia|lia|assumption|lia]. }
  rewrite Hiff, Esum, Eth, wrap64_small by lia.
  split.
  - intros (_ & _ & H). lia.
  - intros H. split; [|split; [assumption|lia]].
    intros p Hp. apply Hterm. apply in_or_app. left. exact Hp.
Qed.

Lemma periodic_admission_bound_witness :
  admits (ex_world_queues ex_mem [2%nat] []) 1%nat
  /\ Zsum (map (fun p => exact_util (mem (ex_world_queues ex_mem [2%nat] []) p))
               (queued_periodic (ex_world_queues ex_mem [2%nat] []) ++ [1%nat]))
     <= PERIODIC_UTIL.
Proof.
  destruct (periodic_admission_bound (ex_world_queues ex_mem [2%nat] []) 1%nat
              eq_refl) as [_ B].
  assert (Hle : Zsum (map (fun p => exact_util
                                      (mem (ex_world_queues ex_mem [2%nat] []) p))
                          (queued_periodic (ex_world_queues ex_mem [2%nat] [])
                           ++ [1%nat])) <= PERIODIC_UTIL)
    by (vm_compute; discriminate).
  split; [|exact Hle].
  apply B.
  - intros p Hp. vm_compute in Hp.
    destruct Hp as [<-|[<-|[]]]; vm_compute; repeat split; discriminate.
  - vm_compute. reflexivity.
  - exact Hle.
Defined.

(** C5 as stated fails when [slice * 100000] overflows 64 bits: the
    candidate, descriptor 5, has slice 184467440737096 and period
    200000000000000, so its utilization is about 0.92 and
    [slice * 100000 / period] is 92233, above 65000; runnable and pending are
    empty; the product wraps to 48384, the term [rt_admit] computes is 0, and
    the candidate is accepted. *)
Lemma overflowing_slice_is_admitted :
  type (ex_mem_wide 5%nat) = PERIODIC
  /\ queued_periodic (ex_world ex_mem_wide) = []
  /\ slice (constraints (ex_mem_wide 5%nat)) < period (constraints (ex_mem_wide 5%nat))
  /\ exact_util (ex_mem_wide 5%nat) = 92233
  /\ ~ (92233 <= PERIODIC_UTIL)
  /\ util_term (ex_mem_wide 5%nat) = 0
  /\ admits (ex_world ex_mem_wide) 5%nat.
Proof.
  split; [reflexivity|]. split; [vm_compute; reflexivity|].
  split; [vm_compute; reflexivity|]. split; [vm_compute; reflexivity|].
  split; [vm_compute; intros H; apply H; reflexivity|].
  split; [vm_compute; reflexivity|].
  eexists. vm_compute. reflexivity.
Qed.

(** Scenario S4 of the spec: a candidate with period 100 and slice 80 is
    rejected on an empty system. *)
Example over_subscription_rejected :
  exists w', rt_admit (ex_world ex_mem_over) 5%nat = Ok (0, w').
Proof. eexists. vm_compute. reflexivity. Qed.

(** The quotient truncates: a candidate with slice 650009 and period
    1000000, whose utilization exceeds 0.65, has the term 65000 and is
    accepted. *)
Example truncated_term_admitted :
  admits (ex_world ex_mem_round) 5%nat
  /\ exact_util (ex_mem_round 5%nat) = 65000
  /\ 65 * period (constraints (ex_mem_round 5%nat))
     < 100 * slice (constraints (ex_mem_round 5%nat)).
Proof.
  split; [eexists; vm_compute; reflexivity|].
  split; vm_compute; reflexivity.
Qed.


Lemma add_spor_util_Ok (u : Z) (w : world) (x : ptr) :
  add_spor_util (Ok (u, w)) x
  = if type (mem w x) =? SPORADIC then
      if wrap64 (deadline (mem w x) - wrap64 (rdtsc_src w (rdtsc_reads w))) =? 0
      then Err DivideByZero
      else Ok (wrap64 (u + wrap64 (work (constraints (mem w x)) * 100000)
                           / wrap64 (deadline (mem w x)
                                     - wrap64 (rdtsc_src w (rdtsc_reads w)))),
               snd (cur_time w))
    else Ok (u, w).
Proof. reflexivity. Qed.




(** ** Claim C6: the timer interval *)

Lemma umin_min (x y : Z) : umin x y = Z.min x y.
Proof.
  unfold umin. destruct (Z.ltb_spec x y); [rewrite Z.min_l|rewrite Z.min_r]; lia.
Qed.

Lemma wrap64_idem (x : Z) : wrap64 (wrap64 x + 0) = wrap64 x.
Proof.
  unfold wrap64. rewrite Z.add_0_r. apply Z.mod_mod. unfold two64. lia.
Qed.

Lemma budget_remaining_cases (t : rt_thread) :
  (type t = PERIODIC
   /\ budget_remaining t = wrap64 (slice (constraints t) - run_time t))
  \/ (type t <> PERIODIC /\ type t = SPORADIC
      /\ budget_remaining t = wrap64 (work (constraints t) - run_time t))
  \/ (type t <> PERIODIC /\ type t <> SPORADIC /\ budget_remaining t = QUANTUM).
Proof.
  unfold budget_remaining.
  destruct (Z.eqb_spec (type t) PERIODIC) as [Hp|Hp]; [left; auto|].
  destruct (Z.eqb_spec (type t) SPORADIC) as [Hs|Hs]; right; [left|right]; auto.
Qed.

(** When the fields are in range and the budget is not overdrawn, the
    remaining budget is the plain difference. *)
Lemma budget_remaining_exact (t : rt_thread) :
  (type t = PERIODIC -> 0 <= run_time t <= slice (constraints t) ->
   slice (constraints t) < two64 ->
   budget_remaining t = slice (constraints t) - run_time t)
  /\ (type t = SPORADIC -> 0 <= run_time t <= work (constraints t) ->
      work (constraints t) < two64 ->
      budget_remaining t = work (constraints t) - run_time t).
Proof.
  unfold budget_remaining. split; intros Hty Hr Hs; rewrite Hty.
  - change (PERIODIC =? PERIODIC) with true. cbv iota.
    apply wrap64_small. lia.
  - change (SPORADIC =? PERIODIC) with false.
    change (SPORADIC =? SPORADIC) with true. cbv iota.
    apply wrap64_small. lia.
Qed.

(** The value [set_timer] programs with slack 0 for a thread [next]. *)
Lemma set_timer_value (w : world) (next : ptr) (e : Z) :
  next <> NULL ->
  let v := if Nat.ltb 0 (size (pending (sched w)))
           then umin (wrap64 (deadline (mem w (threads (pending (sched w)) O)) - e))
                     (budget_remaining (mem w next))
           else budget_remaining (mem w next) in
  apic_oneshot (set_timer w next e 0) = v :: apic_oneshot w
  /\ tsc_set_time (tsc (sched (set_timer w next e 0))) = v.
Proof.
  intros Hn. unfold set_timer, budget_remaining.
  cbn [cur_time set_tsc_start_time with_sched sched mem set_tsc pending].
  destruct (Nat.eqb_spec next NULL) as [|_]; [contradiction|]. cbn [negb].
  rewrite !andb_true_r.
  destruct (Nat.ltb_spec 0 (size (pending (sched w)))) as [Hpos|Hz].
  - destruct (type (mem w next) =? PERIODIC);
      [|destruct (type (mem w next) =? SPORADIC)];
      rewrite ?wrap64_idem; split; reflexivity.
  - destruct (Nat.eqb_spec (size (pending (sched w))) 0) as [_|]; [|lia].
    destruct (type (mem w next) =? PERIODIC);
      [|destruct (type (mem w next) =? SPORADIC)];
      rewrite ?wrap64_idem; split; reflexivity.
Qed.

(** C6, as the code has it.  For a dispatch with slack zero, the interval
    [set_timer] writes to the one-shot timer (and records in
    [tsc->set_time]) for the chosen thread is the remaining budget of that
    thread when pending is empty, and the minimum of that budget and of the
    gap [pending.root.deadline - end_time] when pending is not empty, where
    the budget (slice minus [run_time] for a periodic thread, work minus
    [run_time] for a sporadic one, [QUANTUM] for any other) and the gap are
    the differences of [uint64_t], taken modulo [2^64].  So the interval is
    at most the plain remaining budget whenever [run_time] does not exceed
    the slice (the work), at most [QUANTUM] for an aperiodic thread, and at
    most the plain gap whenever the deadline of the pending root is not
    below [end_time]. *)
Theorem set_timer_interval_bound :
  forall (w : world) (next : ptr) (end_time : Z),
    next <> NULL ->
    let root := mem w (threads (pending (sched w)) O) in
    exists v,
      apic_oneshot (set_timer w next end_time 0) = v :: apic_oneshot w
      /\ tsc_set_time (tsc (sched (set_timer w next end_time 0))) = v
      /\ v <= budget_remaining (mem w next)
      /\ ((0 < size (pending (sched w)))%nat ->
          v = Z.min (budget_remaining (mem w next))
                    (wrap64 (deadline root - end_time)))
      /\ (size (pending (sched w)) = 0%nat ->
          v = budget_remaining (mem w next))
      /\ (type (mem w next) = PERIODIC ->
          0 <= run_time (mem w next) <= slice (constraints (mem w next)) ->
          slice (constraints (mem w next)) < two64 ->
          v <= slice (constraints (mem w next)) - run_time (mem w next))
      /\ (type (mem w next) = SPORADIC ->
          0 <= run_time (mem w next) <= work (constraints (mem w next)) ->
          work (constraints (mem w next)) < two64 ->
          v <= work (constraints (mem w next)) - run_time (mem w next))
      /\ (type (mem w next) <> PERIODIC -> type (mem w next) <> SPORADIC ->
          v <= QUANTUM)
      /\ ((0 < size (pending (sched w)))%nat ->
          0 <= end_time <= deadline root -> deadline root < two64 ->
          v <= deadline root - end_time).
Proof.
  intros w next e Hn root.
  destruct (set_timer_value w next e Hn) as [Ha Ht].
  destruct (budget_remaining_exact (mem w next)) as [Hper Hspo].
  eexists. split; [exact Ha|]. split; [exact Ht|].
  assert (Hb : (if Nat.ltb 0 (size (pending (sched w)))
                then umin (wrap64 (deadline root - e))
                          (budget_remaining (mem w next))
                else budget_remaining (mem w next))
               <= budget_remaining (mem w next)).
  { destruct (Nat.ltb 0 (size (pending (sched w)))); [rewrite umin_min|]; lia. }
  fold root.
  split; [exact Hb|]. split; [|split; [|split; [|split; [|split]]]].
  - intros Hpos. destruct (Nat.ltb_spec 0 (size (pending (sched w)))); [|lia].
    rewrite umin_min. apply Z.min_comm.
  - intros Hz. destruct (Nat.ltb_spec 0 (size (pending (sched w)))); [lia|].
    reflexivity.
  - intros Hty Hr Hs. rewrite <- (Hper Hty Hr Hs). exact Hb.
  - intros Hty Hr Hs. rewrite <- (Hspo Hty Hr Hs). exact Hb.
  - intros Hp Hs.
    destruct (budget_remaining_cases (mem w next))
      as [[C _]|[(_ & C & _)|(_ & _ & C)]]; try contradiction.
    rewrite <- C. exact Hb.
  - intros Hpos Hr Hs.
    destruct (Nat.ltb_spec 0 (size (pending (sched w)))); [|lia].
    rewrite umin_min, wrap64_small by lia. lia.
Qed.

Lemma set_timer_interval_bound_witness :
  exists v,
    apic_oneshot (set_timer (ex_world_queues ex_mem [] [2%nat]) 1%nat 100 0)
    = v :: apic_oneshot (ex_world_queues ex_mem [] [2%nat])
    /\ v <= 100
    /\ v <= 400.
Proof.
  destruct (set_timer_interval_bound (ex_world_queues ex_mem [] [2%nat]) 1%nat
                                     100 ltac:(discriminate))
    as (v & Ha & _ & _ & _ & _ & Hper & _ & _ & Hgap).
  exists v. split; [exact Ha|]. split.
  - apply Hper.
    + reflexivity.
    + vm_compute. split; discriminate.
    + vm_compute. reflexivity.
  - apply Hgap.
    + vm_compute. lia.
    + vm_compute. split; discriminate.
    + vm_compute. reflexivity.
Defined.

(** C6 as stated fails when the deadline of the pending root is already
    below [end_time].  Descriptor 1 used up its slice and met its deadline
    95; the reschedule at [end_time = 100] parks it on pending with that
    deadline and picks the aperiodic descriptor 4.  The gap
    [95 - 100] wraps to [2^64 - 5], and the timer is programmed with
    [QUANTUM = 10000000], which is not at most the gap of -5 cycles to the
    release of descriptor 1. *)
Lemma overdue_pending_root_gets_quantum :
  fst (resched_entry (ex_world ex_mem_tight)) = 100
  /\ exists w',
      rt_need_resched 11%nat 1%nat (ex_world ex_mem_tight)
      = Ok ((4%nat, 14%nat), w')
      /\ queue_contents (pending (sched w')) = [1%nat]
      /\ deadline (mem w' 1%nat) = 95
      /\ apic_oneshot w' = [10000000]
      /\ ~ (10000000 <= Z.min (budget_remaining (mem w' 4%nat)) (95 - 100)).
Proof.
  split; [vm_compute; reflexivity|].
  eexists. split; [vm_compute; reflexivity|].
  split; [vm_compute; reflexivity|]. split; [vm_compute; reflexivity|].
  split; [vm_compute; reflexivity|].
  vm_compute. intros H. apply H. reflexivity.
Qed.

(** ** Claim C8: removal by identity *)

(** On a non-empty heap queue whose first slot is not null the search loop
    of [remove_thread] stops at index 0 with [thread] overwritten by that
    slot. *)
Lemma remove_scan_first (a : nat -> ptr) (n : nat) (th : ptr) :
  (0 < n)%nat -> a O <> NULL -> remove_scan a n n O th = (a O, O).
Proof.
  intros Hn Ha. destruct n as [|n]; [lia|]. simpl.
  destruct (Nat.eqb_spec (a O) NULL) as [|_]; [contradiction|]. reflexivity.
Qed.

(** Whatever descriptor is passed, [remove_thread] on a non-empty heap
    queue with a non-null root removes and returns the root. *)
Lemma remove_heap_takes_root (key : ptr -> Z) (q : rt_queue) (th : ptr) :
  (0 < size q)%nat -> threads q O <> NULL ->
  exists q', remove_heap key q th = (threads q O, q')
             /\ size q' = (size q - 1)%nat.
Proof.
  intros Hn Ha. unfold remove_heap.
  destruct (Nat.ltb_spec (size q) 1) as [|_]; [lia|].
  rewrite remove_scan_first by assumption.
  destruct (Nat.eqb_spec 0 (size q)) as [|_]; [lia|].
  destruct (sift_down key (size q - 1) (size q - 1) (threads q (size q - 1))
                      (threads q) 0) as [a1 now].
  eexists. split; reflexivity.
Qed.

(** C8 fails on the code.  Runnable holds descriptor 2 alone; descriptor 1
    carries the tag of runnable but is not on it.  [remove_thread] called
    for descriptor 1 returns descriptor 2, not null, and leaves runnable
    empty. *)
Theorem remove_absent_thread_takes_root :
  q_type (mem (ex_world_queues ex_mem [2%nat] []) 1%nat) = RUNNABLE_QUEUE
  /\ queue_contents (runnable (sched (ex_world_queues ex_mem [2%nat] [])))
     = [2%nat]
  /\ ~ In 1%nat (queue_contents
                   (runnable (sched (ex_world_queues ex_mem [2%nat] []))))
  /\ exists w',
      remove_thread 1%nat (ex_world_queues ex_mem [2%nat] [])
      = Ok (2%nat, w')
      /\ size (runnable (sched w')) = 0%nat
      /\ queue_contents (runnable (sched w')) = [].
Proof.
  split; [reflexivity|]. split; [vm_compute; reflexivity|].
  split; [vm_compute; intuition discriminate|].
  eexists. split; [vm_compute; reflexivity|].
  split; vm_compute; reflexivity.
Qed.

(** A descriptor whose tag names a ring queue makes [remove_thread] read
    the type of a null queue. *)
Example remove_thread_ring_tag :
  remove_thread 1%nat
    (with_mem (ex_world ex_mem)
       (upd ex_mem 1%nat (set_q_type (ex_mem 1%nat) ARRIVAL_QUEUE)))
  = Err NullDeref.
Proof. reflexivity. Qed.

(** ** The fuel of the loops is enough *)

(** More fuel than [pos] changes nothing in the sift-up loop. *)
Lemma sift_up_fuel (key : ptr -> Z) (fuel : nat) :
  forall (k : nat) (th : ptr) (a : nat -> ptr) (pos : nat),
    (pos <= fuel)%nat ->
    sift_up key (fuel + k) th a pos = sift_up key fuel th a pos.
Proof.
  induction fuel as [|fuel IH]; intros k th a pos Hf.
  - assert (pos = 0%nat) by lia. subst pos.
    destruct k as [|k]; [reflexivity|]. simpl.
    rewrite andb_false_r. reflexivity.
  - simpl.
    destruct ((key (a (parent pos)) >? key th)
              && negb (Nat.eqb pos (parent pos))) eqn:C; [|reflexivity].
    apply andb_true_iff in C. destruct C as [_ C].
    apply negb_true_iff, Nat.eqb_neq in C.
    assert (H0 : (0 < pos)%nat)
      by (destruct pos; [exfalso; apply C; reflexivity|lia]).
    pose proof (parent_lt pos H0).
    apply IH. lia.
Qed.

(** More fuel than [n - now] changes nothing in the sift-down loop. *)
Lemma sift_down_fuel (key : ptr -> Z) (fuel : nat) :
  forall (k n : nat) (last : ptr) (a : nat -> ptr) (now : nat),
    (n <= now + fuel)%nat ->
    sift_down key (fuel + k) n last a now = sift_down key fuel n last a now.
Proof.
  induction fuel as [|fuel IH]; intros k n last a now Hf.
  - destruct k as [|k]; [reflexivity|]. simpl.
    destruct (Nat.ltb_spec (left_child now) n) as [Hl|]; [|reflexivity].
    rewrite left_child_eq in Hl. lia.
  - simpl.
    destruct (Nat.ltb_spec (left_child now) n) as [Hl|]; [|reflexivity].
    simpl.
    destruct (key last >? key (a _)); [|reflexivity].
    apply IH.
    destruct (key (a (right_child now)) <? key (a (left_child now)));
      rewrite ?left_child_eq, ?right_child_eq; lia.
Qed.

Lemma MAX_QUEUE_pos : (0 < MAX_QUEUE)%nat.
Proof. unfold MAX_QUEUE. lia. Qed.

(** A ring whose [head] and [tail] are below [MAX_QUEUE] is exhausted
    within the fuel [dequeue_thread] passes: the dequeue returns. *)
Lemma dequeue_ring_total (st : ptr -> Z) (fuel : nat) :
  forall (q : rt_queue),
    (head q < MAX_QUEUE)%nat -> (tail q < MAX_QUEUE)%nat ->
    ((if Nat.leb (head q) (tail q) then tail q - head q
      else MAX_QUEUE - head q + tail q) < fuel)%nat ->
    exists r q', dequeue_ring st fuel q = Ok (r, q').
Proof.
  induction fuel as [|fuel IH]; intros q Hh Ht Hd; [lia|].
  rewrite dequeue_ring_S.
  destruct (Nat.eqb_spec (head q) (tail q)) as [E|N];
    [eexists; eexists; reflexivity|].
  cbv zeta.
  destruct (st (threads q (head q)) =? TOBE_REMOVED);
    [|eexists; eexists; reflexivity].
  apply IH; cbn [head tail].
  - destruct (Nat.eqb_spec (S (head q)) MAX_QUEUE); [apply MAX_QUEUE_pos|lia].
  - assumption.
  - destruct (Nat.eqb_spec (S (head q)) MAX_QUEUE) as [E|E];
      destruct (Nat.leb_spec (head q) (tail q));
      repeat match goal with
             | |- context [Nat.leb ?x ?y] => destruct (Nat.leb_spec x y)
             end; lia.
Qed.

Lemma dequeue_thread_ring_total (q : rt_queue) (m : ptr -> rt_thread) :
  is_ring_type (qtype q) = true ->
  (head q < MAX_QUEUE)%nat -> (tail q < MAX_QUEUE)%nat ->
  exists r q', dequeue_thread q m = Ok (r, q').
Proof.
  intros Hty Hh Ht. unfold dequeue_thread.
  destruct (is_ring_type_cases _ Hty) as [E|[E|[E|E]]]; rewrite E;
    cbn [Z.eqb RUNNABLE_QUEUE PENDING_QUEUE APERIODIC_QUEUE ARRIVAL_QUEUE
         WAITING_QUEUE SLEEPING_QUEUE EXITED_QUEUE Pos.eqb is_ring_type orb];
    apply dequeue_ring_total; try assumption;
    destruct (Nat.leb_spec (head q) (tail q)); lia.
Qed.

(** ** Sizes stay within the arrays *)

Lemma heap_insert_size (key : ptr -> Z) (n : nat) (a : nat -> ptr) (th : ptr) :
  fst (heap_insert key n a th) = S n.
Proof.
  unfold heap_insert. destruct (sift_up key n th (upd a n th) n). reflexivity.
Qed.

(** [enqueue_thread] never lets a size exceed [MAX_QUEUE]. *)
Lemma enqueue_thread_size_le (q : rt_queue) (th : ptr) (m : ptr -> rt_thread) :
  (size q <= MAX_QUEUE)%nat ->
  (size (fst (enqueue_thread q th m)) <= MAX_QUEUE)%nat.
Proof.
  intros H. unfold enqueue_thread, enqueue_heap, enqueue_ring.
  destruct (Nat.eqb_spec (size q) MAX_QUEUE) as [E|N].
  - split_ifs; simpl; lia.
  - assert (Hh : forall key,
              (size (fst (let '(n, a) := heap_insert (key m) (size q) (threads q) th in
                          (mk_queue (qtype q) n (head q) (tail q) a,
                           upd m th (set_q_type (m th) (qtype q)))))
               <= MAX_QUEUE)%nat).
    { intros key.
      pose proof (heap_insert_size (key m) (size q) (threads q) th) as E.
      destruct (heap_insert (key m) (size q) (threads q) th) as [n a].
      simpl in *. lia. }
    destruct (qtype q =? RUNNABLE_QUEUE); [apply Hh|].
    destruct (qtype q =? PENDING_QUEUE); [apply Hh|].
    destruct (qtype q =? APERIODIC_QUEUE); [apply Hh|].
    split_ifs; simpl; lia.
Qed.

(** The slot index a heap enqueue writes is below [MAX_QUEUE], and so are
    the slot indices the sift-up loop visits. *)
Lemma sift_up_pos_le (key : ptr -> Z) (fuel : nat) :
  forall (th : ptr) (a : nat -> ptr) (pos : nat) a' pos',
    sift_up key fuel th a pos = (a', pos') -> (pos' <= pos)%nat.
Proof.
  induction fuel as [|fuel IH]; intros th a pos a' pos' E; simpl in E.
  - inversion E. lia.
  - destruct ((key (a (parent pos)) >? key th)
              && negb (Nat.eqb pos (parent pos))) eqn:C.
    + apply IH in E. apply andb_true_iff in C. destruct C as [_ C].
      apply negb_true_iff, Nat.eqb_neq in C.
      assert (H0 : (0 < pos)%nat)
        by (destruct pos; [exfalso; apply C; reflexivity|lia]).
      pose proof (parent_lt pos H0). lia.
    + inversion E. lia.
Qed.

(** ** Dequeueing in general: marked roots and unordered arrays *)

Lemma sift_down_perm (key : ptr -> Z) (fuel : nat) :
  forall (n : nat) (last : ptr) (a : nat -> ptr) (now : nat) a' now',
    (now < n)%nat -> a n = last ->
    sift_down key fuel n last a now = (a', now') ->
    Permutation (contents (upd a' now' last) n) (contents (upd a now last) n).
Proof.
  induction fuel as [|fuel IH]; intros n last a now a' now' Hn Hl E; simpl in E.
  - inversion E; subst. reflexivity.
  - destruct (Nat.ltb_spec (left_child now) n) as [Hc|Hc];
      [|inversion E; subst; reflexivity].
    simpl in E.
    set (child := if key (a (right_child now)) <? key (a (left_child now))
                  then right_child now else left_child now) in *.
    destruct (key last >? key (a child)) eqn:Hk;
      [|inversion E; subst; reflexivity].
    apply Z.gtb_lt in Hk.
    assert (Hcn : (child < n)%nat /\ (now < child)%nat).
    { pose proof (left_child_eq now) as El.
      pose proof (right_child_eq now) as Er.
      unfold child in *.
      destruct (key (a (right_child now)) <? key (a (left_child now))).
      - destruct (Nat.eq_dec (right_child now) n) as [En|Nn].
        + rewrite En, Hl in Hk. lia.
        + lia.
      - lia. }
    destruct Hcn as [Hcn Hnc].
    etransitivity.
    + eapply IH; [exact Hcn| |exact E]. rewrite upd_other by lia. exact Hl.
    + apply hole_move_perm; lia.
Qed.

Lemma heap_pop_perm (key : ptr -> Z) (sz : nat) (a : nat -> ptr) :
  exists a', heap_pop key (S sz) a = (a O, (sz, a'))
             /\ Permutation (a O :: contents a' sz) (contents a (S sz)).
Proof.
  unfold heap_pop.
  destruct (sift_down key sz sz (a sz) a 0) as [a1 now] eqn:E.
  eexists. split; [reflexivity|].
  destruct sz as [|sz].
  - simpl in E. inversion E; subst. reflexivity.
  - rewrite (sift_down_perm key (S sz) (S sz) (a (S sz)) a O a1 now ltac:(lia) eq_refl E).
    rewrite (contents_S a (S sz)).
    unfold contents at 1 2. simpl. rewrite upd_same.
    rewrite <- !seq_shift, !map_map.
    rewrite (map_ext (fun x => upd a 0 (a (S sz)) (S x)) (fun x => a (S x)))
      by (intros x; apply upd_other; lia).
    apply perm_skip. apply Permutation_cons_append.
Qed.

Lemma heap_pop_ordered (key : ptr -> Z) (sz : nat) (a : nat -> ptr) :
  heap_ordered key a (S sz) ->
  heap_ordered key (snd (snd (heap_pop key (S sz) a))) sz.
Proof.
  intros H.
  destruct (dequeue_heap_live key (fun _ => 0) sz a H ltac:(discriminate))
    as (a' & E & HO & _).
  unfold heap_pop. simpl in E.
  destruct (sift_down key sz sz (a sz) a 0) as [a1 now].
  simpl in *. inversion E; subst. exact HO.
Qed.

Lemma dequeue_heap_pop (key : ptr -> Z) (st : ptr -> Z) (sz : nat)
      (a : nat -> ptr) :
  dequeue_heap key st (S sz) a
  = if st (a O) =? TOBE_REMOVED
    then dequeue_heap key st sz (snd (snd (heap_pop key (S sz) a)))
    else (a O, (sz, snd (snd (heap_pop key (S sz) a)))).
Proof.
  simpl. destruct (sift_down key sz sz (a sz) a 0) as [a1 now]. reflexivity.
Qed.

(** On a heap-ordered array the dequeue leaves a heap-ordered array; every
    descriptor passed over has a key at most that of the one returned, and
    the one returned has a key at most that of every descriptor left. *)
Lemma dequeue_heap_ordered_spec (key : ptr -> Z) (st : ptr -> Z) (n : nat) :
  forall (a : nat -> ptr) r n' a',
    heap_ordered key a n ->
    dequeue_heap key st n a = (r, (n', a')) ->
    heap_ordered key a' n'
    /\ exists skipped,
      Forall (marked st) skipped
      /\ ((st r <> TOBE_REMOVED
           /\ Permutation (contents a n) (skipped ++ r :: contents a' n')
           /\ Forall (fun s => key s <= key r) skipped
           /\ Forall (fun x => key r <= key x) (contents a' n'))
          \/ (r = NULL /\ n' = 0%nat /\ Permutation (contents a n) skipped)).
Proof.
  induction n as [|sz IH]; intros a r n' a' HO E.
  - simpl in E. inversion E; subst. split; [exact HO|].
    exists []. split; [constructor|]. right. repeat split. reflexivity.
  - rewrite dequeue_heap_pop in E.
    pose proof (heap_pop_ordered key sz a HO) as HO2.
    destruct (heap_pop_perm key sz a) as (a2 & Ep & HP).
    rewrite Ep in E, HO2. cbn [snd] in E, HO2.
    assert (Hmin : forall x, In x (contents a2 sz) -> key (a O) <= key x).
    { intros x Hx. assert (Hin : In x (contents a (S sz))).
      { apply (Permutation_in _ HP). right. exact Hx. }
      apply in_contents in Hin. destruct Hin as (i & Hi & <-).
      apply (heap_root_min key a (S sz) HO i Hi). }
    destruct (Z.eqb_spec (st (a O)) TOBE_REMOVED) as [Hs|Hs].
    + destruct (IH _ _ _ _ HO2 E) as (H1 & sk & Hsk & Hc).
      split; [exact H1|].
      exists (a O :: sk). split; [constructor; assumption|].
      destruct Hc as [(Hr & Hc & Hle & Hge)|(Hr & Hn & Hc)]; [left|right].
      * split; [assumption|]. split.
        { rewrite <- HP. simpl. apply perm_skip. exact Hc. }
        split; [|assumption]. constructor; [|assumption].
        apply Hmin. apply (Permutation_in _ (Permutation_sym Hc)).
        apply in_or_app. right. left. reflexivity.
      * repeat split; try assumption. rewrite <- HP. apply perm_skip. exact Hc.
    + inversion E; subst. split; [exact HO2|].
      exists []. split; [constructor|].
      left. split; [assumption|]. split; [simpl; symmetry; exact HP|].
      split; [constructor|]. apply Forall_forall. exact Hmin.
Qed.

(** [dequeue_thread] on a heap-ordered heap queue, with the descriptors it
    dropped. *)
Lemma dequeue_thread_heap_general :
  forall (q : rt_queue) (m : ptr -> rt_thread),
    is_heap_type (qtype q) = true -> queue_heap_ordered q m ->
    exists r q' skipped,
      dequeue_thread q m = Ok (r, q')
      /\ qtype q' = qtype q
      /\ queue_heap_ordered q' m
      /\ Forall (fun p => status (m p) = TOBE_REMOVED) skipped
      /\ ((status (m r) <> TOBE_REMOVED
           /\ Permutation (queue_contents q)
                          (skipped ++ r :: queue_contents q')
           /\ Forall (fun s => heap_key (qtype q) m s <= heap_key (qtype q) m r)
                     skipped
           /\ Forall (fun x => heap_key (qtype q) m r <= heap_key (qtype q) m x)
                     (queue_contents q'))
          \/ (r = NULL /\ size q' = 0%nat
              /\ Permutation (queue_contents q) skipped)).
Proof.
  intros q m Hty HO.
  rewrite (dequeue_thread_heap q m Hty). unfold dequeue_heap_queue.
  destruct (dequeue_heap (heap_key (qtype q) m) (fun p => status (m p))
                         (size q) (threads q)) as [r [n a]] eqn:E.
  destruct (dequeue_heap_ordered_spec _ _ _ _ _ _ _ HO E)
    as (HO' & sk & Hsk & Hc).
  exists r, (mk_queue (qtype q) n (head q) (tail q) a), sk.
  split; [reflexivity|]. split; [reflexivity|].
  split; [exact HO'|]. split; [exact Hsk|]. exact Hc.
Qed.

(** X1.  [dequeue_thread] on a heap-ordered runnable, pending or aperiodic
    queue always returns.  The descriptors it drops on the way are all marked
    [TOBE_REMOVED]; the one it returns is not marked, its key is at least
    the key of every dropped one and at most the key of every one left, and
    dropped, returned and left descriptors together are the old contents, so
    the size falls by the number dropped plus one.  When every descriptor
    was marked it returns null and leaves the queue empty.  The queue left
    is heap ordered and keeps its type. *)
Theorem dequeue_thread_heap_spec :
  forall (q : rt_queue) (m : ptr -> rt_thread),
    is_heap_type (qtype q) = true -> queue_heap_ordered q m ->
    exists r q' skipped,
      dequeue_thread q m = Ok (r, q')
      /\ qtype q' = qtype q
      /\ queue_heap_ordered q' m
      /\ Forall (fun p => status (m p) = TOBE_REMOVED) skipped
      /\ ((status (m r) <> TOBE_REMOVED
           /\ Permutation (queue_contents q)
                          (skipped ++ r :: queue_contents q')
           /\ size q = (length skipped + S (size q'))%nat
           /\ Forall (fun s => heap_key (qtype q) m s <= heap_key (qtype q) m r)
                     skipped
           /\ Forall (fun x => heap_key (qtype q) m r <= heap_key (qtype q) m x)
                     (queue_contents q'))
          \/ (r = NULL /\ size q' = 0%nat
              /\ Permutation (queue_contents q) skipped
              /\ size q = length skipped)).
Proof.
  intros q m Hty HO.
  destruct (dequeue_thread_heap_general q m Hty HO)
    as (r & q' & sk & E & Hq & HO' & Hsk & Hc).
  exists r, q', sk.
  split; [exact E|]. split; [exact Hq|]. split; [exact HO'|].
  split; [exact Hsk|].
  destruct Hc as [(Hst & P & Hle & Hge)|(Hr & Hz & P)]; [left|right].
  - split; [exact Hst|]. split; [exact P|]. split; [|split; assumption].
    apply Permutation_length in P. rewrite length_app in P.
    cbn [length] in P. unfold queue_contents in P.
    rewrite !contents_length in P. exact P.
  - split; [exact Hr|]. split; [exact Hz|]. split; [exact P|].
    apply Permutation_length in P. unfold queue_contents in P.
    rewrite contents_length in P. exact P.
Qed.
(** ** Ring queues as first-in first-out buffers *)

Lemma ring_succ_mod (M x : nat) :
  (0 < M)%nat ->
  (if Nat.eqb (S (x mod M)) M then O else S (x mod M)) = (S x mod M)%nat.
Proof.
  intros HM.
  assert (Hx : (x mod M < M)%nat) by (apply Nat.mod_upper_bound; lia).
  replace (S x) with (x + 1)%nat by lia.
  rewrite <- (Nat.Div0.add_mod_idemp_l x 1 M).
  destruct (Nat.eqb_spec (S (x mod M)) M) as [E|N].
  - replace (x mod M + 1)%nat with M by lia. symmetry. apply Nat.Div0.mod_same.
  - symmetry. rewrite Nat.mod_small by lia. lia.
Qed.

Lemma ring_slots_apart (M h i j : nat) :
  (i < j)%nat -> (j < i + M)%nat -> ((h + i) mod M <> (h + j) mod M)%nat.
Proof.
  intros Hij HjM E.
  assert (HM : (0 < M)%nat) by lia.
  set (r := ((h + i) mod M)%nat) in *.
  assert (Hr : (r < M)%nat) by (apply Nat.mod_upper_bound; lia).
  replace (h + j)%nat with ((h + i) + (j - i))%nat in E by lia.
  rewrite <- (Nat.Div0.add_mod_idemp_l (h + i) (j - i) M) in E.
  fold r in E.
  destruct (Nat.lt_ge_cases (r + (j - i)) M) as [Hs|Hs].
  - rewrite Nat.mod_small in E by lia. lia.
  - assert (E2 : (r + (j - i) - M = (r + (j - i)) mod M)%nat).
    { apply (Nat.mod_unique _ M 1); lia. }
    lia.
Qed.

Lemma ring_holds_nil_empty (q : rt_queue) :
  ring_holds q [] -> ring_empty q.
Proof.
  intros (Hs & _ & Hh & Ht & _). split; [exact Hs|].
  rewrite Ht. cbn [length]. rewrite Nat.add_0_r. symmetry.
  apply Nat.mod_small. exact Hh.
Qed.

(** An enqueue on a ring with room appends the descriptor. *)
Lemma enqueue_ring_holds (st : option Z) (q : rt_queue) (th : ptr)
      (m : ptr -> rt_thread) (l : list ptr) :
  ring_holds q l -> (length l < MAX_QUEUE)%nat ->
  ring_holds (fst (enqueue_ring st q th m)) (l ++ [th]).
Proof.
  intros (Hs & Hl & Hh & Ht & Ha) Hlt.
  pose proof MAX_QUEUE_pos as HM.
  rewrite enqueue_ring_room by lia. cbn [fst].
  unfold ring_holds. cbn [size head tail threads].
  rewrite length_app. cbn [length].
  split; [lia|]. split; [lia|]. split; [exact Hh|]. split.
  - rewrite Ht. rewrite ring_succ_mod by exact HM. f_equal. lia.
  - intros i Hi.
    destruct (Nat.eq_dec i (length l)) as [->|Ni].
    + rewrite Ht, upd_same. rewrite app_nth2 by lia.
      rewrite Nat.sub_diag. reflexivity.
    + rewrite upd_other.
      * rewrite Ha by lia. rewrite app_nth1 by lia. reflexivity.
      * rewrite Ht. apply ring_slots_apart; lia.
Qed.

(** A dequeue on a ring that is not full takes the descriptors from the
    head and returns the first one that is not marked. *)
Lemma dequeue_ring_holds (st : ptr -> Z) (fuel : nat) :
  forall (l : list ptr) (q : rt_queue),
    ring_holds q l -> (length l < MAX_QUEUE)%nat -> (length l < fuel)%nat ->
    exists q', dequeue_ring st fuel q = Ok (fst (first_live st l), q')
               /\ qtype q' = qtype q
               /\ ring_holds q' (snd (first_live st l)).
Proof.
  pose proof MAX_QUEUE_pos as HM.
  induction fuel as [|fuel IH]; intros l q H Hlt Hf; [lia|].
  rewrite dequeue_ring_S.
  destruct l as [|x t].
  - pose proof (ring_holds_nil_empty q H) as [_ E].
    rewrite E, Nat.eqb_refl. exists q. repeat split; try reflexivity; apply H.
  - destruct H as (Hs & Hl & Hh & Ht & Ha). cbn [length] in *.
    assert (Hne : head q <> tail q).
    { rewrite Ht. rewrite <- (Nat.mod_small (head q) MAX_QUEUE) at 1 by exact Hh.
      rewrite <- (Nat.add_0_r (head q)) at 1.
      apply ring_slots_apart; lia. }
    destruct (Nat.eqb_spec (head q) (tail q)) as [|_]; [contradiction|].
    assert (Hx : threads q (head q) = x).
    { specialize (Ha O ltac:(lia)). rewrite Nat.add_0_r in Ha.
      rewrite Nat.mod_small in Ha by exact Hh. exact Ha. }
    set (q1 := mk_queue (qtype q) (size q - 1)
                 (if Nat.eqb (S (head q)) MAX_QUEUE then O else S (head q))
                 (tail q) (threads q)).
    assert (Hhd : head q1 = (S (head q) mod MAX_QUEUE)%nat).
    { unfold q1. cbn [head].
      rewrite <- (ring_succ_mod MAX_QUEUE (head q) HM).
      rewrite (Nat.mod_small (head q)) by exact Hh. reflexivity. }
    assert (H1 : ring_holds q1 t).
    { unfold ring_holds. rewrite Hhd. unfold q1. cbn [size tail threads].
      split; [lia|]. split; [lia|].
      split; [apply Nat.mod_upper_bound; lia|]. split.
      - rewrite Ht. rewrite Nat.Div0.add_mod_idemp_l. f_equal. lia.
      - intros i Hi. rewrite Nat.Div0.add_mod_idemp_l.
        replace (S (head q) + i)%nat with (head q + S i)%nat by lia.
        rewrite Ha by lia. reflexivity. }
    cbv zeta. fold q1. rewrite Hx. cbn [first_live].
    destruct (st x =? TOBE_REMOVED).
    + destruct (IH t q1 H1 ltac:(lia) ltac:(lia)) as (q' & E & Hq & H').
      exists q'. split; [exact E|]. split; [exact Hq|exact H'].
    + exists q1. split; [reflexivity|]. split; [reflexivity|exact H1].
Qed.
Lemma enqueue_thread_ring (q : rt_queue) (th : ptr) (m : ptr -> rt_thread) :
  is_ring_type (qtype q) = true ->
  exists st, enqueue_thread q th m = enqueue_ring st q th m
             /\ (st = None -> qtype q = EXITED_QUEUE)
             /\ (qtype q = EXITED_QUEUE -> st = None)
             /\ st <> Some TOBE_REMOVED.
Proof.
  intros H. unfold enqueue_thread.
  destruct (is_ring_type_cases _ H) as [E|[E|[E|E]]]; rewrite E; cbn;
    eexists; (split; [reflexivity|]);
    repeat split; try discriminate; reflexivity.
Qed.

Lemma dequeue_thread_ring (q : rt_queue) (m : ptr -> rt_thread) :
  is_ring_type (qtype q) = true ->
  dequeue_thread q m = dequeue_ring (fun p => status (m p)) (S MAX_QUEUE) q.
Proof.
  intros H. unfold dequeue_thread. rewrite H.
  destruct (is_ring_type_cases _ H) as [E|[E|[E|E]]]; rewrite E; reflexivity.
Qed.

Lemma enqueue_thread_keeps_live (q : rt_queue) (th : ptr)
      (m : ptr -> rt_thread) (p : ptr) :
  status (m p) <> TOBE_REMOVED ->
  status (snd (enqueue_thread q th m) p) <> TOBE_REMOVED.
Proof.
  intros H. unfold enqueue_thread, enqueue_heap, enqueue_ring.
  destruct (heap_insert (key_deadline m) (size q) (threads q) th) as [n1 a1].
  destruct (heap_insert (key_priority m) (size q) (threads q) th) as [n2 a2].
  split_ifs; cbn [snd]; try exact H;
    unfold upd; destruct (Nat.eqb p th) eqn:Ep; try exact H;
    apply Nat.eqb_eq in Ep; subst p; cbn; try exact H; discriminate.
Qed.

Lemma enqueue_all_keeps_live (l : list ptr) :
  forall (q : rt_queue) (m : ptr -> rt_thread) (p : ptr),
    status (m p) <> TOBE_REMOVED ->
    status (snd (enqueue_all q m l) p) <> TOBE_REMOVED.
Proof.
  induction l as [|x l IH]; intros q m p H; [exact H|].
  rewrite enqueue_all_cons. apply IH. apply enqueue_thread_keeps_live.
  exact H.
Qed.

(** Enqueueing the descriptors of [l] on a ring with room for them appends
    them in order; on every ring but the exited one they end up unmarked. *)
Lemma enqueue_all_ring (l : list ptr) :
  forall (q : rt_queue) (m : ptr -> rt_thread) (l0 : list ptr),
    is_ring_type (qtype q) = true -> ring_holds q l0 ->
    (length l0 + length l <= MAX_QUEUE)%nat ->
    ring_holds (fst (enqueue_all q m l)) (l0 ++ l)
    /\ qtype (fst (enqueue_all q m l)) = qtype q
    /\ (qtype q <> EXITED_QUEUE ->
        forall p, In p l -> status (snd (enqueue_all q m l) p) <> TOBE_REMOVED).
Proof.
  induction l as [|x l IH]; intros q m l0 Hty H Hlen.
  - cbn [enqueue_all fold_left fst snd]. rewrite app_nil_r.
    split; [exact H|]. split; [reflexivity|]. intros _ p [].
  - rewrite enqueue_all_cons. cbn [length] in Hlen.
    destruct (enqueue_thread_ring q x m Hty) as (st & E & Hst & Hst' & Hst2).
    assert (H1 : ring_holds (fst (enqueue_thread q x m)) (l0 ++ [x])).
    { rewrite E. apply enqueue_ring_holds; [exact H|lia]. }
    assert (Hq : qtype (fst (enqueue_thread q x m)) = qtype q)
      by apply enqueue_thread_qtype.
    destruct (IH (fst (enqueue_thread q x m)) (snd (enqueue_thread q x m))
                 (l0 ++ [x]))
      as (A & B & C).
    { rewrite Hq. exact Hty. }
    { exact H1. }
    { rewrite length_app. cbn [length]. lia. }
    rewrite <- app_assoc in A. cbn [app] in A.
    split; [exact A|]. split; [rewrite B; exact Hq|].
    intros Hne p [->|Hp].
    + apply enqueue_all_keeps_live. rewrite E.
      destruct H as (Hs & _). rewrite enqueue_ring_room by lia.
      cbn [snd]. rewrite upd_same.
      destruct st as [v|]; [|exfalso; apply Hne; apply Hst; reflexivity].
      cbn. intros Ev. apply Hst2. rewrite Ev. reflexivity.
    + apply C; [rewrite Hq; exact Hne|exact Hp].
Qed.

Lemma enqueue_all_exited_status (l : list ptr) :
  forall (q : rt_queue) (m : ptr -> rt_thread) (p : ptr),
    qtype q = EXITED_QUEUE ->
    status (snd (enqueue_all q m l) p) = status (m p).
Proof.
  induction l as [|x l IH]; intros q m p Hq; [reflexivity|].
  rewrite enqueue_all_cons. rewrite IH.
  - unfold enqueue_thread. rewrite Hq. cbn. unfold enqueue_ring.
    destruct (Nat.eqb (size q) MAX_QUEUE); [reflexivity|]. cbn [snd].
    unfold upd. destruct (Nat.eqb p x) eqn:Ep; [|reflexivity].
    apply Nat.eqb_eq in Ep. subst. reflexivity.
  - rewrite enqueue_thread_qtype. exact Hq.
Qed.

(** Draining a ring that is not full and whose descriptors are not null and
    not marked yields them oldest first. *)
Lemma drain_queue_ring (l : list ptr) :
  forall (q : rt_queue) (m : ptr -> rt_thread),
    is_ring_type (qtype q) = true -> ring_holds q l ->
    (length l < MAX_QUEUE)%nat ->
    (forall p, In p l -> p <> NULL /\ status (m p) <> TOBE_REMOVED) ->
    exists q', drain_queue (length l) q m = (l, q') /\ ring_holds q' [].
Proof.
  induction l as [|x t IH]; intros q m Hty H Hlen Hl.
  - exists q. split; [reflexivity|exact H].
  - cbn [length drain_queue]. rewrite (dequeue_thread_ring q m Hty).
    destruct (dequeue_ring_holds (fun p => status (m p)) (S MAX_QUEUE)
                                 (x :: t) q H Hlen ltac:(lia))
      as (q1 & E & Hq1 & H1).
    rewrite E. cbn [first_live] in *.
    destruct (Hl x (or_introl eq_refl)) as [Hx Hsx].
    destruct (Z.eqb_spec (status (m x)) TOBE_REMOVED) as [|_]; [contradiction|].
    cbn [fst snd] in *.
    destruct (Nat.eqb_spec x NULL) as [|_]; [contradiction|].
    destruct (IH q1 m) as (q' & D & H').
    { rewrite Hq1. exact Hty. }
    { exact H1. }
    { cbn [length] in Hlen. lia. }
    { intros p Hp. apply Hl. right. exact Hp. }
    rewrite D. exists q'. split; [reflexivity|exact H'].
Qed.

Lemma ring_empty_holds (q : rt_queue) :
  ring_empty q -> (head q < MAX_QUEUE)%nat -> ring_holds q [].
Proof.
  intros [Hs He] Hh. unfold ring_holds. cbn [length]. rewrite Nat.add_0_r.
  rewrite Nat.mod_small by exact Hh.
  repeat split; try assumption; try lia.
Qed.

(** X3.  The arrival, waiting, sleeping and exited queues are first-in
    first-out: fewer than [MAX_QUEUE] non-null descriptors enqueued on an
    empty ring come out of repeated [dequeue_thread] in the order they went
    in, and the ring is empty again.  On the exited ring, whose enqueue
    leaves the status alone, this holds for descriptors that are not marked
    [TOBE_REMOVED]. *)
Theorem ring_queue_fifo :
  forall (q : rt_queue) (m : ptr -> rt_thread) (l : list ptr),
    is_ring_type (qtype q) = true -> ring_empty q ->
    (head q < MAX_QUEUE)%nat -> (length l < MAX_QUEUE)%nat ->
    (forall p, In p l -> p <> NULL) ->
    (qtype q = EXITED_QUEUE ->
     forall p, In p l -> status (m p) <> TOBE_REMOVED) ->
    exists q',
      drain_queue (length l) (fst (enqueue_all q m l)) (snd (enqueue_all q m l))
      = (l, q')
      /\ ring_empty q'.
Proof.
  intros q m l Hty [Hs He] Hh Hlen Hnn Hex.
  assert (H0 : ring_holds q [])
    by (apply ring_empty_holds; [split|]; assumption).
  destruct (enqueue_all_ring l q m [] Hty H0 ltac:(cbn [length]; lia))
    as (A & B & C).
  cbn [app] in A.
  destruct (drain_queue_ring l (fst (enqueue_all q m l))
                             (snd (enqueue_all q m l)))
    as (q' & D & H').
  - rewrite B. exact Hty.
  - exact A.
  - exact Hlen.
  - intros p Hp. split; [apply Hnn; exact Hp|].
    destruct (Z.eq_dec (qtype q) EXITED_QUEUE) as [Eq|Nq].
    + rewrite enqueue_all_exited_status by exact Eq. apply Hex; assumption.
    + apply C; assumption.
  - exists q'. split; [exact D|]. apply ring_holds_nil_empty. exact H'.
Qed.

(** X4.  A ring queue filled to [MAX_QUEUE] entries is stuck.  Its [head]
    and [tail] coincide again, so [dequeue_thread] takes it for empty and
    returns null without touching it, whatever the statuses; and
    [enqueue_thread] finds it full and drops the descriptor. *)
Theorem full_ring_is_stuck :
  forall (q : rt_queue) (m m' : ptr -> rt_thread) (l : list ptr) (th : ptr),
    is_ring_type (qtype q) = true -> ring_empty q ->
    (head q < MAX_QUEUE)%nat -> length l = MAX_QUEUE ->
    size (fst (enqueue_all q m l)) = MAX_QUEUE
    /\ dequeue_thread (fst (enqueue_all q m l)) m'
       = Ok (NULL, fst (enqueue_all q m l))
    /\ enqueue_thread (fst (enqueue_all q m l)) th m'
       = (fst (enqueue_all q m l), m').
Proof.
  intros q m m' l th Hty [Hs He] Hh Hlen.
  assert (H0 : ring_holds q [])
    by (apply ring_empty_holds; [split|]; assumption).
  destruct (enqueue_all_ring l q m [] Hty H0 ltac:(cbn [length]; lia))
    as ((As & _ & Ah & At & _) & B & _).
  cbn [app] in *. rewrite Hlen in *.
  split; [exact As|]. split.
  - rewrite dequeue_thread_ring by (rewrite B; exact Hty).
    rewrite dequeue_ring_S.
    replace (tail (fst (enqueue_all q m l)))
      with (head (fst (enqueue_all q m l))).
    + rewrite Nat.eqb_refl. reflexivity.
    + rewrite At.
      rewrite <- (Nat.Div0.add_mod_idemp_r _ MAX_QUEUE MAX_QUEUE).
      rewrite Nat.Div0.mod_same, Nat.add_0_r.
      symmetry. apply Nat.mod_small. exact Ah.
  - apply enqueue_thread_full. exact As.
Qed.
Lemma dequeue_thread_heap_spec_witness :
  exists r q' skipped,
    dequeue_thread (ex_queue RUNNABLE_QUEUE [2; 1]%nat) ex_mem_tbr = Ok (r, q')
    /\ qtype q' = qtype (ex_queue RUNNABLE_QUEUE [2; 1]%nat)
    /\ queue_heap_ordered q' ex_mem_tbr
    /\ Forall (fun p => status (ex_mem_tbr p) = TOBE_REMOVED) skipped
    /\ ((status (ex_mem_tbr r) <> TOBE_REMOVED
         /\ Permutation (queue_contents (ex_queue RUNNABLE_QUEUE [2; 1]%nat))
                        (skipped ++ r :: queue_contents q')
         /\ size (ex_queue RUNNABLE_QUEUE [2; 1]%nat)
            = (length skipped + S (size q'))%nat
         /\ Forall (fun s => heap_key RUNNABLE_QUEUE ex_mem_tbr s
                             <= heap_key RUNNABLE_QUEUE ex_mem_tbr r) skipped
         /\ Forall (fun x => heap_key RUNNABLE_QUEUE ex_mem_tbr r
                             <= heap_key RUNNABLE_QUEUE ex_mem_tbr x)
                   (queue_contents q'))
        \/ (r = NULL /\ size q' = 0%nat
            /\ Permutation (queue_contents (ex_queue RUNNABLE_QUEUE [2; 1]%nat))
                           skipped
            /\ size (ex_queue RUNNABLE_QUEUE [2; 1]%nat) = length skipped)).
Proof.
  apply (dequeue_thread_heap_spec (ex_queue RUNNABLE_QUEUE [2; 1]%nat)
                                  ex_mem_tbr).
  - reflexivity.
  - intros i Hi. simpl in Hi. assert (E : i = 1%nat) by lia. subst i.
    vm_compute. discriminate.
Defined.

Lemma ring_queue_fifo_witness :
  exists q',
    drain_queue 3 (fst (enqueue_all (zero_queue WAITING_QUEUE) ex_mem_tbr
                                    [3; 2; 1]%nat))
                (snd (enqueue_all (zero_queue WAITING_QUEUE) ex_mem_tbr
                                  [3; 2; 1]%nat))
    = ([3; 2; 1]%nat, q')
    /\ ring_empty q'.
Proof.
  apply (ring_queue_fifo (zero_queue WAITING_QUEUE) ex_mem_tbr [3; 2; 1]%nat).
  - reflexivity.
  - split; reflexivity.
  - unfold MAX_QUEUE. simpl. lia.
  - unfold MAX_QUEUE. simpl. lia.
  - intros p [<-|[<-|[<-|[]]]]; discriminate.
  - intros E. discriminate E.
Defined.

Lemma full_ring_is_stuck_witness :
  size (fst (enqueue_all (zero_queue EXITED_QUEUE) ex_mem
                         (repeat 1%nat MAX_QUEUE))) = MAX_QUEUE
  /\ dequeue_thread (fst (enqueue_all (zero_queue EXITED_QUEUE) ex_mem
                                      (repeat 1%nat MAX_QUEUE))) ex_mem
     = Ok (NULL, fst (enqueue_all (zero_queue EXITED_QUEUE) ex_mem
                                  (repeat 1%nat MAX_QUEUE)))
  /\ enqueue_thread (fst (enqueue_all (zero_queue EXITED_QUEUE) ex_mem
                                      (repeat 1%nat MAX_QUEUE))) 2%nat ex_mem
     = (fst (enqueue_all (zero_queue EXITED_QUEUE) ex_mem
                         (repeat 1%nat MAX_QUEUE)), ex_mem).
Proof.
  apply (full_ring_is_stuck (zero_queue EXITED_QUEUE) ex_mem ex_mem
                            (repeat 1%nat MAX_QUEUE) 2%nat).
  - reflexivity.
  - split; reflexivity.
  - unfold MAX_QUEUE. simpl. lia.
  - vm_compute. reflexivity.
Defined.

(** ** Insertion into a heap queue and removal by [remove_thread] *)

(** X2.  [enqueue_thread] on a heap-ordered runnable, pending or aperiodic
    queue of at most [MAX_QUEUE] entries leaves a heap-ordered queue of the
    same type and of at most [MAX_QUEUE] entries.  With room, the queue gains
    exactly the descriptor and the store changes in the [q_type] of that
    descriptor only; a full queue and the store are left as they were. *)
Theorem enqueue_thread_heap_insert :
  forall (q : rt_queue) (th : ptr) (m : ptr -> rt_thread),
    is_heap_type (qtype q) = true -> (size q <= MAX_QUEUE)%nat ->
    queue_heap_ordered q m ->
    qtype (fst (enqueue_thread q th m)) = qtype q
    /\ (size (fst (enqueue_thread q th m)) <= MAX_QUEUE)%nat
    /\ queue_heap_ordered (fst (enqueue_thread q th m))
                          (snd (enqueue_thread q th m))
    /\ ((size q < MAX_QUEUE)%nat
        /\ Permutation (queue_contents (fst (enqueue_thread q th m)))
                       (th :: queue_contents q)
        /\ snd (enqueue_thread q th m) = upd m th (set_q_type (m th) (qtype q))
        \/ size q = MAX_QUEUE /\ enqueue_thread q th m = (q, m)).
Proof.
  intros q th m Hty Hsz HO.
  destruct (Nat.eq_dec (size q) MAX_QUEUE) as [E|N].
  - rewrite (enqueue_thread_full q th m E). cbn [fst snd].
    split; [reflexivity|]. split; [exact Hsz|]. split; [exact HO|].
    right. split; [exact E|reflexivity].
  - destruct (enqueue_thread_heap_correct q th m Hty ltac:(lia) HO)
      as (q' & E & Hq & Hs & _ & _ & HO' & HP).
    rewrite E. cbn [fst snd].
    split; [exact Hq|]. split; [lia|]. split; [exact HO'|].
    left. split; [lia|]. split; [exact HP|reflexivity].
Qed.

Lemma enqueue_thread_heap_insert_witness :
  qtype (fst (enqueue_thread (ex_queue PENDING_QUEUE [2; 1]%nat) 3%nat ex_mem))
  = qtype (ex_queue PENDING_QUEUE [2; 1]%nat)
  /\ (size (fst (enqueue_thread (ex_queue PENDING_QUEUE [2; 1]%nat) 3%nat
                                ex_mem)) <= MAX_QUEUE)%nat
  /\ queue_heap_ordered
       (fst (enqueue_thread (ex_queue PENDING_QUEUE [2; 1]%nat) 3%nat ex_mem))
       (snd (enqueue_thread (ex_queue PENDING_QUEUE [2; 1]%nat) 3%nat ex_mem))
  /\ ((size (ex_queue PENDING_QUEUE [2; 1]%nat) < MAX_QUEUE)%nat
      /\ Permutation
           (queue_contents
              (fst (enqueue_thread (ex_queue PENDING_QUEUE [2; 1]%nat) 3%nat
                                   ex_mem)))
           (3%nat :: queue_contents (ex_queue PENDING_QUEUE [2; 1]%nat))
      /\ snd (enqueue_thread (ex_queue PENDING_QUEUE [2; 1]%nat) 3%nat ex_mem)
         = upd ex_mem 3%nat
               (set_q_type (ex_mem 3%nat)
                           (qtype (ex_queue PENDING_QUEUE [2; 1]%nat)))
      \/ size (ex_queue PENDING_QUEUE [2; 1]%nat) = MAX_QUEUE
         /\ enqueue_thread (ex_queue PENDING_QUEUE [2; 1]%nat) 3%nat ex_mem
            = (ex_queue PENDING_QUEUE [2; 1]%nat, ex_mem)).
Proof.
  apply (enqueue_thread_heap_insert (ex_queue PENDING_QUEUE [2; 1]%nat) 3%nat
                                    ex_mem).
  - reflexivity.
  - unfold MAX_QUEUE. simpl. lia.
  - intros i Hi. simpl in Hi. assert (E : i = 1%nat) by lia. subst i.
    vm_compute. discriminate.
Defined.

Lemma remove_heap_pop (key : ptr -> Z) (q : rt_queue) (th : ptr) :
  (0 < size q)%nat -> threads q O <> NULL ->
  remove_heap key q th
  = (threads q O,
     mk_queue (qtype q) (size q - 1) (head q) (tail q)
              (snd (snd (heap_pop key (size q) (threads q))))).
Proof.
  intros Hs Hr. unfold remove_heap.
  destruct (Nat.ltb_spec (size q) 1) as [|_]; [lia|].
  rewrite remove_scan_first by assumption.
  destruct (Nat.eqb_spec 0 (size q)) as [|_]; [lia|].
  unfold heap_pop. destruct (size q) as [|sz]; [lia|].
  replace (S sz - 1)%nat with sz by lia.
  destruct (sift_down key sz sz (threads q sz) (threads q) 0) as [a1 now].
  reflexivity.
Qed.

Lemma remove_heap_spec (key : ptr -> Z) (q : rt_queue) (th : ptr) :
  heap_ordered key (threads q) (size q) ->
  (size q = 0%nat /\ remove_heap key q th = (NULL, q))
  \/ ((0 < size q)%nat /\
      (threads q O <> NULL ->
       exists q', remove_heap key q th = (threads q O, q')
                  /\ qtype q' = qtype q /\ head q' = head q
                  /\ tail q' = tail q
                  /\ heap_ordered key (threads q') (size q')
                  /\ Permutation (threads q O :: queue_contents q')
                                 (queue_contents q))).
Proof.
  intros HO. destruct (size q) as [|sz] eqn:Es.
  - left. split; [reflexivity|]. unfold remove_heap. rewrite Es. reflexivity.
  - right. split; [lia|]. intros Hr.
    rewrite (remove_heap_pop key q th) by (try rewrite Es; try lia; assumption).
    eexists. split; [reflexivity|]. cbn [qtype head tail threads size].
    split; [reflexivity|]. split; [reflexivity|]. split; [reflexivity|].
    rewrite Es. replace (S sz - 1)%nat with sz by lia.
    split; [apply heap_pop_ordered; exact HO|].
    destruct (heap_pop_perm key sz (threads q)) as (a' & E & HP).
    rewrite E. cbn [snd]. unfold queue_contents.
    cbn [threads size]. rewrite Es. exact HP.
Qed.
Lemma with_sched_same (w : world) : with_sched w (sched w) = w.
Proof. destruct w. reflexivity. Qed.

Lemma set_runnable_same (s : rt_scheduler) : set_runnable s (runnable s) = s.
Proof. destruct s. reflexivity. Qed.

Lemma set_pending_same (s : rt_scheduler) : set_pending s (pending s) = s.
Proof. destruct s. reflexivity. Qed.

Lemma set_aperiodic_same (s : rt_scheduler) : set_aperiodic s (aperiodic s) = s.
Proof. destruct s. reflexivity. Qed.

(** X5.  [remove_thread] for a descriptor tagged with a heap queue takes
    the root of that queue, whichever descriptor was asked for: on a
    heap-ordered queue whose root is not null it returns the root, the queue
    loses exactly the root and stays heap ordered, and the two other heap
    queues and every descriptor are as before.  On an empty queue it returns
    null and changes nothing. *)
Theorem remove_thread_takes_heap_root :
  forall (th : ptr) (w : world),
    is_heap_type (q_type (mem w th)) = true ->
    heap_ordered (heap_key (q_type (mem w th)) (mem w))
                 (threads (queue_by_tag (sched w) (q_type (mem w th))))
                 (size (queue_by_tag (sched w) (q_type (mem w th)))) ->
    ((0 < size (queue_by_tag (sched w) (q_type (mem w th))))%nat ->
     threads (queue_by_tag (sched w) (q_type (mem w th))) O <> NULL) ->
    exists r w',
      remove_thread th w = Ok (r, w')
      /\ mem w' = mem w
      /\ heap_ordered
           (heap_key (q_type (mem w th)) (mem w))
           (threads (queue_by_tag (sched w') (q_type (mem w th))))
           (size (queue_by_tag (sched w') (q_type (mem w th))))
      /\ (forall ty, is_heap_type ty = true -> ty <> q_type (mem w th) ->
                     queue_by_tag (sched w') ty = queue_by_tag (sched w) ty)
      /\ ((r = NULL /\ w' = w
           /\ size (queue_by_tag (sched w) (q_type (mem w th))) = 0%nat)
          \/ ((0 < size (queue_by_tag (sched w) (q_type (mem w th))))%nat
              /\ r = threads (queue_by_tag (sched w) (q_type (mem w th))) O
              /\ Permutation
                   (r :: queue_contents
                           (queue_by_tag (sched w') (q_type (mem w th))))
                   (queue_contents
                      (queue_by_tag (sched w) (q_type (mem w th)))))).
Proof.
  intros th w Hty HO Hn. unfold remove_thread.
  destruct (is_heap_type_cases _ Hty) as [E|[E|E]]; rewrite E in *;
    unfold heap_key, queue_by_tag in HO, Hn |- *.
  all: change (RUNNABLE_QUEUE =? RUNNABLE_QUEUE) with true in *.
  all: change (PENDING_QUEUE =? RUNNABLE_QUEUE) with false in *.
  all: change (PENDING_QUEUE =? PENDING_QUEUE) with true in *.
  all: change (APERIODIC_QUEUE =? RUNNABLE_QUEUE) with false in *.
  all: change (APERIODIC_QUEUE =? PENDING_QUEUE) with false in *.
  all: change (APERIODIC_QUEUE =? APERIODIC_QUEUE) with true in *.
  all: change (RUNNABLE_QUEUE =? APERIODIC_QUEUE) with false in *.
  all: change (PENDING_QUEUE =? APERIODIC_QUEUE) with false in *.
  all: cbv iota in HO, Hn |- *.
  - destruct (remove_heap_spec (key_deadline (mem w)) (runnable (sched w)) th HO)
      as [[Hz Er]|[Hp Hr]].
    + rewrite Er. rewrite set_runnable_same, with_sched_same.
      exists NULL, w. split; [reflexivity|]. split; [reflexivity|].
      split; [exact HO|]. split; [reflexivity|].
      left. repeat split. exact Hz.
    + destruct (Hr (Hn Hp)) as (q' & Er & _ & _ & _ & HO' & HP).
      rewrite Er. eexists _, _. split; [reflexivity|]. cbn.
      split; [reflexivity|]. split; [exact HO'|]. split.
      * intros ty Hh Hne.
        destruct (is_heap_type_cases _ Hh) as [T|[T|T]]; rewrite T in *;
          [contradiction|reflexivity|reflexivity].
      * right. split; [exact Hp|]. split; [reflexivity|exact HP].
  - destruct (remove_heap_spec (key_deadline (mem w)) (pending (sched w)) th HO)
      as [[Hz Er]|[Hp Hr]].
    + rewrite Er. rewrite set_pending_same, with_sched_same.
      exists NULL, w. split; [reflexivity|]. split; [reflexivity|].
      split; [exact HO|]. split; [reflexivity|].
      left. repeat split. exact Hz.
    + destruct (Hr (Hn Hp)) as (q' & Er & _ & _ & _ & HO' & HP).
      rewrite Er. eexists _, _. split; [reflexivity|]. cbn.
      split; [reflexivity|]. split; [exact HO'|]. split.
      * intros ty Hh Hne.
        destruct (is_heap_type_cases _ Hh) as [T|[T|T]]; rewrite T in *;
          [reflexivity|contradiction|reflexivity].
      * right. split; [exact Hp|]. split; [reflexivity|exact HP].
  - destruct (remove_heap_spec (key_priority (mem w)) (aperiodic (sched w)) th HO)
      as [[Hz Er]|[Hp Hr]].
    + rewrite Er. rewrite set_aperiodic_same, with_sched_same.
      exists NULL, w. split; [reflexivity|]. split; [reflexivity|].
      split; [exact HO|]. split; [reflexivity|].
      left. repeat split. exact Hz.
    + destruct (Hr (Hn Hp)) as (q' & Er & _ & _ & _ & HO' & HP).
      rewrite Er. eexists _, _. split; [reflexivity|]. cbn.
      split; [reflexivity|]. split; [exact HO'|]. split.
      * intros ty Hh Hne.
        destruct (is_heap_type_cases _ Hh) as [T|[T|T]]; rewrite T in *;
          [reflexivity|reflexivity|contradiction].
      * right. split; [exact Hp|]. split; [reflexivity|exact HP].
Qed.

Lemma remove_thread_takes_heap_root_witness :
  exists r w',
    remove_thread 1%nat (ex_world_queues ex_mem [1; 2]%nat []) = Ok (r, w')
    /\ mem w' = mem (ex_world_queues ex_mem [1; 2]%nat [])
    /\ heap_ordered
         (heap_key (q_type (mem (ex_world_queues ex_mem [1; 2]%nat []) 1%nat))
                   (mem (ex_world_queues ex_mem [1; 2]%nat [])))
         (threads (queue_by_tag (sched w')
            (q_type (mem (ex_world_queues ex_mem [1; 2]%nat []) 1%nat))))
         (size (queue_by_tag (sched w')
            (q_type (mem (ex_world_queues ex_mem [1; 2]%nat []) 1%nat))))
    /\ (forall ty, is_heap_type ty = true ->
                   ty <> q_type (mem (ex_world_queues ex_mem [1; 2]%nat [])
                                     1%nat) ->
                   queue_by_tag (sched w') ty
                   = queue_by_tag (sched (ex_world_queues ex_mem [1; 2]%nat []))
                                  ty)
    /\ ((r = NULL /\ w' = ex_world_queues ex_mem [1; 2]%nat []
         /\ size (queue_by_tag (sched (ex_world_queues ex_mem [1; 2]%nat []))
                   (q_type (mem (ex_world_queues ex_mem [1; 2]%nat []) 1%nat)))
            = 0%nat)
        \/ ((0 < size (queue_by_tag
                         (sched (ex_world_queues ex_mem [1; 2]%nat []))
                         (q_type (mem (ex_world_queues ex_mem [1; 2]%nat [])
                                      1%nat))))%nat
            /\ r = threads (queue_by_tag
                              (sched (ex_world_queues ex_mem [1; 2]%nat []))
                              (q_type (mem (ex_world_queues ex_mem [1; 2]%nat [])
                                           1%nat))) O
            /\ Permutation
                 (r :: queue_contents
                         (queue_by_tag (sched w')
                            (q_type (mem (ex_world_queues ex_mem [1; 2]%nat [])
                                         1%nat))))
                 (queue_contents
                    (queue_by_tag (sched (ex_world_queues ex_mem [1; 2]%nat []))
                       (q_type (mem (ex_world_queues ex_mem [1; 2]%nat [])
                                    1%nat)))))).
Proof.
  apply (remove_thread_takes_heap_root 1%nat
           (ex_world_queues ex_mem [1; 2]%nat [])).
  - vm_compute. reflexivity.
  - intros i Hi.
    assert (E : i = 1%nat) by (vm_compute in Hi; lia). subst i.
    vm_compute. discriminate.
  - intros _. vm_compute. discriminate.
Defined.
(** ** The invariant of the dispatcher *)

Lemma mid_shrink (a l l' b extra : list ptr) :
  Permutation l (extra ++ l') ->
  Permutation (a ++ l ++ b) (extra ++ a ++ l' ++ b).
Proof.
  intros H. rewrite H. rewrite <- app_assoc.
  rewrite (Permutation_app_swap_app a extra). reflexivity.
Qed.

Lemma nodup_app_disjoint (l1 l2 : list ptr) :
  NoDup (l1 ++ l2) -> forall x, In x l1 -> ~ In x l2.
Proof.
  induction l1 as [|e t IH]; intros N x Hx Hin; [destruct Hx|].
  cbn [app] in N. inversion N as [|? ? Hn N2]; subst.
  destruct Hx as [->|Hx].
  - apply Hn. apply in_or_app. right. exact Hin.
  - exact (IH N2 x Hx Hin).
Qed.

Lemma nodup_mid_shrink (a l l' b extra : list ptr) :
  Permutation l (extra ++ l') -> NoDup (a ++ l ++ b) ->
  NoDup (a ++ l' ++ b)
  /\ (forall x, In x extra -> ~ In x (a ++ l' ++ b))
  /\ (forall x, In x (a ++ l' ++ b) -> In x (a ++ l ++ b)).
Proof.
  intros H N. pose proof (mid_shrink a l l' b extra H) as P.
  pose proof (Permutation_NoDup P N) as N'.
  split; [exact (NoDup_app_remove_l _ _ N')|]. split.
  - intros x Hx. exact (nodup_app_disjoint _ _ N' x Hx).
  - intros x Hx. apply (Permutation_in _ (Permutation_sym P)).
    apply in_or_app. right. exact Hx.
Qed.

Lemma nodup_mid_grow (a l l' b : list ptr) (p : ptr) :
  Permutation l' (p :: l) -> NoDup (a ++ l ++ b) -> ~ In p (a ++ l ++ b) ->
  NoDup (a ++ l' ++ b)
  /\ (forall x, In x (a ++ l' ++ b) -> x = p \/ In x (a ++ l ++ b)).
Proof.
  intros H N Hp.
  assert (P : Permutation (a ++ l' ++ b) (p :: a ++ l ++ b)).
  { rewrite H. cbn [app]. symmetry. apply Permutation_middle. }
  split.
  - apply (Permutation_NoDup (Permutation_sym P)). constructor; assumption.
  - intros x Hx. apply (Permutation_in _ P) in Hx.
    destruct Hx as [<-|Hx]; [left; reflexivity|right; exact Hx].
Qed.

(** A dequeue on a heap queue in good order. *)
Lemma queue_ok_dequeue (q : rt_queue) (ty : Z) (m : ptr -> rt_thread) :
  is_heap_type ty = true -> queue_ok q ty m ->
  exists r q' extra,
    dequeue_thread q m = Ok (r, q')
    /\ queue_ok q' ty m
    /\ Permutation (queue_contents q) (extra ++ queue_contents q')
    /\ ((r = NULL /\ size q' = 0%nat)
        \/ (status (m r) <> TOBE_REMOVED /\ In r extra
            /\ forall x, In x (queue_contents q') ->
                         heap_key ty m r <= heap_key ty m x)).
Proof.
  intros Hty (Hq & HO & Hs). subst ty.
  destruct (dequeue_thread_heap_general q m Hty HO)
    as (r & q' & sk & E & Hq' & HO' & _ & Hc).
  assert (Hlen : forall ex, Permutation (queue_contents q)
                                        (ex ++ queue_contents q') ->
                            (size q' <= size q)%nat).
  { intros ex P. apply Permutation_length in P.
    rewrite length_app in P. unfold queue_contents in P.
    rewrite !contents_length in P. lia. }
  destruct Hc as [(Hst & P & _ & Hge)|(Hr & Hz & P)].
  - exists r, q', (sk ++ [r]).
    assert (P' : Permutation (queue_contents q)
                             ((sk ++ [r]) ++ queue_contents q')).
    { rewrite <- app_assoc. exact P. }
    split; [exact E|]. split.
    { split; [exact Hq'|]. split; [exact HO'|].
      specialize (Hlen _ P'). lia. }
    split; [exact P'|]. right. split; [exact Hst|]. split.
    + apply in_or_app. right. left. reflexivity.
    + rewrite Forall_forall in Hge. exact Hge.
  - exists r, q', sk.
    assert (P' : Permutation (queue_contents q) (sk ++ queue_contents q')).
    { unfold queue_contents at 2. rewrite Hz. cbn [contents].
      unfold contents. cbn [seq map]. rewrite app_nil_r. exact P. }
    split; [exact E|]. split.
    { split; [exact Hq'|]. split; [exact HO'|]. lia. }
    split; [exact P'|]. left. split; assumption.
Qed.

(** An enqueue on a heap queue in good order. *)
Lemma queue_ok_enqueue (q : rt_queue) (ty : Z) (m : ptr -> rt_thread)
      (th : ptr) :
  is_heap_type ty = true -> queue_ok q ty m ->
  queue_ok (fst (enqueue_thread q th m)) ty (snd (enqueue_thread q th m))
  /\ (Permutation (queue_contents (fst (enqueue_thread q th m)))
                  (th :: queue_contents q)
      \/ fst (enqueue_thread q th m) = q)
  /\ (forall p, deadline (snd (enqueue_thread q th m) p) = deadline (m p)
                /\ priority (constraints (snd (enqueue_thread q th m) p))
                   = priority (constraints (m p))).
Proof.
  intros Hty (Hq & HO & Hs). subst ty.
  assert (Hf : forall p, deadline (snd (enqueue_thread q th m) p) = deadline (m p)
                /\ priority (constraints (snd (enqueue_thread q th m) p))
                   = priority (constraints (m p))).
  { intros p. destruct (enqueue_thread_fields q th m p) as (A & _ & C).
    split; [exact A|]. rewrite C. reflexivity. }
  destruct (Nat.eq_dec (size q) MAX_QUEUE) as [E|N].
  - rewrite (enqueue_thread_full q th m E). cbn [fst snd].
    split; [repeat split; assumption|]. split; [right; reflexivity|].
    intros p. split; reflexivity.
  - destruct (enqueue_thread_heap_correct q th m Hty ltac:(lia) HO)
      as (q' & E & Hq' & Hs' & _ & _ & HO' & HP).
    split.
    + rewrite E. cbn [fst snd]. split; [exact Hq'|]. split; [exact HO'|]. lia.
    + split; [|exact Hf]. rewrite E. cbn [fst]. left. exact HP.
Qed.

(** Good order depends on the store only through the deadlines and
    priorities of the queued descriptors. *)
Lemma queue_ok_mem (q : rt_queue) (ty : Z) (m m' : ptr -> rt_thread) :
  (forall p, In p (queue_contents q) ->
             deadline (m' p) = deadline (m p)
             /\ priority (constraints (m' p)) = priority (constraints (m p))) ->
  queue_ok q ty m -> queue_ok q ty m'.
Proof.
  intros H (Hq & HO & Hs). split; [exact Hq|]. split; [|exact Hs].
  unfold queue_heap_ordered in *.
  apply (heap_ordered_ext_in (heap_key (qtype q) m)); [|exact HO].
  intros i Hi.
  destruct (H (threads q i)) as [A B].
  { apply in_contents. exists i. split; [exact Hi|reflexivity]. }
  unfold heap_key. destruct (qtype q =? APERIODIC_QUEUE).
  - unfold key_priority. symmetry. exact B.
  - unfold key_deadline. symmetry. exact A.
Qed.
Lemma mid_dequeue (a l l' b extra : list ptr) :
  Permutation l (extra ++ l') ->
  NoDup (a ++ l ++ b) -> ~ In NULL (a ++ l ++ b) ->
  NoDup (a ++ l' ++ b) /\ ~ In NULL (a ++ l' ++ b)
  /\ (forall x, In x (a ++ l' ++ b) -> In x (a ++ l ++ b))
  /\ (forall x, In x l' -> In x l)
  /\ (forall r, In r extra ->
                r <> NULL /\ In r l /\ ~ In r (a ++ l' ++ b)).
Proof.
  intros H N Hn.
  destruct (nodup_mid_shrink a l l' b extra H N) as (N' & Hd & Hi).
  split; [exact N'|]. split; [intros C; apply Hn, Hi, C|].
  split; [exact Hi|].
  assert (Hl : forall x, In x (extra ++ l') -> In x l).
  { intros x Hx. apply (Permutation_in _ (Permutation_sym H)). exact Hx. }
  split; [intros x Hx; apply Hl, in_or_app; right; exact Hx|].
  intros r Hr.
  assert (Hrl : In r l) by (apply Hl, in_or_app; left; exact Hr).
  split; [|split; [exact Hrl|exact (Hd r Hr)]].
  intros ->. apply Hn. apply in_or_app. right. apply in_or_app. left.
  exact Hrl.
Qed.

Lemma mid_enqueue (a l l' b : list ptr) (p : ptr) :
  Permutation l' (p :: l) \/ l' = l -> p <> NULL ->
  NoDup (a ++ l ++ b) -> ~ In NULL (a ++ l ++ b) -> ~ In p (a ++ l ++ b) ->
  NoDup (a ++ l' ++ b) /\ ~ In NULL (a ++ l' ++ b)
  /\ (forall x, In x (a ++ l' ++ b) -> x = p \/ In x (a ++ l ++ b))
  /\ (forall x, In x l' -> x = p \/ In x l).
Proof.
  intros [H| ->] Hp N Hn Hq.
  - destruct (nodup_mid_grow a l l' b p H N Hq) as (N' & Hi).
    split; [exact N'|]. split.
    + intros C. destruct (Hi _ C) as [E|C']; [apply Hp; symmetry; exact E|].
      exact (Hn C').
    + split; [exact Hi|]. intros x Hx. apply (Permutation_in _ H) in Hx.
      destruct Hx as [<-|Hx]; [left; reflexivity|right; exact Hx].
  - split; [exact N|]. split; [exact Hn|].
    split; intros x Hx; right; exact Hx.
Qed.

Lemma heaps3_ok_mem (R P A : rt_queue) (m m' : ptr -> rt_thread) :
  (forall p, In p (queue_contents R ++ queue_contents P ++ queue_contents A) ->
             deadline (m' p) = deadline (m p)
             /\ priority (constraints (m' p)) = priority (constraints (m p))) ->
  heaps3_ok R P A m -> heaps3_ok R P A m'.
Proof.
  intros H (HR & HP & HA & N & Hn).
  split; [|split; [|split; [|split; assumption]]].
  - apply (queue_ok_mem R _ m m'); [|exact HR].
    intros p Hp. apply H. apply in_or_app. left. exact Hp.
  - apply (queue_ok_mem P _ m m'); [|exact HP].
    intros p Hp. apply H. apply in_or_app. right. apply in_or_app. left.
    exact Hp.
  - apply (queue_ok_mem A _ m m'); [|exact HA].
    intros p Hp. apply H. apply in_or_app. right. apply in_or_app. right.
    exact Hp.
Qed.
Lemma heaps3_ok_dequeue_runnable (R P A : rt_queue) (m : ptr -> rt_thread) :
  heaps3_ok R P A m ->
  exists r R',
    dequeue_thread R m = Ok (r, R')
    /\ heaps3_ok R' P A m
    /\ dequeue_post m RUNNABLE_QUEUE r R' (queue_contents R)
         (queue_contents R ++ queue_contents P ++ queue_contents A)
         (queue_contents R' ++ queue_contents P ++ queue_contents A).
Proof.
  intros (HR & HP & HA & N & Hn).
  destruct (queue_ok_dequeue R RUNNABLE_QUEUE m eq_refl HR)
    as (r & R' & extra & E & HR' & Pm & Hc).
  destruct (mid_dequeue [] _ _ _ _ Pm N Hn) as (N' & Hn' & Hi & Hl & Hr).
  cbn [app] in *.
  exists r, R'. split; [exact E|].
  split; [split; [exact HR'|split; [exact HP|split; [exact HA|split; assumption]]]|].
  split; [exact Hi|]. split; [exact Hl|].
  destruct Hc as [Hc|(Hst & Hin & Hle)]; [left; exact Hc|right].
  destruct (Hr r Hin) as (A1 & A2 & A3). repeat split; assumption.
Qed.

Lemma heaps3_ok_dequeue_pending (R P A : rt_queue) (m : ptr -> rt_thread) :
  heaps3_ok R P A m ->
  exists r P',
    dequeue_thread P m = Ok (r, P')
    /\ heaps3_ok R P' A m
    /\ dequeue_post m PENDING_QUEUE r P' (queue_contents P)
         (queue_contents R ++ queue_contents P ++ queue_contents A)
         (queue_contents R ++ queue_contents P' ++ queue_contents A).
Proof.
  intros (HR & HP & HA & N & Hn).
  destruct (queue_ok_dequeue P PENDING_QUEUE m eq_refl HP)
    as (r & P' & extra & E & HP' & Pm & Hc).
  destruct (mid_dequeue _ _ _ _ _ Pm N Hn) as (N' & Hn' & Hi & Hl & Hr).
  exists r, P'. split; [exact E|].
  split; [split; [exact HR|split; [exact HP'|split; [exact HA|split; assumption]]]|].
  split; [exact Hi|]. split; [exact Hl|].
  destruct Hc as [Hc|(Hst & Hin & Hle)]; [left; exact Hc|right].
  destruct (Hr r Hin) as (A1 & A2 & A3). repeat split; assumption.
Qed.

Lemma heaps3_ok_dequeue_aperiodic (R P A : rt_queue) (m : ptr -> rt_thread) :
  heaps3_ok R P A m ->
  exists r A',
    dequeue_thread A m = Ok (r, A')
    /\ heaps3_ok R P A' m
    /\ dequeue_post m APERIODIC_QUEUE r A' (queue_contents A)
         (queue_contents R ++ queue_contents P ++ queue_contents A)
         (queue_contents R ++ queue_contents P ++ queue_contents A').
Proof.
  intros (HR & HP & HA & N & Hn).
  destruct (queue_ok_dequeue A APERIODIC_QUEUE m eq_refl HA)
    as (r & A' & extra & E & HA' & Pm & Hc).
  assert (Ea : forall l, queue_contents R ++ queue_contents P ++ l
                         = (queue_contents R ++ queue_contents P) ++ l ++ [])
    by (intros l; rewrite app_nil_r, app_assoc; reflexivity).
  rewrite Ea in N, Hn.
  destruct (mid_dequeue _ _ _ _ _ Pm N Hn) as (N' & Hn' & Hi & Hl & Hr).
  exists r, A'. split; [exact E|].
  split.
  { split; [exact HR|]. split; [exact HP|]. split; [exact HA'|].
    rewrite Ea. split; assumption. }
  split; [intros x Hx; rewrite Ea in Hx |- *; exact (Hi x Hx)|].
  split; [exact Hl|].
  destruct Hc as [Hc|(Hst & Hin & Hle)]; [left; exact Hc|right].
  destruct (Hr r Hin) as (A1 & A2 & A3). rewrite Ea.
  repeat split; assumption.
Qed.

Lemma heaps3_ok_enqueue_runnable (R P A : rt_queue) (m : ptr -> rt_thread)
      (th : ptr) :
  heaps3_ok R P A m -> th <> NULL ->
  ~ In th (queue_contents R ++ queue_contents P ++ queue_contents A) ->
  heaps3_ok (fst (enqueue_thread R th m)) P A (snd (enqueue_thread R th m))
  /\ (forall x, In x (queue_contents (fst (enqueue_thread R th m))
                      ++ queue_contents P ++ queue_contents A) ->
                x = th
                \/ In x (queue_contents R ++ queue_contents P
                         ++ queue_contents A))
  /\ (forall x, In x (queue_contents (fst (enqueue_thread R th m))) ->
                x = th \/ In x (queue_contents R)).
Proof.
  intros (HR & HP & HA & N & Hn) Hth Hq.
  destruct (queue_ok_enqueue R RUNNABLE_QUEUE m th eq_refl HR) as (HR' & Pm & Hk).
  assert (Pm' : Permutation (queue_contents (fst (enqueue_thread R th m)))
                            (th :: queue_contents R)
                \/ queue_contents (fst (enqueue_thread R th m))
                   = queue_contents R)
    by (destruct Pm as [Pm|Pm]; [left; exact Pm|right; rewrite Pm; reflexivity]).
  destruct (mid_enqueue [] _ _ _ th Pm' Hth N Hn Hq) as (N' & Hn' & Hi & Hl).
  cbn [app] in *.
  split; [|split; assumption].
  split; [exact HR'|].
  split; [apply (queue_ok_mem P _ m); [intros p _; apply Hk|exact HP]|].
  split; [apply (queue_ok_mem A _ m); [intros p _; apply Hk|exact HA]|].
  split; assumption.
Qed.

Lemma heaps3_ok_enqueue_pending (R P A : rt_queue) (m : ptr -> rt_thread)
      (th : ptr) :
  heaps3_ok R P A m -> th <> NULL ->
  ~ In th (queue_contents R ++ queue_contents P ++ queue_contents A) ->
  heaps3_ok R (fst (enqueue_thread P th m)) A (snd (enqueue_thread P th m))
  /\ (forall x, In x (queue_contents R
                      ++ queue_contents (fst (enqueue_thread P th m))
                      ++ queue_contents A) ->
                x = th
                \/ In x (queue_contents R ++ queue_contents P
                         ++ queue_contents A)).
Proof.
  intros (HR & HP & HA & N & Hn) Hth Hq.
  destruct (queue_ok_enqueue P PENDING_QUEUE m th eq_refl HP) as (HP' & Pm & Hk).
  assert (Pm' : Permutation (queue_contents (fst (enqueue_thread P th m)))
                            (th :: queue_contents P)
                \/ queue_contents (fst (enqueue_thread P th m))
                   = queue_contents P)
    by (destruct Pm as [Pm|Pm]; [left; exact Pm|right; rewrite Pm; reflexivity]).
  destruct (mid_enqueue _ _ _ _ th Pm' Hth N Hn Hq) as (N' & Hn' & Hi & Hl).
  split; [|assumption].
  split; [apply (queue_ok_mem R _ m); [intros p _; apply Hk|exact HR]|].
  split; [exact HP'|].
  split; [apply (queue_ok_mem A _ m); [intros p _; apply Hk|exact HA]|].
  split; assumption.
Qed.

Lemma heaps3_ok_enqueue_aperiodic (R P A : rt_queue) (m : ptr -> rt_thread)
      (th : ptr) :
  heaps3_ok R P A m -> th <> NULL ->
  ~ In th (queue_contents R ++ queue_contents P ++ queue_contents A) ->
  heaps3_ok R P (fst (enqueue_thread A th m)) (snd (enqueue_thread A th m))
  /\ (forall x, In x (queue_contents R ++ queue_contents P
                      ++ queue_contents (fst (enqueue_thread A th m))) ->
                x = th
                \/ In x (queue_contents R ++ queue_contents P
                         ++ queue_contents A)).
Proof.
  intros (HR & HP & HA & N & Hn) Hth Hq.
  destruct (queue_ok_enqueue A APERIODIC_QUEUE m th eq_refl HA) as (HA' & Pm & Hk).
  assert (Pm' : Permutation (queue_contents (fst (enqueue_thread A th m)))
                            (th :: queue_contents A)
                \/ queue_contents (fst (enqueue_thread A th m))
                   = queue_contents A)
    by (destruct Pm as [Pm|Pm]; [left; exact Pm|right; rewrite Pm; reflexivity]).
  assert (Ea : forall l, queue_contents R ++ queue_contents P ++ l
                         = (queue_contents R ++ queue_contents P) ++ l ++ [])
    by (intros l; rewrite app_nil_r, app_assoc; reflexivity).
  rewrite Ea in N, Hn, Hq.
  destruct (mid_enqueue _ _ _ _ th Pm' Hth N Hn Hq) as (N' & Hn' & Hi & Hl).
  split.
  - split; [apply (queue_ok_mem R _ m); [intros p _; apply Hk|exact HR]|].
    split; [apply (queue_ok_mem P _ m); [intros p _; apply Hk|exact HP]|].
    split; [exact HA'|].
    rewrite Ea. split; assumption.
  - intros x Hx. rewrite Ea in Hx |- *. exact (Hi x Hx).
Qed.
Lemma heaps_ok_set_timer (w : world) (t : ptr) (e s : Z) :
  heaps_ok w -> heaps_ok (set_timer w t e s).
Proof.
  unfold heaps_ok.
  rewrite mem_set_timer, runnable_set_timer, pending_set_timer,
    aperiodic_set_timer. tauto.
Qed.

Lemma queued_set_timer (w : world) (t : ptr) (e s : Z) :
  queued (sched (set_timer w t e s)) = queued (sched w).
Proof.
  unfold queued.
  rewrite runnable_set_timer, pending_set_timer, aperiodic_set_timer.
  reflexivity.
Qed.

Lemma heaps_ok_update_periodic (t : ptr) (w : world) :
  heaps_ok w -> ~ In t (queued (sched w)) -> heaps_ok (update_periodic t w).
Proof.
  unfold heaps_ok. intros H Ht. rewrite update_periodic_sched.
  apply (heaps3_ok_mem _ _ _ (mem w)); [|exact H].
  intros p Hp. rewrite update_periodic_other; [split; reflexivity|].
  intros ->. exact (Ht Hp).
Qed.

Lemma heaps_ok_check_deadlines (t : ptr) (w : world) :
  heaps_ok w -> heaps_ok (snd (check_deadlines t w)).
Proof.
  unfold heaps_ok. destruct (check_deadlines_mem t w) as [-> ->]. tauto.
Qed.

Lemma heaps_ok_runnable_heap (w : world) :
  heaps_ok w -> is_heap_type (qtype (runnable (sched w))) = true.
Proof. intros ((-> & _) & _). reflexivity. Qed.

(** The release loop keeps the heaps in good order.  It queues no
    descriptor that was not queued, leaves every status and every
    descriptor that is not queued alone, and fills runnable from pending. *)
Lemma release_drain_inv (fuel : nat) :
  forall (e : Z) (w w2 : world),
    heaps_ok w -> release_drain fuel e w = Ok w2 ->
    heaps_ok w2
    /\ (forall x, In x (queued (sched w2)) -> In x (queued (sched w)))
    /\ (forall p, status (mem w2 p) = status (mem w p))
    /\ (forall p, ~ In p (queued (sched w)) -> mem w2 p = mem w p)
    /\ (forall x, In x (queue_contents (runnable (sched w2))) ->
                  In x (queue_contents (runnable (sched w))
                        ++ queue_contents (pending (sched w)))).
Proof.
  induction fuel as [|fuel IH]; intros e w w2 Hok H; [discriminate H|].
  rewrite release_drain_S in H.
  assert (Hstop : Ok w = Ok w2 ->
    heaps_ok w2
    /\ (forall x, In x (queued (sched w2)) -> In x (queued (sched w)))
    /\ (forall p, status (mem w2 p) = status (mem w p))
    /\ (forall p, ~ In p (queued (sched w)) -> mem w2 p = mem w p)
    /\ (forall x, In x (queue_contents (runnable (sched w2))) ->
                  In x (queue_contents (runnable (sched w))
                        ++ queue_contents (pending (sched w))))).
  { intros E. inversion E; subst w2. split; [exact Hok|].
    split; [auto|]. split; [auto|]. split; [auto|].
    intros x Hx. apply in_or_app. left. exact Hx. }
  destruct (Nat.ltb 0 (size (pending (sched w)))); [|exact (Hstop H)].
  destruct (deadline (mem w (threads (pending (sched w)) O)) <? e);
    [|exact (Hstop H)].
  clear Hstop.
  destruct (heaps3_ok_dequeue_pending _ _ _ _ Hok)
    as (r & P' & E & Hok1 & Hi1 & Hl1 & Hc).
  rewrite E in H. cbn [bind] in H.
  set (w1 := with_sched w (set_pending (sched w) P')) in *.
  assert (Hok1' : heaps_ok w1) by exact Hok1.
  destruct (Nat.eqb_spec r NULL) as [Hr|Hr].
  - destruct (IH e w1 w2 Hok1' H) as (A & B & C & D & F).
    split; [exact A|]. split; [intros x Hx; apply Hi1, (B x Hx)|].
    split; [exact C|]. split.
    + intros p Hp. apply D. intros Hq. apply Hp. apply Hi1. exact Hq.
    + intros x Hx. specialize (F x Hx). apply in_app_or in F.
      apply in_or_app. destruct F as [F|F]; [left; exact F|right].
      apply Hl1. exact F.
  - destruct Hc as [[Hc _]|(_ & Hst & Hin & Hnin & _)]; [contradiction|].
    assert (Hnin' : ~ In r (queued (sched w1))) by exact Hnin.
    pose proof (heaps_ok_update_periodic r w1 Hok1' Hnin') as Hok2.
    set (w2' := update_periodic r w1) in *.
    assert (Es : sched w2' = sched w1) by apply update_periodic_sched.
    assert (Hnin2 : ~ In r (queued (sched w2'))) by (rewrite Es; exact Hnin').
    destruct (heaps3_ok_enqueue_runnable _ _ _ _ r Hok2 Hr Hnin2)
      as (Hok3 & Hi3 & Hl3).
    set (w3 := with_queue_mem set_runnable w2'
                 (enqueue_thread (runnable (sched w2')) r (mem w2'))) in *.
    assert (Hok3' : heaps_ok w3) by exact Hok3.
    assert (HrQ : In r (queued (sched w))).
    { unfold queued. apply in_or_app. right. apply in_or_app. left.
      exact Hin. }
    assert (Hi3' : forall x, In x (queued (sched w3)) ->
                             In x (queued (sched w))).
    { intros x Hx. destruct (Hi3 x Hx) as [->|Hx']; [exact HrQ|].
      apply Hi1. fold (queued (sched w2')) in Hx'. rewrite Es in Hx'.
      exact Hx'. }
    destruct (IH e w3 w2 Hok3' H) as (A & B & C & D & F).
    split; [exact A|]. split; [intros x Hx; apply Hi3', (B x Hx)|].
    split.
    { intros p. rewrite C. unfold w3. cbn [with_queue_mem mem].
      rewrite enqueue_thread_heap_status
        by (apply heaps_ok_runnable_heap; exact Hok2).
      unfold w2'. rewrite update_periodic_status. reflexivity. }
    split.
    { intros p Hp. rewrite D by (intros Hq; apply Hp, Hi3', Hq).
      assert (Hpr : p <> r) by (intros ->; exact (Hp HrQ)).
      unfold w3. cbn [with_queue_mem mem].
      rewrite enqueue_thread_other by exact Hpr.
      unfold w2'. rewrite update_periodic_other by exact Hpr. reflexivity. }
    intros x Hx. specialize (F x Hx). apply in_app_or in F.
    destruct F as [F|F].
    + destruct (Hl3 x F) as [->|F'].
      * apply in_or_app. right. exact Hin.
      * apply in_or_app. left. rewrite Es in F'. exact F'.
    + apply in_or_app. right. apply Hl1.
      unfold w3 in F. cbn [with_queue_mem sched pending set_runnable] in F.
      rewrite Es in F. exact F.
Qed.
Lemma queue_contents_empty (q : rt_queue) :
  size q = 0%nat -> queue_contents q = [].
Proof. intros E. unfold queue_contents. rewrite E. reflexivity. Qed.

Lemma pick_aperiodic_inv (w : world) (e s : Z) r h w' :
  heaps_ok w -> pick_aperiodic w e s = Ok ((r, h), w') ->
  heaps_ok w' /\ r <> NULL /\ ~ In r (queued (sched w'))
  /\ (forall x, In x (queued (sched w')) -> In x (queued (sched w)))
  /\ In r (queued (sched w))
  /\ mem w' = mem w
  /\ runnable (sched w') = runnable (sched w).
Proof.
  intros Hok H. unfold pick_aperiodic in H.
  destruct (heaps3_ok_dequeue_aperiodic _ _ _ _ Hok)
    as (r0 & A' & E & Hok1 & Hi1 & Hl1 & Hc).
  rewrite E in H. cbn [bind] in H.
  destruct (Nat.eqb_spec r0 NULL) as [Hr|Hr]; [discriminate H|].
  inversion H; subst r0 h w'. clear H.
  destruct Hc as [[Hc _]|(_ & Hst & Hin & Hnin & _)]; [contradiction|].
  set (w1 := with_sched w (set_aperiodic (sched w) A')) in *.
  assert (Hok1' : heaps_ok w1) by exact Hok1.
  split; [apply heaps_ok_set_timer; exact Hok1'|].
  split; [exact Hr|]. rewrite queued_set_timer.
  split; [exact Hnin|]. split; [exact Hi1|].
  split.
  { unfold queued. apply in_or_app. right. apply in_or_app. right. exact Hin. }
  rewrite mem_set_timer, runnable_set_timer. split; reflexivity.
Qed.

Lemma pick_next_inv (w : world) (e s : Z) r h w' :
  heaps_ok w -> pick_next w e s = Ok ((r, h), w') ->
  heaps_ok w' /\ r <> NULL /\ ~ In r (queued (sched w'))
  /\ (forall x, In x (queued (sched w')) -> In x (queued (sched w)))
  /\ In r (queued (sched w))
  /\ mem w' = mem w
  /\ earliest w' r.
Proof.
  intros Hok H. unfold pick_next in H.
  destruct (Nat.ltb_spec 0 (size (runnable (sched w)))) as [Hs|Hs].
  - destruct (heaps3_ok_dequeue_runnable _ _ _ _ Hok)
      as (r0 & R' & E & Hok1 & Hi1 & Hl1 & Hc).
    rewrite E in H. cbn [bind] in H.
    set (w1 := with_sched w (set_runnable (sched w) R')) in *.
    assert (Hok1' : heaps_ok w1) by exact Hok1.
    destruct (Nat.eqb_spec r0 NULL) as [Hr|Hr]; cbn [negb] in H.
    + destruct Hc as [[_ Hz]|(Hc & _)]; [|contradiction].
      destruct (pick_aperiodic_inv w1 e s r h w' Hok1' H)
        as (A & B & C & D & F & G & I).
      split; [exact A|]. split; [exact B|]. split; [exact C|].
      split; [intros x Hx; apply Hi1, (D x Hx)|].
      split; [apply Hi1; exact F|]. split; [exact G|].
      intros x Hx. rewrite I in Hx. unfold w1 in Hx.
      cbn [with_sched sched set_runnable runnable] in Hx.
      rewrite (queue_contents_empty R' Hz) in Hx. destruct Hx.
    + inversion H; subst r0 h w'. clear H.
      destruct Hc as [[Hc _]|(_ & Hst & Hin & Hnin & Hle)]; [contradiction|].
      split; [apply heaps_ok_set_timer; exact Hok1'|].
      split; [exact Hr|]. rewrite queued_set_timer.
      split; [exact Hnin|]. split; [exact Hi1|].
      split; [unfold queued; apply in_or_app; left; exact Hin|].
      rewrite mem_set_timer. split; [reflexivity|].
      intros x Hx. rewrite mem_set_timer. rewrite runnable_set_timer in Hx.
      apply (Hle x). exact Hx.
  - destruct (pick_aperiodic_inv w e s r h w' Hok H)
      as (A & B & C & D & F & G & I).
    split; [exact A|]. split; [exact B|]. split; [exact C|].
    split; [exact D|]. split; [exact F|]. split; [exact G|].
    intros x Hx. rewrite I in Hx.
    rewrite (queue_contents_empty (runnable (sched w))) in Hx by lia.
    destruct Hx.
Qed.
Lemma keep_current_inv (w w0 : world) (rt_c : ptr) (e s : Z) r h w' :
  heaps_ok w -> rt_c <> NULL -> ~ In rt_c (queued (sched w)) ->
  (forall x, In x (queued (sched w)) -> In x (queued (sched w0))) ->
  keep_current w rt_c e s = Ok ((r, h), w') ->
  dispatch_post w0 w' rt_c r
  /\ mem w' = mem w
  /\ runnable (sched w') = runnable (sched w).
Proof.
  intros Hok Hn Hq Hi H. unfold keep_current in H.
  inversion H; subst r h w'. clear H.
  rewrite mem_set_timer, runnable_set_timer.
  split; [|split; reflexivity].
  split; [|split].
  - split; [apply heaps_ok_set_timer; exact Hok|].
    split; [exact Hn|]. rewrite queued_set_timer. exact Hq.
  - intros x Hx. rewrite queued_set_timer in Hx. right. apply Hi, Hx.
  - left. reflexivity.
Qed.

Lemma preempt_or_keep_inv (w : world) (rt_c : ptr) (e s : Z) r h w' :
  heaps_ok w -> rt_c <> NULL -> ~ In rt_c (queued (sched w)) ->
  preempt_or_keep w rt_c e s = Ok ((r, h), w') ->
  dispatch_post w w' rt_c r
  /\ (((0 < size (runnable (sched w)))%nat ->
       status (mem w (threads (runnable (sched w)) O)) <> TOBE_REMOVED) ->
      earliest w' r).
Proof.
  intros Hok Hn Hq H. unfold preempt_or_keep in H.
  assert (HR : queue_heap_ordered (runnable (sched w)) (mem w)
               /\ qtype (runnable (sched w)) = RUNNABLE_QUEUE).
  { destruct Hok as ((A & B & _) & _). split; assumption. }
  destruct HR as [HRo HRt].
  assert (Hroot : forall x, In x (queue_contents (runnable (sched w))) ->
                            deadline (mem w (threads (runnable (sched w)) O))
                            <= deadline (mem w x)).
  { intros x Hx. apply in_contents in Hx. destruct Hx as (i & Hi & <-).
    unfold queue_heap_ordered, heap_key in HRo. rewrite HRt in HRo.
    exact (heap_root_min _ _ _ HRo i Hi). }
  destruct (Nat.ltb_spec 0 (size (runnable (sched w)))) as [Hs|Hs].
  - destruct (deadline (mem w rt_c)
              >? deadline (mem w (threads (runnable (sched w)) O))) eqn:Hd.
    + apply Z.gtb_lt in Hd.
      destruct (heaps3_ok_dequeue_runnable _ _ _ _ Hok)
        as (r0 & R' & E & Hok1 & Hi1 & Hl1 & Hc).
      rewrite E in H. cbn [bind] in H.
      set (w1 := with_sched w (set_runnable (sched w) R')) in *.
      assert (Hok1' : heaps_ok w1) by exact Hok1.
      assert (Hq1 : ~ In rt_c (queued (sched w1)))
        by (intros C; apply Hq, Hi1, C).
      destruct (Nat.eqb_spec r0 NULL) as [Hr|Hr]; cbn [negb] in H.
      * destruct Hc as [[_ Hz]|(Hc & _)]; [|contradiction].
        destruct (keep_current_inv w1 w rt_c e s r h w' Hok1' Hn Hq1 Hi1 H)
          as (A & B & C).
        split; [exact A|]. intros _ x Hx. rewrite C in Hx.
        unfold w1 in Hx. cbn [with_sched sched set_runnable runnable] in Hx.
        rewrite (queue_contents_empty R' Hz) in Hx. destruct Hx.
      * inversion H; subst r0 h w'. clear H.
        destruct Hc as [[Hc _]|(_ & Hst & Hin & Hnin & Hle)];
          [contradiction|].
        destruct (heaps3_ok_enqueue_runnable _ _ _ _ rt_c Hok1' Hn Hq1)
          as (Hok2 & Hi2 & Hl2).
        set (w2 := with_queue_mem set_runnable w1
                     (enqueue_thread (runnable (sched w1)) rt_c (mem w1)))
          in *.
        assert (Hok2' : heaps_ok w2) by exact Hok2.
        assert (HrQ : In r (queued (sched w)))
          by (unfold queued; apply in_or_app; left; exact Hin).
        split.
        { split; [|split].
          - split; [apply heaps_ok_set_timer; exact Hok2'|].
            split; [exact Hr|]. rewrite queued_set_timer.
            intros C. destruct (Hi2 r C) as [->|C']; [exact (Hq HrQ)|].
            exact (Hnin C').
          - intros x Hx. rewrite queued_set_timer in Hx.
            destruct (Hi2 x Hx) as [->|C']; [left; reflexivity|right].
            apply Hi1. exact C'.
          - right. exact HrQ. }
        intros Hlive. specialize (Hlive Hs).
        destruct (dequeue_thread_heap_live (runnable (sched w)) (mem w))
          as (q'' & E' & _); [rewrite HRt; reflexivity|exact Hs|exact HRo
                             |exact Hlive|].
        assert (Er : r = threads (runnable (sched w)) O) by congruence.
        intros x Hx. rewrite mem_set_timer. rewrite runnable_set_timer in Hx.
        change (In x (queue_contents
                        (fst (enqueue_thread (runnable (sched w1)) rt_c
                                             (mem w1))))) in Hx.
        cbn [with_queue_mem mem].
        rewrite !(proj1 (enqueue_thread_fields _ _ _ _)).
        destruct (Hl2 x Hx) as [->|Hx'].
        -- rewrite Er. lia.
        -- exact (Hle x Hx').
    + rewrite Z.gtb_ltb in Hd. apply Z.ltb_ge in Hd.
      destruct (keep_current_inv w w rt_c e s r h w' Hok Hn Hq
                  ltac:(auto) H) as (A & B & C).
      split; [exact A|]. intros _ x Hx. rewrite C in Hx. rewrite B.
      destruct A as (_ & _ & [->|A]).
      * specialize (Hroot x Hx). lia.
      * inversion H; subst. contradiction.
  - destruct (keep_current_inv w w rt_c e s r h w' Hok Hn Hq ltac:(auto) H)
      as (A & B & C).
    split; [exact A|]. intros _ x Hx. rewrite C in Hx.
    rewrite (queue_contents_empty (runnable (sched w))) in Hx by lia.
    destruct Hx.
Qed.

Lemma requeue_periodic_inv (w : world) (rt_c : ptr) :
  heaps_ok w -> rt_c <> NULL -> ~ In rt_c (queued (sched w)) ->
  heaps_ok (requeue_periodic w rt_c)
  /\ (forall x, In x (queued (sched (requeue_periodic w rt_c))) ->
                x = rt_c \/ In x (queued (sched w))).
Proof.
  intros Hok Hn Hq. unfold requeue_periodic.
  pose proof (heaps_ok_check_deadlines rt_c w Hok) as Hok1.
  destruct (check_deadlines_mem rt_c w) as [Em Es].
  destruct (check_deadlines rt_c w) as [missed w1]. cbn [snd] in *.
  assert (Hq1 : ~ In rt_c (queued (sched w1))) by (rewrite Es; exact Hq).
  destruct (negb (missed =? 0)).
  - pose proof (heaps_ok_update_periodic rt_c w1 Hok1 Hq1) as Hok2.
    set (w2 := update_periodic rt_c w1) in *.
    assert (Es2 : sched w2 = sched w1) by apply update_periodic_sched.
    assert (Hq2 : ~ In rt_c (queued (sched w2))) by (rewrite Es2; exact Hq1).
    destruct (heaps3_ok_enqueue_runnable _ _ _ _ rt_c Hok2 Hn Hq2)
      as (Hok3 & Hi3 & _).
    split; [exact Hok3|].
    intros x Hx. destruct (Hi3 x Hx) as [->|Hx']; [left; reflexivity|right].
    fold (queued (sched w2)) in Hx'. rewrite Es2, Es in Hx'. exact Hx'.
  - destruct (heaps3_ok_enqueue_pending _ _ _ _ rt_c Hok1 Hn Hq1)
      as (Hok3 & Hi3).
    split; [exact Hok3|].
    intros x Hx. destruct (Hi3 x Hx) as [->|Hx']; [left; reflexivity|right].
    fold (queued (sched w1)) in Hx'. rewrite Es in Hx'. exact Hx'.
Qed.
Lemma resched_select_inv (c : nk_thread) (rt_c : ptr) (e s : Z) (w : world)
      r h w' :
  heaps_ok w -> rt_c <> NULL -> ~ In rt_c (queued (sched w)) ->
  resched_select c rt_c e s w = Ok ((r, h), w') ->
  dispatch_post w w' rt_c r
  /\ (((0 < size (runnable (sched w)))%nat ->
       status (mem w (threads (runnable (sched w)) O)) <> TOBE_REMOVED) ->
      type (mem w rt_c) = APERIODIC \/ type (mem w rt_c) = SPORADIC
      \/ type (mem w rt_c) = PERIODIC ->
      earliest w' r).
Proof.
  intros Hok Hn Hq H. unfold resched_select in H.
  assert (Hpick : forall w0,
    heaps_ok w0 ->
    (forall x, In x (queued (sched w0)) ->
               x = rt_c \/ In x (queued (sched w))) ->
    pick_next w0 e s = Ok ((r, h), w') ->
    dispatch_post w w' rt_c r /\ earliest w' r).
  { intros w0 Hok0 Hi0 H0.
    destruct (pick_next_inv w0 e s r h w' Hok0 H0)
      as (A & B & C & D & F & _ & G).
    split; [|exact G]. split; [|split].
    - split; [exact A|]. split; [exact B|exact C].
    - intros x Hx. apply Hi0, D, Hx.
    - apply Hi0, F. }
  destruct (Z.eqb_spec (type (mem w rt_c)) APERIODIC) as [Ta|Ta].
  { set (w1 := with_mem w (upd (mem w) rt_c
                  (set_priority (mem w rt_c) (run_time (mem w rt_c))))) in *.
    assert (Hok1 : heaps_ok w1).
    { unfold heaps_ok, w1. cbn [with_mem sched mem].
      apply (heaps3_ok_mem _ _ _ (mem w)); [|exact Hok].
      intros p Hp. rewrite upd_other; [split; reflexivity|].
      intros ->. exact (Hq Hp). }
    assert (Hq1 : ~ In rt_c (queued (sched w1))) by exact Hq.
    destruct (heaps3_ok_enqueue_aperiodic _ _ _ _ rt_c Hok1 Hn Hq1)
      as (Hok2 & Hi2).
    destruct (Hpick (with_queue_mem set_aperiodic w1
                       (enqueue_thread (aperiodic (sched w1)) rt_c (mem w1)))
                    Hok2 Hi2 H) as [A B].
    split; [exact A|]. intros _ _. exact B. }
  destruct (Z.eqb_spec (type (mem w rt_c)) SPORADIC) as [Tsp|Tsp].
  { destruct (run_time (mem w rt_c) >=? work (constraints (mem w rt_c))).
    - pose proof (heaps_ok_check_deadlines rt_c w Hok) as Hok1.
      destruct (check_deadlines_mem rt_c w) as [_ Es].
      destruct (check_deadlines rt_c w) as [missed w1]. cbn [snd] in *.
      destruct (Hpick w1 Hok1) as [A B]; [|exact H|].
      + intros x Hx. right. rewrite <- Es. exact Hx.
      + split; [exact A|]. intros _ _. exact B.
    - destruct (preempt_or_keep_inv w rt_c e s r h w' Hok Hn Hq H) as [A B].
      split; [exact A|]. intros Hl _. exact (B Hl). }
  destruct (Z.eqb_spec (type (mem w rt_c)) PERIODIC) as [Tp|Tp].
  { destruct (run_time (mem w rt_c) >=? slice (constraints (mem w rt_c))).
    - destruct (requeue_periodic_inv w rt_c Hok Hn Hq) as [Hok1 Hi1].
      destruct (Hpick (requeue_periodic w rt_c) Hok1 Hi1 H) as [A B].
      split; [exact A|]. intros _ _. exact B.
    - destruct (preempt_or_keep_inv w rt_c e s r h w' Hok Hn Hq H) as [A B].
      split; [exact A|]. intros Hl _. exact (B Hl). }
  inversion H; subst r h w'. clear H. split.
  - split; [|split].
    + split; [apply heaps_ok_set_timer; exact Hok|].
      split; [exact Hn|]. rewrite queued_set_timer. exact Hq.
    + intros x Hx. rewrite queued_set_timer in Hx. right. exact Hx.
    + left. reflexivity.
  - intros _ [T|[T|T]]; contradiction.
Qed.

(** One dispatch from a state in good order. *)
Lemma rt_need_resched_inv (c : nk_thread) (rt_c : ptr) (w : world) r h w' :
  dispatch_ok w rt_c ->
  rt_need_resched c rt_c w = Ok ((r, h), w') ->
  dispatch_post w w' rt_c r
  /\ ((forall p, In p (queue_contents (runnable (sched w))
                       ++ queue_contents (pending (sched w))) ->
                 status (mem w p) <> TOBE_REMOVED) ->
      type (mem w rt_c) = APERIODIC \/ type (mem w rt_c) = SPORADIC
      \/ type (mem w rt_c) = PERIODIC ->
      earliest w' r).
Proof.
  intros (Hok & Hn & Hq) H. unfold rt_need_resched in H.
  destruct (resched_entry_spec w) as (_ & Em & Er & Ep & Ea & _).
  destruct (resched_entry w) as [e w1]. cbn [fst snd] in *.
  assert (Hok1 : heaps_ok w1).
  { unfold heaps_ok. rewrite Em, Er, Ep, Ea. exact Hok. }
  assert (EQ : queued (sched w1) = queued (sched w)).
  { unfold queued. rewrite Er, Ep, Ea. reflexivity. }
  destruct (release_drain (S (size (pending (sched w1)))) e w1) as [w2|f] eqn:D;
    cbn [bind] in H; [|discriminate H].
  destruct (release_drain_inv _ _ _ _ Hok1 D) as (Hok2 & Hi2 & Hst & Hm & Hr).
  assert (Hq2 : ~ In rt_c (queued (sched w2))).
  { intros C. apply Hq. rewrite <- EQ. apply Hi2, C. }
  destruct (resched_select_inv c rt_c e 0 w2 r h w' Hok2 Hn Hq2 H)
    as ((A & B & C) & F).
  split.
  - split; [exact A|]. split.
    + intros x Hx. destruct (B x Hx) as [->|Hx']; [left; reflexivity|right].
      rewrite <- EQ. apply Hi2, Hx'.
    + destruct C as [->|C]; [left; reflexivity|right].
      rewrite <- EQ. apply Hi2, C.
  - intros Hlive Hty. apply F.
    + intros Hs.
      rewrite Hst, Em. apply Hlive. rewrite <- Er, <- Ep. apply Hr.
      apply in_contents. exists O. split; [exact Hs|reflexivity].
    + rewrite Hm by (rewrite EQ; exact Hq). rewrite Em. exact Hty.
Qed.

(** X6.  What a dispatch keeps of the good order of the three heaps.
    When runnable, pending and aperiodic carry their type tags, are heap
    ordered, hold at most [MAX_QUEUE] descriptors, none of them null and
    none queued twice or on two queues, and the current thread is not null
    and not queued, then after [rt_need_resched] returns: runnable and
    pending carry their tags, are heap ordered by deadline and hold at most
    [MAX_QUEUE] descriptors; aperiodic carries its tag and holds at most
    [MAX_QUEUE] descriptors, and is heap ordered by priority when the
    current thread was not aperiodic, so that no priority was written; no
    descriptor is queued twice or on two queues and none is null; the
    chosen thread is not null and not queued.  No descriptor is queued
    afterwards that was not queued before or was the current thread, and
    the chosen thread was queued before or is the current thread. *)
Theorem rt_need_resched_keeps_heaps :
  forall (c : nk_thread) (rt_c : ptr) (w : world) r h w',
    dispatch_ok w rt_c ->
    rt_need_resched c rt_c w = Ok ((r, h), w') ->
    queue_ok (runnable (sched w')) RUNNABLE_QUEUE (mem w')
    /\ queue_ok (pending (sched w')) PENDING_QUEUE (mem w')
    /\ qtype (aperiodic (sched w')) = APERIODIC_QUEUE
    /\ (size (aperiodic (sched w')) <= MAX_QUEUE)%nat
    /\ (type (mem w rt_c) <> APERIODIC ->
        queue_heap_ordered (aperiodic (sched w')) (mem w'))
    /\ NoDup (queued (sched w'))
    /\ ~ In NULL (queued (sched w'))
    /\ r <> NULL
    /\ ~ In r (queued (sched w'))
    /\ (forall x, In x (queued (sched w')) ->
                  x = rt_c \/ In x (queued (sched w)))
    /\ (r = rt_c \/ In r (queued (sched w))).
Proof.
  intros c rt_c w r h w' Hok H.
  destruct (proj1 (rt_need_resched_inv c rt_c w r h w' Hok H))
    as (((HR & HP & (HAt & HAo & HAs) & Hnd & Hnn) & Hr & Hrq) & Hsub & Hin).
  split; [exact HR|]. split; [exact HP|]. split; [exact HAt|].
  split; [exact HAs|]. split; [intros _; exact HAo|].
  split; [exact Hnd|]. split; [exact Hnn|]. split; [exact Hr|].
  split; [exact Hrq|]. split; [exact Hsub|exact Hin].
Qed.

(** X7.  The dispatcher chooses by earliest deadline.  From a state in
    good order in which no descriptor on runnable or pending is marked
    [TOBE_REMOVED], and for a current thread that is aperiodic, sporadic or
    periodic, the thread [rt_need_resched] chooses has a deadline no later
    than that of any descriptor it leaves on runnable. *)
Theorem rt_need_resched_earliest_deadline :
  forall (c : nk_thread) (rt_c : ptr) (w : world) r h w',
    dispatch_ok w rt_c ->
    (forall p, In p (queue_contents (runnable (sched w))
                     ++ queue_contents (pending (sched w))) ->
               status (mem w p) <> TOBE_REMOVED) ->
    type (mem w rt_c) = APERIODIC \/ type (mem w rt_c) = SPORADIC
    \/ type (mem w rt_c) = PERIODIC ->
    rt_need_resched c rt_c w = Ok ((r, h), w') ->
    forall x, In x (queue_contents (runnable (sched w'))) ->
              deadline (mem w' r) <= deadline (mem w' x).
Proof.
  intros c rt_c w r h w' Hok Hlive Hty H.
  exact (proj2 (rt_need_resched_inv c rt_c w r h w' Hok H) Hlive Hty).
Qed.
Lemma ex_world_dispatch_ok :
  dispatch_ok (ex_world_queues ex_mem [2%nat] []) 1%nat.
Proof.
  assert (Hq : forall q ty, qtype q = ty -> (size q <= 1)%nat ->
                            queue_ok q ty (mem (ex_world_queues ex_mem [2%nat] []))).
  { intros q ty Hty Hs. split; [exact Hty|]. split.
    - intros i Hi. lia.
    - unfold MAX_QUEUE. lia. }
  split; [|split].
  - split; [|split; [|split; [|split]]].
    + apply Hq; [reflexivity|vm_compute; lia].
    + apply Hq; [reflexivity|vm_compute; lia].
    + apply Hq; [reflexivity|vm_compute; lia].
    + vm_compute. repeat constructor; simpl; intuition discriminate.
    + vm_compute. intuition discriminate.
  - discriminate.
  - vm_compute. intuition discriminate.
Defined.

Lemma rt_need_resched_keeps_heaps_witness :
  queue_ok
    (runnable (sched
       (res_world (rt_need_resched 11%nat 1%nat
                     (ex_world_queues ex_mem [2%nat] []))
                  (ex_world_queues ex_mem [2%nat] []))))
    RUNNABLE_QUEUE
    (mem (res_world (rt_need_resched 11%nat 1%nat
                       (ex_world_queues ex_mem [2%nat] []))
                    (ex_world_queues ex_mem [2%nat] [])))
  /\ queue_heap_ordered
       (aperiodic (sched
          (res_world (rt_need_resched 11%nat 1%nat
                        (ex_world_queues ex_mem [2%nat] []))
                     (ex_world_queues ex_mem [2%nat] []))))
       (mem (res_world (rt_need_resched 11%nat 1%nat
                          (ex_world_queues ex_mem [2%nat] []))
                       (ex_world_queues ex_mem [2%nat] [])))
  /\ NoDup (queued (sched
       (res_world (rt_need_resched 11%nat 1%nat
                     (ex_world_queues ex_mem [2%nat] []))
                  (ex_world_queues ex_mem [2%nat] []))))
  /\ ~ In 2%nat (queued (sched
       (res_world (rt_need_resched 11%nat 1%nat
                     (ex_world_queues ex_mem [2%nat] []))
                  (ex_world_queues ex_mem [2%nat] []))))
  /\ (forall x,
         In x (queued (sched (res_world
                 (rt_need_resched 11%nat 1%nat
                    (ex_world_queues ex_mem [2%nat] []))
                 (ex_world_queues ex_mem [2%nat] [])))) ->
         x = 1%nat
         \/ In x (queued (sched (ex_world_queues ex_mem [2%nat] []))))
  /\ (2%nat = 1%nat
      \/ In 2%nat (queued (sched (ex_world_queues ex_mem [2%nat] [])))).
Proof.
  destruct (rt_need_resched_keeps_heaps 11%nat 1%nat
              (ex_world_queues ex_mem [2%nat] []) 2%nat 12%nat
              (res_world (rt_need_resched 11%nat 1%nat
                            (ex_world_queues ex_mem [2%nat] []))
                         (ex_world_queues ex_mem [2%nat] [])))
    as (HR & _ & _ & _ & HA & Hnd & _ & _ & Hrq & Hsub & Hin).
  - exact ex_world_dispatch_ok.
  - vm_compute. reflexivity.
  - split; [exact HR|]. split; [apply HA; vm_compute; discriminate|].
    split; [exact Hnd|]. split; [exact Hrq|]. split; [exact Hsub|exact Hin].
Defined.

Lemma rt_need_resched_earliest_deadline_witness :
  In 1%nat (queue_contents (runnable (sched (res_world
       (rt_need_resched 11%nat 1%nat (ex_world_queues ex_mem [2%nat] []))
       (ex_world_queues ex_mem [2%nat] [])))))
  /\ deadline (mem (res_world
                 (rt_need_resched 11%nat 1%nat
                    (ex_world_queues ex_mem [2%nat] []))
                 (ex_world_queues ex_mem [2%nat] [])) 2%nat)
     <= deadline (mem (res_world
                    (rt_need_resched 11%nat 1%nat
                       (ex_world_queues ex_mem [2%nat] []))
                    (ex_world_queues ex_mem [2%nat] [])) 1%nat).
Proof.
  assert (Hin : In 1%nat (queue_contents (runnable (sched (res_world
       (rt_need_resched 11%nat 1%nat (ex_world_queues ex_mem [2%nat] []))
       (ex_world_queues ex_mem [2%nat] []))))))
    by (vm_compute; left; reflexivity).
  split; [exact Hin|].
  apply (rt_need_resched_earliest_deadline 11%nat 1%nat
           (ex_world_queues ex_mem [2%nat] []) 2%nat 12%nat).
  - exact ex_world_dispatch_ok.
  - intros p Hp. vm_compute in Hp. destruct Hp as [<-|[]].
    vm_compute. discriminate.
  - right. right. vm_compute. reflexivity.
  - vm_compute. reflexivity.
  - exact Hin.
Defined.
(** ** Termination of a dispatch and its one trap *)

Lemma pick_aperiodic_outcome (w : world) (e s : Z) :
  sched_wf w ->
  (exists x w', pick_aperiodic w e s = Ok (x, w'))
  \/ pick_aperiodic w e s = Err PanicCalled.
Proof.
  intros Hwf. unfold pick_aperiodic.
  destruct (sched_wf_heap w Hwf) as (_ & _ & Ha).
  destruct (dequeue_thread_heap_shrinks (aperiodic (sched w)) (mem w) Ha)
    as (r & q' & E & _).
  rewrite E. cbn [bind].
  destruct (Nat.eqb r NULL); [right; reflexivity|left].
  eexists _, _. reflexivity.
Qed.

Lemma pick_next_outcome (w : world) (e s : Z) :
  sched_wf w ->
  (exists x w', pick_next w e s = Ok (x, w'))
  \/ pick_next w e s = Err PanicCalled.
Proof.
  intros Hwf. unfold pick_next.
  destruct (Nat.ltb 0 (size (runnable (sched w))));
    [|apply pick_aperiodic_outcome; exact Hwf].
  destruct (sched_wf_heap w Hwf) as (Hr & _ & _).
  destruct (dequeue_thread_heap_shrinks (runnable (sched w)) (mem w) Hr)
    as (r & q' & E & Hq & _).
  rewrite E. cbn [bind].
  destruct (negb (Nat.eqb r NULL)).
  - left. eexists _, _. reflexivity.
  - apply pick_aperiodic_outcome. apply sched_wf_set_runnable; assumption.
Qed.

Lemma preempt_or_keep_total (w : world) (rt_c : ptr) (e s : Z) :
  sched_wf w -> exists x w', preempt_or_keep w rt_c e s = Ok (x, w').
Proof.
  intros Hwf. unfold preempt_or_keep, keep_current.
  destruct (Nat.ltb 0 (size (runnable (sched w))));
    [|eexists _, _; reflexivity].
  destruct (deadline (mem w rt_c)
            >? deadline (mem w (threads (runnable (sched w)) O)));
    [|eexists _, _; reflexivity].
  destruct (sched_wf_heap w Hwf) as (Hr & _ & _).
  destruct (dequeue_thread_heap_shrinks (runnable (sched w)) (mem w) Hr)
    as (r & q' & E & _).
  rewrite E. cbn [bind].
  destruct (negb (Nat.eqb r NULL)); eexists _, _; reflexivity.
Qed.

Lemma sched_wf_requeue_periodic (w : world) (rt_c : ptr) :
  sched_wf w -> sched_wf (requeue_periodic w rt_c).
Proof.
  intros Hwf. unfold requeue_periodic.
  assert (Hwf1 : sched_wf (snd (check_deadlines rt_c w))).
  { unfold sched_wf. destruct (check_deadlines_mem rt_c w) as [_ ->].
    exact Hwf. }
  destruct (check_deadlines rt_c w) as [missed w1]. cbn [snd] in Hwf1.
  destruct (negb (missed =? 0)).
  - apply sched_wf_enqueue_runnable. apply sched_wf_update_periodic.
    exact Hwf1.
  - apply sched_wf_enqueue_pending. exact Hwf1.
Qed.

Lemma resched_select_outcome (c : nk_thread) (rt_c : ptr) (e s : Z)
      (w : world) :
  sched_wf w ->
  (exists x w', resched_select c rt_c e s w = Ok (x, w'))
  \/ resched_select c rt_c e s w = Err PanicCalled.
Proof.
  intros Hwf. unfold resched_select.
  destruct (type (mem w rt_c) =? APERIODIC).
  { apply pick_next_outcome.
    apply (sched_wf_enqueue_aperiodic
             (with_mem w (upd (mem w) rt_c
                (set_priority (mem w rt_c) (run_time (mem w rt_c))))) rt_c).
    exact Hwf. }
  destruct (type (mem w rt_c) =? SPORADIC).
  { destruct (run_time (mem w rt_c) >=? work (constraints (mem w rt_c))).
    - assert (Hwf1 : sched_wf (snd (check_deadlines rt_c w))).
      { unfold sched_wf. destruct (check_deadlines_mem rt_c w) as [_ ->].
        exact Hwf. }
      destruct (check_deadlines rt_c w) as [missed w1].
      apply pick_next_outcome. exact Hwf1.
    - left. apply preempt_or_keep_total. exact Hwf. }
  destruct (type (mem w rt_c) =? PERIODIC).
  { destruct (run_time (mem w rt_c) >=? slice (constraints (mem w rt_c))).
    - apply pick_next_outcome. apply sched_wf_requeue_periodic. exact Hwf.
    - left. apply preempt_or_keep_total. exact Hwf. }
  left. eexists _, _. reflexivity.
Qed.

Lemma pick_aperiodic_nonnull (w : world) (e s : Z) r h w' :
  pick_aperiodic w e s = Ok ((r, h), w') -> r <> NULL.
Proof.
  unfold pick_aperiodic.
  destruct (dequeue_thread (aperiodic (sched w)) (mem w)) as [[rt_n q]|f];
    cbn [bind]; [|discriminate].
  destruct (Nat.eqb_spec rt_n NULL) as [|Nn]; [discriminate|].
  intros E. inversion E; subst. exact Nn.
Qed.

Lemma pick_next_nonnull (w : world) (e s : Z) r h w' :
  pick_next w e s = Ok ((r, h), w') -> r <> NULL.
Proof.
  unfold pick_next.
  destruct (Nat.ltb 0 (size (runnable (sched w))));
    [|apply pick_aperiodic_nonnull].
  destruct (dequeue_thread (runnable (sched w)) (mem w)) as [[rt_n q]|f];
    cbn [bind]; [|discriminate].
  destruct (Nat.eqb_spec rt_n NULL) as [|Nn]; cbn [negb].
  - apply pick_aperiodic_nonnull.
  - intros E. inversion E; subst. exact Nn.
Qed.

Lemma preempt_or_keep_nonnull (w : world) (rt_c : ptr) (e s : Z) r h w' :
  rt_c <> NULL -> preempt_or_keep w rt_c e s = Ok ((r, h), w') -> r <> NULL.
Proof.
  intros Hc. unfold preempt_or_keep, keep_current.
  destruct (Nat.ltb 0 (size (runnable (sched w))));
    [|intros E; inversion E; subst; exact Hc].
  destruct (deadline (mem w rt_c)
            >? deadline (mem w (threads (runnable (sched w)) O)));
    [|intros E; inversion E; subst; exact Hc].
  destruct (dequeue_thread (runnable (sched w)) (mem w)) as [[rt_n q]|f];
    cbn [bind]; [|discriminate].
  destruct (Nat.eqb_spec rt_n NULL) as [|Nn]; cbn [negb];
    intros E; inversion E; subst; assumption.
Qed.

Lemma resched_select_nonnull (c : nk_thread) (rt_c : ptr) (e s : Z)
      (w : world) r h w' :
  rt_c <> NULL -> resched_select c rt_c e s w = Ok ((r, h), w') -> r <> NULL.
Proof.
  intros Hc. unfold resched_select.
  destruct (type (mem w rt_c) =? APERIODIC); [apply pick_next_nonnull|].
  destruct (type (mem w rt_c) =? SPORADIC).
  { destruct (run_time (mem w rt_c) >=? work (constraints (mem w rt_c))).
    - destruct (check_deadlines rt_c w) as [missed w1].
      apply pick_next_nonnull.
    - apply preempt_or_keep_nonnull. exact Hc. }
  destruct (type (mem w rt_c) =? PERIODIC).
  { destruct (run_time (mem w rt_c) >=? slice (constraints (mem w rt_c))).
    - apply pick_next_nonnull.
    - apply preempt_or_keep_nonnull. exact Hc. }
  intros E. inversion E; subst. exact Hc.
Qed.

(** X8.  A dispatch ends: it returns a thread or stops in the panic.  For
    a current thread that is not null, and three heaps that carry their type
    tags, hold no null descriptor and at most [MAX_QUEUE] descriptors each
    (the states in which the code dereferences no null pointer and stays
    within its arrays), the release loop of [rt_need_resched] stops within
    the size of pending plus one iterations, and the call either returns a
    thread that is not null or stops in [panic] (neither runnable nor
    aperiodic yields a thread). *)
Theorem rt_need_resched_returns_or_panics :
  forall (c : nk_thread) (rt_c : ptr) (w : world),
    sched_wf w ->
    rt_c <> NULL ->
    ~ In NULL (queued (sched w)) ->
    (size (runnable (sched w)) <= MAX_QUEUE)%nat ->
    (size (pending (sched w)) <= MAX_QUEUE)%nat ->
    (size (aperiodic (sched w)) <= MAX_QUEUE)%nat ->
    (exists r h w', rt_need_resched c rt_c w = Ok ((r, h), w') /\ r <> NULL)
    \/ rt_need_resched c rt_c w = Err PanicCalled.
Proof.
  intros c rt_c w Hwf Hc _ _ _ _. unfold rt_need_resched.
  destruct (resched_entry_spec w) as (_ & _ & Er & Ep & Ea & _).
  destruct (resched_entry w) as [e w1]. cbn [fst snd] in *.
  assert (Hwf1 : sched_wf w1).
  { unfold sched_wf. rewrite Er, Ep, Ea. exact Hwf. }
  destruct (release_drain_total (S (size (pending (sched w1)))) e w1 Hwf1
              ltac:(lia)) as (w2 & D & Hwf2 & _).
  rewrite D. cbn [bind].
  destruct (resched_select_outcome c rt_c e 0 w2 Hwf2)
    as [([r h] & w' & E)|E].
  - left. exists r, h, w'. split; [exact E|].
    exact (resched_select_nonnull c rt_c e 0 w2 r h w' Hc E).
  - right. exact E.
Qed.

Lemma rt_need_resched_returns_or_panics_witness :
  (exists r h w',
      rt_need_resched 14%nat 4%nat (ex_world ex_mem) = Ok ((r, h), w')
      /\ r <> NULL)
  \/ rt_need_resched 14%nat 4%nat (ex_world ex_mem) = Err PanicCalled.
Proof.
  apply (rt_need_resched_returns_or_panics 14%nat 4%nat (ex_world ex_mem)).
  - repeat split; reflexivity.
  - discriminate.
  - vm_compute. intuition discriminate.
  - unfold MAX_QUEUE. simpl. lia.
  - unfold MAX_QUEUE. simpl. lia.
  - unfold MAX_QUEUE. simpl. lia.
Defined.
Lemma heaps_ok_wf (w : world) : heaps_ok w -> sched_wf w.
Proof.
  intros ((A & _) & (B & _) & (C & _) & _). repeat split; assumption.
Qed.

Lemma dequeue_live_nonnull (q : rt_queue) (m : ptr -> rt_thread) :
  is_heap_type (qtype q) = true -> queue_heap_ordered q m ->
  ~ In NULL (queue_contents q) ->
  (exists p, In p (queue_contents q) /\ status (m p) <> TOBE_REMOVED) ->
  exists r q', dequeue_thread q m = Ok (r, q') /\ r <> NULL.
Proof.
  intros Hty HO Hn (p & Hp & Hst).
  destruct (dequeue_thread_heap_general q m Hty HO)
    as (r & q' & sk & E & _ & _ & Hsk & Hc).
  exists r, q'. split; [exact E|].
  destruct Hc as [(_ & P & _)|(_ & _ & P)].
  - intros ->. apply Hn. apply (Permutation_in _ (Permutation_sym P)).
    apply in_or_app. right. left. reflexivity.
  - exfalso. apply Hst. rewrite Forall_forall in Hsk. apply Hsk.
    apply (Permutation_in _ P). exact Hp.
Qed.

Lemma pick_aperiodic_total (w : world) (e s : Z) :
  heaps_ok w ->
  (exists p, In p (queue_contents (aperiodic (sched w)))
             /\ status (mem w p) <> TOBE_REMOVED) ->
  exists x w', pick_aperiodic w e s = Ok (x, w').
Proof.
  intros Hok Hl. unfold pick_aperiodic.
  destruct Hok as (_ & _ & (Ht & HO & _) & _ & Hn).
  destruct (dequeue_live_nonnull (aperiodic (sched w)) (mem w))
    as (r & q' & E & Hr).
  - rewrite Ht. reflexivity.
  - exact HO.
  - intros C. apply Hn. apply in_or_app. right. apply in_or_app. right.
    exact C.
  - exact Hl.
  - rewrite E. cbn [bind].
    destruct (Nat.eqb_spec r NULL) as [|_]; [contradiction|].
    eexists _, _. reflexivity.
Qed.

Lemma pick_next_total (w : world) (e s : Z) :
  heaps_ok w ->
  (exists p, In p (queue_contents (aperiodic (sched w)))
             /\ status (mem w p) <> TOBE_REMOVED) ->
  exists x w', pick_next w e s = Ok (x, w').
Proof.
  intros Hok Hl. unfold pick_next.
  destruct (Nat.ltb 0 (size (runnable (sched w))));
    [|apply pick_aperiodic_total; assumption].
  destruct (heaps3_ok_dequeue_runnable _ _ _ _ Hok)
    as (r & R' & E & Hok1 & _).
  rewrite E. cbn [bind].
  destruct (negb (Nat.eqb r NULL)); [eexists _, _; reflexivity|].
  apply pick_aperiodic_total; [exact Hok1|exact Hl].
Qed.

Lemma requeue_periodic_aperiodic (w : world) (rt_c : ptr) :
  heaps_ok w ->
  aperiodic (sched (requeue_periodic w rt_c)) = aperiodic (sched w)
  /\ forall p, status (mem (requeue_periodic w rt_c) p) = status (mem w p).
Proof.
  intros Hok. unfold requeue_periodic.
  destruct (check_deadlines_mem rt_c w) as [Em Es].
  destruct (check_deadlines rt_c w) as [missed w1]. cbn [snd] in *.
  destruct Hok as ((Tr & _) & (Tp & _) & _).
  destruct (negb (missed =? 0)); cbn [with_queue_mem sched mem].
  - rewrite update_periodic_sched, Es. split; [reflexivity|].
    intros p. rewrite enqueue_thread_heap_status by (rewrite Tr; reflexivity).
    rewrite update_periodic_status, Em. reflexivity.
  - rewrite Es. split; [reflexivity|].
    intros p. rewrite enqueue_thread_heap_status by (rewrite Tp; reflexivity).
    rewrite Em. reflexivity.
Qed.

Lemma resched_select_total (c : nk_thread) (rt_c : ptr) (e s : Z) (w : world) :
  heaps_ok w -> rt_c <> NULL -> ~ In rt_c (queued (sched w)) ->
  (exists p, In p (queue_contents (aperiodic (sched w)))
             /\ status (mem w p) <> TOBE_REMOVED)
  \/ (type (mem w rt_c) = APERIODIC /\ status (mem w rt_c) <> TOBE_REMOVED
      /\ (size (aperiodic (sched w)) < MAX_QUEUE)%nat) ->
  exists x w', resched_select c rt_c e s w = Ok (x, w').
Proof.
  intros Hok Hn Hq Hl. unfold resched_select.
  destruct (Z.eqb_spec (type (mem w rt_c)) APERIODIC) as [Ta|Ta].
  { set (w1 := with_mem w (upd (mem w) rt_c
                  (set_priority (mem w rt_c) (run_time (mem w rt_c))))) in *.
    assert (Hok1 : heaps_ok w1).
    { unfold heaps_ok, w1. cbn [with_mem sched mem].
      apply (heaps3_ok_mem _ _ _ (mem w)); [|exact Hok].
      intros p Hp. rewrite upd_other; [split; reflexivity|].
      intros ->. exact (Hq Hp). }
    assert (Hq1 : ~ In rt_c (queued (sched w1))) by exact Hq.
    destruct (heaps3_ok_enqueue_aperiodic _ _ _ _ rt_c Hok1 Hn Hq1)
      as (Hok2 & _).
    apply (pick_next_total
             (with_queue_mem set_aperiodic w1
                (enqueue_thread (aperiodic (sched w1)) rt_c (mem w1))));
      [exact Hok2|].
    cbn [with_queue_mem sched mem set_aperiodic aperiodic].
    assert (Hst : forall p, status (snd (enqueue_thread (aperiodic (sched w1))
                                           rt_c (mem w1)) p)
                            = status (mem w p)).
    { intros p. rewrite enqueue_thread_heap_status.
      - unfold w1. cbn [with_mem mem]. unfold upd.
        destruct (Nat.eqb p rt_c) eqn:Ep; [|reflexivity].
        apply Nat.eqb_eq in Ep. subst p. reflexivity.
      - destruct Hok1 as (_ & _ & (-> & _) & _). reflexivity. }
    assert (Ha : is_heap_type (qtype (aperiodic (sched w1))) = true).
    { destruct Hok1 as (_ & _ & (-> & _) & _). reflexivity. }
    destruct (enqueue_thread_heap_perm (aperiodic (sched w1)) rt_c (mem w1) Ha)
      as [Hroom Hfull].
    assert (Hsz : (size (aperiodic (sched w1)) <= MAX_QUEUE)%nat).
    { destruct Hok1 as (_ & _ & (_ & _ & Hs) & _). exact Hs. }
    destruct Hl as [(p & Hp & Hlp)|(_ & Hlc & Hs)].
    - exists p. split; [|rewrite Hst; exact Hlp].
      destruct (Nat.eq_dec (size (aperiodic (sched w1))) MAX_QUEUE) as [Ef|Nf].
      + rewrite (Hfull Ef). exact Hp.
      + destruct (Hroom ltac:(lia)) as [_ P].
        apply (Permutation_in _ (Permutation_sym P)). right. exact Hp.
    - exists rt_c. split; [|rewrite Hst; exact Hlc].
      destruct (Hroom Hs) as [_ P].
      apply (Permutation_in _ (Permutation_sym P)). left. reflexivity. }
  destruct Hl as [Hl|(Ta' & _)]; [|contradiction].
  pose proof (heaps_ok_wf w Hok) as Hwf.
  destruct (type (mem w rt_c) =? SPORADIC).
  { destruct (run_time (mem w rt_c) >=? work (constraints (mem w rt_c))).
    - pose proof (heaps_ok_check_deadlines rt_c w Hok) as Hok1.
      destruct (check_deadlines_mem rt_c w) as [Em Es].
      destruct (check_deadlines rt_c w) as [missed w1]. cbn [snd] in *.
      apply pick_next_total; [exact Hok1|]. rewrite Em, Es. exact Hl.
    - apply preempt_or_keep_total. exact Hwf. }
  destruct (type (mem w rt_c) =? PERIODIC).
  { destruct (run_time (mem w rt_c) >=? slice (constraints (mem w rt_c))).
    - destruct (requeue_periodic_inv w rt_c Hok Hn Hq) as [Hok1 _].
      destruct (requeue_periodic_aperiodic w rt_c Hok) as [Ea Est].
      apply pick_next_total; [exact Hok1|].
      destruct Hl as (p & Hp & Hlp). exists p. rewrite Ea, Est.
      split; assumption.
    - apply preempt_or_keep_total. exact Hwf. }
  eexists _, _. reflexivity.
Qed.

(** X9.  From a state in good order the dispatcher does not panic, and
    returns a thread that is not null, as soon as aperiodic holds a
    descriptor that is not marked [TOBE_REMOVED], or the current thread is
    itself aperiodic and not marked and aperiodic has room for it. *)
Theorem rt_need_resched_finds_successor :
  forall (c : nk_thread) (rt_c : ptr) (w : world),
    dispatch_ok w rt_c ->
    (exists p, In p (queue_contents (aperiodic (sched w)))
               /\ status (mem w p) <> TOBE_REMOVED)
    \/ (type (mem w rt_c) = APERIODIC /\ status (mem w rt_c) <> TOBE_REMOVED
        /\ (size (aperiodic (sched w)) < MAX_QUEUE)%nat) ->
    exists r h w',
      rt_need_resched c rt_c w = Ok ((r, h), w') /\ r <> NULL.
Proof.
  intros c rt_c w Hd Hl.
  assert (Hex : exists x w', rt_need_resched c rt_c w = Ok (x, w')).
  { destruct Hd as (Hok & Hn & Hq). unfold rt_need_resched.
    destruct (resched_entry_spec w) as (_ & Em & Er & Ep & Ea & _).
    destruct (resched_entry w) as [e w1]. cbn [fst snd] in *.
    assert (Hok1 : heaps_ok w1).
    { unfold heaps_ok. rewrite Em, Er, Ep, Ea. exact Hok. }
    assert (EQ : queued (sched w1) = queued (sched w)).
    { unfold queued. rewrite Er, Ep, Ea. reflexivity. }
    destruct (release_drain_total (S (size (pending (sched w1)))) e w1
                (heaps_ok_wf w1 Hok1) ltac:(lia)) as (w2 & D & _).
    rewrite D. cbn [bind].
    destruct (release_drain_inv _ _ _ _ Hok1 D) as (Hok2 & Hi2 & Hst & Hm & _).
    destruct (release_drain_frame _ _ _ _ D) as (_ & Ea2 & _).
    apply resched_select_total; [exact Hok2|exact Hn| |].
    - intros C. apply Hq. rewrite <- EQ. apply Hi2, C.
    - destruct Hl as [(p & Hp & Hlp)|(Ta & Hlc & Hs)]; [left|right].
      + exists p. rewrite Ea2, Ea, Hst, Em. split; assumption.
      + rewrite Hm by (rewrite EQ; exact Hq).
        rewrite Ea2, Ea, Em. repeat split; assumption. }
  destruct Hex as ([r h] & w' & E). exists r, h, w'. split; [exact E|].
  destruct (rt_need_resched_inv c rt_c w r h w' Hd E) as (((_ & Hr & _) & _) & _).
  exact Hr.
Qed.

Lemma rt_need_resched_finds_successor_witness :
  exists r h w',
    rt_need_resched 11%nat 1%nat (ex_world_queues ex_mem [2%nat] [])
    = Ok ((r, h), w')
    /\ r <> NULL.
Proof.
  apply (rt_need_resched_finds_successor 11%nat 1%nat
           (ex_world_queues ex_mem [2%nat] [])).
  - exact ex_world_dispatch_ok.
  - left. exists 4%nat. split.
    + vm_compute. left. reflexivity.
    + vm_compute. discriminate.
Defined.
(** ** The state [rt_scheduler_init] builds and the first dispatch *)

Lemma init_aperiodic (main : ptr) (m : ptr -> rt_thread) :
  rt_scheduler_init main m
  = (mk_scheduler (zero_queue RUNNABLE_QUEUE) (zero_queue PENDING_QUEUE)
       (mk_queue APERIODIC_QUEUE 1 O O
          (upd (upd (fun _ => NULL) O main) O main))
       (zero_queue ARRIVAL_QUEUE) (zero_queue WAITING_QUEUE)
       (zero_queue SLEEPING_QUEUE) (zero_queue EXITED_QUEUE) NULL 0
       (mk_tsc 0 0 0),
     upd (upd m main (set_status (m main) ADMITTED)) main
         (set_q_type (upd m main (set_status (m main) ADMITTED) main)
                     APERIODIC_QUEUE)).
Proof. reflexivity. Qed.

(** X10.  [rt_scheduler_init] builds a state in good order: runnable and
    pending are empty, aperiodic holds the main thread alone, the four
    rings are empty with their type tags, and the heaps satisfy the
    dispatcher's invariant.  The main descriptor gets status [ADMITTED] and
    the tag of aperiodic, no other descriptor changes, and the field
    [main_thread] is null, because the scheduler is zeroed after the field
    was assigned. *)
Theorem rt_scheduler_init_state :
  forall (main : ptr) (m : ptr -> rt_thread),
    main <> NULL ->
    heaps3_ok (runnable (fst (rt_scheduler_init main m)))
              (pending (fst (rt_scheduler_init main m)))
              (aperiodic (fst (rt_scheduler_init main m)))
              (snd (rt_scheduler_init main m))
    /\ queue_contents (runnable (fst (rt_scheduler_init main m))) = []
    /\ queue_contents (pending (fst (rt_scheduler_init main m))) = []
    /\ queue_contents (aperiodic (fst (rt_scheduler_init main m))) = [main]
    /\ (qtype (arrival (fst (rt_scheduler_init main m))) = ARRIVAL_QUEUE
        /\ ring_holds (arrival (fst (rt_scheduler_init main m))) [])
    /\ (qtype (waiting (fst (rt_scheduler_init main m))) = WAITING_QUEUE
        /\ ring_holds (waiting (fst (rt_scheduler_init main m))) [])
    /\ (qtype (sleeping (fst (rt_scheduler_init main m))) = SLEEPING_QUEUE
        /\ ring_holds (sleeping (fst (rt_scheduler_init main m))) [])
    /\ (qtype (exited (fst (rt_scheduler_init main m))) = EXITED_QUEUE
        /\ ring_holds (exited (fst (rt_scheduler_init main m))) [])
    /\ main_thread (fst (rt_scheduler_init main m)) = NULL
    /\ snd (rt_scheduler_init main m) main
       = set_q_type (set_status (m main) ADMITTED) APERIODIC_QUEUE
    /\ (forall p, p <> main -> snd (rt_scheduler_init main m) p = m p).
Proof.
  intros main m Hn. rewrite init_aperiodic. cbn [fst snd].
  cbn [runnable pending aperiodic arrival waiting sleeping exited main_thread].
  assert (Hz : forall ty, ring_holds (zero_queue ty) []).
  { intros ty. apply ring_empty_holds; [split; reflexivity|].
    exact MAX_QUEUE_pos. }
  assert (Ec : queue_contents
                 (mk_queue APERIODIC_QUEUE 1 O O
                    (upd (upd (fun _ => NULL) O main) O main)) = [main]).
  { unfold queue_contents, contents. cbn [size threads seq map].
    rewrite upd_same. reflexivity. }
  split; [|split; [reflexivity|split; [reflexivity|split; [exact Ec|]]]].
  - split; [|split; [|split; [|split]]].
    + split; [reflexivity|]. split; [intros i Hi; cbn [size zero_queue] in Hi; lia|].
      cbn [size zero_queue]. lia.
    + split; [reflexivity|]. split; [intros i Hi; cbn [size zero_queue] in Hi; lia|].
      cbn [size zero_queue]. lia.
    + split; [reflexivity|]. split; [intros i Hi; cbn [size] in Hi; lia|].
      cbn [size]. pose proof MAX_QUEUE_pos. lia.
    + rewrite Ec. cbn [queue_contents contents]. repeat constructor.
      intros [].
    + rewrite Ec. intros [C|[]]. apply Hn. exact C.
  - split; [split; [reflexivity|apply Hz]|].
    split; [split; [reflexivity|apply Hz]|].
    split; [split; [reflexivity|apply Hz]|].
    split; [split; [reflexivity|apply Hz]|].
    split; [reflexivity|]. split.
    + rewrite !upd_same. reflexivity.
    + intros p Hp. rewrite !upd_other by exact Hp. reflexivity.
Qed.

Lemma rt_scheduler_init_state_witness :
  heaps3_ok (runnable (fst (rt_scheduler_init 4%nat ex_mem)))
            (pending (fst (rt_scheduler_init 4%nat ex_mem)))
            (aperiodic (fst (rt_scheduler_init 4%nat ex_mem)))
            (snd (rt_scheduler_init 4%nat ex_mem))
  /\ queue_contents (runnable (fst (rt_scheduler_init 4%nat ex_mem))) = []
  /\ queue_contents (pending (fst (rt_scheduler_init 4%nat ex_mem))) = []
  /\ queue_contents (aperiodic (fst (rt_scheduler_init 4%nat ex_mem)))
     = [4%nat]
  /\ (qtype (arrival (fst (rt_scheduler_init 4%nat ex_mem))) = ARRIVAL_QUEUE
      /\ ring_holds (arrival (fst (rt_scheduler_init 4%nat ex_mem))) [])
  /\ (qtype (waiting (fst (rt_scheduler_init 4%nat ex_mem))) = WAITING_QUEUE
      /\ ring_holds (waiting (fst (rt_scheduler_init 4%nat ex_mem))) [])
  /\ (qtype (sleeping (fst (rt_scheduler_init 4%nat ex_mem))) = SLEEPING_QUEUE
      /\ ring_holds (sleeping (fst (rt_scheduler_init 4%nat ex_mem))) [])
  /\ (qtype (exited (fst (rt_scheduler_init 4%nat ex_mem))) = EXITED_QUEUE
      /\ ring_holds (exited (fst (rt_scheduler_init 4%nat ex_mem))) [])
  /\ main_thread (fst (rt_scheduler_init 4%nat ex_mem)) = NULL
  /\ snd (rt_scheduler_init 4%nat ex_mem) 4%nat
     = set_q_type (set_status (ex_mem 4%nat) ADMITTED) APERIODIC_QUEUE
  /\ (forall p, p <> 4%nat -> snd (rt_scheduler_init 4%nat ex_mem) p = ex_mem p).
Proof.
  apply (rt_scheduler_init_state 4%nat ex_mem). discriminate.
Defined.

(** X11.  The first dispatch after [rt_scheduler_init], called by an
    aperiodic main thread, returns the main thread itself and leaves it on
    aperiodic: the thread was queued by the initialisation while it was
    running, the dispatcher queues it once more and takes one of the two
    entries back.  Its priority is then its run time. *)
Theorem first_dispatch_keeps_main_queued :
  forall (main : ptr) (m : ptr -> rt_thread) (src : nat -> Z) (n : nat)
         (ap : list Z) (c : nk_thread),
    main <> NULL -> type (m main) = APERIODIC ->
    exists w',
      rt_need_resched c main
        (mk_world (fst (rt_scheduler_init main m))
                  (snd (rt_scheduler_init main m)) src n ap)
      = Ok ((main, thread (m main)), w')
      /\ queue_contents (aperiodic (sched w')) = [main]
      /\ queue_contents (runnable (sched w')) = []
      /\ priority (constraints (mem w' main)) = run_time (m main).
Proof.
  intros main m src n ap c Hn Hty.
  rewrite init_aperiodic. cbn [fst snd].
  unfold rt_need_resched, resched_entry. cbn [cur_time]. cbv zeta.
  cbn -[wrap64 upd MAX_QUEUE].
  unfold resched_select, set_tsc_end_time.
  cbn -[wrap64 upd MAX_QUEUE set_timer enqueue_thread pick_next].
  rewrite !upd_same. cbn [type set_q_type set_status].
  rewrite Hty. change (APERIODIC =? APERIODIC) with true. cbv iota.
  remember (upd (upd (upd m main (set_status (m main) ADMITTED)) main
                  (set_q_type (set_status (m main) ADMITTED) APERIODIC_QUEUE))
               main
               (set_priority
                  (set_q_type (set_status (m main) ADMITTED) APERIODIC_QUEUE)
                  (run_time (m main)))) as M eqn:HM.
  remember (upd (upd (fun _ : nat => NULL) 0%nat main) 0%nat main) as a eqn:Ha.
  assert (Ea0 : a O = main) by (subst a; apply upd_same).
  assert (EM : M main = set_priority
                  (set_q_type (set_status (m main) ADMITTED) APERIODIC_QUEUE)
                  (run_time (m main))) by (subst M; apply upd_same).
  clear HM Ha.
  unfold enqueue_thread. cbn [qtype].
  change (APERIODIC_QUEUE =? RUNNABLE_QUEUE) with false.
  change (APERIODIC_QUEUE =? PENDING_QUEUE) with false.
  change (APERIODIC_QUEUE =? APERIODIC_QUEUE) with true. cbv iota.
  unfold enqueue_heap. cbn [size threads qtype head tail].
  change (Nat.eqb 1 MAX_QUEUE) with false. cbv iota.
  unfold heap_insert. cbn [sift_up].
  change (parent 1) with O.
  rewrite (upd_other a 1%nat O main) by lia. rewrite Ea0.
  rewrite Z.gtb_ltb, Z.ltb_irrefl. cbn [andb]. 
  unfold pick_next.
  cbn -[wrap64 upd MAX_QUEUE set_timer dequeue_thread].
  unfold pick_aperiodic.
  cbn -[wrap64 upd MAX_QUEUE set_timer dequeue_thread].
  unfold dequeue_thread. cbn [qtype].
  change (APERIODIC_QUEUE =? RUNNABLE_QUEUE) with false.
  change (APERIODIC_QUEUE =? PENDING_QUEUE) with false.
  change (APERIODIC_QUEUE =? APERIODIC_QUEUE) with true. cbv iota.
  unfold dequeue_heap_queue. cbn [size threads qtype head tail].
  cbn [dequeue_heap sift_down]. change (left_child 0) with 1%nat.
  change (Nat.ltb 1 1) with false. cbv iota.
  rewrite (upd_other _ 1%nat O main) by lia.
  rewrite (upd_other a 1%nat O main) by lia. rewrite Ea0.
  rewrite !upd_same. rewrite ?EM. cbn [status set_q_type set_priority set_status].
  change (ADMITTED =? TOBE_REMOVED) with false. cbv iota. cbn [bind].
  destruct (Nat.eqb_spec main NULL) as [|_]; [contradiction|].
  eexists. split; [|split; [|split]].
  - rewrite mem_set_timer. cbn [with_sched with_queue_mem mem snd].
    rewrite upd_same. reflexivity.
  - rewrite aperiodic_set_timer. cbn -[upd]. rewrite upd_same. reflexivity.
  - rewrite runnable_set_timer. reflexivity.
  - rewrite mem_set_timer. cbn [with_sched with_queue_mem mem snd].
    rewrite upd_same. reflexivity.
Qed.

Lemma first_dispatch_keeps_main_queued_witness :
  exists w',
    rt_need_resched 14%nat 4%nat
      (mk_world (fst (rt_scheduler_init 4%nat ex_mem))
                (snd (rt_scheduler_init 4%nat ex_mem)) (fun _ => 100) O [])
    = Ok ((4%nat, thread (ex_mem 4%nat)), w')
    /\ queue_contents (aperiodic (sched w')) = [4%nat]
    /\ queue_contents (runnable (sched w')) = []
    /\ priority (constraints (mem w' 4%nat)) = run_time (ex_mem 4%nat).
Proof.
  apply (first_dispatch_keeps_main_queued 4%nat ex_mem (fun _ => 100) O []
                                          14%nat).
  - discriminate.
  - reflexivity.
Defined.
(** ** Retired threads *)

Lemma first_live_all_marked (st : ptr -> Z) (l : list ptr) :
  (forall p, In p l -> st p = TOBE_REMOVED) -> first_live st l = (NULL, []).
Proof.
  induction l as [|x t IH]; intros H; [reflexivity|].
  cbn [first_live]. rewrite (H x (or_introl eq_refl)).
  change (TOBE_REMOVED =? TOBE_REMOVED) with true. cbv iota.
  apply IH. intros p Hp. apply H. right. exact Hp.
Qed.

Lemma rt_thread_exit_exited (th : ptr) (w : world) (l : list ptr) :
  qtype (exited (sched w)) = EXITED_QUEUE ->
  ring_holds (exited (sched w)) l -> (length l < MAX_QUEUE)%nat ->
  qtype (exited (sched (rt_thread_exit th w))) = EXITED_QUEUE
  /\ ring_holds (exited (sched (rt_thread_exit th w))) (l ++ [th])
  /\ status (mem (rt_thread_exit th w) th) = TOBE_REMOVED
  /\ (forall p, status (mem w p) = TOBE_REMOVED ->
                status (mem (rt_thread_exit th w) p) = TOBE_REMOVED).
Proof.
  intros Hq H Hlen. unfold rt_thread_exit.
  cbn [with_queue_mem with_mem sched mem exited set_exited].
  set (m1 := upd (mem w) th (set_status (mem w th) TOBE_REMOVED)).
  assert (E : enqueue_thread (exited (sched w)) th m1
              = enqueue_ring None (exited (sched w)) th m1).
  { unfold enqueue_thread. rewrite Hq. reflexivity. }
  rewrite E. split; [|split; [|split]].
  - destruct H as (Hs & _). rewrite enqueue_ring_room by lia. exact Hq.
  - apply enqueue_ring_holds; assumption.
  - destruct H as (Hs & _). rewrite enqueue_ring_room by lia. cbn [snd].
    rewrite upd_same. unfold m1. rewrite upd_same. reflexivity.
  - intros p Hp. destruct H as (Hs & _). rewrite enqueue_ring_room by lia.
    cbn [snd]. unfold upd at 1. destruct (Nat.eqb p th) eqn:Ep.
    + unfold m1. rewrite upd_same. reflexivity.
    + unfold m1, upd. rewrite Ep. exact Hp.
Qed.

Lemma exit_all_exited (l : list ptr) :
  forall (w : world) (l0 : list ptr),
    qtype (exited (sched w)) = EXITED_QUEUE ->
    ring_holds (exited (sched w)) l0 ->
    (length l0 + length l < MAX_QUEUE)%nat ->
    (forall p, In p l0 -> status (mem w p) = TOBE_REMOVED) ->
    qtype (exited (sched (exit_all w l))) = EXITED_QUEUE
    /\ ring_holds (exited (sched (exit_all w l))) (l0 ++ l)
    /\ (forall p, In p (l0 ++ l) ->
                  status (mem (exit_all w l) p) = TOBE_REMOVED).
Proof.
  induction l as [|x l IH]; intros w l0 Hq H Hlen Hm.
  - cbn [exit_all fold_left]. rewrite app_nil_r.
    split; [exact Hq|split; [exact H|exact Hm]].
  - cbn [length] in Hlen.
    destruct (rt_thread_exit_exited x w l0 Hq H ltac:(lia))
      as (Hq1 & H1 & Hx & Hk).
    change (exit_all w (x :: l)) with (exit_all (rt_thread_exit x w) l).
    destruct (IH (rt_thread_exit x w) (l0 ++ [x]) Hq1 H1) as (A & B & C).
    + rewrite length_app. cbn [length]. lia.
    + intros p Hp. apply in_app_or in Hp. destruct Hp as [Hp|[<-|[]]].
      * apply Hk, Hm, Hp.
      * exact Hx.
    + rewrite <- app_assoc in B, C. split; [exact A|]. split; assumption.
Qed.

(** X12.  Threads retired by [rt_thread_exit] are never handed out again.
    After fewer than [MAX_QUEUE] calls of [rt_thread_exit] from a state with
    an empty exited ring, every retired descriptor is marked [TOBE_REMOVED]
    and sits on the exited ring, and the next [dequeue_thread] on that ring
    passes all of them over: it returns null and leaves the ring empty. *)
Theorem retired_threads_are_never_collected :
  forall (w : world) (l : list ptr),
    qtype (exited (sched w)) = EXITED_QUEUE ->
    ring_empty (exited (sched w)) ->
    (head (exited (sched w)) < MAX_QUEUE)%nat ->
    (length l < MAX_QUEUE)%nat ->
    (forall p, In p l -> status (mem (exit_all w l) p) = TOBE_REMOVED)
    /\ size (exited (sched (exit_all w l))) = length l
    /\ exists q',
        dequeue_thread (exited (sched (exit_all w l))) (mem (exit_all w l))
        = Ok (NULL, q')
        /\ ring_empty q'.
Proof.
  intros w l Hq He Hh Hlen.
  destruct (exit_all_exited l w [] Hq (ring_empty_holds _ He Hh)
              ltac:(cbn [length]; lia) ltac:(intros p []))
    as (A & B & C).
  cbn [app] in B, C.
  split; [exact C|]. split; [apply B|].
  rewrite dequeue_thread_ring by (rewrite A; reflexivity).
  destruct (dequeue_ring_holds (fun p => status (mem (exit_all w l) p))
              (S MAX_QUEUE) l _ B Hlen ltac:(lia)) as (q' & E & _ & H').
  rewrite (first_live_all_marked _ l C) in E, H'. cbn [fst snd] in E, H'.
  exists q'. split; [exact E|]. apply ring_holds_nil_empty. exact H'.
Qed.

Lemma retired_threads_are_never_collected_witness :
  (forall p, In p [1; 2]%nat ->
             status (mem (exit_all (ex_world ex_mem) [1; 2]%nat) p)
             = TOBE_REMOVED)
  /\ size (exited (sched (exit_all (ex_world ex_mem) [1; 2]%nat)))
     = length [1; 2]%nat
  /\ exists q',
      dequeue_thread (exited (sched (exit_all (ex_world ex_mem) [1; 2]%nat)))
                     (mem (exit_all (ex_world ex_mem) [1; 2]%nat))
      = Ok (NULL, q')
      /\ ring_empty q'.
Proof.
  apply (retired_threads_are_never_collected (ex_world ex_mem) [1; 2]%nat).
  - reflexivity.
  - split; reflexivity.
  - unfold MAX_QUEUE. simpl. lia.
  - unfold MAX_QUEUE. simpl. lia.
Defined.
(** ** The simulator's copies against the scheduler's operations *)

Lemma enqueue_thread_logic_heap (q : rt_queue) (th : ptr)
      (m : ptr -> rt_thread) :
  is_heap_type (qtype q) = true ->
  enqueue_thread_logic q th m = enqueue_heap_logic (heap_key (qtype q)) q th m.
Proof.
  intros H. unfold enqueue_thread_logic, heap_key.
  destruct (is_heap_type_cases _ H) as [E|[E|E]]; rewrite E; reflexivity.
Qed.

Lemma dequeue_thread_logic_heap (q : rt_queue) (m : ptr -> rt_thread) :
  is_heap_type (qtype q) = true ->
  dequeue_thread_logic q m = dequeue_heap_logic (heap_key (qtype q)) q m.
Proof.
  intros H. unfold dequeue_thread_logic, heap_key.
  destruct (is_heap_type_cases _ H) as [E|[E|E]]; rewrite E; reflexivity.
Qed.

(** X13.  The simulator's queue operations agree with the scheduler's on
    the heaps.  [enqueue_thread_logic] does what [enqueue_thread] does
    whenever the queue is not full (it has no capacity test of its own), and
    [dequeue_thread] returns what [dequeue_thread_logic] returns whenever
    the queue is empty or its root is not marked [TOBE_REMOVED]. *)
Theorem simulator_queue_operations_agree :
  (forall (q : rt_queue) (th : ptr) (m : ptr -> rt_thread),
      is_heap_type (qtype q) = true -> size q <> MAX_QUEUE ->
      enqueue_thread_logic q th m = enqueue_thread q th m)
  /\ (forall (q : rt_queue) (m : ptr -> rt_thread),
         is_heap_type (qtype q) = true ->
         size q = 0%nat \/ status (m (threads q O)) <> TOBE_REMOVED ->
         dequeue_thread q m = Ok (dequeue_thread_logic q m)).
Proof.
  split.
  - intros q th m Hty Hs.
    rewrite (enqueue_thread_logic_heap q th m Hty).
    rewrite (enqueue_thread_heap q th m Hty).
    unfold enqueue_heap, enqueue_heap_logic.
    destruct (Nat.eqb_spec (size q) MAX_QUEUE) as [|_]; [contradiction|].
    reflexivity.
  - intros q m Hty Hs.
    rewrite (dequeue_thread_logic_heap q m Hty).
    rewrite (dequeue_thread_heap q m Hty).
    unfold dequeue_heap_queue, dequeue_heap_logic. f_equal.
    destruct (size q) as [|sz] eqn:Es; [reflexivity|].
    destruct Hs as [Hs|Hs]; [discriminate Hs|].
    rewrite dequeue_heap_pop.
    destruct (Z.eqb_spec (status (m (threads q O))) TOBE_REMOVED) as [|_];
      [contradiction|].
    destruct (heap_pop_perm (heap_key (qtype q) m) sz (threads q))
      as (a' & E & _).
    rewrite E. reflexivity.
Qed.

Lemma simulator_queue_operations_agree_witness :
  enqueue_thread_logic (ex_queue RUNNABLE_QUEUE [2; 1]%nat) 3%nat ex_mem
  = enqueue_thread (ex_queue RUNNABLE_QUEUE [2; 1]%nat) 3%nat ex_mem
  /\ dequeue_thread (ex_queue RUNNABLE_QUEUE [2; 1]%nat) ex_mem
     = Ok (dequeue_thread_logic (ex_queue RUNNABLE_QUEUE [2; 1]%nat) ex_mem).
Proof.
  split.
  - apply (proj1 simulator_queue_operations_agree
                 (ex_queue RUNNABLE_QUEUE [2; 1]%nat) 3%nat ex_mem).
    + reflexivity.
    + unfold MAX_QUEUE. simpl. lia.
  - apply (proj2 simulator_queue_operations_agree
                 (ex_queue RUNNABLE_QUEUE [2; 1]%nat) ex_mem).
    + reflexivity.
    + right. vm_compute. discriminate.
Defined.

(** X14.  [dequeue_thread_logic] on a heap-ordered, non-empty heap queue
    returns the root, whatever its status: a descriptor whose key is at most
    that of every queued descriptor.  The queue loses exactly the root and
    stays heap ordered. *)
Theorem dequeue_thread_logic_takes_root :
  forall (q : rt_queue) (m : ptr -> rt_thread),
    is_heap_type (qtype q) = true -> queue_heap_ordered q m ->
    (0 < size q)%nat ->
    exists q',
      dequeue_thread_logic q m = (threads q O, q')
      /\ qtype q' = qtype q /\ S (size q') = size q
      /\ queue_heap_ordered q' m
      /\ Permutation (threads q O :: queue_contents q') (queue_contents q)
      /\ forall x, In x (queue_contents q) ->
                   heap_key (qtype q) m (threads q O)
                   <= heap_key (qtype q) m x.
Proof.
  intros q m Hty HO Hs.
  rewrite (dequeue_thread_logic_heap q m Hty). unfold dequeue_heap_logic.
  unfold queue_heap_ordered, queue_contents in *.
  destruct (size q) as [|sz] eqn:Es; [lia|].
  pose proof (heap_pop_ordered (heap_key (qtype q) m) sz (threads q) HO) as HO'.
  destruct (heap_pop_perm (heap_key (qtype q) m) sz (threads q))
    as (a' & E & P).
  rewrite E in HO' |- *. cbn [snd] in HO'.
  eexists. split; [reflexivity|]. cbn [qtype size threads].
  split; [reflexivity|]. split; [reflexivity|].
  split; [exact HO'|]. split; [exact P|].
  intros x Hx. apply in_contents in Hx. destruct Hx as (i & Hi & <-).
  exact (heap_root_min _ _ _ HO i Hi).
Qed.

Lemma dequeue_thread_logic_takes_root_witness :
  exists q',
    dequeue_thread_logic (ex_queue RUNNABLE_QUEUE [2; 1]%nat) ex_mem_tbr
    = (threads (ex_queue RUNNABLE_QUEUE [2; 1]%nat) O, q')
    /\ qtype q' = qtype (ex_queue RUNNABLE_QUEUE [2; 1]%nat)
    /\ S (size q') = size (ex_queue RUNNABLE_QUEUE [2; 1]%nat)
    /\ queue_heap_ordered q' ex_mem_tbr
    /\ Permutation (threads (ex_queue RUNNABLE_QUEUE [2; 1]%nat) O
                    :: queue_contents q')
                   (queue_contents (ex_queue RUNNABLE_QUEUE [2; 1]%nat))
    /\ forall x, In x (queue_contents (ex_queue RUNNABLE_QUEUE [2; 1]%nat)) ->
                 heap_key (qtype (ex_queue RUNNABLE_QUEUE [2; 1]%nat))
                          ex_mem_tbr
                          (threads (ex_queue RUNNABLE_QUEUE [2; 1]%nat) O)
                 <= heap_key (qtype (ex_queue RUNNABLE_QUEUE [2; 1]%nat))
                             ex_mem_tbr x.
Proof.
  apply (dequeue_thread_logic_takes_root (ex_queue RUNNABLE_QUEUE [2; 1]%nat)
                                         ex_mem_tbr).
  - reflexivity.
  - intros i Hi. simpl in Hi. assert (E : i = 1%nat) by lia. subst i.
    vm_compute. discriminate.
  - simpl. lia.
Defined.

(** X15.  For a thread that is not sporadic (a null thread included), the
    interval [set_timer] programs into the one-shot timer and records in
    [tsc->set_time] at slack zero is the value [set_timer_logic] computes
    from the same pending queue, thread and time. *)
Theorem set_timer_logic_agrees :
  forall (w : world) (th : ptr) (time : Z),
    type (mem w th) <> SPORADIC ->
    apic_oneshot (set_timer w th time 0)
    = set_timer_logic (pending (sched w)) (mem w) th time :: apic_oneshot w
    /\ tsc_set_time (tsc (sched (set_timer w th time 0)))
       = set_timer_logic (pending (sched w)) (mem w) th time.
Proof.
  intros w th time Hty. unfold set_timer, set_timer_logic.
  cbn [cur_time set_tsc_start_time with_sched sched mem pending set_tsc
       apic_oneshot].
  destruct (Z.eqb_spec (type (mem w th)) SPORADIC) as [|_]; [contradiction|].
  rewrite ?wrap64_idem.
  destruct (Nat.ltb 0 (size (pending (sched w))) && negb (Nat.eqb th NULL)).
  - destruct (type (mem w th) =? PERIODIC); split; reflexivity.
  - destruct (Nat.eqb (size (pending (sched w))) 0 && negb (Nat.eqb th NULL)).
    + destruct (type (mem w th) =? PERIODIC); split; reflexivity.
    + split; reflexivity.
Qed.

Lemma set_timer_logic_agrees_witness :
  apic_oneshot (set_timer (ex_world_queues ex_mem [] [2%nat]) 1%nat 100 0)
  = set_timer_logic (pending (sched (ex_world_queues ex_mem [] [2%nat])))
                    (mem (ex_world_queues ex_mem [] [2%nat])) 1%nat 100
    :: apic_oneshot (ex_world_queues ex_mem [] [2%nat])
  /\ tsc_set_time (tsc (sched (set_timer (ex_world_queues ex_mem [] [2%nat])
                                         1%nat 100 0)))
     = set_timer_logic (pending (sched (ex_world_queues ex_mem [] [2%nat])))
                       (mem (ex_world_queues ex_mem [] [2%nat])) 1%nat 100.
Proof.
  apply (set_timer_logic_agrees (ex_world_queues ex_mem [] [2%nat]) 1%nat 100).
  vm_compute. discriminate.
Defined.
(** ** Period statistics and the sporadic test of admission *)

Lemma fold_add_min_per (m : ptr -> rt_thread) (l : list ptr) :
  forall (acc : Z),
    fold_left (add_min_per m) l acc <= acc
    /\ (forall p, In p l -> type (m p) = PERIODIC ->
                  fold_left (add_min_per m) l acc
                  <= period (constraints (m p)))
    /\ (fold_left (add_min_per m) l acc = acc
        \/ exists p, In p l /\ type (m p) = PERIODIC
                     /\ period (constraints (m p))
                        = fold_left (add_min_per m) l acc).
Proof.
  induction l as [|x l IH]; intros acc.
  - cbn [fold_left]. split; [lia|]. split; [intros p []|left; reflexivity].
  - cbn [fold_left].
    destruct (IH (add_min_per m acc x)) as (A & B & C).
    assert (Hx : add_min_per m acc x <= acc
                 /\ (type (m x) = PERIODIC ->
                     add_min_per m acc x <= period (constraints (m x)))
                 /\ (add_min_per m acc x = acc
                     \/ (type (m x) = PERIODIC
                         /\ add_min_per m acc x
                            = period (constraints (m x))))).
    { unfold add_min_per.
      destruct (Z.eqb_spec (type (m x)) PERIODIC) as [T|T].
      - destruct (Z.ltb_spec (period (constraints (m x))) acc).
        + split; [lia|]. split; [lia|]. right. split; [exact T|reflexivity].
        + split; [lia|]. split; [lia|]. left. reflexivity.
      - split; [lia|]. split; [contradiction|]. left. reflexivity. }
    destruct Hx as (X1 & X2 & X3).
    split; [lia|]. split.
    + intros p [<-|Hp] T; [specialize (X2 T); lia|exact (B p Hp T)].
    + destruct C as [C|(p & Hp & T & E)].
      * rewrite C. destruct X3 as [X3|[T X3]].
        -- left. exact X3.
        -- right. exists x. split; [left; reflexivity|]. split; [exact T|].
           symmetry. exact X3.
      * right. exists p. split; [right; exact Hp|]. split; assumption.
Qed.

(** X16.  [get_min_per] returns the least period of the periodic threads
    on runnable and pending: its result is at most [2^64 - 1] and at most
    the period of each of them, and it is [2^64 - 1] or the period of one
    of them.  The thread passed as third argument is not looked at. *)
Theorem get_min_per_is_least_period :
  forall (rq pq : rt_queue) (th : ptr) (m : ptr -> rt_thread),
    get_min_per rq pq th m <= two64 - 1
    /\ (forall p, In p (queue_contents rq ++ queue_contents pq) ->
                  type (m p) = PERIODIC ->
                  get_min_per rq pq th m <= period (constraints (m p)))
    /\ (get_min_per rq pq th m = two64 - 1
        \/ exists p, In p (queue_contents rq ++ queue_contents pq)
                     /\ type (m p) = PERIODIC
                     /\ period (constraints (m p)) = get_min_per rq pq th m).
Proof.
  intros rq pq th m. unfold get_min_per, queue_contents.
  rewrite <- fold_left_app.
  exact (fold_add_min_per m _ (two64 - 1)).
Qed.

Lemma get_min_per_is_least_period_witness :
  get_min_per (ex_queue RUNNABLE_QUEUE [1; 3]%nat)
              (ex_queue PENDING_QUEUE [2%nat]) 4%nat ex_mem <= two64 - 1
  /\ get_min_per (ex_queue RUNNABLE_QUEUE [1; 3]%nat)
                 (ex_queue PENDING_QUEUE [2%nat]) 4%nat ex_mem
     <= period (constraints (ex_mem 2%nat))
  /\ (get_min_per (ex_queue RUNNABLE_QUEUE [1; 3]%nat)
                  (ex_queue PENDING_QUEUE [2%nat]) 4%nat ex_mem = two64 - 1
      \/ exists p,
          In p (queue_contents (ex_queue RUNNABLE_QUEUE [1; 3]%nat)
                ++ queue_contents (ex_queue PENDING_QUEUE [2%nat]))
          /\ type (ex_mem p) = PERIODIC
          /\ period (constraints (ex_mem p))
             = get_min_per (ex_queue RUNNABLE_QUEUE [1; 3]%nat)
                           (ex_queue PENDING_QUEUE [2%nat]) 4%nat ex_mem).
Proof.
  destruct (get_min_per_is_least_period (ex_queue RUNNABLE_QUEUE [1; 3]%nat)
              (ex_queue PENDING_QUEUE [2%nat]) 4%nat ex_mem) as (A & B & C).
  split; [exact A|]. split; [|exact C].
  apply B.
  - vm_compute. right. right. left. reflexivity.
  - reflexivity.
Defined.

Lemma fold_max_periodic (m : ptr -> rt_thread) (l : list ptr) :
  forall (l0 : list ptr) (acc : ptr * Z),
    (fst acc = NULL /\ snd acc = 0
     /\ (forall p, In p l0 -> type (m p) = PERIODIC ->
                   period (constraints (m p)) <= 0))
    \/ (In (fst acc) l0 /\ type (m (fst acc)) = PERIODIC
        /\ period (constraints (m (fst acc))) = snd acc /\ 0 < snd acc
        /\ (forall p, In p l0 -> type (m p) = PERIODIC ->
                      period (constraints (m p)) <= snd acc)) ->
    let r := fold_left (max_periodic_step m) l acc in
    (fst r = NULL /\ snd r = 0
     /\ (forall p, In p (l0 ++ l) -> type (m p) = PERIODIC ->
                   period (constraints (m p)) <= 0))
    \/ (In (fst r) (l0 ++ l) /\ type (m (fst r)) = PERIODIC
        /\ period (constraints (m (fst r))) = snd r /\ 0 < snd r
        /\ (forall p, In p (l0 ++ l) -> type (m p) = PERIODIC ->
                      period (constraints (m p)) <= snd r)).
Proof.
  induction l as [|x l IH]; intros l0 acc H.
  - cbn [fold_left]. rewrite app_nil_r. exact H.
  - cbn [fold_left].
    replace (l0 ++ x :: l) with ((l0 ++ [x]) ++ l)
      by (rewrite <- app_assoc; reflexivity).
    apply IH. unfold max_periodic_step.
    destruct (Z.eqb_spec (type (m x)) PERIODIC) as [T|T].
    + destruct (Z.gtb_spec (period (constraints (m x))) (snd acc)) as [G|G].
      * right. cbn [fst snd]. split; [apply in_or_app; right; left; reflexivity|].
        split; [exact T|]. split; [reflexivity|].
        destruct H as [(_ & Hz & Hall)|(_ & _ & _ & Hp & Hall)].
        -- split; [lia|]. intros p Hp T'. apply in_app_or in Hp.
           destruct Hp as [Hp|[<-|[]]]; [specialize (Hall p Hp T'); lia|lia].
        -- split; [lia|]. intros p Hp' T'. apply in_app_or in Hp'.
           destruct Hp' as [Hp'|[<-|[]]]; [specialize (Hall p Hp' T'); lia|lia].
      * destruct H as [(Hn & Hz & Hall)|(Hin & Ht & He & Hp & Hall)].
        -- left. split; [exact Hn|]. split; [exact Hz|].
           intros p Hp T'. apply in_app_or in Hp.
           destruct Hp as [Hp|[<-|[]]]; [exact (Hall p Hp T')|lia].
        -- right. split; [apply in_or_app; left; exact Hin|].
           split; [exact Ht|]. split; [exact He|]. split; [exact Hp|].
           intros p Hp' T'. apply in_app_or in Hp'.
           destruct Hp' as [Hp'|[<-|[]]]; [exact (Hall p Hp' T')|lia].
    + destruct H as [(Hn & Hz & Hall)|(Hin & Ht & He & Hp & Hall)].
      * left. split; [exact Hn|]. split; [exact Hz|].
        intros p Hp T'. apply in_app_or in Hp.
        destruct Hp as [Hp|[<-|[]]]; [exact (Hall p Hp T')|contradiction].
      * right. split; [apply in_or_app; left; exact Hin|].
        split; [exact Ht|]. split; [exact He|]. split; [exact Hp|].
        intros p Hp' T'. apply in_app_or in Hp'.
        destruct Hp' as [Hp'|[<-|[]]]; [exact (Hall p Hp' T')|contradiction].
Qed.

(** X17.  [max_periodic] returns a periodic thread of runnable or pending
    with a positive period that is at least the period of every periodic
    thread on the two queues; it returns null when no periodic thread on
    them has a positive period. *)
Theorem max_periodic_is_longest_period :
  forall (s : rt_scheduler) (m : ptr -> rt_thread),
    (max_periodic s m = NULL
     /\ (forall p, In p (queue_contents (runnable s)
                         ++ queue_contents (pending s)) ->
                   type (m p) = PERIODIC ->
                   period (constraints (m p)) <= 0))
    \/ (In (max_periodic s m)
           (queue_contents (runnable s) ++ queue_contents (pending s))
        /\ type (m (max_periodic s m)) = PERIODIC
        /\ 0 < period (constraints (m (max_periodic s m)))
        /\ (forall p, In p (queue_contents (runnable s)
                            ++ queue_contents (pending s)) ->
                      type (m p) = PERIODIC ->
                      period (constraints (m p))
                      <= period (constraints (m (max_periodic s m))))).
Proof.
  intros s m. unfold max_periodic, queue_contents.
  rewrite <- fold_left_app.
  destruct (fold_max_periodic m
              (contents (threads (runnable s)) (size (runnable s))
               ++ contents (threads (pending s)) (size (pending s)))
              [] (NULL, 0))
    as [(A & _ & C)|(A & B & C & D & F)].
  - left. cbn [fst snd]. split; [reflexivity|]. split; [reflexivity|].
    intros p [].
  - left. split; [exact A|exact C].
  - right. split; [exact A|]. split; [exact B|]. rewrite C.
    split; [exact D|exact F].
Qed.

Lemma max_periodic_is_longest_period_witness :
  max_periodic (sched (ex_world_queues ex_mem [2; 3]%nat [1%nat])) ex_mem
  = 1%nat
  /\ In 1%nat
        (queue_contents
           (runnable (sched (ex_world_queues ex_mem [2; 3]%nat [1%nat])))
         ++ queue_contents
              (pending (sched (ex_world_queues ex_mem [2; 3]%nat [1%nat]))))
  /\ period (constraints (ex_mem 2%nat))
     <= period (constraints
                  (ex_mem (max_periodic
                             (sched (ex_world_queues ex_mem [2; 3]%nat
                                                     [1%nat])) ex_mem))).
Proof.
  destruct (max_periodic_is_longest_period
              (sched (ex_world_queues ex_mem [2; 3]%nat [1%nat])) ex_mem)
    as [(A & _)|(A & _ & _ & B)].
  - vm_compute in A. discriminate A.
  - split; [vm_compute; reflexivity|]. split.
    + vm_compute. right. right. left. reflexivity.
    + apply B.
      * vm_compute. right. left. reflexivity.
      * reflexivity.
Defined.

Lemma fold_add_spor_util_none (l : list ptr) :
  forall (u : Z) (w : world),
    (forall p, In p l -> type (mem w p) <> SPORADIC) ->
    fold_left add_spor_util l (Ok (u, w)) = Ok (u, w).
Proof.
  induction l as [|x l IH]; intros u w H; [reflexivity|].
  cbn [fold_left]. rewrite add_spor_util_Ok.
  destruct (Z.eqb_spec (type (mem w x)) SPORADIC) as [T|_].
  - exfalso. exact (H x (or_introl eq_refl) T).
  - apply IH. intros p Hp. apply H. right. exact Hp.
Qed.

(** X18.  The admission test for a sporadic candidate does not look at the
    candidate: [rt_admit] gives the same result for any two sporadic
    candidates in the same state, and with no sporadic thread on runnable
    it admits the candidate, without reading the counter, whatever its work
    and deadline. *)
Theorem sporadic_admission_ignores_candidate :
  forall (w : world) (th : ptr),
    type (mem w th) = SPORADIC ->
    (forall th', type (mem w th') = SPORADIC -> rt_admit w th' = rt_admit w th)
    /\ ((forall p, In p (queue_contents (runnable (sched w))) ->
                   type (mem w p) <> SPORADIC) ->
        rt_admit w th = Ok (1, w)).
Proof.
  intros w th Hty.
  assert (E : forall t, type (mem w t) = SPORADIC ->
                        rt_admit w t
                        = ('(spor_util, w1) <-
                             get_spor_util (runnable (sched w)) w ;;
                           if spor_util >? SPORADIC_UTIL then Ok (0, w1)
                           else Ok (1, w1))).
  { intros t T. unfold rt_admit. rewrite T. reflexivity. }
  split.
  - intros th' T'. rewrite (E th' T'), (E th Hty). reflexivity.
  - intros Hn. rewrite (E th Hty). unfold get_spor_util.
    change (contents (threads (runnable (sched w))) (size (runnable (sched w))))
      with (queue_contents (runnable (sched w))).
    rewrite (fold_add_spor_util_none _ 0 w Hn). reflexivity.
Qed.

Lemma sporadic_admission_ignores_candidate_witness :
  (forall th', type (mem (ex_world_queues ex_mem [1%nat] []) th') = SPORADIC ->
               rt_admit (ex_world_queues ex_mem [1%nat] []) th'
               = rt_admit (ex_world_queues ex_mem [1%nat] []) 3%nat)
  /\ rt_admit (ex_world_queues ex_mem [1%nat] []) 3%nat
     = Ok (1, ex_world_queues ex_mem [1%nat] []).
Proof.
  destruct (sporadic_admission_ignores_candidate
              (ex_world_queues ex_mem [1%nat] []) 3%nat) as [A B].
  - vm_compute. reflexivity.
  - split; [exact A|]. apply B. intros p Hp. vm_compute in Hp.
    destruct Hp as [<-|[]]. vm_compute. discriminate.
Defined.
(** ** Aging of aperiodic threads *)

Lemma update_periodic_keeps (t : ptr) (w : world) (p : ptr) :
  constraints (mem (update_periodic t w) p) = constraints (mem w p)
  /\ type (mem (update_periodic t w) p) = type (mem w p)
  /\ (type (mem w p) <> PERIODIC ->
      run_time (mem (update_periodic t w) p) = run_time (mem w p)).
Proof.
  unfold update_periodic.
  destruct (Z.eqb_spec (type (mem w t)) PERIODIC) as [T|T];
    [|repeat split; reflexivity].
  cbn [cur_time with_mem mem]. unfold upd.
  destruct (Nat.eqb p t) eqn:Ep; [|repeat split; reflexivity].
  apply Nat.eqb_eq in Ep. subst p.
  split; [reflexivity|]. split; [reflexivity|]. intros C. contradiction.
Qed.

Lemma enqueue_thread_keeps (q : rt_queue) (th : ptr) (m : ptr -> rt_thread)
      (p : ptr) :
  constraints (snd (enqueue_thread q th m) p) = constraints (m p)
  /\ type (snd (enqueue_thread q th m) p) = type (m p)
  /\ run_time (snd (enqueue_thread q th m) p) = run_time (m p).
Proof.
  destruct (enqueue_thread_fields q th m p) as (_ & B & C).
  split; [exact C|]. split; [apply enqueue_thread_type|exact B].
Qed.

Lemma release_drain_keeps (fuel : nat) :
  forall (e : Z) (w w' : world),
    release_drain fuel e w = Ok w' ->
    forall p, constraints (mem w' p) = constraints (mem w p)
              /\ type (mem w' p) = type (mem w p)
              /\ (type (mem w p) <> PERIODIC ->
                  run_time (mem w' p) = run_time (mem w p)).
Proof.
  induction fuel as [|fuel IH]; intros e w w' H p; [discriminate H|].
  rewrite release_drain_S in H.
  destruct (Nat.ltb 0 (size (pending (sched w))));
    [|inversion H; subst; repeat split; reflexivity].
  destruct (deadline (mem w (threads (pending (sched w)) O)) <? e);
    [|inversion H; subst; repeat split; reflexivity].
  destruct (dequeue_thread (pending (sched w)) (mem w)) as [[r q]|f];
    cbn [bind] in H; [|discriminate H].
  destruct (Nat.eqb r NULL).
  - exact (IH _ _ _ H p).
  - destruct (IH _ _ _ H p) as (A & B & C).
    cbn [with_queue_mem mem] in A, B, C.
    destruct (enqueue_thread_keeps
                (runnable (sched (update_periodic r
                   (with_sched w (set_pending (sched w) q)))))
                r (mem (update_periodic r
                   (with_sched w (set_pending (sched w) q)))) p)
      as (A1 & B1 & C1).
    destruct (update_periodic_keeps r
                (with_sched w (set_pending (sched w) q)) p) as (A2 & B2 & C2).
    cbn [with_sched mem] in A2, B2, C2.
    split; [congruence|]. split; [congruence|].
    intros T. rewrite C by congruence. rewrite C1. apply C2. exact T.
Qed.

Lemma pick_aperiodic_mem (w : world) (e s : Z) x w' :
  pick_aperiodic w e s = Ok (x, w') -> mem w' = mem w.
Proof.
  unfold pick_aperiodic.
  destruct (dequeue_thread (aperiodic (sched w)) (mem w)) as [[r q]|f];
    cbn [bind]; [|discriminate].
  destruct (Nat.eqb r NULL); [discriminate|].
  intros H. inversion H. rewrite mem_set_timer. reflexivity.
Qed.

Lemma pick_next_mem (w : world) (e s : Z) x w' :
  pick_next w e s = Ok (x, w') -> mem w' = mem w.
Proof.
  unfold pick_next.
  destruct (Nat.ltb 0 (size (runnable (sched w))));
    [|apply pick_aperiodic_mem].
  destruct (dequeue_thread (runnable (sched w)) (mem w)) as [[r q]|f];
    cbn [bind]; [|discriminate].
  destruct (negb (Nat.eqb r NULL)).
  - intros H. inversion H. rewrite mem_set_timer. reflexivity.
  - intros H. apply pick_aperiodic_mem in H. exact H.
Qed.

Lemma preempt_or_keep_constraints (w : world) (rt_c : ptr) (e s : Z) x w' :
  preempt_or_keep w rt_c e s = Ok (x, w') ->
  forall p, constraints (mem w' p) = constraints (mem w p).
Proof.
  unfold preempt_or_keep, keep_current. intros H p.
  destruct (Nat.ltb 0 (size (runnable (sched w))));
    [|inversion H; rewrite mem_set_timer; reflexivity].
  destruct (deadline (mem w rt_c)
            >? deadline (mem w (threads (runnable (sched w)) O)));
    [|inversion H; rewrite mem_set_timer; reflexivity].
  destruct (dequeue_thread (runnable (sched w)) (mem w)) as [[r q]|f];
    cbn [bind] in H; [|discriminate H].
  destruct (negb (Nat.eqb r NULL)); inversion H; rewrite mem_set_timer.
  - cbn [with_queue_mem mem with_sched].
    apply (proj1 (enqueue_thread_keeps _ _ _ _)).
  - reflexivity.
Qed.

Lemma requeue_periodic_constraints (w : world) (rt_c : ptr) (p : ptr) :
  constraints (mem (requeue_periodic w rt_c) p) = constraints (mem w p).
Proof.
  unfold requeue_periodic.
  destruct (check_deadlines_mem rt_c w) as [Em _].
  destruct (check_deadlines rt_c w) as [missed w1]. cbn [snd] in Em.
  destruct (negb (missed =? 0)); cbn [with_queue_mem mem].
  - rewrite (proj1 (enqueue_thread_keeps _ _ _ _)).
    rewrite (proj1 (update_periodic_keeps _ _ _)). rewrite Em. reflexivity.
  - rewrite (proj1 (enqueue_thread_keeps _ _ _ _)). rewrite Em. reflexivity.
Qed.

Lemma resched_select_priority (c : nk_thread) (rt_c : ptr) (e s : Z)
      (w : world) x w' :
  resched_select c rt_c e s w = Ok (x, w') ->
  (type (mem w rt_c) = APERIODIC ->
   priority (constraints (mem w' rt_c)) = run_time (mem w rt_c))
  /\ (forall p, p <> rt_c \/ type (mem w rt_c) <> APERIODIC ->
                priority (constraints (mem w' p))
                = priority (constraints (mem w p))).
Proof.
  intros H. unfold resched_select in H.
  destruct (Z.eqb_spec (type (mem w rt_c)) APERIODIC) as [Ta|Ta].
  { apply pick_next_mem in H. rewrite H. cbn [with_queue_mem mem with_mem].
    split.
    - intros _. rewrite (proj1 (enqueue_thread_keeps _ _ _ _)).
      rewrite upd_same. reflexivity.
    - intros p [Hp|C]; [|contradiction].
      rewrite (proj1 (enqueue_thread_keeps _ _ _ _)).
      rewrite upd_other by exact Hp. reflexivity. }
  split; [intros C; contradiction|]. intros p _.
  destruct (type (mem w rt_c) =? SPORADIC).
  { destruct (run_time (mem w rt_c) >=? work (constraints (mem w rt_c))).
    - destruct (check_deadlines_mem rt_c w) as [Em _].
      destruct (check_deadlines rt_c w) as [missed w1]. cbn [snd] in Em.
      apply pick_next_mem in H. rewrite H, Em. reflexivity.
    - rewrite (preempt_or_keep_constraints _ _ _ _ _ _ H p). reflexivity. }
  destruct (type (mem w rt_c) =? PERIODIC).
  { destruct (run_time (mem w rt_c) >=? slice (constraints (mem w rt_c))).
    - apply pick_next_mem in H. rewrite H.
      rewrite requeue_periodic_constraints. reflexivity.
    - rewrite (preempt_or_keep_constraints _ _ _ _ _ _ H p). reflexivity. }
  inversion H. rewrite mem_set_timer. reflexivity.
Qed.

(** X19.  Aging of aperiodic threads.  When [rt_need_resched] returns
    after a call by an aperiodic thread, the priority of that thread is the
    run time it had at the call; a call by a thread of any other type
    changes no priority at all.  No call changes the period, the slice or
    the work of a descriptor. *)
Theorem aperiodic_priority_is_run_time :
  forall (c : nk_thread) (rt_c : ptr) (w : world) r h w',
    rt_need_resched c rt_c w = Ok ((r, h), w') ->
    (type (mem w rt_c) = APERIODIC ->
     priority (constraints (mem w' rt_c)) = run_time (mem w rt_c))
    /\ (type (mem w rt_c) <> APERIODIC ->
        forall p, priority (constraints (mem w' p))
                  = priority (constraints (mem w p)))
    /\ (forall p,
           period (constraints (mem w' p)) = period (constraints (mem w p))
           /\ slice (constraints (mem w' p)) = slice (constraints (mem w p))
           /\ work (constraints (mem w' p)) = work (constraints (mem w p))).
Proof.
  intros c rt_c w r h w' H. unfold rt_need_resched in H.
  destruct (resched_entry_spec w) as (_ & Em & _).
  destruct (resched_entry w) as [e w1]. cbn [fst snd] in *.
  destruct (release_drain (S (size (pending (sched w1)))) e w1) as [w2|f] eqn:D;
    cbn [bind] in H; [|discriminate H].
  pose proof (release_drain_keeps _ _ _ _ D) as K.
  destruct (resched_select_priority c rt_c e 0 w2 _ _ H) as [A B].
  destruct (K rt_c) as (_ & Kt & Kr). rewrite Em in Kt, Kr.
  split; [|split].
  - intros T. rewrite A by congruence. apply Kr. rewrite T. discriminate.
  - intros T p. rewrite B.
    + rewrite (proj1 (K p)), Em. reflexivity.
    + right. congruence.
  - intros p.
    destruct (proj1 (release_drain_frame _ _ _ _ D) p)
      as (_ & _ & _ & _ & P1 & S1 & W1 & _).
    destruct (proj1 (resched_select_frame _ _ _ _ _ _ _ H) p)
      as (_ & _ & _ & _ & P2 & S2 & W2 & _).
    rewrite Em in P1, S1, W1.
    split; [congruence|]. split; congruence.
Qed.

Lemma aperiodic_priority_is_run_time_witness :
  (type (mem (ex_world_queues ex_mem [2%nat] []) 5%nat) = APERIODIC ->
   priority (constraints
     (mem (res_world (rt_need_resched 14%nat 5%nat
                        (ex_world_queues ex_mem [2%nat] []))
                     (ex_world_queues ex_mem [2%nat] [])) 5%nat))
   = run_time (mem (ex_world_queues ex_mem [2%nat] []) 5%nat))
  /\ (type (mem (ex_world_queues ex_mem [2%nat] []) 5%nat) <> APERIODIC ->
      forall p,
        priority (constraints
          (mem (res_world (rt_need_resched 14%nat 5%nat
                             (ex_world_queues ex_mem [2%nat] []))
                          (ex_world_queues ex_mem [2%nat] [])) p))
        = priority (constraints (mem (ex_world_queues ex_mem [2%nat] []) p)))
  /\ (forall p,
         period (constraints
           (mem (res_world (rt_need_resched 14%nat 5%nat
                              (ex_world_queues ex_mem [2%nat] []))
                           (ex_world_queues ex_mem [2%nat] [])) p))
         = period (constraints (mem (ex_world_queues ex_mem [2%nat] []) p))
         /\ slice (constraints
              (mem (res_world (rt_need_resched 14%nat 5%nat
                                 (ex_world_queues ex_mem [2%nat] []))
                              (ex_world_queues ex_mem [2%nat] [])) p))
            = slice (constraints (mem (ex_world_queues ex_mem [2%nat] []) p))
         /\ work (constraints
              (mem (res_world (rt_need_resched 14%nat 5%nat
                                 (ex_world_queues ex_mem [2%nat] []))
                              (ex_world_queues ex_mem [2%nat] [])) p))
            = work (constraints (mem (ex_world_queues ex_mem [2%nat] []) p))).
Proof.
  apply (aperiodic_priority_is_run_time 14%nat 5%nat
           (ex_world_queues ex_mem [2%nat] []) 2%nat 12%nat).
  vm_compute. reflexivity.
Defined.
(** ** Retirement followed by removal, and the heap index macros *)

(** X20.  Removal cannot follow retirement.  [rt_thread_exit] on a state
    whose exited ring has room leaves the descriptor marked [TOBE_REMOVED]
    and tagged with the exited ring; [remove_thread] called for it then
    takes none of its heap branches and reads the type of a queue pointer
    that is still null. *)
Theorem remove_after_exit_reads_null_queue :
  forall (th : ptr) (w : world),
    qtype (exited (sched w)) = EXITED_QUEUE ->
    size (exited (sched w)) <> MAX_QUEUE ->
    q_type (mem (rt_thread_exit th w) th) = EXITED_QUEUE
    /\ status (mem (rt_thread_exit th w) th) = TOBE_REMOVED
    /\ remove_thread th (rt_thread_exit th w) = Err NullDeref.
Proof.
  intros th w Hq Hs.
  assert (E : mem (rt_thread_exit th w) th
              = set_q_type (set_status (mem w th) TOBE_REMOVED) EXITED_QUEUE).
  { unfold rt_thread_exit.
    cbn [with_queue_mem with_mem sched mem exited set_exited].
    unfold enqueue_thread. rewrite Hq.
    change (EXITED_QUEUE =? RUNNABLE_QUEUE) with false.
    change (EXITED_QUEUE =? PENDING_QUEUE) with false.
    change (EXITED_QUEUE =? APERIODIC_QUEUE) with false.
    change (EXITED_QUEUE =? ARRIVAL_QUEUE) with false.
    change (EXITED_QUEUE =? WAITING_QUEUE) with false.
    change (EXITED_QUEUE =? SLEEPING_QUEUE) with false.
    change (EXITED_QUEUE =? EXITED_QUEUE) with true. cbv iota.
    rewrite enqueue_ring_room by exact Hs. cbn [snd].
    rewrite !upd_same. rewrite Hq. reflexivity. }
  split; [rewrite E; reflexivity|]. split; [rewrite E; reflexivity|].
  unfold remove_thread. rewrite E. reflexivity.
Qed.

Lemma remove_after_exit_reads_null_queue_witness :
  q_type (mem (rt_thread_exit 1%nat (ex_world_queues ex_mem [1%nat] [])) 1%nat)
  = EXITED_QUEUE
  /\ status (mem (rt_thread_exit 1%nat (ex_world_queues ex_mem [1%nat] []))
                 1%nat)
     = TOBE_REMOVED
  /\ remove_thread 1%nat
       (rt_thread_exit 1%nat (ex_world_queues ex_mem [1%nat] []))
     = Err NullDeref.
Proof.
  apply (remove_after_exit_reads_null_queue 1%nat
           (ex_world_queues ex_mem [1%nat] [])).
  - reflexivity.
  - unfold MAX_QUEUE. simpl. lia.
Defined.

(** X21.  The heap index macros fit together: [parent] undoes
    [left_child] and [right_child], the right child is the slot after the
    left one and both lie after their parent, every slot but 0 is the left
    or right child of its parent, which lies before it, and slot 0 is the
    only slot that is its own parent. *)
Theorem heap_index_macros :
  forall (i : nat),
    parent (left_child i) = i
    /\ parent (right_child i) = i
    /\ right_child i = S (left_child i)
    /\ (i < left_child i)%nat
    /\ ((0 < i)%nat ->
        (parent i < i)%nat
        /\ (i = left_child (parent i) \/ i = right_child (parent i)))
    /\ (i = parent i -> i = 0%nat).
Proof.
  intros i. split; [apply parent_left|]. split; [apply parent_right|].
  split; [rewrite right_child_eq, left_child_eq; lia|].
  split; [rewrite left_child_eq; lia|].
  split; [|apply parent_zero].
  intros Hi. split; [apply parent_lt; exact Hi|apply parent_cases; exact Hi].
Qed.

Lemma heap_index_macros_witness :
  parent (left_child 5) = 5%nat
  /\ parent (right_child 5) = 5%nat
  /\ right_child 5 = S (left_child 5)
  /\ (5 < left_child 5)%nat
  /\ (parent 5 < 5)%nat
  /\ (5%nat = left_child (parent 5) \/ 5%nat = right_child (parent 5)).
Proof.
  destruct (heap_index_macros 5) as (A & B & C & D & F & _).
  destruct (F ltac:(lia)) as [G H].
  repeat (split; [assumption|]). exact H.
Defined.
(** ** The average period and the deadline after a release *)

Lemma fold_add_avg_per (m : ptr -> rt_thread) (lo hi : Z) (l : list ptr) :
  forall (s n : Z),
    0 <= lo <= hi -> 0 < hi -> 0 <= n -> n * lo <= s <= n * hi ->
    (n + Z.of_nat (length l)) * hi < two64 ->
    (forall p, In p l -> type (m p) = PERIODIC ->
               lo <= period (constraints (m p)) <= hi) ->
    let r := fold_left (add_avg_per m) l (s, n) in
    n <= snd r <= n + Z.of_nat (length l)
    /\ snd r * lo <= fst r <= snd r * hi.
Proof.
  induction l as [|x l IH]; intros s n Hb Hh Hn Hs Hov Hp.
  - cbn [fold_left fst snd length]. lia.
  - cbn [fold_left]. cbn [length] in Hov.
    rewrite Nat2Z.inj_succ in Hov.
    pose proof (Zle_0_nat (length l)) as Hlen.
    assert (Hn1 : (n + 1) * hi <= (n + Z.succ (Z.of_nat (length l))) * hi)
      by nia.
    assert (Hn2 : n + 1 <= (n + 1) * hi) by nia.
    assert (Hstep : exists s' n',
               add_avg_per m (s, n) x = (s', n')
               /\ n <= n' <= n + 1 /\ n' * lo <= s' <= n' * hi).
    { unfold add_avg_per. cbn [fst snd].
      destruct (Z.eqb_spec (type (m x)) PERIODIC) as [T|T].
      - specialize (Hp x (or_introl eq_refl) T).
        assert (H1 : wrap64 (n + 1) = n + 1).
        { apply wrap64_small. lia. }
        assert (H2 : wrap64 (s + period (constraints (m x)))
                     = s + period (constraints (m x))).
        { apply wrap64_small. nia. }
        rewrite H1, H2. eexists _, _. split; [reflexivity|]. nia.
      - eexists _, _. split; [reflexivity|]. lia. }
    destruct Hstep as (s' & n' & E & Hn' & Hs').
    rewrite E.
    destruct (IH s' n' Hb Hh ltac:(lia) Hs') as [A B].
    + nia.
    + intros p Hin. apply Hp. right. exact Hin.
    + cbn [length]. rewrite Nat2Z.inj_succ. split; [lia|exact B].
Qed.

(** X22.  [get_avg_per] returns a value between the bounds of its inputs.
    When the periods of the periodic threads on runnable and pending and of
    the new thread, if it is periodic, lie between [lo] and [hi], [QUANTUM]
    lies between them too, and the threads are few enough for the sum not to
    reach [2^64], the function returns (its divisor is not zero) and the
    average is between [lo] and [hi]. *)
Theorem get_avg_per_between_bounds :
  forall (rq pq : rt_queue) (new_thread : ptr) (m : ptr -> rt_thread)
         (lo hi : Z),
    0 <= lo <= QUANTUM -> QUANTUM <= hi ->
    (forall p, In p (queue_contents rq ++ queue_contents pq ++ [new_thread]) ->
               type (m p) = PERIODIC ->
               lo <= period (constraints (m p)) <= hi) ->
    (Z.of_nat (size rq + size pq) + 2) * hi < two64 ->
    exists v, get_avg_per rq pq new_thread m = Ok v /\ lo <= v <= hi.
Proof.
  intros rq pq new_thread m lo hi Hlo Hhi Hp Hov.
  unfold get_avg_per.
  change (add_avg_per m
            (fold_left (add_avg_per m) (contents (threads pq) (size pq))
               (fold_left (add_avg_per m) (contents (threads rq) (size rq))
                  (0, 0))) new_thread)
    with (fold_left (add_avg_per m) [new_thread]
            (fold_left (add_avg_per m) (contents (threads pq) (size pq))
               (fold_left (add_avg_per m) (contents (threads rq) (size rq))
                  (0, 0)))).
  rewrite <- !fold_left_app.
  assert (Hq : 0 < QUANTUM) by reflexivity.
  destruct (fold_add_avg_per m lo hi
              (contents (threads rq) (size rq)
               ++ contents (threads pq) (size pq) ++ [new_thread]) 0 0)
    as [A B].
  - lia.
  - lia.
  - lia.
  - lia.
  - rewrite !length_app, !contents_length. cbn [length].
    rewrite !Nat2Z.inj_add in *. cbn [Z.of_nat Pos.of_succ_nat]. nia.
  - exact Hp.
  - rewrite !length_app, !contents_length in A. cbn [length] in A.
    set (r := fold_left (add_avg_per m)
                (contents (threads rq) (size rq)
                 ++ contents (threads pq) (size pq) ++ [new_thread]) (0, 0))
      in *.
    rewrite !Nat2Z.inj_add in *. cbn [Z.of_nat Pos.of_succ_nat] in A.
    pose proof (Zle_0_nat (size rq)) as Hr0.
    pose proof (Zle_0_nat (size pq)) as Hp0.
    assert (Hk : (snd r + 1) * hi
                 <= (Z.of_nat (size rq) + Z.of_nat (size pq) + 2) * hi)
      by nia.
    assert (Hk2 : snd r + 1 <= (snd r + 1) * hi) by nia.
    assert (H1 : wrap64 (snd r + 1) = snd r + 1).
    { apply wrap64_small. lia. }
    assert (H2 : wrap64 (fst r + QUANTUM) = fst r + QUANTUM).
    { apply wrap64_small. nia. }
    rewrite H1, H2.
    destruct (Z.eqb_spec (snd r + 1) 0) as [|_]; [lia|].
    eexists. split; [reflexivity|]. split.
    + apply Z.div_le_lower_bound; [lia|nia].
    + apply Z.div_le_upper_bound; [lia|nia].
Qed.

Lemma get_avg_per_between_bounds_witness :
  exists v,
    get_avg_per (ex_queue RUNNABLE_QUEUE [1%nat]) (ex_queue PENDING_QUEUE [2%nat])
                3%nat ex_mem = Ok v
    /\ 500 <= v <= QUANTUM.
Proof.
  apply (get_avg_per_between_bounds (ex_queue RUNNABLE_QUEUE [1%nat])
           (ex_queue PENDING_QUEUE [2%nat]) 3%nat ex_mem 500 QUANTUM).
  - vm_compute. split; discriminate.
  - vm_compute. discriminate.
  - intros p Hp T. vm_compute in Hp.
    destruct Hp as [<-|[<-|[<-|[]]]]; vm_compute; split; discriminate.
  - vm_compute. reflexivity.
Defined.

(** X23.  A released periodic thread has one period.  After
    [update_periodic] at counter reading [now], [check_deadlines] reports no
    miss exactly when the exit time of the thread is at most [now + period];
    in the simulator, after [update_periodic_logic] at [time] the run time
    is 0 and [check_deadlines_logic] at [later] reports no miss exactly when
    [later] is at most [time + period].  Both hold when the sum does not
    reach [2^64]. *)
Theorem released_thread_has_one_period :
  (forall (t : ptr) (w : world),
      type (mem w t) = PERIODIC ->
      0 <= period (constraints (mem w t)) ->
      fst (cur_time w) + period (constraints (mem w t)) < two64 ->
      (fst (check_deadlines t (update_periodic t w)) = 0
       <-> exit_time (mem w t)
           <= fst (cur_time w) + period (constraints (mem w t))))
  /\ (forall (t : ptr) (time later : Z) (m : ptr -> rt_thread),
         type (m t) = PERIODIC -> 0 <= time ->
         0 <= period (constraints (m t)) ->
         time + period (constraints (m t)) < two64 ->
         run_time (update_periodic_logic t time m t) = 0
         /\ (check_deadlines_logic t later (update_periodic_logic t time m) = 0
             <-> later <= time + period (constraints (m t)))).
Proof.
  split.
  - intros t w T Hp Hov.
    assert (Hnow : 0 <= fst (cur_time w)).
    { cbn [cur_time fst]. unfold wrap64.
      apply Z.mod_pos_bound. reflexivity. }
    unfold check_deadlines, update_periodic. rewrite T.
    change (PERIODIC =? PERIODIC) with true. cbv iota.
    cbn [cur_time with_mem mem fst] in *. rewrite !upd_same.
    cbn [exit_time deadline set_run_time set_deadline].
    rewrite wrap64_small by lia.
    destruct (Z.gtb_spec (exit_time (mem w t))
                (wrap64 (rdtsc_src w (rdtsc_reads w))
                 + period (constraints (mem w t)))) as [G|G];
      cbn [fst]; split; intros H; try lia; discriminate H.
  - intros t time later m T Ht Hp Hov.
    unfold check_deadlines_logic, update_periodic_logic. rewrite T.
    change (PERIODIC =? PERIODIC) with true. cbv iota.
    rewrite !upd_same. cbn [run_time deadline set_run_time set_deadline].
    split; [reflexivity|].
    rewrite wrap64_small by lia.
    destruct (Z.gtb_spec later (time + period (constraints (m t)))) as [G|G];
      split; intros H; try lia; discriminate H.
Qed.

Lemma released_thread_has_one_period_witness :
  (fst (check_deadlines 1%nat (update_periodic 1%nat (ex_world ex_mem_late)))
   = 0
   <-> exit_time (mem (ex_world ex_mem_late) 1%nat)
       <= fst (cur_time (ex_world ex_mem_late))
          + period (constraints (mem (ex_world ex_mem_late) 1%nat)))
  /\ run_time (update_periodic_logic 1%nat 100 ex_mem 1%nat) = 0
  /\ (check_deadlines_logic 1%nat 1100 (update_periodic_logic 1%nat 100 ex_mem)
      = 0
      <-> 1100 <= 100 + period (constraints (ex_mem 1%nat))).
Proof.
  split.
  - apply (proj1 released_thread_has_one_period 1%nat (ex_world ex_mem_late)).
    + reflexivity.
    + vm_compute. discriminate.
    + vm_compute. reflexivity.
  - apply (proj2 released_thread_has_one_period 1%nat 100 1100 ex_mem).
    + reflexivity.
    + lia.
    + vm_compute. discriminate.
    + vm_compute. reflexivity.
Defined.
(** ** The simulator's dispatcher *)

Lemma same_but_tag_refl (t : rt_thread) : same_but_tag t t.
Proof. unfold same_but_tag. repeat split; reflexivity. Qed.

Lemma same_but_tag_trans (t1 t2 t3 : rt_thread) :
  same_but_tag t1 t2 -> same_but_tag t2 t3 -> same_but_tag t1 t3.
Proof.
  unfold same_but_tag.
  intros (A1 & A2 & A3 & A4 & A5 & A6 & A7 & A8 & A9 & A10)
         (B1 & B2 & B3 & B4 & B5 & B6 & B7 & B8 & B9 & B10).
  repeat split; congruence.
Qed.

Lemma enqueue_thread_logic_tag (q : rt_queue) (th : ptr)
      (m : ptr -> rt_thread) (p : ptr) :
  same_but_tag (m p) (snd (enqueue_thread_logic q th m) p).
Proof.
  unfold enqueue_thread_logic, enqueue_heap_logic.
  destruct (heap_insert (key_deadline m) (size q) (threads q) th) as [n1 a1].
  destruct (heap_insert (key_priority m) (size q) (threads q) th) as [n2 a2].
  split_ifs; cbn [snd]; try apply same_but_tag_refl.
  all: unfold upd; destruct (Nat.eqb_spec p th) as [->|Np];
    [|apply same_but_tag_refl].
  all: unfold same_but_tag; repeat split; reflexivity.
Qed.

Lemma sim_frame_of_tags (th : ptr) (m m' : ptr -> rt_thread) :
  (forall p, same_but_tag (m p) (m' p)) -> sim_frame th m m'.
Proof.
  intros H p.
  destruct (H p) as (A1 & A2 & A3 & A4 & A5 & A6 & A7 & A8 & A9 & A10).
  split; [exact A1|]. split; [exact A2|]. split; [exact A6|].
  split; [exact A9|]. split; [exact A10|]. split; [exact A3|].
  split; [exact A4|]. split; [exact A5|].
  intros _. split; [exact A7|exact A8].
Qed.

Lemma sim_frame_trans_tags (th : ptr) (m1 m2 m3 : ptr -> rt_thread) :
  sim_frame th m1 m2 -> (forall p, same_but_tag (m2 p) (m3 p)) ->
  sim_frame th m1 m3.
Proof.
  intros H1 H2 p.
  destruct (H1 p) as (A1 & A2 & A3 & A4 & A5 & A6 & A7 & A8 & A9).
  destruct (H2 p) as (B1 & B2 & B3 & B4 & B5 & B6 & B7 & B8 & B9 & B10).
  split; [congruence|]. split; [congruence|]. split; [congruence|].
  split; [congruence|]. split; [congruence|]. split; [congruence|].
  split; [congruence|]. split; [congruence|].
  intros Hp. destruct (A9 Hp) as [C1 C2]. split; congruence.
Qed.

Lemma dequeue_thread_logic_shrinks (q : rt_queue) (m : ptr -> rt_thread) :
  is_heap_type (qtype q) = true -> (0 < size q)%nat ->
  exists q',
    dequeue_thread_logic q m = (threads q O, q')
    /\ qtype q' = qtype q /\ S (size q') = size q
    /\ forall x, In x (queue_contents q') -> In x (queue_contents q).
Proof.
  intros Hty Hs. rewrite (dequeue_thread_logic_heap q m Hty).
  unfold dequeue_heap_logic, queue_contents.
  destruct (size q) as [|sz] eqn:Es; [lia|].
  destruct (heap_pop_perm (heap_key (qtype q) m) sz (threads q))
    as (a' & E & P).
  rewrite E. eexists. split; [reflexivity|]. cbn [qtype size threads].
  split; [reflexivity|]. split; [reflexivity|].
  intros x Hx. apply (Permutation_in _ P). right. exact Hx.
Qed.

(** The release loop of the simulator ends on a heap-typed pending queue
    without null entries, and writes queue tags only. *)
Lemma release_logic_total (fuel : nat) :
  forall (time : Z) (s : rt_simulator) (m : ptr -> rt_thread),
    is_heap_type (qtype (sim_pending s)) = true ->
    ~ In NULL (queue_contents (sim_pending s)) ->
    (size (sim_pending s) < fuel)%nat ->
    exists s' m',
      release_logic fuel time s m = Ok (s', m')
      /\ forall p, same_but_tag (m p) (m' p).
Proof.
  induction fuel as [|fuel IH]; intros time s m Hty Hn Hf; [lia|].
  cbn [release_logic].
  destruct (Nat.ltb_spec 0 (size (sim_pending s))) as [Hs|Hs];
    [|exists s, m; split; [reflexivity|intros p; apply same_but_tag_refl]].
  destruct (deadline (m (threads (sim_pending s) O)) <? time);
    [|exists s, m; split; [reflexivity|intros p; apply same_but_tag_refl]].
  destruct (dequeue_thread_logic_shrinks (sim_pending s) m Hty Hs)
    as (pq & E & Hq & Hsz & Hin).
  rewrite E.
  assert (Hroot : threads (sim_pending s) O <> NULL).
  { intros C. apply Hn. apply in_contents. exists O.
    split; [exact Hs|exact C]. }
  destruct (Nat.eqb_spec (threads (sim_pending s) O) NULL) as [|_];
    [contradiction|].
  cbn [andb].
  pose proof (enqueue_thread_logic_tag (sim_runnable s)
                (threads (sim_pending s) O) m) as Ht.
  destruct (enqueue_thread_logic (sim_runnable s)
              (threads (sim_pending s) O) m) as [rq m1].
  cbn [snd] in Ht.
  destruct (IH time (mk_simulator rq pq (sim_aperiodic s)) m1)
    as (s' & m' & R & Hm).
  - cbn [sim_pending]. rewrite Hq. exact Hty.
  - cbn [sim_pending]. intros C. apply Hn, Hin, C.
  - cbn [sim_pending]. lia.
  - exists s', m'. split; [exact R|].
    intros p. exact (same_but_tag_trans _ _ _ (Ht p) (Hm p)).
Qed.

Lemma preempt_logic_tag (s : rt_simulator) (m : ptr -> rt_thread) (th : ptr) :
  forall p, same_but_tag (m p) (snd (snd (preempt_logic s m th)) p).
Proof.
  intros p. unfold preempt_logic.
  destruct (Nat.ltb 0 (size (sim_runnable s))); [|apply same_but_tag_refl].
  destruct (deadline (m th) >? deadline (m (threads (sim_runnable s) O)));
    [|apply same_but_tag_refl].
  destruct (dequeue_thread_logic (sim_runnable s) m) as [next rq].
  pose proof (enqueue_thread_logic_tag rq th m p) as Ht.
  destruct (enqueue_thread_logic rq th m) as [rq1 m1]. exact Ht.
Qed.

Lemma select_logic_frame (s : rt_simulator) (m : ptr -> rt_thread) (th : ptr)
      (time : Z) :
  sim_frame th m (snd (snd (select_logic s m th time))).
Proof.
  unfold select_logic.
  destruct (type (m th) =? APERIODIC).
  { pose proof (enqueue_thread_logic_tag (sim_aperiodic s) th
                  (upd m th (set_priority (m th) (run_time (m th))))) as Ht.
    destruct (enqueue_thread_logic (sim_aperiodic s) th
                (upd m th (set_priority (m th) (run_time (m th)))))
      as [aq m2].
    destruct (pick_logic (mk_simulator (sim_runnable s) (sim_pending s) aq) m2)
      as [next s1].
    cbn [snd] in *.
    apply (sim_frame_trans_tags th m
             (upd m th (set_priority (m th) (run_time (m th))))); [|exact Ht].
    intros p. unfold upd. destruct (Nat.eqb_spec p th) as [->|Np].
    - repeat split; try reflexivity; congruence.
    - repeat split; reflexivity. }
  destruct (type (m th) =? SPORADIC).
  { destruct (run_time (m th) >=? work (constraints (m th))).
    - destruct (pick_logic s m) as [next s1]. cbn [snd].
      apply sim_frame_of_tags. intros p. apply same_but_tag_refl.
    - apply sim_frame_of_tags. apply preempt_logic_tag. }
  destruct (Z.eqb_spec (type (m th)) PERIODIC) as [Tp|Tp].
  { destruct (run_time (m th) >=? slice (constraints (m th))).
    - destruct (negb (check_deadlines_logic th time m =? 0)).
      + pose proof (enqueue_thread_logic_tag (sim_runnable s) th
                      (update_periodic_logic th time m)) as Ht.
        destruct (enqueue_thread_logic (sim_runnable s) th
                    (update_periodic_logic th time m)) as [rq m2].
        destruct (pick_logic
                    (mk_simulator rq (sim_pending s) (sim_aperiodic s)) m2)
          as [next s1].
        cbn [snd] in *.
        apply (sim_frame_trans_tags th m (update_periodic_logic th time m));
          [|exact Ht].
        intros p. unfold update_periodic_logic. rewrite Tp.
        change (PERIODIC =? PERIODIC) with true. cbv iota.
        unfold upd. destruct (Nat.eqb_spec p th) as [->|Np].
        * repeat split; try reflexivity; congruence.
        * repeat split; reflexivity.
      + pose proof (enqueue_thread_logic_tag (sim_pending s) th m) as Ht.
        destruct (enqueue_thread_logic (sim_pending s) th m) as [pq m2].
        destruct (pick_logic
                    (mk_simulator (sim_runnable s) pq (sim_aperiodic s)) m2)
          as [next s1].
        cbn [snd] in *. apply sim_frame_of_tags. exact Ht.
    - apply sim_frame_of_tags. apply preempt_logic_tag. }
  cbn [snd]. apply sim_frame_of_tags. intros p. apply same_but_tag_refl.
Qed.

(** X24.  The simulator's dispatcher ends and re-arms nothing.  For a
    thread that is not null and a simulator whose three heaps carry their
    tags, hold no null descriptor and have room (runnable and pending
    together, and aperiodic, hold fewer than [MAX_QUEUE] descriptors),
    [rt_need_resched_logic] returns.  In every descriptor it leaves type,
    status, start and exit time, handle, period, slice and work as they
    were, and in every descriptor but the current thread the deadline and
    the run time as well: a thread its release loop moves from pending to
    runnable keeps its expired deadline and its run time, where the release
    loop of [rt_need_resched] calls [update_periodic]. *)
Theorem rt_need_resched_logic_rearms_nothing :
  forall (s : rt_simulator) (m : ptr -> rt_thread) (th : ptr) (time : Z),
    sim_ok s -> th <> NULL ->
    exists next s' m',
      rt_need_resched_logic s m th time = Ok (next, (s', m'))
      /\ sim_frame th m m'.
Proof.
  intros s m th time (_ & Tp & _ & _ & Hn & _) Hth.
  unfold rt_need_resched_logic.
  assert (Hty : is_heap_type (qtype (sim_pending s)) = true)
    by (rewrite Tp; reflexivity).
  destruct (release_logic_total (S (size (sim_pending s))) time s m Hty Hn
              ltac:(lia)) as (s1 & m1 & R & Hm).
  rewrite R. cbn [bind].
  destruct (Nat.eqb_spec th NULL) as [C|_]; [contradiction|].
  pose proof (select_logic_frame s1 m1 th time) as Hf.
  destruct (select_logic s1 m1 th time) as [next [s' m']]. cbn [snd] in Hf.
  exists next, s', m'. split; [reflexivity|].
  intros p.
  destruct (Hm p) as (B1 & B2 & B3 & B4 & B5 & B6 & B7 & B8 & B9 & B10).
  destruct (Hf p) as (A1 & A2 & A3 & A4 & A5 & A6 & A7 & A8 & A9).
  split; [congruence|]. split; [congruence|]. split; [congruence|].
  split; [congruence|]. split; [congruence|]. split; [congruence|].
  split; [congruence|]. split; [congruence|].
  intros Hp. destruct (A9 Hp) as [C1 C2]. split; congruence.
Qed.

Lemma rt_need_resched_logic_rearms_nothing_witness :
  exists next s' m',
    rt_need_resched_logic
      (mk_simulator (ex_queue RUNNABLE_QUEUE []) (ex_queue PENDING_QUEUE [2%nat])
                    (ex_queue APERIODIC_QUEUE [4%nat]))
      ex_mem 1%nat 600
    = Ok (next, (s', m'))
    /\ sim_frame 1%nat ex_mem m'.
Proof.
  apply (rt_need_resched_logic_rearms_nothing
           (mk_simulator (ex_queue RUNNABLE_QUEUE [])
                         (ex_queue PENDING_QUEUE [2%nat])
                         (ex_queue APERIODIC_QUEUE [4%nat]))
           ex_mem 1%nat 600).
  - split; [reflexivity|]. split; [reflexivity|]. split; [reflexivity|].
    split; [vm_compute; intuition discriminate|].
    split; [vm_compute; intuition discriminate|].
    split; [vm_compute; intuition discriminate|].
    split; unfold MAX_QUEUE; simpl; lia.
  - discriminate.
Defined.
(** ** Claim C7: a dequeue drops the marked descriptors and goes on *)

(** [dequeue_heap] on any array, heap ordered or not: the descriptors it
    passes over are marked, and together with the one it returns and the
    ones it leaves they are the old contents. *)
Lemma dequeue_heap_skips (key : ptr -> Z) (st : ptr -> Z) (n : nat) :
  forall (a : nat -> ptr) r n' a',
    dequeue_heap key st n a = (r, (n', a')) ->
    exists skipped,
      Forall (marked st) skipped
      /\ ((st r <> TOBE_REMOVED
           /\ Permutation (contents a n) (skipped ++ r :: contents a' n'))
          \/ (r = NULL /\ n' = 0%nat /\ Permutation (contents a n) skipped)).
Proof.
  induction n as [|sz IH]; intros a r n' a' E.
  - simpl in E. inversion E; subst.
    exists []. split; [constructor|]. right. repeat split. reflexivity.
  - rewrite dequeue_heap_pop in E.
    destruct (heap_pop_perm key sz a) as (a2 & Ep & HP).
    rewrite Ep in E. cbn [snd] in E.
    destruct (Z.eqb_spec (st (a O)) TOBE_REMOVED) as [Hs|Hs].
    + destruct (IH _ _ _ _ E) as (sk & Hsk & Hc).
      exists (a O :: sk). split; [constructor; assumption|].
      destruct Hc as [(Hr & Hc)|(Hr & Hn & Hc)]; [left|right].
      * split; [assumption|]. rewrite <- HP. simpl. apply perm_skip. exact Hc.
      * repeat split; try assumption. rewrite <- HP. apply perm_skip. exact Hc.
    + inversion E; subst. exists []. split; [constructor|].
      left. split; [assumption|]. simpl. symmetry. exact HP.
Qed.

Lemma dequeue_thread_heap_skips (q : rt_queue) (m : ptr -> rt_thread) :
  is_heap_type (qtype q) = true ->
  exists r q' skipped,
    dequeue_thread q m = Ok (r, q')
    /\ qtype q' = qtype q
    /\ Forall (fun p => status (m p) = TOBE_REMOVED) skipped
    /\ ((status (m r) <> TOBE_REMOVED
         /\ Permutation (queue_contents q) (skipped ++ r :: queue_contents q'))
        \/ (r = NULL /\ size q' = 0%nat
            /\ Permutation (queue_contents q) skipped)).
Proof.
  intros Hty. rewrite (dequeue_thread_heap q m Hty). unfold dequeue_heap_queue.
  destruct (dequeue_heap (heap_key (qtype q) m) (fun p => status (m p))
                         (size q) (threads q)) as [r [n a]] eqn:E.
  destruct (dequeue_heap_skips _ _ _ _ _ _ _ E) as (sk & Hsk & Hc).
  exists r, (mk_queue (qtype q) n (head q) (tail q) a), sk.
  split; [reflexivity|]. split; [reflexivity|]. split; [exact Hsk|exact Hc].
Qed.

(** What a heap dequeue returns was on the queue, unless it is null, and
    what it leaves was on the queue. *)
Lemma dequeue_thread_heap_from (q : rt_queue) (m : ptr -> rt_thread) r q' :
  is_heap_type (qtype q) = true ->
  dequeue_thread q m = Ok (r, q') ->
  (r = NULL \/ In r (queue_contents q))
  /\ (forall x, In x (queue_contents q') -> In x (queue_contents q)).
Proof.
  intros Hty D.
  destruct (dequeue_thread_heap_skips q m Hty)
    as (r0 & q0 & sk & E & _ & _ & Hc).
  rewrite D in E. inversion E; subst r0 q0.
  destruct Hc as [(_ & P)|(Hr & Hz & P)].
  - split.
    + right. apply (Permutation_in _ (Permutation_sym P)).
      apply in_or_app. right. left. reflexivity.
    + intros x Hx. apply (Permutation_in _ (Permutation_sym P)).
      apply in_or_app. right. right. exact Hx.
  - split; [left; exact Hr|].
    intros x Hx. unfold queue_contents in Hx. rewrite Hz in Hx. destruct Hx.
Qed.




(** ** Claim C2: the accounting fields across a dispatch *)

Lemma bill_frame_fields (P : ptr -> Prop) (w w' : world) :
  rdtsc_src w' = rdtsc_src w -> (rdtsc_reads w <= rdtsc_reads w')%nat ->
  (forall p,
      type (mem w' p) = type (mem w p)
      /\ period (constraints (mem w' p)) = period (constraints (mem w p))
      /\ start_time (mem w' p) = start_time (mem w p)
      /\ exit_time (mem w' p) = exit_time (mem w p)
      /\ run_time (mem w' p) = run_time (mem w p)
      /\ deadline (mem w' p) = deadline (mem w p)) ->
  bill_frame P w w'.
Proof.
  intros Hs Hr H. split; [exact Hs|]. split; [exact Hr|].
  intros p. destruct (H p) as (A & B & C & D & E & F).
  split; [exact A|]. split; [exact B|]. split; [exact C|]. split; [exact D|].
  left. split; assumption.
Qed.

Lemma bill_frame_same (P : ptr -> Prop) (w w' : world) :
  mem w' = mem w -> rdtsc_src w' = rdtsc_src w ->
  (rdtsc_reads w <= rdtsc_reads w')%nat ->
  bill_frame P w w'.
Proof.
  intros Hm Hs Hr. apply bill_frame_fields; try assumption.
  intros p. rewrite Hm. repeat split.
Qed.

Lemma bill_frame_weaken (P Q : ptr -> Prop) (w w' : world) :
  (forall p, P p -> Q p) -> bill_frame P w w' -> bill_frame Q w w'.
Proof.
  intros HPQ (Hs & Hr & H). split; [exact Hs|]. split; [exact Hr|].
  intros p. destruct (H p) as (A & B & C & D & [E|[Pp E]]).
  - repeat split; try assumption. left. exact E.
  - repeat split; try assumption. right. split; [apply HPQ; exact Pp|exact E].
Qed.

Lemma bill_frame_trans (P : ptr -> Prop) (w1 w2 w3 : world) :
  bill_frame P w1 w2 -> bill_frame P w2 w3 -> bill_frame P w1 w3.
Proof.
  intros (S1 & R1 & H1) (S2 & R2 & H2).
  split; [congruence|]. split; [lia|].
  intros p.
  destruct (H1 p) as (A1 & B1 & C1 & D1 & E1).
  destruct (H2 p) as (A2 & B2 & C2 & D2 & E2).
  split; [congruence|]. split; [congruence|]. split; [congruence|].
  split; [congruence|].
  destruct E2 as [[F2 G2]|(Pp & T2 & Z2 & n & Hn & Dn)].
  - destruct E1 as [[F1 G1]|(Pp & T1 & Z1 & n & Hn & Dn)].
    + left. split; congruence.
    + right. split; [exact Pp|]. split; [exact T1|]. split; [congruence|].
      exists n. split; [lia|congruence].
  - right. split; [exact Pp|]. split; [congruence|]. split; [exact Z2|].
    exists n. split; [lia|]. rewrite Dn, S1, B1. reflexivity.
Qed.

Lemma bill_frame_enqueue (P : ptr -> Prop)
      (setq : rt_scheduler -> rt_queue -> rt_scheduler) (w : world)
      (q : rt_queue) (th : ptr) :
  bill_frame P w (with_queue_mem setq w (enqueue_thread q th (mem w))).
Proof.
  apply bill_frame_fields; [reflexivity|apply Nat.le_refl|].
  intros p. cbn [with_queue_mem mem].
  destruct (enqueue_thread_fields q th (mem w) p) as (A & B & C).
  destruct (enqueue_thread_frame q th (mem w) p) as (T & S & E & _).
  rewrite C. repeat split; try assumption; reflexivity.
Qed.

Lemma bill_frame_update_periodic (P : ptr -> Prop) (t : ptr) (w : world) :
  P t -> bill_frame P w (update_periodic t w).
Proof.
  intros Ht. unfold update_periodic.
  destruct (Z.eqb_spec (type (mem w t)) PERIODIC) as [Tp|Tp].
  - cbn [cur_time with_mem mem sched rdtsc_src rdtsc_reads].
    split; [reflexivity|]. split; [apply Nat.le_succ_diag_r|].
    intros p. unfold rearmed, with_mem, upd. cbn [mem rdtsc_src rdtsc_reads].
    destruct (Nat.eqb_spec p t) as [->|Np].
    + split; [reflexivity|]. split; [reflexivity|]. split; [reflexivity|].
      split; [reflexivity|]. right. split; [exact Ht|].
      split; [exact Tp|]. split; [reflexivity|].
      exists (rdtsc_reads w).
      split; [split; [apply Nat.le_refl|apply Nat.lt_succ_diag_r]|reflexivity].
    + repeat split. left. split; reflexivity.
  - apply bill_frame_same; [reflexivity|reflexivity|apply Nat.le_refl].
Qed.

Lemma rdtsc_reads_set_timer (w : world) (t : ptr) (e s : Z) :
  rdtsc_reads (set_timer w t e s) = S (rdtsc_reads w).
Proof. unfold set_timer. simpl. split_ifs; reflexivity. Qed.

Lemma bill_then_stamp (P : ptr -> Prop) (w1 w2 w3 : world) :
  bill_frame P w1 w2 -> bill_frame P w2 w3 /\ stamped w2 w3 ->
  bill_frame P w1 w3 /\ stamped w1 w3.
Proof.
  intros H12 [H23 (n & Hn & Hr & Ht)]. split.
  - exact (bill_frame_trans P w1 w2 w3 H12 H23).
  - destruct H12 as (_ & R1 & _). exists n.
    split; [lia|]. split; [exact Hr|exact Ht].
Qed.

Lemma set_timer_bill (P : ptr -> Prop) (w : world) (t : ptr) (e s : Z) :
  bill_frame P w (set_timer w t e s) /\ stamped w (set_timer w t e s).
Proof.
  split.
  - apply bill_frame_same;
      [apply mem_set_timer|apply set_timer_src
      |rewrite rdtsc_reads_set_timer; lia].
  - exists (rdtsc_reads w). split; [lia|].
    split; [apply rdtsc_reads_set_timer|].
    rewrite tsc_start_time_set_timer, (proj1 (set_timer_src w t e s)).
    reflexivity.
Qed.

Lemma pick_aperiodic_bill (P : ptr -> Prop) (w : world) (e s : Z) x w' :
  pick_aperiodic w e s = Ok (x, w') -> bill_frame P w w' /\ stamped w w'.
Proof.
  unfold pick_aperiodic.
  destruct (dequeue_thread (aperiodic (sched w)) (mem w)) as [[rt_n q]|f];
    cbn [bind]; [|discriminate].
  destruct (Nat.eqb rt_n NULL); [discriminate|].
  intros E. inversion E; subst.
  apply (bill_then_stamp P w (with_sched w (set_aperiodic (sched w) q))).
  - apply bill_frame_same; [reflexivity|reflexivity|apply Nat.le_refl].
  - apply set_timer_bill.
Qed.

Lemma pick_next_bill (P : ptr -> Prop) (w : world) (e s : Z) x w' :
  pick_next w e s = Ok (x, w') -> bill_frame P w w' /\ stamped w w'.
Proof.
  unfold pick_next.
  destruct (Nat.ltb 0 (size (runnable (sched w))));
    [|apply pick_aperiodic_bill].
  destruct (dequeue_thread (runnable (sched w)) (mem w)) as [[rt_n q]|f];
    cbn [bind]; [|discriminate].
  assert (H1 : bill_frame P w (with_sched w (set_runnable (sched w) q))).
  { apply bill_frame_same;
      [reflexivity|reflexivity|apply Nat.le_refl]. }
  destruct (negb (Nat.eqb rt_n NULL)).
  - intros E. inversion E; subst.
    apply (bill_then_stamp P w _ _ H1). apply set_timer_bill.
  - intros E. apply (bill_then_stamp P w _ _ H1).
    apply (pick_aperiodic_bill P _ e s x w' E).
Qed.

Lemma keep_current_bill (P : ptr -> Prop) (w : world) (rt_c : ptr) (e s : Z)
      x w' :
  keep_current w rt_c e s = Ok (x, w') -> bill_frame P w w' /\ stamped w w'.
Proof.
  unfold keep_current. intros E. inversion E; subst. apply set_timer_bill.
Qed.

Lemma preempt_or_keep_bill (P : ptr -> Prop) (w : world) (rt_c : ptr)
      (e s : Z) x w' :
  preempt_or_keep w rt_c e s = Ok (x, w') -> bill_frame P w w' /\ stamped w w'.
Proof.
  unfold preempt_or_keep.
  destruct (Nat.ltb 0 (size (runnable (sched w))));
    [|apply keep_current_bill].
  destruct (deadline (mem w rt_c)
            >? deadline (mem w (threads (runnable (sched w)) O)));
    [|apply keep_current_bill].
  destruct (dequeue_thread (runnable (sched w)) (mem w)) as [[rt_n q]|f];
    cbn [bind]; [|discriminate].
  assert (H1 : bill_frame P w (with_sched w (set_runnable (sched w) q))).
  { apply bill_frame_same;
      [reflexivity|reflexivity|apply Nat.le_refl]. }
  destruct (negb (Nat.eqb rt_n NULL)).
  - intros E. inversion E; subst.
    apply (bill_then_stamp P w _ _ H1).
    apply (bill_then_stamp P _
             (with_queue_mem set_runnable
                (with_sched w (set_runnable (sched w) q))
                (enqueue_thread
                   (runnable (sched (with_sched w (set_runnable (sched w) q))))
                   rt_c (mem (with_sched w (set_runnable (sched w) q)))))).
    + apply bill_frame_enqueue.
    + apply set_timer_bill.
  - intros E. apply (bill_then_stamp P w _ _ H1).
    apply (keep_current_bill P _ rt_c e s x w' E).
Qed.

Lemma check_deadlines_bill (P : ptr -> Prop) (t : ptr) (w : world) :
  bill_frame P w (snd (check_deadlines t w)).
Proof.
  apply bill_frame_same.
  - apply check_deadlines_mem.
  - unfold check_deadlines, rt_thread_dump. split_ifs; reflexivity.
  - unfold check_deadlines, rt_thread_dump.
    split_ifs; solve [apply Nat.le_refl|apply Nat.le_succ_diag_r].
Qed.

Lemma requeue_periodic_bill (w : world) (rt_c : ptr) :
  bill_frame (fun p => p = rt_c) w (requeue_periodic w rt_c).
Proof.
  unfold requeue_periodic.
  pose proof (check_deadlines_bill (fun p => p = rt_c) rt_c w) as H.
  destruct (check_deadlines rt_c w) as [missed w1]. cbn [snd] in H.
  destruct (negb (missed =? 0)).
  - eapply bill_frame_trans; [exact H|].
    eapply bill_frame_trans;
      [apply bill_frame_update_periodic; reflexivity|].
    apply bill_frame_enqueue.
  - eapply bill_frame_trans; [exact H|apply bill_frame_enqueue].
Qed.
(** The release loop re-releases descriptors of pending only. *)
Lemma release_drain_bill (fuel : nat) :
  forall (e : Z) (w w' : world),
    release_drain fuel e w = Ok w' -> bill_frame (on_pending w) w w'.
Proof.
  induction fuel as [|fuel IH]; intros e w w' H; [discriminate H|].
  rewrite release_drain_S in H.
  destruct (Nat.ltb 0 (size (pending (sched w))));
    [|inversion H; subst;
      apply bill_frame_same; [reflexivity|reflexivity|apply Nat.le_refl]].
  destruct (deadline (mem w (threads (pending (sched w)) O)) <? e);
    [|inversion H; subst;
      apply bill_frame_same; [reflexivity|reflexivity|apply Nat.le_refl]].
  destruct (dequeue_thread (pending (sched w)) (mem w)) as [[arr q]|f] eqn:D;
    cbn [bind] in H; [|discriminate H].
  cbv zeta in H.
  assert (Hheap : qtype (pending (sched w)) = PENDING_QUEUE ->
                  is_heap_type (qtype (pending (sched w))) = true).
  { intros Ht. rewrite Ht. reflexivity. }
  assert (Hsub : forall w3, pending (sched w3) = q ->
                            forall p, on_pending w3 p -> on_pending w p).
  { intros w3 E3 p Hp Ht.
    destruct (dequeue_thread_heap_from _ _ _ _ (Hheap Ht) D) as [_ Hin].
    apply Hin. rewrite <- E3. apply Hp. rewrite E3.
    rewrite (dequeue_thread_qtype _ _ _ _ D). exact Ht. }
  assert (H1 : bill_frame (on_pending w) w
                          (with_sched w (set_pending (sched w) q))).
  { apply bill_frame_same; [reflexivity|reflexivity|apply Nat.le_refl]. }
  destruct (Nat.eqb_spec arr NULL) as [En|Nn].
  - apply IH in H. eapply bill_frame_trans; [exact H1|].
    eapply bill_frame_weaken; [|exact H]. apply Hsub. reflexivity.
  - apply IH in H. eapply bill_frame_trans; [exact H1|].
    eapply bill_frame_trans.
    { apply (bill_frame_update_periodic (on_pending w) arr).
      intros Ht.
      destruct (dequeue_thread_heap_from _ _ _ _ (Hheap Ht) D) as [[C|Hin] _];
        [contradiction|exact Hin]. }
    eapply bill_frame_trans; [apply bill_frame_enqueue|].
    eapply bill_frame_weaken; [|exact H]. apply Hsub.
    cbn [with_queue_mem sched set_runnable pending].
    rewrite update_periodic_sched. reflexivity.
Qed.

(** The [switch] re-releases the current thread at most, and ends with a
    [set_timer]. *)
Lemma resched_select_bill (c : nk_thread) (rt_c : ptr) (e s : Z) (w : world)
      x w' :
  resched_select c rt_c e s w = Ok (x, w') ->
  bill_frame (fun p => p = rt_c) w w' /\ stamped w w'.
Proof.
  unfold resched_select.
  destruct (type (mem w rt_c) =? APERIODIC).
  { intros E. apply (pick_next_bill (fun p => p = rt_c)) in E.
    refine (bill_then_stamp _ w _ w' _ E).
    eapply bill_frame_trans; [|apply bill_frame_enqueue].
    apply bill_frame_fields; [reflexivity|apply Nat.le_refl|].
    intros p. cbn [with_mem mem]. unfold upd.
    destruct (Nat.eqb_spec p rt_c) as [->|Np]; repeat split. }
  destruct (type (mem w rt_c) =? SPORADIC).
  { destruct (run_time (mem w rt_c) >=? work (constraints (mem w rt_c))).
    - pose proof (check_deadlines_bill (fun p => p = rt_c) rt_c w) as H.
      destruct (check_deadlines rt_c w) as [missed w1]. cbn [snd] in H.
      intros E. apply (pick_next_bill (fun p => p = rt_c)) in E.
      exact (bill_then_stamp _ w w1 w' H E).
    - apply preempt_or_keep_bill. }
  destruct (type (mem w rt_c) =? PERIODIC).
  { destruct (run_time (mem w rt_c) >=? slice (constraints (mem w rt_c))).
    - intros E. apply (pick_next_bill (fun p => p = rt_c)) in E.
      exact (bill_then_stamp _ w _ w' (requeue_periodic_bill w rt_c) E).
    - apply preempt_or_keep_bill. }
  intros E. inversion E; subst. apply set_timer_bill.
Qed.

(** C2, as the code has it.  [rt_need_resched] does not bill the outgoing
    thread and does not stamp the chosen one.  In every descriptor it
    leaves [start_time] and [exit_time] as they were.  It leaves [run_time]
    and [deadline] as they were, except in a re-release: the descriptor is
    periodic, it is the current thread or (as far as pending carries its
    tag) was on pending, its [run_time] is reset to 0 and its deadline is a
    reading of the counter taken during the call, after the two of the
    entry, plus its period.  What the call records is in the scheduler:
    [end_time = scheduler->run_time + cur_time()], from the first reading
    of the counter, is in [tsc->end_time] at the return, and the last
    reading of the counter, taken by [set_timer], is in
    [tsc->start_time]. *)
Theorem resched_leaves_billing_to_caller :
  forall (c : nk_thread) (rt_c : ptr) (w : world) x w',
    rt_need_resched c rt_c w = Ok (x, w') ->
    (forall p,
        start_time (mem w' p) = start_time (mem w p)
        /\ exit_time (mem w' p) = exit_time (mem w p)
        /\ ((run_time (mem w' p) = run_time (mem w p)
             /\ deadline (mem w' p) = deadline (mem w p))
            \/ (type (mem w p) = PERIODIC
                /\ (p = rt_c
                    \/ (qtype (pending (sched w)) = PENDING_QUEUE ->
                        In p (queue_contents (pending (sched w)))))
                /\ run_time (mem w' p) = 0
                /\ exists n,
                    (rdtsc_reads w + 2 <= n < rdtsc_reads w')%nat
                    /\ deadline (mem w' p)
                       = wrap64 (wrap64 (rdtsc_src w n)
                                 + period (constraints (mem w p))))))
    /\ tsc_end_time (tsc (sched w'))
       = wrap64 (sched_run_time (sched w) + wrap64 (rdtsc_src w (rdtsc_reads w)))
    /\ exists n,
        (rdtsc_reads w + 2 <= n)%nat /\ rdtsc_reads w' = S n
        /\ tsc_start_time (tsc (sched w')) = wrap64 (rdtsc_src w n).
Proof.
  intros c rt_c w x w'. unfold rt_need_resched.
  pose proof (resched_entry_spec w) as (He & Hm & _ & Hp & _ & Hs & Hr & _).
  destruct (resched_entry w) as [e w1]. cbn [fst snd] in He, Hm, Hp, Hs, Hr.
  destruct (release_drain (S (size (pending (sched w1)))) e w1) as [w2|f0] eqn:D;
    cbn [bind]; [|discriminate].
  intros E.
  pose proof (release_drain_bill _ _ _ _ D) as B1.
  pose proof (resched_select_frame _ _ _ _ _ _ _ E) as [_ Ht].
  pose proof (resched_select_bill _ _ _ _ _ _ _ E) as B2.
  assert (B : bill_frame (fun p => p = rt_c \/ on_pending w1 p) w1 w'
              /\ stamped w1 w').
  { apply (bill_then_stamp _ w1 w2 w').
    - eapply bill_frame_weaken; [|exact B1]. intros p Hp1. right. exact Hp1.
    - destruct B2 as [B2 St]. split; [|exact St].
      eapply bill_frame_weaken; [|exact B2]. intros p Hp1. left. exact Hp1. }
  destruct B as [(Hsrc & Hrd & Hf) (n & Hn & Hrn & Hst)].
  split; [|split].
  - intros p. destruct (Hf p) as (_ & _ & A & B & C).
    rewrite Hm in A, B, C. split; [exact A|]. split; [exact B|].
    destruct C as [C|(Pp & Tp & Z0 & k & Hk & Dk)]; [left; exact C|right].
    rewrite Hm in Tp.
    split; [exact Tp|]. split.
    + destruct Pp as [Pp|Pp]; [left; exact Pp|right].
      unfold on_pending in Pp. rewrite Hp in Pp. exact Pp.
    + split; [exact Z0|]. exists k. split; [lia|].
      rewrite Dk, Hs, Hm. reflexivity.
  - rewrite Ht. exact He.
  - exists n. split; [lia|]. split; [exact Hrn|].
    rewrite Hst, Hsrc, Hs. reflexivity.
Qed.

(** The counter reads 100 and descriptor 1 runs; descriptor 2 is on pending
    with run time 30 and its deadline at cycle 50, which has passed.  The
    call re-releases 2, run time 0 and deadline 100 + 500, and bills
    nobody. *)
Lemma resched_leaves_billing_to_caller_witness :
  ((forall p,
       start_time (mem (res_world (rt_need_resched 11%nat 1%nat
                                     (ex_world_queues ex_mem_due [] [2%nat]))
                                  (ex_world ex_mem)) p)
       = start_time (mem (ex_world_queues ex_mem_due [] [2%nat]) p)
       /\ exit_time (mem (res_world (rt_need_resched 11%nat 1%nat
                                       (ex_world_queues ex_mem_due [] [2%nat]))
                                    (ex_world ex_mem)) p)
          = exit_time (mem (ex_world_queues ex_mem_due [] [2%nat]) p)
       /\ ((run_time (mem (res_world (rt_need_resched 11%nat 1%nat
                                        (ex_world_queues ex_mem_due [] [2%nat]))
                                     (ex_world ex_mem)) p)
            = run_time (mem (ex_world_queues ex_mem_due [] [2%nat]) p)
            /\ deadline (mem (res_world (rt_need_resched 11%nat 1%nat
                                           (ex_world_queues ex_mem_due []
                                                            [2%nat]))
                                        (ex_world ex_mem)) p)
               = deadline (mem (ex_world_queues ex_mem_due [] [2%nat]) p))
           \/ (type (mem (ex_world_queues ex_mem_due [] [2%nat]) p) = PERIODIC
               /\ (p = 1%nat
                   \/ (qtype (pending (sched (ex_world_queues ex_mem_due []
                                                              [2%nat])))
                       = PENDING_QUEUE ->
                       In p (queue_contents
                               (pending (sched (ex_world_queues ex_mem_due []
                                                                [2%nat]))))))
               /\ run_time (mem (res_world (rt_need_resched 11%nat 1%nat
                                              (ex_world_queues ex_mem_due []
                                                               [2%nat]))
                                           (ex_world ex_mem)) p) = 0
               /\ exists n,
                   (rdtsc_reads (ex_world_queues ex_mem_due [] [2%nat]) + 2
                    <= n
                    < rdtsc_reads (res_world
                                     (rt_need_resched 11%nat 1%nat
                                        (ex_world_queues ex_mem_due []
                                                         [2%nat]))
                                     (ex_world ex_mem)))%nat
                   /\ deadline (mem (res_world
                                       (rt_need_resched 11%nat 1%nat
                                          (ex_world_queues ex_mem_due []
                                                           [2%nat]))
                                       (ex_world ex_mem)) p)
                      = wrap64 (wrap64 (rdtsc_src
                                          (ex_world_queues ex_mem_due []
                                                           [2%nat]) n)
                                + period (constraints
                                            (mem (ex_world_queues ex_mem_due []
                                                                  [2%nat])
                                                 p))))))
   /\ tsc_end_time (tsc (sched (res_world
                                  (rt_need_resched 11%nat 1%nat
                                     (ex_world_queues ex_mem_due [] [2%nat]))
                                  (ex_world ex_mem))))
      = wrap64 (sched_run_time (sched (ex_world_queues ex_mem_due [] [2%nat]))
                + wrap64 (rdtsc_src (ex_world_queues ex_mem_due [] [2%nat])
                            (rdtsc_reads (ex_world_queues ex_mem_due []
                                                          [2%nat]))))
   /\ exists n,
       (rdtsc_reads (ex_world_queues ex_mem_due [] [2%nat]) + 2 <= n)%nat
       /\ rdtsc_reads (res_world (rt_need_resched 11%nat 1%nat
                                    (ex_world_queues ex_mem_due [] [2%nat]))
                                 (ex_world ex_mem)) = S n
       /\ tsc_start_time (tsc (sched (res_world
                                        (rt_need_resched 11%nat 1%nat
                                           (ex_world_queues ex_mem_due []
                                                            [2%nat]))
                                        (ex_world ex_mem))))
          = wrap64 (rdtsc_src (ex_world_queues ex_mem_due [] [2%nat]) n))
  /\ run_time (mem (ex_world_queues ex_mem_due [] [2%nat]) 2%nat) = 30
  /\ deadline (mem (ex_world_queues ex_mem_due [] [2%nat]) 2%nat) = 50
  /\ run_time (mem (res_world (rt_need_resched 11%nat 1%nat
                                 (ex_world_queues ex_mem_due [] [2%nat]))
                              (ex_world ex_mem)) 2%nat) = 0
  /\ deadline (mem (res_world (rt_need_resched 11%nat 1%nat
                                 (ex_world_queues ex_mem_due [] [2%nat]))
                              (ex_world ex_mem)) 2%nat) = 600
  /\ tsc_start_time (tsc (sched (res_world
                                   (rt_need_resched 11%nat 1%nat
                                      (ex_world_queues ex_mem_due [] [2%nat]))
                                   (ex_world ex_mem)))) = 100.
Proof.
  split.
  - apply (resched_leaves_billing_to_caller 11%nat 1%nat
             (ex_world_queues ex_mem_due [] [2%nat])
             (2%nat, 12%nat)).
    vm_compute. reflexivity.
  - repeat split; vm_compute; reflexivity.
Defined.
(** ** Claim C10: the admission test does not always return *)

